(** * Carve mesh core: half-edge meshes, face stitching front end, MeshSet

    A shallow embedding of [carve/mesh.hpp] (namespace [carve::mesh]):
    the half-edge primitives [Edge], [Face], [Mesh], [MeshSet], the
    face iterator, the clone operations, the front end of the face
    stitcher ([initEdges], [build], the edge-order comparator) and the
    flat index decoding of the [MeshSet] constructor.

    C++ objects live in a store: finite maps from addresses to records.
    [size_t] values are integers with their 64-bit wrap-around written
    out. *)

From Stdlib Require Import ZArith Lia PrimFloat.
From stdpp Require Import gmap fin_maps option list.

Local Open Scope Z_scope.

(** ** Machine integers *)

Module SizeT.

Definition modulus : Z := 2 ^ 64.

(** Value of an integer expression stored into a [size_t]. *)
Definition wrap (z : Z) : Z := z mod modulus.

(** A [size_t] read back as the signed [difference_type]. *)
Definition to_signed (z : Z) : Z :=
  if z <? 2 ^ 63 then z else z - modulus.

End SizeT.

(** ** MeshSet::FaceIter

    The iterator holds [obj], [mesh] and [face]; [obj] is fixed, so the
    functions below take the vector [obj->meshes], each mesh given by
    its [faces] vector. *)

Module FaceIter.

Record t : Type := mk { mesh : nat; face : Z }.

Section Iter.
Context {F : Type}.
Variable meshes : list (list F).

(** [obj->meshes[m]->faces.size()]; [None] when [m] is out of range. *)
Definition faces_size (m : nat) : option Z :=
  (fun fs => Z.of_nat (length fs)) <$> (meshes !! m).

(** The [while] loop of [fwd]; [rest] is [meshes] from index [mesh] on. *)
Fixpoint fwd_loop (rest : list (list F)) (mesh : nat) (face : Z) : t :=
  match rest with
  | [] => mk mesh face
  | fs :: rest' =>
      if Z.of_nat (length fs) <=? face then
        let face' := face - Z.of_nat (length fs) in
        match rest' with
        | [] => mk (S mesh) 0
        | _ :: _ => fwd_loop rest' (S mesh) face'
        end
      else mk mesh face
  end.

Definition fwd (n : Z) (it : t) : t :=
  if (mesh it <? length meshes)%nat
  then fwd_loop (drop (mesh it) meshes) (mesh it) (SizeT.wrap (face it + n))
  else it.

(** The [while] loop of [rev], followed by [face -= n]. *)
Fixpoint rev_loop (mesh : nat) (face n : Z) {struct mesh} : option t :=
  if face <? n then
    match mesh with
    | O => Some (mk O 0)
    | S mesh' =>
        sz ← faces_size mesh';
        rev_loop mesh' (SizeT.wrap (sz - 1)) (n - face)
    end
  else Some (mk mesh (face - n)).

Definition rev (n : Z) (it : t) : option t :=
  rev_loop (mesh it) (face it) n.

Definition adv (n : Z) (it : t) : option t :=
  if 0 <? n then Some (fwd (SizeT.wrap n) it)
  else if n <? 0 then rev (SizeT.wrap (- n)) it
  else Some it.

(** [operator+(int)] and [operator-(int)] copy the iterator into
    [tmp], move the iterator itself with [adv] and return [tmp]: the
    result is the pair of the iterator returned, which is the position
    before the jump, and of the iterator after the call. *)
Definition plus (it : t) (v : Z) : option (t * t) :=
  it' ← adv v it; Some (it, it').
Definition minus (it : t) (v : Z) : option (t * t) :=
  it' ← adv (- v) it; Some (it, it').

(** [operator+=(int)] and [operator-=(int)] move the iterator and
    return it. *)
Definition plus_assign (it : t) (v : Z) : option t := adv v it.
Definition minus_assign (it : t) (v : Z) : option t := adv (- v) it.

(** Prefix [operator++] and [operator--]. *)
Definition incr (it : t) : t := fwd 1 it.
Definition decr (it : t) : option t := rev 1 it.

(** The [for] loop of [operator-]: faces of the meshes strictly
    between the two positions. *)
Fixpoint sum_sizes (i : nat) (count : nat) : option Z :=
  match count with
  | O => Some 0
  | S c =>
      sz ← faces_size i;
      m ← sum_sizes (S i) c;
      Some (SizeT.wrap (sz + m))
  end.

(** [operator-(const FaceIter &)]. *)
Definition diff (self other : t) : option Z :=
  if (mesh self =? mesh other)%nat
  then Some (SizeT.to_signed (SizeT.wrap (face self - face other)))
  else
    let lo := Nat.min (mesh self) (mesh other) in
    let hi := Nat.max (mesh self) (mesh other) in
    m ← sum_sizes (S lo) (hi - S lo);
    if (mesh self <? mesh other)%nat then
      sz ← faces_size (mesh self);
      Some (SizeT.to_signed
              (SizeT.wrap (- SizeT.wrap (sz - face self + m + face other))))
    else
      sz ← faces_size (mesh other);
      Some (SizeT.to_signed
              (SizeT.wrap (sz - face other + m + face self))).

Definition eqb (a b : t) : bool :=
  (mesh a =? mesh b)%nat && (face a =? face b).

Definition faceBegin : t := mk 0 0.
Definition faceEnd : t := mk (length meshes) 0.

(** [operator*]. *)
Definition deref (it : t) : option F :=
  fs ← meshes !! mesh it; fs !! Z.to_nat (face it).

(** Position of a valid iterator in the concatenation of the
    [faces] vectors. *)
Definition index (it : t) : Z :=
  Z.of_nat (length (concat (take (mesh it) meshes))) + face it.

(** A position the iterator can take: a face of a mesh, or the end. *)
Definition valid (it : t) : Prop :=
  (exists fs, meshes !! mesh it = Some fs /\ 0 <= face it < Z.of_nat (length fs))
  \/ it = faceEnd.

End Iter.
End FaceIter.

(** ** Outcomes of fallible code

    [CARVE_ASSERT] aborts the call with a fatal error.  [Undefined]
    stands for a call without a defined result: a dereference of a
    null or dangling pointer, an index past the end of a vector (which
    [operator[]] does not check), or a loop that does not end.  None of
    these is an error that the mesh code reports. *)

Inductive outcome (A : Type) : Type :=
| Ok (a : A)
| AssertionFailed
| Undefined.
Arguments Ok {A} a.
Arguments AssertionFailed {A}.
Arguments Undefined {A}.

(** ** MeshSet(points, n_faces, face_indices): decoding of the flat
    index array

    The constructor reserves room for [n_faces] face pointers and walks
    [face_indices] with a cursor [p]: per face it reads a count [N] (an
    [int] stored into a [size_t]), reserves room for [N] vertex
    pointers and then reads [N] indices, each used as
    [&vertex_storage[index]]; after [n_faces] records it asserts
    [p == face_indices.size()].  The faces are then built from the
    vertex references and handed to [Mesh<3>::create].

    [operator[]] checks neither [p] against the size of [face_indices]
    nor an index against the size of [vertex_storage]; [reserve] throws
    [std::length_error] when asked for more than [max_size()]
    elements.  Running out of memory is not modelled. *)

Module MeshSetCtor.

Definition is_int (z : Z) : Prop := - 2 ^ 31 <= z < 2 ^ 31.

(** How the decoding ends: it runs to its end, [CARVE_ASSERT] fails,
    [reserve] throws [std::length_error], or [operator[]] is used
    outside its vector (undefined behaviour, which no code reports). *)
Inductive result (A : Type) : Type :=
| Decoded (a : A)
| Assertion_failed
| Length_error
| Out_of_bounds.
Arguments Decoded {A} a.
Arguments Assertion_failed {A}.
Arguments Length_error {A}.
Arguments Out_of_bounds {A}.

Section Decode.

(** [max_size()] of a vector of pointers, which the implementation of
    the standard library fixes; [points.size()], which is the size of
    [vertex_storage] when the loop starts; and the index array. *)
Variable max_size : Z.
Variable n_points : nat.
Variable face_indices : list Z.

(** The inner loop, [count] more times
    [v.push_back(&vertex_storage[face_indices[p++]])]: the element read
    is an [int], converted to [size_t] by [operator[]]; the vertex
    slots collected so far are [v]. *)
Fixpoint read_indices (count : nat) (p : nat) (v : list Z)
  : result (list Z * nat) :=
  match count with
  | O => Decoded (v, p)
  | S c =>
      match face_indices !! p with
      | None => Out_of_bounds
      | Some i =>
          let idx := SizeT.wrap i in
          if idx <? Z.of_nat n_points
          then read_indices c (S p) (v ++ [idx])
          else Out_of_bounds
      end
  end.

(** One iteration of the outer loop, started with the cursor at [p]:
    the vertex slots of the face and the cursor after it. *)
Definition read_face (p : nat) : result (list Z * nat) :=
  match face_indices !! p with
  | None => Out_of_bounds
  | Some n =>
      let N := SizeT.wrap n in
      if max_size <? N then Length_error
      else read_indices (Z.to_nat N) (S p) []
  end.

Fixpoint read_faces (n_faces : nat) (p : nat) : result (list (list Z) * nat) :=
  match n_faces with
  | O => Decoded ([], p)
  | S k =>
      match read_face p with
      | Decoded (v, p') =>
          match read_faces k p' with
          | Decoded (faces, q) => Decoded (v :: faces, q)
          | Assertion_failed => Assertion_failed
          | Length_error => Length_error
          | Out_of_bounds => Out_of_bounds
          end
      | Assertion_failed => Assertion_failed
      | Length_error => Length_error
      | Out_of_bounds => Out_of_bounds
      end
  end.

(** [faces.reserve(n_faces)], the loop over the faces and
    [CARVE_ASSERT(p == face_indices.size())]. *)
Definition decode_faces (n_faces : nat) : result (list (list Z)) :=
  if max_size <? Z.of_nat n_faces then Length_error
  else
    match read_faces n_faces 0 with
    | Decoded (faces, p) =>
        if (p =? length face_indices)%nat then Decoded faces else Assertion_failed
    | Assertion_failed => Assertion_failed
    | Length_error => Length_error
    | Out_of_bounds => Out_of_bounds
    end.

End Decode.

(** The flat encoding of a list of vertex loops. *)
Definition encode (loops : list (list Z)) : list Z :=
  concat ((fun r => Z.of_nat (length r) :: r) <$> loops).

(** The index refers to an element of [points]. *)
Definition index_in_range (n_points : nat) (i : Z) : Prop :=
  0 <= i < Z.of_nat n_points.

Definition loops_in_range (n_points : nat) (loops : list (list Z)) : Prop :=
  Forall (Forall (index_in_range n_points)) loops.


(** What is left of the array where a record is expected is no record
    that can be read: nothing is left, or a count [n] is followed by
    fewer than [n] indices, or one of the [n] indices (as far as they
    are there) refers to no element of [points]. *)
Definition broken_record (n_points : nat) (tail : list Z) : Prop :=
  tail = []
  \/ exists n r, tail = n :: r /\ 0 <= n
       /\ (Z.of_nat (length r) < n
           \/ Exists (fun i => ~ index_in_range n_points i) (take (Z.to_nat n) r)).

End MeshSetCtor.


(** ** Geometry carried by the mesh ([carve::geom::vector<3>], [plane<3>]) *)

Module Geom.

Record vector3 : Type := mkVector { x : float; y : float; z : float }.

(** Unary minus on a vector. *)
Definition neg (a : vector3) : vector3 :=
  mkVector (- x a)%float (- y a)%float (- z a)%float.

Record plane : Type := mkPlane { N : vector3; d : float }.

End Geom.

(** ** Tag bits

    Modelled from the spec: the base class [tagable] ([carve/tag.hpp])
    is not among the sources.  Every vertex, half-edge and face carries
    an opaque set of small integer tag bits, empty on construction; a
    copy of a [tagable] carries the bits of its original. *)

Module Tagable.

Definition t : Type := N.
Definition empty : t := 0%N.

End Tagable.

(** ** Objects and the store

    Addresses are numbers and [NULL] is 0.  Vertex pointers are
    addresses counted in vertex slots, so that [&vertex_storage[i]] is
    the base of the storage plus [i]. *)

Abbreviation ptr := N (only parsing).
Definition NULL : ptr := 0%N.

Module Vertex.
Record t : Type := mk { tag : Tagable.t; v : Geom.vector3 }.
(** [Vertex(const vector_t &)]. *)
Definition make (v : Geom.vector3) : t := mk Tagable.empty v.
End Vertex.

Module Edge.
Record t : Type := mk {
  tag : Tagable.t;
  vert : Z;
  face : ptr;
  prev : ptr;
  next : ptr;
  rev : ptr
}.
Definition with_prev (p : ptr) (e : t) : t := mk (tag e) (vert e) (face e) p (next e) (rev e).
Definition with_next (n : ptr) (e : t) : t := mk (tag e) (vert e) (face e) (prev e) n (rev e).
Definition with_rev (r : ptr) (e : t) : t := mk (tag e) (vert e) (face e) (prev e) (next e) r.
Definition with_vert (v : Z) (e : t) : t := mk (tag e) v (face e) (prev e) (next e) (rev e).
End Edge.

Module Face.
Record t : Type := mk {
  tag : Tagable.t;
  edge : ptr;
  n_edges : Z;
  mesh : ptr;
  id : Z;
  plane : Geom.plane;
  project : N;
  unproject : N
}.
Definition with_edge (e : ptr) (f : t) : t :=
  mk (tag f) e (n_edges f) (mesh f) (id f) (plane f) (project f) (unproject f).
Definition with_mesh (m : ptr) (f : t) : t :=
  mk (tag f) (edge f) (n_edges f) m (id f) (plane f) (project f) (unproject f).
Definition with_id (i : Z) (f : t) : t :=
  mk (tag f) (edge f) (n_edges f) (mesh f) i (plane f) (project f) (unproject f).
(** The copy constructor [Face(const Face &other)]: its initialiser
    list names every member but not the [tagable] base, which is
    therefore default-constructed. *)
Definition copy (other : t) : t :=
  mk Tagable.empty NULL (n_edges other) NULL (id other)
     (plane other) (project other) (unproject other).
End Face.

Module Mesh.
Record t : Type := mk {
  faces : list ptr;
  open_edges : list ptr;
  closed_edges : list ptr;
  is_negative : bool;
  meshset : ptr
}.
Definition with_meshset (ms : ptr) (m : t) : t :=
  mk (faces m) (open_edges m) (closed_edges m) (is_negative m) ms.
(** [isClosed()]. *)
Definition isClosed (m : t) : bool := (length (open_edges m) =? 0)%nat.
Definition isNegative (m : t) : bool := is_negative m.
End Mesh.

Module MeshSet.
Record t : Type := mk {
  vs_base : Z;
  vertex_storage : list Vertex.t;
  meshes : list ptr
}.
End MeshSet.

Record store : Type := mkStore {
  st_edges : gmap N Edge.t;
  st_faces : gmap N Face.t;
  st_meshes : gmap N Mesh.t;
  st_meshsets : gmap N MeshSet.t;
  st_last : N
}.

Definition set_edges (f : gmap N Edge.t -> gmap N Edge.t) (s : store) : store :=
  mkStore (f (st_edges s)) (st_faces s) (st_meshes s) (st_meshsets s) (st_last s).
Definition set_faces (f : gmap N Face.t -> gmap N Face.t) (s : store) : store :=
  mkStore (st_edges s) (f (st_faces s)) (st_meshes s) (st_meshsets s) (st_last s).
Definition set_meshes (f : gmap N Mesh.t -> gmap N Mesh.t) (s : store) : store :=
  mkStore (st_edges s) (st_faces s) (f (st_meshes s)) (st_meshsets s) (st_last s).
Definition set_meshsets (f : gmap N MeshSet.t -> gmap N MeshSet.t) (s : store) : store :=
  mkStore (st_edges s) (st_faces s) (st_meshes s) (f (st_meshsets s)) (st_last s).
Definition set_last (a : N) (s : store) : store :=
  mkStore (st_edges s) (st_faces s) (st_meshes s) (st_meshsets s) a.

(** ** Edge::perimNext and Edge::perimPrev

    Both are [const] and only read half-edges.  The [while] loops get
    as fuel one more than the number of half-edges in the store; [None]
    stands for a dereference of a pointer that is no half-edge or for a
    walk that does not end within the fuel. *)

Fixpoint perimNext_loop (fuel : nat) (es : gmap N Edge.t) (e : ptr) : option ptr :=
  match fuel with
  | O => None
  | S k =>
      E ← es !! e;
      if (Edge.rev E =? NULL)%N then Some e
      else R ← es !! Edge.rev E; perimNext_loop k es (Edge.next R)
  end.

Definition perimNext (es : gmap N Edge.t) (self : ptr) : option ptr :=
  E ← es !! self;
  if negb (Edge.rev E =? NULL)%N then Some NULL
  else perimNext_loop (S (size es)) es (Edge.next E).

Fixpoint perimPrev_loop (fuel : nat) (es : gmap N Edge.t) (e : ptr) : option ptr :=
  match fuel with
  | O => None
  | S k =>
      E ← es !! e;
      if (Edge.rev E =? NULL)%N then Some e
      else R ← es !! Edge.rev E; perimPrev_loop k es (Edge.prev R)
  end.

Definition perimPrev (es : gmap N Edge.t) (self : ptr) : option ptr :=
  E ← es !! self;
  if negb (Edge.rev E =? NULL)%N then Some NULL
  else perimPrev_loop (S (size es)) es (Edge.prev E).

(** [v1()] and [v2()]. *)
Definition v1 (es : gmap N Edge.t) (e : ptr) : option Z :=
  Edge.vert <$> es !! e.
Definition v2 (es : gmap N Edge.t) (e : ptr) : option Z :=
  E ← es !! e; Edge.vert <$> es !! Edge.next E.

(** *** Invariants of the half-edge structure (data model of the mesh) *)

(** [next.prev == self] and [prev.next == self], within the store. *)
Definition ring_ok (es : gmap N Edge.t) (e : ptr) (E : Edge.t) : Prop :=
  Edge.prev <$> es !! Edge.next E = Some e
  /\ Edge.next <$> es !! Edge.prev E = Some e.

(** A present twin is a half-edge whose twin is [self] and whose
    successor starts where [self] starts. *)
Definition twin_ok (es : gmap N Edge.t) (e : ptr) (E : Edge.t) : Prop :=
  Edge.rev E <> NULL ->
  Edge.rev <$> es !! Edge.rev E = Some e
  /\ (es !! Edge.rev E ≫= fun R => Edge.vert <$> es !! Edge.next R)
     = Some (Edge.vert E).

Definition halfedge_inv (es : gmap N Edge.t) : Prop :=
  es !! NULL = None /\ map_Forall (ring_ok es) es /\ map_Forall (twin_ok es) es.

#[global] Instance halfedge_inv_dec (es : gmap N Edge.t) : Decision (halfedge_inv es).
Proof. unfold halfedge_inv, ring_ok, twin_ok. apply _. Defined.

(** The twin involution alone, [rev.rev == self]: the first half of
    [twin_ok], without the condition on the vertices. *)
Definition twin_involution (es : gmap N Edge.t) (e : ptr) (E : Edge.t) : Prop :=
  Edge.rev E <> NULL -> Edge.rev <$> es !! Edge.rev E = Some e.

(** The ring and twin-involution invariants, in a store where null is
    no half-edge. *)
Definition ring_twin_inv (es : gmap N Edge.t) : Prop :=
  es !! NULL = None
  /\ map_Forall (ring_ok es) es
  /\ map_Forall (twin_involution es) es.

#[global] Instance ring_twin_inv_dec (es : gmap N Edge.t) : Decision (ring_twin_inv es).
Proof. unfold ring_twin_inv, ring_ok, twin_involution. apply _. Defined.

(** Twins join the same two vertices in opposite directions: the
    successor of a present twin starts where [self] starts. *)
Definition twin_vertices_ok (es : gmap N Edge.t) : Prop :=
  map_Forall (twin_ok es) es.

(** A half-edge with no twin. *)
Definition edge_is_open (es : gmap N Edge.t) (e : ptr) : Prop :=
  exists E, es !! e = Some E /\ Edge.rev E = NULL.

(** The two perimeter loops differ only in the link they follow after
    the twin; [perim_loop] is their common shape, used to state facts
    about both. *)
Fixpoint perim_loop (sel : Edge.t -> ptr) (fuel : nat) (es : gmap N Edge.t) (e : ptr)
  : option ptr :=
  match fuel with
  | O => None
  | S k =>
      E ← es !! e;
      if (Edge.rev E =? NULL)%N then Some e
      else R ← es !! Edge.rev E; perim_loop sel k es (sel R)
  end.

(** A small store of half-edges used in examples: two triangles
    [(100, 101, 102)] and [(102, 101, 103)] glued along the edge
    between vertices 101 and 102.  Half-edges 1, 2, 3 form the ring of
    face 10 and half-edges 4, 5, 6 the ring of face 11; half-edges 2
    and 4 are twins, the other four are open. *)
Definition two_triangles : gmap N Edge.t :=
  list_to_map
    [ (1%N, Edge.mk Tagable.empty 100 10%N 3%N 2%N NULL);
      (2%N, Edge.mk Tagable.empty 101 10%N 1%N 3%N 4%N);
      (3%N, Edge.mk Tagable.empty 102 10%N 2%N 1%N NULL);
      (4%N, Edge.mk Tagable.empty 102 11%N 6%N 5%N 2%N);
      (5%N, Edge.mk Tagable.empty 101 11%N 4%N 6%N NULL);
      (6%N, Edge.mk Tagable.empty 103 11%N 5%N 4%N NULL) ].

(** Two triangles whose rings and twin pointers are as in
    [two_triangles], but whose twins do not join the same vertices:
    half-edge 2 runs from 101 to 102, its twin 4 from 202 to 201. *)
Definition two_triangles_apart : gmap N Edge.t :=
  list_to_map
    [ (1%N, Edge.mk Tagable.empty 100 10%N 3%N 2%N NULL);
      (2%N, Edge.mk Tagable.empty 101 10%N 1%N 3%N 4%N);
      (3%N, Edge.mk Tagable.empty 102 10%N 2%N 1%N NULL);
      (4%N, Edge.mk Tagable.empty 202 11%N 6%N 5%N 2%N);
      (5%N, Edge.mk Tagable.empty 201 11%N 4%N 6%N NULL);
      (6%N, Edge.mk Tagable.empty 203 11%N 5%N 4%N NULL) ].

(** ** FaceStitcher::EdgeOrderData and its comparator

    [carve::geom3d::compareAngles] and [carve::geom3d::antiClockwiseAngle]
    are defined outside the mesh header; the comparator is stated over
    whatever these two functions compute. *)

Module EdgeOrderData.

Record t : Type := mk {
  group_id : Z;
  is_reversed : bool;
  face_dir : Geom.vector3;
  edge : ptr
}.

(** [EdgeOrderData(_edge, _group_id, _is_reversed)]: the face normal,
    negated for a reversed half-edge. *)
Definition make (s : store) (_edge : ptr) (_group_id : Z) (_is_reversed : bool)
  : option t :=
  E ← st_edges s !! _edge;
  F ← st_faces s !! Edge.face E;
  let n := Geom.N (Face.plane F) in
  Some (mk _group_id _is_reversed (if _is_reversed then Geom.neg n else n) _edge).

(** [TestGroups::operator()]. *)
Definition TestGroups (fwd rev : Z) (eo : t) : bool :=
  group_id eo =? (if is_reversed eo then rev else fwd).

Section Cmp.
Variable compareAngles :
  Geom.vector3 -> Geom.vector3 -> Geom.vector3 -> Geom.vector3 -> Z.
Variable antiClockwiseAngle :
  Geom.vector3 -> Geom.vector3 -> Geom.vector3 -> float.
Variables edge_dir base_dir : Geom.vector3.

(** The value of [v] when the comparator reaches [if (v < 0)], and
    whether the line to [std::cerr] was written ([v0 != v]). *)
Definition Cmp_v (a b : t) : Z * bool :=
  let v := compareAngles edge_dir base_dir (face_dir a) (face_dir b) in
  let da := antiClockwiseAngle base_dir (face_dir a) edge_dir in
  let db := antiClockwiseAngle base_dir (face_dir b) edge_dir in
  let v0 := v in
  let v := 0 in
  let v := if (da <? db)%float then -1 else v in
  let v := if (db <? da)%float then 1 else v in
  (v, negb (v0 =? v)).

(** [Cmp::operator()]. *)
Definition Cmp (a b : t) : bool :=
  let v := fst (Cmp_v a b) in
  if v <? 0 then true
  else if v =? 0 then
    if is_reversed a && negb (is_reversed b) then true
    else if Bool.eqb (is_reversed a) (is_reversed b)
         then group_id a <? group_id b
         else false
  else false.

End Cmp.

(** The tie-break of the comparator. *)
Definition tie_break (a b : t) : bool :=
  (is_reversed a && negb (is_reversed b))
  || (Bool.eqb (is_reversed a) (is_reversed b) && (group_id a <? group_id b)).

End EdgeOrderData.

(** ** Computations on the store

    A member function that reads or writes objects is a function from
    the store to an outcome: a result with the new store, a failed
    [CARVE_ASSERT], or undefined behaviour (a dereference of an address
    that holds no object of the expected class, or a loop that does not
    end within its fuel). *)

Definition M (A : Type) : Type := store -> outcome (A * store).

#[global] Instance M_ret : MRet M := fun A a s => Ok (a, s).

#[global] Instance M_bind : MBind M := fun A B k m s =>
  match m s with
  | Ok (a, s') => k a s'
  | AssertionFailed => AssertionFailed
  | Undefined => Undefined
  end.

Definition undefined {A : Type} : M A := fun _ => Undefined.

(** [CARVE_ASSERT(b)]. *)
Definition CARVE_ASSERT (b : bool) : M unit :=
  fun s => if b then Ok (tt, s) else AssertionFailed.

Definition get_store : M store := fun s => Ok (s, s).

(** Reading [*a] and writing through [a], per class. *)
Definition get_edge (a : ptr) : M Edge.t :=
  fun s => match st_edges s !! a with Some E => Ok (E, s) | None => Undefined end.
Definition upd_edge (a : ptr) (f : Edge.t -> Edge.t) : M unit :=
  fun s => match st_edges s !! a with
           | Some E => Ok (tt, set_edges <[a := f E]> s)
           | None => Undefined
           end.
Definition get_face (a : ptr) : M Face.t :=
  fun s => match st_faces s !! a with Some F => Ok (F, s) | None => Undefined end.
Definition upd_face (a : ptr) (f : Face.t -> Face.t) : M unit :=
  fun s => match st_faces s !! a with
           | Some F => Ok (tt, set_faces <[a := f F]> s)
           | None => Undefined
           end.
Definition get_mesh (a : ptr) : M Mesh.t :=
  fun s => match st_meshes s !! a with Some m => Ok (m, s) | None => Undefined end.
Definition upd_mesh (a : ptr) (f : Mesh.t -> Mesh.t) : M unit :=
  fun s => match st_meshes s !! a with
           | Some m => Ok (tt, set_meshes <[a := f m]> s)
           | None => Undefined
           end.
Definition get_meshset (a : ptr) : M MeshSet.t :=
  fun s => match st_meshsets s !! a with Some m => Ok (m, s) | None => Undefined end.

(** [new]: the next address after the last one handed out. *)
Definition fresh (s : store) : ptr := N.succ (st_last s).

(** Modelled from the spec: the constructor [Edge(vert, face)] is
    defined in [mesh_impl.hpp], which is not among the sources.  A new
    half-edge has the given origin and face, no twin and empty tag
    bits, and is a ring on its own. *)
Definition new_Edge (_vert : Z) (_face : ptr) : M ptr :=
  fun s =>
    let a := fresh s in
    Ok (a, set_last a
             (set_edges <[a := Edge.mk Tagable.empty _vert _face a a NULL]> s)).

Definition new_Face (F : Face.t) : M ptr :=
  fun s => let a := fresh s in Ok (a, set_last a (set_faces <[a := F]> s)).

Definition new_Mesh_object (m : Mesh.t) : M ptr :=
  fun s => let a := fresh s in Ok (a, set_last a (set_meshes <[a := m]> s)).

Definition new_MeshSet_object (ms : MeshSet.t) : M ptr :=
  fun s => let a := fresh s in Ok (a, set_last a (set_meshsets <[a := ms]> s)).

(** A [for] loop over a vector, threading an accumulator. *)
Fixpoint for_each {A B : Type} (l : list A) (acc : B) (body : A -> B -> M B) : M B :=
  match l with
  | [] => mret acc
  | a :: rest => acc' ← body a acc; for_each rest acc' body
  end.

(** [m[k]] on a [std::unordered_map] of pointers: a missing key is
    inserted with a null value. *)
Definition map_index (m : gmap N N) (k : ptr) : ptr * gmap N N :=
  match m !! k with
  | Some v => (v, m)
  | None => (NULL, <[k := NULL]> m)
  end.

(** ** Mesh constructors *)

(** The protected constructor
    [Mesh(faces, open_edges, closed_edges, is_negative)]. *)
Definition Mesh_make4 (_faces _open_edges _closed_edges : list ptr)
           (_is_negative : bool) : M ptr :=
  this ← new_Mesh_object (Mesh.mk _faces _open_edges _closed_edges _is_negative NULL);
  for_each _faces tt (fun f _ => upd_face f (Face.with_mesh this));;
  mret this.

(** The half-edges of one face, sorted into open and closed ones. *)
Fixpoint scan_ring (fuel : nat) (first e : ptr) (acc : list ptr * list ptr)
  : M (list ptr * list ptr) :=
  match fuel with
  | O => undefined
  | S k =>
      E ← get_edge e;
      let acc' :=
        if (Edge.rev E =? NULL)%N then (fst acc ++ [e], snd acc)
        else if (e <? Edge.rev E)%N then (fst acc, snd acc ++ [e])
        else acc in
      if (Edge.next E =? first)%N then mret acc'
      else scan_ring k first (Edge.next E) acc'
  end.

Definition scan_face (f : ptr) (acc : list ptr * list ptr) : M (list ptr * list ptr) :=
  F ← get_face f;
  s ← get_store;
  scan_ring (size (st_edges s)) (Face.edge F) (Face.edge F) acc.

(** Modelled from the spec: the public constructor [Mesh(faces)] is
    defined in [mesh_impl.hpp], which is not among the sources.  It
    takes the face vector, scans every half-edge of every face, puts
    the half-edges without twin into [open_edges] and, of each twin
    pair, the half-edge whose twin has the greater address into
    [closed_edges], sets the [mesh] pointer of each face and leaves
    [meshset] null.  The orientation flag comes from the signed volume,
    which is computed from the geometry; it is an argument here. *)
Definition Mesh_make (_is_negative : bool) (_faces : list ptr) : M ptr :=
  '(open, closed) ← for_each _faces ([], []) scan_face;
  Mesh_make4 _faces open closed _is_negative.

(** ** clone *)

(** The [do ... while] loop of [Face::clone]. *)
Fixpoint Face_clone_loop (fuel : nat) (old_base new_base : Z) (first r : ptr)
         (e r_p : ptr) (edge_map : gmap N N) : M (ptr * gmap N N) :=
  match fuel with
  | O => undefined
  | S k =>
      E ← get_edge e;
      r_e ← new_Edge (Edge.vert E - old_base + new_base) r;
      let edge_map := <[e := r_e]> edge_map in
      (if negb (r_p =? NULL)%N
       then upd_edge r_p (Edge.with_next r_e);; upd_edge r_e (Edge.with_prev r_p)
       else upd_face r (Face.with_edge r_e));;
      E ← get_edge e;
      let e := Edge.next E in
      if (e =? first)%N then mret (r_e, edge_map)
      else Face_clone_loop k old_base new_base first r e r_e edge_map
  end.

(** [Face::clone(old_base, new_base, edge_map)]. *)
Definition Face_clone (this : ptr) (old_base new_base : Z) (edge_map : gmap N N)
  : M (ptr * gmap N N) :=
  F ← get_face this;
  r ← new_Face (Face.copy F);
  s ← get_store;
  '(r_e, edge_map) ← Face_clone_loop (size (st_edges s)) old_base new_base
                        (Face.edge F) r (Face.edge F) NULL edge_map;
  R ← get_face r;
  upd_edge r_e (Edge.with_next (Face.edge R));;
  R ← get_face r;
  upd_edge (Face.edge R) (Edge.with_prev r_e);;
  mret (r, edge_map).

(** [Mesh::clone(old_base, new_base)]; the edge map is returned along
    with the new mesh so that statements can refer to it. *)
Definition Mesh_clone (this : ptr) (old_base new_base : Z) : M (ptr * gmap N N) :=
  m ← get_mesh this;
  '(r_faces, edge_map) ←
    for_each (Mesh.faces m) ([], ∅)
      (fun f '(r_faces, edge_map) =>
         '(r, edge_map) ← Face_clone f old_base new_base edge_map;
         mret (r_faces ++ [r], edge_map));
  '(r_closed_edges, edge_map) ←
    for_each (Mesh.closed_edges m) ([], edge_map)
      (fun c '(r_closed_edges, edge_map) =>
         let '(back, edge_map) := map_index edge_map c in
         C ← get_edge c;
         let '(r_rev, edge_map) := map_index edge_map (Edge.rev C) in
         upd_edge back (Edge.with_rev r_rev);;
         mret (r_closed_edges ++ [back], edge_map));
  '(r_open_edges, edge_map) ←
    for_each (Mesh.open_edges m) ([], edge_map)
      (fun o '(r_open_edges, edge_map) =>
         let '(r_o, edge_map) := map_index edge_map o in
         mret (r_open_edges ++ [r_o], edge_map));
  r ← Mesh_make4 r_faces r_open_edges r_closed_edges (Mesh.is_negative m);
  mret (r, edge_map).

(** The constructor [MeshSet(vertex_storage, meshes)]; [base] is where
    the vertex storage of the new set lies. *)
Definition MeshSet_make2 (base : Z) (_vertex_storage : list Vertex.t)
           (_meshes : list ptr) : M ptr :=
  this ← new_MeshSet_object (MeshSet.mk base _vertex_storage _meshes);
  for_each _meshes tt (fun m _ => upd_mesh m (Mesh.with_meshset this));;
  mret this.

(** [MeshSet::clone()]; [new_base] is the address at which the copy of
    the vertex storage is placed. *)
Definition MeshSet_clone (this : ptr) (new_base : Z) : M ptr :=
  ms ← get_meshset this;
  let r_vertex_storage := MeshSet.vertex_storage ms in
  r_meshes ←
    for_each (MeshSet.meshes ms) []
      (fun m r_meshes =>
         '(r, _) ← Mesh_clone m (MeshSet.vs_base ms) new_base;
         mret (r_meshes ++ [r]));
  MeshSet_make2 new_base r_vertex_storage r_meshes.

(** ** detail::FaceStitcher *)

Module FaceStitcher.

(** Modelled from the spec: [carve::djset::djset] ([carve/djset.hpp]) is
    not among the sources.  The disjoint-set union over face ids is
    kept as the parent of each id; [init c] makes [c] singleton sets. *)
Definition djset : Type := list nat.
Definition djset_init (c : Z) : djset := seq 0 (Z.to_nat c).

(** The members of the stitcher that [initEdges] writes.  [edges] maps
    the pair [(v1, v2)] of vertex addresses to the list of half-edges
    from [v1] to [v2]. *)
Record t : Type := mk {
  edges : gmap (Z * Z) (list ptr);
  complex_edges : gmap (Z * Z) (list ptr);
  face_groups : djset;
  is_open : list bool
}.

Definition empty : t := mk ∅ ∅ [] [].

(** [edges[key].push_back(e)]. *)
Definition push_edge (key : Z * Z) (e : ptr) (st : t) : t :=
  mk (<[key := default [] (edges st !! key) ++ [e]]> (edges st))
     (complex_edges st) (face_groups st) (is_open st).

(** The [do ... while] loop of [initEdges] on the ring of one face. *)
Fixpoint initEdges_ring (fuel : nat) (first e : ptr) (st : t) : M t :=
  match fuel with
  | O => undefined
  | S k =>
      E ← get_edge e;
      E2 ← get_edge (Edge.next E);
      let st := push_edge (Edge.vert E, Edge.vert E2) e st in
      let e := Edge.next E in
      E ← get_edge e;
      (if negb (Edge.rev E =? NULL)%N
       then upd_edge (Edge.rev E) (Edge.with_rev NULL);;
            upd_edge e (Edge.with_rev NULL)
       else mret tt);;
      if (e =? first)%N then mret st
      else initEdges_ring k first e st
  end.

(** The [for] loop of [initEdges] over the faces. *)
Fixpoint initEdges_faces (faces : list ptr) (c : Z) (st : t) : M (Z * t) :=
  match faces with
  | [] => mret (c, st)
  | face :: rest =>
      F ← get_face face;
      CARVE_ASSERT (Face.mesh F =? NULL)%N;;
      upd_face face (Face.with_id c);;
      let c := SizeT.wrap (c + 1) in
      F ← get_face face;
      s ← get_store;
      st ← initEdges_ring (size (st_edges s)) (Face.edge F) (Face.edge F) st;
      initEdges_faces rest c st
  end.

(** [initEdges(begin, end)]. *)
Definition initEdges (faces : list ptr) (st : t) : M t :=
  '(c, st) ← initEdges_faces faces 0 st;
  mret (mk (edges st) (complex_edges st) (djset_init c)
           (replicate (Z.to_nat c) false)).

(** The loop of [build] that files every face under its set:
    [mesh_faces[index_set[face->id]].push_back(face)]. *)
Fixpoint build_mesh_faces (index_set : list Z) (faces : list ptr)
         (mesh_faces : list (list ptr)) : M (list (list ptr)) :=
  match faces with
  | [] => mret mesh_faces
  | face :: rest =>
      F ← get_face face;
      match index_set !! Z.to_nat (Face.id F) with
      | None => undefined
      | Some k =>
          match mesh_faces !! Z.to_nat k with
          | None => undefined
          | Some fs =>
              build_mesh_faces index_set rest
                (<[Z.to_nat k := fs ++ [face]]> mesh_faces)
          end
      end
  end.

(** [build(begin, end, meshes)].  [index_set] and [set_size] are what
    [face_groups.get_index_to_set] returns; [negative] stands for the
    orientation that the [Mesh] constructor computes for a face
    vector. *)
Definition build (index_set set_size : list Z) (negative : list ptr -> bool)
           (faces : list ptr) : M (list ptr) :=
  mesh_faces ← build_mesh_faces index_set faces (replicate (length set_size) []);
  for_each mesh_faces []
    (fun fs meshes => m ← Mesh_make (negative fs) fs; mret (meshes ++ [m])).

End FaceStitcher.


(** [Mesh<3>::create] runs the stitcher: [initEdges], [construct],
    [build].  [construct] is defined in [mesh.cpp], outside the sources
    at hand; it pairs half-edges and joins face groups, and is taken
    here by what it leaves in the stitcher: the result of
    [get_index_to_set]. *)
Definition Mesh3_create
    (construct : FaceStitcher.t -> M (list Z * list Z))
    (negative : list ptr -> bool) (faces : list ptr) : M (list ptr) :=
  st ← FaceStitcher.initEdges faces FaceStitcher.empty;
  '(index_set, set_size) ← construct st;
  FaceStitcher.build index_set set_size negative faces.


(** The half-edges of the ring that starts at [first], from [e] on:
    follow [next] until it leads back to [first]. *)
Fixpoint ring_from (fuel : nat) (es : gmap N Edge.t) (first e : ptr)
  : option (list ptr) :=
  match fuel with
  | O => None
  | S k =>
      E ← es !! e;
      if (Edge.next E =? first)%N then Some [e]
      else (cons e) <$> ring_from k es first (Edge.next E)
  end.

(** The half-edges of a face: the ring through [face->edge]. *)
Definition face_ring (s : store) (f : ptr) : option (list ptr) :=
  F ← st_faces s !! f;
  ring_from (size (st_edges s)) (st_edges s) (Face.edge F) (Face.edge F).

(** *** Relations between stores used to state what [initEdges] changes *)

(** Half-edges differ at most by twin pointers that were set to null. *)
Definition rev_cleared (es es' : gmap N Edge.t) : Prop :=
  forall a, es' !! a = es !! a
            \/ exists E, es !! a = Some E /\ es' !! a = Some (Edge.with_rev NULL E).

(** Faces differ at most by their [id]. *)
Definition ids_assigned (fs fs' : gmap N Face.t) : Prop :=
  forall a, fs' !! a = fs !! a
            \/ exists F i, fs !! a = Some F /\ fs' !! a = Some (Face.with_id i F).

(** Every face of the range is an object of the store whose ring of
    half-edges closes. *)
Definition faces_ready (s : store) (faces : list ptr) : Prop :=
  Forall (fun f => is_Some (face_ring s f)) faces.

(** The face already belongs to a mesh. *)
Definition face_owned (s : store) (f : ptr) : Prop :=
  exists F, st_faces s !! f = Some F /\ Face.mesh F <> NULL.

(** A twin pointer, when present, is the address of a half-edge. *)
Definition twins_valid (es : gmap N Edge.t) : Prop :=
  map_Forall (fun _ E => Edge.rev E <> NULL -> is_Some (es !! Edge.rev E)) es.

(** The two glued triangles as faces 10 and 11 of a store, not yet in
    any mesh; face 10 carries tag bits. *)
Definition triangle_face (tag : Tagable.t) (e : ptr) (i : Z) : Face.t :=
  Face.mk tag e 3 NULL i (Geom.mkPlane (Geom.mkVector 0 0 1) 0) 1%N 2%N.

Definition two_triangles_store : store :=
  mkStore two_triangles
          (list_to_map [(10%N, triangle_face 5%N 1%N 7); (11%N, triangle_face 0%N 4%N 7)])
          ∅ ∅ 11%N.

(** *** Stores and their growth

    In a well-formed store no object lies at the null address or beyond
    the last address handed out, so that [new] returns an address that
    holds no object. *)

Definition in_use (s : store) (a : ptr) : Prop := (0 < a <= st_last s)%N.

Definition store_wf (s : store) : Prop :=
  map_Forall (fun a _ => in_use s a) (st_edges s)
  /\ map_Forall (fun a _ => in_use s a) (st_faces s)
  /\ map_Forall (fun a _ => in_use s a) (st_meshes s)
  /\ map_Forall (fun a _ => in_use s a) (st_meshsets s).

(** The address was handed out between the two stores. *)
Definition created (s s' : store) (a : ptr) : Prop :=
  (st_last s < a <= st_last s')%N.

(** [s'] comes from [s] by constructing objects and by writing
    pointers into objects: every object of [s] is still there with its
    tag bits (a mesh with its three vectors and its orientation, a mesh
    set unchanged), and every other half-edge or face of [s'] was
    created in between and has empty tag bits. *)
Record ext (s s' : store) : Prop := mk_ext {
  ext_wf : store_wf s';
  ext_last : (st_last s <= st_last s')%N;
  ext_edges_old : forall a E, st_edges s !! a = Some E ->
    exists E', st_edges s' !! a = Some E' /\ Edge.tag E' = Edge.tag E;
  ext_edges_new : forall a E', st_edges s' !! a = Some E' ->
    is_Some (st_edges s !! a) \/ (created s s' a /\ Edge.tag E' = Tagable.empty);
  ext_faces_old : forall a F, st_faces s !! a = Some F ->
    exists F', st_faces s' !! a = Some F' /\ Face.tag F' = Face.tag F;
  ext_faces_new : forall a F', st_faces s' !! a = Some F' ->
    is_Some (st_faces s !! a) \/ (created s s' a /\ Face.tag F' = Tagable.empty);
  ext_meshes_old : forall a m, st_meshes s !! a = Some m ->
    exists m', st_meshes s' !! a = Some m'
               /\ Mesh.faces m' = Mesh.faces m
               /\ Mesh.open_edges m' = Mesh.open_edges m
               /\ Mesh.closed_edges m' = Mesh.closed_edges m
               /\ Mesh.is_negative m' = Mesh.is_negative m;
  ext_meshsets_old : forall a ms, st_meshsets s !! a = Some ms ->
    st_meshsets s' !! a = Some ms
}.

(** The faces were constructed between [s] and [s'] and have empty
    tag bits. *)
Definition faces_created (s s' : store) (fs : list ptr) : Prop :=
  Forall (fun f => created s s' f
                   /\ exists F, st_faces s' !! f = Some F
                                /\ Face.tag F = Tagable.empty) fs.

(** [m'] at [r'] is a copy of [m] as far as counts and orientation go,
    made of constructed faces. *)
Definition mesh_cloned (s s' : store) (m : Mesh.t) (r' : ptr) (m' : Mesh.t) : Prop :=
  created s s' r'
  /\ length (Mesh.faces m') = length (Mesh.faces m)
  /\ length (Mesh.open_edges m') = length (Mesh.open_edges m)
  /\ length (Mesh.closed_edges m') = length (Mesh.closed_edges m)
  /\ Mesh.isClosed m' = Mesh.isClosed m
  /\ Mesh.is_negative m' = Mesh.is_negative m
  /\ faces_created s s' (Mesh.faces m').

(** Mesh by mesh, [rs] are clones of [ms]. *)
Definition meshes_cloned (s s' : store) (ms rs : list ptr) : Prop :=
  Forall2 (fun m r => exists M M', st_meshes s !! m = Some M
                                   /\ st_meshes s' !! r = Some M'
                                   /\ mesh_cloned s s' M r M') ms rs.

(** The meshes of a mesh set are objects of the store. *)
Definition meshset_ok (s : store) (ms : MeshSet.t) : Prop :=
  Forall (fun m => is_Some (st_meshes s !! m)) (MeshSet.meshes ms).

(** *** A tetrahedron

    Four vertices in a storage at base address 100 and the four
    triangles [(0,2,1)], [(0,1,3)], [(1,2,3)], [(0,3,2)] as faces 20 to
    23, with their rings of half-edges 1 to 12 and the six twin pairs
    already linked, as the stitcher leaves them.  Face 20 and
    half-edge 1 carry tag bits, and so does vertex 0. *)

Definition tetra_vertices : list Vertex.t :=
  [ Vertex.mk 9%N (Geom.mkVector 0 0 0);
    Vertex.make (Geom.mkVector 1 0 0);
    Vertex.make (Geom.mkVector 0 1 0);
    Vertex.make (Geom.mkVector 0 0 1) ].

Definition tetra_edges : gmap N Edge.t :=
  list_to_map
    [ (1%N, Edge.mk 3%N 100 20%N 3%N 2%N 12%N);
      (2%N, Edge.mk 0%N 102 20%N 1%N 3%N 7%N);
      (3%N, Edge.mk 0%N 101 20%N 2%N 1%N 4%N);
      (4%N, Edge.mk 0%N 100 21%N 6%N 5%N 3%N);
      (5%N, Edge.mk 0%N 101 21%N 4%N 6%N 9%N);
      (6%N, Edge.mk 0%N 103 21%N 5%N 4%N 10%N);
      (7%N, Edge.mk 0%N 101 22%N 9%N 8%N 2%N);
      (8%N, Edge.mk 0%N 102 22%N 7%N 9%N 11%N);
      (9%N, Edge.mk 0%N 103 22%N 8%N 7%N 5%N);
      (10%N, Edge.mk 0%N 100 23%N 12%N 11%N 6%N);
      (11%N, Edge.mk 0%N 103 23%N 10%N 12%N 8%N);
      (12%N, Edge.mk 0%N 102 23%N 11%N 10%N 1%N) ].

Definition tetra_faces : gmap N Face.t :=
  list_to_map
    [ (20%N, triangle_face 5%N 1%N 0);
      (21%N, triangle_face 0%N 4%N 1);
      (22%N, triangle_face 0%N 7%N 2);
      (23%N, triangle_face 0%N 10%N 3) ].

Definition tetra_stitched : store := mkStore tetra_edges tetra_faces ∅ ∅ 23%N.

(** The mesh of the four faces and the mesh set that owns it, as the
    constructors build them: the mesh is object 24, the set object 25. *)
Definition tetra_build : M ptr :=
  m ← Mesh_make false [20%N; 21%N; 22%N; 23%N];
  MeshSet_make2 100 tetra_vertices [m].

Definition tetra_store : store :=
  match tetra_build tetra_stitched with
  | Ok (_, s) => s
  | _ => tetra_stitched
  end.

(** The store after [clone()] of the mesh set, the copy of the vertex
    storage being placed at base address 200. *)
Definition tetra_cloned : store :=
  match MeshSet_clone 25%N 200 tetra_store with
  | Ok (_, s) => s
  | _ => tetra_store
  end.

(** All half-edges of a face have a twin. *)
Definition face_all_twinned (s : store) (f : ptr) : Prop :=
  match face_ring s f with
  | Some l =>
      Forall (fun e => match st_edges s !! e with
                       | Some E => Edge.rev E <> NULL
                       | None => False
                       end) l
  | None => False
  end.

#[global] Instance face_all_twinned_dec (s : store) (f : ptr) :
  Decision (face_all_twinned s f).
Proof.
  unfold face_all_twinned. destruct (face_ring s f) as [l|]; [|apply _].
  apply Forall_dec. intros e. destruct (st_edges s !! e); apply _.
Defined.

(** Every half-edge reachable from the faces of the mesh has a twin. *)
Definition mesh_all_twinned (s : store) (m : Mesh.t) : Prop :=
  Forall (face_all_twinned s) (Mesh.faces m).

(** *** What an edge map preserves

    [e'] is the clone of [e] under [edge_map]; the three properties
    below say that the map commutes with a link ([next] or [prev]),
    with the twin pointer, and with the origin up to the change of
    vertex storage base. *)

Definition link_preserved (sel : Edge.t -> ptr) (s : store) (edge_map : gmap N N)
           (e e' : ptr) : Prop :=
  is_Some (st_edges s !! e')
  /\ (st_edges s !! e ≫= fun E => edge_map !! sel E) = (sel <$> st_edges s !! e').

Definition twin_preserved (s : store) (edge_map : gmap N N) (e e' : ptr) : Prop :=
  (st_edges s !! e ≫= fun E =>
     if (Edge.rev E =? NULL)%N then Some NULL else edge_map !! Edge.rev E)
  = (Edge.rev <$> st_edges s !! e').

Definition origin_remapped (old_base new_base : Z) (s : store) (e e' : ptr) : Prop :=
  ((fun E => Edge.vert E - old_base + new_base) <$> st_edges s !! e)
  = (Edge.vert <$> st_edges s !! e').

(** The edge map that [Mesh::clone] builds for the tetrahedron. *)
Definition tetra_edge_pairs : list (ptr * ptr) :=
  [ (1%N, 27%N); (2%N, 28%N); (3%N, 29%N); (4%N, 31%N); (5%N, 32%N); (6%N, 33%N);
    (7%N, 35%N); (8%N, 36%N); (9%N, 37%N); (10%N, 39%N); (11%N, 40%N); (12%N, 41%N) ].

Definition tetra_edge_map : gmap N N := list_to_map tetra_edge_pairs.

(** The index of the mesh that [build] files a face under:
    [index_set[face->id]]. *)
Definition face_set_index (index_set : list Z) (s : store) (f : ptr) : option Z :=
  F ← st_faces s !! f; index_set !! Z.to_nat (Face.id F).

(** Every face of the range is an object whose id has an entry in
    [index_set], and the entry is the index of a set. *)
Definition faces_indexed (index_set : list Z) (n_sets : nat) (s : store)
           (faces : list ptr) : Prop :=
  Forall (fun f => exists k, face_set_index index_set s f = Some k
                             /\ 0 <= k < Z.of_nat n_sets) faces.

(** Relative to the last address [last0] of an earlier store: the
    successor of every half-edge constructed since then was itself
    constructed since then, and so was the first half-edge of every
    face constructed since then, unless it is still null. *)
Definition links_created (last0 : N) (s : store) : Prop :=
  (forall a E, st_edges s !! a = Some E -> (last0 < a)%N -> (last0 < Edge.next E)%N)
  /\ (forall a F, st_faces s !! a = Some F -> (last0 < a)%N ->
        Face.edge F = NULL \/ (last0 < Face.edge F)%N).

(** The half-edges of the ring of face [f] in [s'] are no objects of
    [s], and their tag bits are empty. *)
Definition ring_created_untagged (s s' : store) (f : ptr) : Prop :=
  forall l e, face_ring s' f = Some l -> e ∈ l ->
    st_edges s !! e = None
    /\ Edge.tag <$> st_edges s' !! e = Some Tagable.empty.

(** ** hash_vertex_pair

    The hash of a pair of vertex pointers, taken as [size_t] values:
    [r ^ ((s >> 16) | (s << 16))].  It is the hash of the stitcher's
    map from vertex pairs to half-edge lists. *)
Definition hash_vertex_pair (pair : Z * Z) : Z :=
  let r := SizeT.wrap pair.1 in
  let s := SizeT.wrap pair.2 in
  Z.lxor r (Z.lor (Z.shiftr s 16) (SizeT.wrap (Z.shiftl s 16))).

(** The open half-edges among those of a ring. *)
Definition ring_open_edges (es : gmap N Edge.t) (l : list ptr) : list ptr :=
  filter (fun e => Edge.rev <$> es !! e = Some NULL) l.

(** ** FaceIter: comparison operators

    [operator<] asserts [obj == other.obj]; both iterators here are
    over the same mesh set, so the assertion holds.  The other
    operators are written in terms of [operator<] and [operator==]. *)

Module FaceIterCmp.

(** [operator<]. *)
Definition lt (a b : FaceIter.t) : bool :=
  (FaceIter.mesh a <? FaceIter.mesh b)%nat
  || ((FaceIter.mesh a =? FaceIter.mesh b)%nat
      && (FaceIter.face a <? FaceIter.face b)).

(** [operator>]: [other] is less than [this]. *)
Definition gt (a b : FaceIter.t) : bool := lt b a.

(** [operator<=]: not ([other] less than [this]). *)
Definition le (a b : FaceIter.t) : bool := negb (lt b a).

(** [operator>=]: not ([this] less than [other]). *)
Definition ge (a b : FaceIter.t) : bool := negb (lt a b).

(** [operator!=]. *)
Definition ne (a b : FaceIter.t) : bool := negb (FaceIter.eqb a b).

End FaceIterCmp.

(** ** Face::clone: the addresses and the edge map it produces *)

(** The addresses of [n] objects constructed one after the other when
    [b] was the last address handed out. *)
Definition clone_addrs (b : N) (n : nat) : list ptr :=
  (fun i => (b + 1 + N.of_nat i)%N) <$> seq 0 n.

(** [edge_map[e] = r_e] for the half-edges [l] and their clones [l'],
    in order. *)
Definition edge_map_insert (edge_map : gmap N N) (l l' : list ptr) : gmap N N :=
  foldl (fun m p => <[p.1 := p.2]> m) edge_map (zip l l').

(** The record of the [i]-th of the [n] half-edges that the loop of
    [Face::clone] constructs for the half-edge [E], at the end of the
    loop: [b] is the last address handed out before the loop and [r_p]
    the clone made before it, if any.  The first and the last of them
    are linked to each other after the loop. *)
Definition clone_loop_edge (old_base new_base : Z) (r : ptr) (b : N) (r_p : ptr)
           (n i : nat) (E : Edge.t) : Edge.t :=
  Edge.mk Tagable.empty (Edge.vert E - old_base + new_base) r
    (match i with
     | O => if (r_p =? NULL)%N then (b + 1)%N else r_p
     | S _ => (b + N.of_nat i)%N
     end)
    (if (S i =? n)%nat then (b + 1 + N.of_nat i)%N else (b + 2 + N.of_nat i)%N)
    NULL.

(** The record of the [i]-th of the [n] half-edges of a face made by
    [Face::clone], when [clone] returns: [b] is the address of the new
    face, the half-edges follow it. *)
Definition cloned_edge (old_base new_base : Z) (b : N) (n i : nat) (E : Edge.t)
  : Edge.t :=
  Edge.mk Tagable.empty (Edge.vert E - old_base + new_base) b
    (match i with
     | O => (b + N.of_nat n)%N
     | S _ => (b + N.of_nat i)%N
     end)
    (if (S i =? n)%nat then (b + 1)%N else (b + 2 + N.of_nat i)%N)
    NULL.

(** ** clone: what it leaves alone *)

(** Every address up to [last0] holds in [s'] what it holds in [s]. *)
Definition kept (last0 : N) (s s' : store) : Prop :=
  (forall a, (a <= last0)%N -> st_edges s' !! a = st_edges s !! a)
  /\ (forall a, (a <= last0)%N -> st_faces s' !! a = st_faces s !! a)
  /\ (forall a, (a <= last0)%N -> st_meshes s' !! a = st_meshes s !! a)
  /\ (forall a, (a <= last0)%N -> st_meshsets s' !! a = st_meshsets s !! a).

(** The values of an edge map are null or were constructed after
    [last0]. *)
Definition edge_map_created (last0 : N) (edge_map : gmap N N) : Prop :=
  forall k v, edge_map !! k = Some v -> v = NULL \/ (last0 < v)%N.

(** ** initEdges: the map from vertex pairs to half-edges *)

(** The key under which [initEdges] files a half-edge: the pair
    [(e->v1(), e->v2())]. *)
Definition edge_key (es : gmap N Edge.t) (e : ptr) : option (Z * Z) :=
  a ← v1 es e; b ← v2 es e; Some (a, b).

(** [edges[vpair_t(e->v1(), e->v2())].push_back(e)]. *)
Definition file_edge (es : gmap N Edge.t) (st : FaceStitcher.t) (e : ptr)
  : FaceStitcher.t :=
  match edge_key es e with
  | Some key => FaceStitcher.push_edge key e st
  | None => st
  end.

(** ** MeshSet(meshes): the constructor that collects the vertices

    The constructor takes the meshes, gathers the vertex pointers of
    all their half-edges in a [std::unordered_map], copies every vertex
    once into [vertex_storage] in the iteration order of the map, and
    rewrites the vertex pointer of every half-edge to the copy.

    Two things are outside the code at hand and are arguments here:
    the memory that holds the vertices the half-edges point to on
    entry ([vertex_at], by address), and the order in which the
    iteration over the unordered map visits its keys ([iteration]),
    which the language leaves to the implementation. *)

Definition upd_meshset (a : ptr) (f : MeshSet.t -> MeshSet.t) : M unit :=
  fun s => match st_meshsets s !! a with
           | Some ms => Ok (tt, set_meshsets <[a := f ms]> s)
           | None => Undefined
           end.

(** The first [do ... while] loop: [vert_idx[edge->vert] = 0] along
    the ring of a face. *)
Fixpoint collect_ring (fuel : nat) (first e : ptr) (vert_idx : gmap Z Z)
  : M (gmap Z Z) :=
  match fuel with
  | O => undefined
  | S k =>
      E ← get_edge e;
      let vert_idx := <[Edge.vert E := 0]> vert_idx in
      let e := Edge.next E in
      if (e =? first)%N then mret vert_idx
      else collect_ring k first e vert_idx
  end.

Definition collect_face (f : ptr) (vert_idx : gmap Z Z) : M (gmap Z Z) :=
  F ← get_face f;
  s ← get_store;
  collect_ring (size (st_edges s)) (Face.edge F) (Face.edge F) vert_idx.

(** The body of the first loop over the meshes. *)
Definition collect_mesh (this : ptr) (mesh : ptr) (vert_idx : gmap Z Z)
  : M (gmap Z Z) :=
  m ← get_mesh mesh;
  CARVE_ASSERT (Mesh.meshset m =? NULL)%N;;
  upd_mesh mesh (Mesh.with_meshset this);;
  m ← get_mesh mesh;
  for_each (Mesh.faces m) vert_idx collect_face.

(** The loop over the map: every key gets the next index and its
    vertex is copied to the end of the storage. *)
Fixpoint number_vertices (vertex_at : Z -> option Vertex.t) (keys : list Z)
         (vert_idx : gmap Z Z) (vertex_storage : list Vertex.t)
  : option (gmap Z Z * list Vertex.t) :=
  match keys with
  | [] => Some (vert_idx, vertex_storage)
  | k :: rest =>
      V ← vertex_at k;
      number_vertices vertex_at rest
        (<[k := Z.of_nat (length vertex_storage)]> vert_idx)
        (vertex_storage ++ [V])
  end.

(** The last [do ... while] loop:
    [edge->vert = &vertex_storage[vert_idx[edge->vert]]]; [base] is the
    address of the storage and [n] its size.  Indexing the map with a
    key it does not hold inserts the key with index 0. *)
Fixpoint repoint_ring (fuel : nat) (base : Z) (n : nat) (first e : ptr)
         (vert_idx : gmap Z Z) : M (gmap Z Z) :=
  match fuel with
  | O => undefined
  | S k =>
      E ← get_edge e;
      let '(i, vert_idx) :=
        match vert_idx !! Edge.vert E with
        | Some i => (i, vert_idx)
        | None => (0, <[Edge.vert E := 0]> vert_idx)
        end in
      if Z.of_nat n <=? i then undefined
      else
        upd_edge e (Edge.with_vert (base + i));;
        E ← get_edge e;
        let e := Edge.next E in
        if (e =? first)%N then mret vert_idx
        else repoint_ring k base n first e vert_idx
  end.

Definition repoint_face (base : Z) (n : nat) (f : ptr) (vert_idx : gmap Z Z)
  : M (gmap Z Z) :=
  F ← get_face f;
  s ← get_store;
  repoint_ring (size (st_edges s)) base n (Face.edge F) (Face.edge F) vert_idx.

Definition repoint_mesh (base : Z) (n : nat) (mesh : ptr) (vert_idx : gmap Z Z)
  : M (gmap Z Z) :=
  m ← get_mesh mesh;
  for_each (Mesh.faces m) vert_idx (repoint_face base n).

(** [MeshSet(std::vector<mesh_t *> &_meshes)]; [base] is the address at
    which [reserve] places the vertex storage. *)
Definition MeshSet_make1 (vertex_at : Z -> option Vertex.t)
           (iteration : gmap Z Z -> list Z) (base : Z) (_meshes : list ptr)
  : M ptr :=
  this ← new_MeshSet_object (MeshSet.mk base [] _meshes);
  vert_idx ← for_each _meshes ∅ (collect_mesh this);
  match number_vertices vertex_at (iteration vert_idx) vert_idx [] with
  | None => undefined
  | Some (vert_idx, vertex_storage) =>
      upd_meshset this
        (fun ms => MeshSet.mk (MeshSet.vs_base ms) vertex_storage (MeshSet.meshes ms));;
      for_each _meshes vert_idx (repoint_mesh base (length vertex_storage));;
      mret this
  end.

(** *** Notions used to state what the constructor does *)

(** The half-edges of a vector of faces, face by face, ring by ring. *)
Fixpoint rings_of (s : store) (fs : list ptr) : option (list ptr) :=
  match fs with
  | [] => Some []
  | f :: rest => l ← face_ring s f; ls ← rings_of s rest; Some (l ++ ls)
  end.

(** The half-edges of the faces of a mesh, and of a vector of meshes. *)
Definition mesh_edges (s : store) (mesh : ptr) : option (list ptr) :=
  m ← st_meshes s !! mesh; rings_of s (Mesh.faces m).

Fixpoint meshes_edges (s : store) (meshes : list ptr) : option (list ptr) :=
  match meshes with
  | [] => Some []
  | m :: rest => l ← mesh_edges s m; ls ← meshes_edges s rest; Some (l ++ ls)
  end.

(** [vert_idx[v] = 0] for the origin of a half-edge. *)
Definition collect_edge (es : gmap N Edge.t) (vert_idx : gmap Z Z) (e : ptr)
  : gmap Z Z :=
  match es !! e with
  | Some E => <[Edge.vert E := 0]> vert_idx
  | None => vert_idx
  end.

(** Half-edges differ at most by their vertex pointers. *)
Definition verts_moved (es es' : gmap N Edge.t) : Prop :=
  forall a, es' !! a = es !! a
            \/ exists E v, es !! a = Some E /\ es' !! a = Some (Edge.with_vert v E).

(** The two glued triangles as the faces of one mesh, object 12, that
    belongs to no mesh set, and a memory that holds a vertex at every
    address. *)
Definition two_triangles_mesh : store :=
  mkStore two_triangles (st_faces two_triangles_store)
          {[ 12%N := Mesh.mk [10%N; 11%N] [1%N; 3%N; 5%N; 6%N] [2%N; 4%N] false NULL ]}
          ∅ 12%N.

Definition vertex_memory (a : Z) : option Vertex.t :=
  Some (Vertex.mk (Z.to_N a) (Geom.mkVector 0 0 1)).

(** An iteration over the map in the order of [map_to_list]. *)
Definition map_order (vert_idx : gmap Z Z) : list Z := (map_to_list vert_idx).*1.


(** * Theorems *)

(** ** FaceIter *)

Example faceiter_fwd_cross :
  FaceIter.fwd [[1;2];[3]]%nat 1 (FaceIter.mk 0 1) = FaceIter.mk 1 0.
Proof. reflexivity. Qed.

Example faceiter_rev_cross :
  FaceIter.rev [[1;2];[3]]%nat 1 (FaceIter.mk 1 0) = Some (FaceIter.mk 0 0).
Proof. reflexivity. Qed.

Section FaceIterFacts.
Context {F : Type}.
Variable meshes : list (list F).

Let total : Z := Z.of_nat (length (concat meshes)).

Lemma faceiter_index_step (pre : list (list F)) (fs : list F) :
  Z.of_nat (length (concat (pre ++ [fs])))
  = Z.of_nat (length (concat pre)) + Z.of_nat (length fs).
Proof.
  rewrite concat_app, length_app. simpl. rewrite app_nil_r. lia.
Qed.

(** The forward loop keeps the position in the concatenation and
    stops on a face or on the end position. *)
Lemma faceiter_fwd_loop_index (rest pre : list (list F)) (face : Z) :
  meshes = pre ++ rest ->
  rest <> [] ->
  0 <= face <= Z.of_nat (length (concat rest)) ->
  let it' := FaceIter.fwd_loop rest (length pre) face in
  FaceIter.index meshes it' = Z.of_nat (length (concat pre)) + face
  /\ FaceIter.valid meshes it'.
Proof.
  revert pre face. induction rest as [|fs rest IH]; intros pre face Hm Hne Hf.
  { congruence. }
  simpl. destruct (Z.leb_spec (Z.of_nat (length fs)) face) as [Hle|Hlt].
  - destruct rest as [|fs' rest'].
    + simpl in Hf. rewrite app_nil_r in Hf.
      assert (face = Z.of_nat (length fs)) as -> by lia.
      assert (S (length pre) = length meshes) as Hlen.
      { rewrite Hm, length_app. simpl. lia. }
      split.
      * unfold FaceIter.index. simpl FaceIter.mesh. simpl FaceIter.face.
        rewrite Hlen, firstn_all, Hm, faceiter_index_step. lia.
      * right. unfold FaceIter.faceEnd. by rewrite Hlen.
    + specialize (IH (pre ++ [fs]) (face - Z.of_nat (length fs))).
      rewrite length_app in IH. simpl length in IH.
      replace (length pre + 1)%nat with (S (length pre)) in IH by lia.
      destruct IH as [IH1 IH2].
      * rewrite Hm. by rewrite <- app_assoc.
      * done.
      * simpl in Hf. rewrite length_app in Hf. simpl. lia.
      * split; [|exact IH2]. cbv zeta in IH1. rewrite IH1, faceiter_index_step. lia.
  - split.
    + unfold FaceIter.index. simpl.
      rewrite Hm, take_app_length. lia.
    + left. exists fs. simpl. split; [|lia].
      rewrite Hm. by rewrite list_lookup_middle.
Qed.

(** [fwd] advances a valid iterator by [n] positions while the target
    stays in range. *)
Lemma faceiter_fwd_index (it : FaceIter.t) (n : Z) :
  total < SizeT.modulus ->
  FaceIter.valid meshes it ->
  0 <= n ->
  FaceIter.index meshes it + n <= total ->
  FaceIter.index meshes (FaceIter.fwd meshes n it) = FaceIter.index meshes it + n
  /\ FaceIter.valid meshes (FaceIter.fwd meshes n it).
Proof.
  intros Htot Hv Hn Hrange. unfold FaceIter.fwd.
  destruct Hv as [(fs & Hfs & Hface)| ->].
  - pose proof (lookup_lt_Some _ _ _ Hfs) as Hlt.
    destruct (Nat.ltb_spec (FaceIter.mesh it) (length meshes)); [|lia].
    pose proof (take_drop (FaceIter.mesh it) meshes) as Hsplit.
    assert (Hpre : length (take (FaceIter.mesh it) meshes) = FaceIter.mesh it).
    { rewrite length_take. lia. }
    assert (Htotal : total = Z.of_nat (length (concat (take (FaceIter.mesh it) meshes)))
                             + Z.of_nat (length (concat (drop (FaceIter.mesh it) meshes)))).
    { subst total. rewrite <- Hsplit at 1. rewrite concat_app, length_app. lia. }
    unfold FaceIter.index in Hrange.
    assert (Hw : SizeT.wrap (FaceIter.face it + n) = FaceIter.face it + n).
    { unfold SizeT.wrap. apply Z.mod_small. lia. }
    rewrite Hw.
    pose proof (faceiter_fwd_loop_index (drop (FaceIter.mesh it) meshes)
                  (take (FaceIter.mesh it) meshes) (FaceIter.face it + n)) as L.
    rewrite Hpre in L. cbv zeta in L.
    destruct L as [L1 L2]; [by rewrite Hsplit| |lia|].
    { rewrite (drop_S _ _ _ Hfs). done. }
    split; [|exact L2]. rewrite L1. unfold FaceIter.index. lia.
  - simpl. destruct (Nat.ltb_spec (length meshes) (length meshes)); [lia|].
    unfold FaceIter.index in *. simpl in *. rewrite firstn_all in *.
    assert (n = 0) as -> by (subst total; lia).
    split; [lia|]. by right.
Qed.

Lemma faceiter_prefix_S (k : nat) (fs : list F) :
  meshes !! k = Some fs ->
  Z.of_nat (length (concat (take (S k) meshes)))
  = Z.of_nat (length (concat (take k meshes))) + Z.of_nat (length fs).
Proof.
  intros Hk. rewrite (take_S_r _ _ _ Hk). apply faceiter_index_step.
Qed.

Lemma faceiter_prefix_le (k : nat) :
  Z.of_nat (length (concat (take k meshes))) <= total.
Proof.
  subst total. rewrite <- (take_drop k meshes) at 2.
  rewrite concat_app, length_app. lia.
Qed.

Lemma faceiter_prefix_mono (j k : nat) :
  (j <= k)%nat ->
  Z.of_nat (length (concat (take j meshes)))
  <= Z.of_nat (length (concat (take k meshes))).
Proof.
  intros Hjk. rewrite <- (take_drop j (take k meshes)).
  rewrite take_take. replace (j `min` k)%nat with j by lia.
  rewrite concat_app, length_app. lia.
Qed.

Lemma sizet_signed_wrap (z : Z) :
  - 2 ^ 63 <= z < 2 ^ 63 -> SizeT.to_signed (SizeT.wrap z) = z.
Proof.
  intros Hz. unfold SizeT.to_signed, SizeT.wrap, SizeT.modulus.
  destruct (Z.ltb_spec (z mod 2 ^ 64) (2 ^ 63)) as [Hlt|Hge].
  - destruct (Z.lt_ge_cases z 0) as [Hneg|Hpos].
    + rewrite <- (Z.mod_add z 1 (2 ^ 64)) in Hlt by lia.
      rewrite Z.mod_small in Hlt; lia.
    + apply Z.mod_small. lia.
  - destruct (Z.lt_ge_cases z 0) as [Hneg|Hpos].
    + rewrite <- (Z.mod_add z 1 (2 ^ 64)) by lia.
      rewrite Z.mod_small; lia.
    + rewrite Z.mod_small in Hge; lia.
Qed.

(** The summation loop of [operator-] adds the sizes of [count]
    consecutive meshes starting at [i]. *)
Lemma faceiter_sum_sizes (count i : nat) :
  total < SizeT.modulus ->
  (i + count <= length meshes)%nat ->
  FaceIter.sum_sizes meshes i count
  = Some (Z.of_nat (length (concat (take (i + count) meshes)))
          - Z.of_nat (length (concat (take i meshes)))).
Proof.
  intros Htot. revert i. induction count as [|c IH]; intros i Hi.
  - simpl. rewrite Nat.add_0_r. f_equal. lia.
  - simpl. unfold FaceIter.faces_size at 1.
    destruct (lookup_lt_is_Some_2 meshes i) as [fs Hfs]; [lia|].
    rewrite Hfs. simpl. rewrite IH by lia. simpl.
    replace (S i + c)%nat with (i + S c)%nat by lia.
    rewrite (faceiter_prefix_S _ _ Hfs).
    pose proof (faceiter_prefix_le (i + S c)) as Hle.
    assert (Hmono : Z.of_nat (length (concat (take (S i) meshes)))
                    <= Z.of_nat (length (concat (take (i + S c) meshes)))).
    { apply faceiter_prefix_mono. lia. }
    rewrite (faceiter_prefix_S _ _ Hfs) in Hmono.
    f_equal. unfold SizeT.wrap.
    replace (S (i + c))%nat with (i + S c)%nat by lia.
    rewrite Z.mod_small; lia.
Qed.

(** [operator-] yields the signed distance between two valid
    positions of the concatenation. *)
Lemma faceiter_diff_index (a b : FaceIter.t) :
  total < 2 ^ 63 ->
  FaceIter.valid meshes a ->
  FaceIter.valid meshes b ->
  FaceIter.diff meshes a b
  = Some (FaceIter.index meshes a - FaceIter.index meshes b).
Proof.
  intros Htot Ha Hb.
  assert (Htot' : total < SizeT.modulus) by (unfold SizeT.modulus; lia).
  assert (Hbound : forall it, FaceIter.valid meshes it ->
            (FaceIter.mesh it <= length meshes)%nat
            /\ 0 <= FaceIter.face it
            /\ 0 <= FaceIter.index meshes it <= total).
  { intros it [(fs & Hfs & Hf)| ->].
    - pose proof (lookup_lt_Some _ _ _ Hfs).
      pose proof (faceiter_prefix_le (S (FaceIter.mesh it))) as Hle.
      rewrite (faceiter_prefix_S _ _ Hfs) in Hle.
      unfold FaceIter.index. lia.
    - unfold FaceIter.index. simpl. rewrite firstn_all. subst total. lia. }
  destruct (Hbound a Ha) as (Hma & Hfa & Hia).
  destruct (Hbound b Hb) as (Hmb & Hfb & Hib).
  assert (Hcross : forall x y, FaceIter.valid meshes x ->
            (FaceIter.mesh x < FaceIter.mesh y)%nat ->
            (FaceIter.mesh y <= length meshes)%nat ->
            exists fs, meshes !! FaceIter.mesh x = Some fs
              /\ FaceIter.face x < Z.of_nat (length fs)
              /\ Z.of_nat (length (concat (take (FaceIter.mesh x) meshes)))
                 + Z.of_nat (length fs)
                 <= Z.of_nat (length (concat (take (FaceIter.mesh y) meshes)))
              /\ FaceIter.sum_sizes meshes (S (FaceIter.mesh x))
                   (FaceIter.mesh y - S (FaceIter.mesh x))
                 = Some (Z.of_nat (length (concat (take (FaceIter.mesh y) meshes)))
                         - Z.of_nat (length (concat (take (FaceIter.mesh x) meshes)))
                         - Z.of_nat (length fs))).
  { intros x y [(fs & Hfs & Hf)| ->] Hlt Hy; [|simpl in Hlt; lia].
    exists fs. split; [done|]. split; [lia|]. split.
    { rewrite <- (faceiter_prefix_S _ _ Hfs). apply faceiter_prefix_mono. lia. }
    rewrite faceiter_sum_sizes by (done || lia).
    replace (S (FaceIter.mesh x) + (FaceIter.mesh y - S (FaceIter.mesh x)))%nat
      with (FaceIter.mesh y) by lia.
    rewrite (faceiter_prefix_S _ _ Hfs). f_equal. lia. }
  unfold FaceIter.diff.
  destruct (Nat.eqb_spec (FaceIter.mesh a) (FaceIter.mesh b)) as [Heq|Hne].
  - unfold FaceIter.index in *. rewrite Heq in *. f_equal.
    rewrite sizet_signed_wrap; lia.
  - destruct (Nat.ltb_spec (FaceIter.mesh a) (FaceIter.mesh b)) as [Hlt|Hge].
    + destruct (Hcross a b Ha Hlt Hmb) as (fs & Hfs & Hf & Hmono & Hsum).
      rewrite Nat.min_l, Nat.max_r by lia. rewrite Hsum. simpl.
      unfold FaceIter.faces_size. rewrite Hfs. simpl. f_equal.
      unfold FaceIter.index in *.
      pose proof (faceiter_prefix_le (FaceIter.mesh b)).
      unfold SizeT.wrap at 2.
      rewrite (Z.mod_small _ SizeT.modulus) by (unfold SizeT.modulus in *; lia).
      rewrite sizet_signed_wrap; lia.
    + assert (Hlt : (FaceIter.mesh b < FaceIter.mesh a)%nat) by lia.
      destruct (Hcross b a Hb Hlt Hma) as (fs & Hfs & Hf & Hmono & Hsum).
      rewrite Nat.min_r, Nat.max_l by lia. rewrite Hsum. simpl.
      unfold FaceIter.faces_size. rewrite Hfs. simpl. f_equal.
      unfold FaceIter.index in *.
      rewrite sizet_signed_wrap; lia.
Qed.

Lemma faceiter_index_inj (a b : FaceIter.t) :
  FaceIter.valid meshes a ->
  FaceIter.valid meshes b ->
  FaceIter.index meshes a = FaceIter.index meshes b ->
  a = b.
Proof.
  assert (Hlt : forall x y, FaceIter.valid meshes x -> FaceIter.valid meshes y ->
            (FaceIter.mesh x < FaceIter.mesh y)%nat ->
            FaceIter.index meshes x < FaceIter.index meshes y).
  { intros x y [(fs & Hfs & Hf)| ->] Hy Hxy.
    - assert (0 <= FaceIter.face y).
      { destruct Hy as [(fs' & _ & Hf')| ->]; simpl; lia. }
      pose proof (faceiter_prefix_mono (S (FaceIter.mesh x)) (FaceIter.mesh y) Hxy) as Hm.
      rewrite (faceiter_prefix_S _ _ Hfs) in Hm. unfold FaceIter.index. lia.
    - simpl in Hxy. destruct Hy as [(fs' & Hfs' & _)| ->]; simpl in *; [|lia].
      apply lookup_lt_Some in Hfs'. lia. }
  intros Ha Hb Hidx.
  destruct (Nat.lt_trichotomy (FaceIter.mesh a) (FaceIter.mesh b)) as [H|[H|H]].
  - specialize (Hlt a b Ha Hb H). lia.
  - destruct a as [ma fa], b as [mb fb]. simpl in H. subst mb.
    unfold FaceIter.index in Hidx. simpl in Hidx. f_equal. lia.
  - specialize (Hlt b a Hb Ha H). lia.
Qed.

(** Forward jumps in place: when [a] is not after [b], [a += b - a]
    moves [a] to [b]. *)
Lemma faceiter_plus_diff_forward (a b : FaceIter.t) (d : Z) :
  total < 2 ^ 31 ->
  FaceIter.valid meshes a ->
  FaceIter.valid meshes b ->
  FaceIter.index meshes a <= FaceIter.index meshes b ->
  FaceIter.diff meshes b a = Some d ->
  FaceIter.plus_assign meshes a d = Some b.
Proof.
  intros Htot Ha Hb Hle Hd.
  rewrite faceiter_diff_index in Hd by (done || lia).
  injection Hd as <-.
  unfold FaceIter.plus_assign, FaceIter.adv.
  assert (Hb' : FaceIter.index meshes b <= total).
  { destruct Hb as [(fs & Hfs & Hf)| ->].
    - pose proof (faceiter_prefix_le (S (FaceIter.mesh b))) as H.
      rewrite (faceiter_prefix_S _ _ Hfs) in H. unfold FaceIter.index. lia.
    - unfold FaceIter.index. simpl. rewrite firstn_all. subst total. lia. }
  assert (Ha' : 0 <= FaceIter.index meshes a).
  { destruct Ha as [(fs & Hfs & Hf)| ->]; unfold FaceIter.index; simpl; lia. }
  destruct (Z.ltb_spec 0 (FaceIter.index meshes b - FaceIter.index meshes a)) as [Hpos|H0].
  - f_equal. unfold SizeT.wrap, SizeT.modulus. rewrite Z.mod_small by lia.
    destruct (faceiter_fwd_index a
                (FaceIter.index meshes b - FaceIter.index meshes a)) as [Hi Hv];
      try done; try (unfold SizeT.modulus; lia).
    apply faceiter_index_inj; [done|done|lia].
  - destruct (Z.ltb_spec (FaceIter.index meshes b - FaceIter.index meshes a) 0); [lia|].
    f_equal. apply faceiter_index_inj; [done|done|lia].
Qed.

(** What [rev 1] does at the first face of mesh [m + 1]: it lands two
    faces before the end of mesh [m]. *)
Lemma faceiter_decr_boundary (m : nat) (fs : list F) :
  meshes !! m = Some fs ->
  (2 <= length fs)%nat ->
  Z.of_nat (length fs) < SizeT.modulus ->
  FaceIter.decr meshes (FaceIter.mk (S m) 0)
  = Some (FaceIter.mk m (Z.of_nat (length fs) - 2)).
Proof.
  intros Hfs Hlen Hsz. unfold FaceIter.decr, FaceIter.rev. simpl.
  unfold FaceIter.faces_size. rewrite Hfs. simpl.
  unfold SizeT.wrap. rewrite Z.mod_small by lia.
  destruct m; simpl; change (1 - 0) with 1;
    (destruct (Z.ltb_spec (Z.of_nat (length fs) - 1) 1); [lia|]);
    apply (f_equal Some), (f_equal (FaceIter.mk _)); lia.
Qed.

End FaceIterFacts.

(** C7 (FaceIter as a random-access iterator; the code departs from it).
    A mesh set with two meshes of 2 and 1 faces, the faces numbered
    10, 11 and 20; [a] is the position of face 11 and [b] that of face
    20, so that [b - a] is 1.  [operator+] returns the copy it made
    before the jump: [a + (b - a)] is a position equal to [a], not to
    [b], while [a] itself has been moved to [b].  In place, [a += 1]
    and [++a] reach [b], but [b -= 1] and [--b] land on face 10, not on
    face 11: decrementing across the mesh boundary does not undo the
    increment. *)
Theorem faceiter_not_random_access :
  let meshes := [[10; 11]; [20]]%nat in
  let a := FaceIter.mk 0 1 in
  let b := FaceIter.mk 1 0 in
  FaceIter.valid meshes a /\ FaceIter.valid meshes b
  /\ FaceIter.deref meshes a = Some 11%nat
  /\ FaceIter.deref meshes b = Some 20%nat
  /\ FaceIter.diff meshes b a = Some 1
  /\ FaceIter.plus meshes a 1 = Some (a, b)
  /\ FaceIter.eqb a b = false
  /\ FaceIter.plus_assign meshes a 1 = Some b
  /\ FaceIter.incr meshes a = b
  /\ FaceIter.minus_assign meshes b 1 = Some (FaceIter.mk 0 0)
  /\ FaceIter.decr meshes b = Some (FaceIter.mk 0 0)
  /\ FaceIter.deref meshes (FaceIter.mk 0 0) = Some 10%nat
  /\ FaceIter.eqb (FaceIter.mk 0 0) a = false.
Proof.
  cbv zeta. repeat split; try reflexivity.
  - left. exists [10; 11]%nat. split; [reflexivity | simpl; lia].
  - left. exists [20]%nat. split; [reflexivity | simpl; lia].
Qed.

(** ** MeshSet constructor: decoding *)

Example decode_triangle :
  MeshSetCtor.decode_faces (2 ^ 60) 3 [3; 0; 1; 2] 1 = MeshSetCtor.Decoded [[0; 1; 2]].
Proof. reflexivity. Qed.

Example decode_trailing :
  MeshSetCtor.decode_faces (2 ^ 60) 3 [3; 0; 1; 2; 5] 1 = MeshSetCtor.Assertion_failed.
Proof. reflexivity. Qed.

Example decode_negative_count :
  MeshSetCtor.decode_faces (2 ^ 60) 3 [-1; 0; 1; 2] 1 = MeshSetCtor.Length_error.
Proof. reflexivity. Qed.

Example decode_index_out_of_range :
  MeshSetCtor.decode_faces (2 ^ 60) 3 [3; 0; 1; 7] 1 = MeshSetCtor.Out_of_bounds.
Proof. reflexivity. Qed.

Example decode_array_too_short :
  MeshSetCtor.decode_faces (2 ^ 60) 3 [3; 0; 1] 1 = MeshSetCtor.Out_of_bounds.
Proof. reflexivity. Qed.

Lemma wrap_small (z : Z) : 0 <= z < SizeT.modulus -> SizeT.wrap z = z.
Proof. intros Hz. unfold SizeT.wrap. by apply Z.mod_small. Qed.

Section DecodeFacts.
Import MeshSetCtor.

Lemma wrap_negative_int (z : Z) :
  is_int z -> z < 0 -> 2 ^ 64 - 2 ^ 31 <= SizeT.wrap z.
Proof.
  intros [Hlo Hhi] Hneg. unfold SizeT.wrap, SizeT.modulus.
  rewrite <- (Z.mod_add z 1 (2 ^ 64)) by lia.
  rewrite Z.mod_small; lia.
Qed.

Lemma encode_cons (r : list Z) (loops : list (list Z)) :
  encode (r :: loops) = Z.of_nat (length r) :: r ++ encode loops.
Proof. reflexivity. Qed.

Lemma encode_app (l1 l2 : list (list Z)) :
  encode (l1 ++ l2) = encode l1 ++ encode l2.
Proof. unfold encode. by rewrite fmap_app, concat_app. Qed.


Lemma drop_lookup_cons {A : Type} (l : list A) (p : nat) (x : A) (r : list A) :
  drop p l = x :: r -> l !! p = Some x /\ drop (S p) l = r.
Proof.
  intros Hd. assert (Hx : l !! p = Some x).
  { rewrite <- (Nat.add_0_r p), <- lookup_drop, Hd. done. }
  split; [done|]. rewrite (drop_S _ _ _ Hx) in Hd. by injection Hd.
Qed.

Lemma drop_lookup_nil {A : Type} (l : list A) (p : nat) :
  drop p l = [] -> l !! p = None.
Proof.
  intros Hd. rewrite <- (Nat.add_0_r p), <- lookup_drop, Hd. done.
Qed.

Variable max_size : Z.
Variable n_points : nat.
Variable fi : list Z.
Hypothesis Hmax : 2 ^ 31 - 1 <= max_size < 2 ^ 64 - 2 ^ 31.
Hypothesis Hpts : Z.of_nat n_points <= max_size.
Hypothesis Hint : Forall is_int fi.

Lemma drop_is_int (p : nat) (x : Z) (r : list Z) :
  drop p fi = x :: r -> is_int x.
Proof.
  intros Hd. apply drop_lookup_cons in Hd as [Hx _].
  by eapply Forall_lookup_1.
Qed.

(** The test that [operator[]] leaves out, on an [int] index. *)
Lemma index_check (i : Z) :
  is_int i ->
  (SizeT.wrap i <? Z.of_nat n_points) = true <-> index_in_range n_points i.
Proof.
  intros Hi. unfold index_in_range. rewrite Z.ltb_lt.
  destruct (Z.lt_ge_cases i 0) as [Hneg|Hpos].
  - pose proof (wrap_negative_int i Hi Hneg). lia.
  - rewrite wrap_small; [lia|]. destruct Hi. unfold SizeT.modulus. lia.
Qed.

(** The inner loop on indices that are there and in range. *)
Lemma read_indices_ok (count : nat) :
  forall (p : nat) (v r suf : list Z),
    drop p fi = r ++ suf -> length r = count ->
    Forall (index_in_range n_points) r ->
    read_indices n_points fi count p v = Decoded (v ++ r, (p + count)%nat).
Proof.
  induction count as [|c IH]; intros p v r suf Hd Hlen Hr.
  - destruct r; [|done]. simpl. by rewrite app_nil_r, Nat.add_0_r.
  - destruct r as [|i r]; [done|]. simpl in Hlen. injection Hlen as Hlen.
    apply Forall_cons_1 in Hr as [Hi Hr].
    simpl in Hd. pose proof (drop_is_int _ _ _ Hd) as Hii.
    apply drop_lookup_cons in Hd as [Hx Hd].
    simpl. rewrite Hx.
    assert (Hc : (SizeT.wrap i <? Z.of_nat n_points) = true) by (by apply index_check).
    rewrite Hc.
    rewrite (IH (S p) _ r suf Hd Hlen Hr).
    rewrite wrap_small by (unfold index_in_range, SizeT.modulus in *; lia).
    rewrite <- app_assoc. simpl. do 2 f_equal. lia.
Qed.

(** The inner loop when an index is missing or out of range. *)
Lemma read_indices_bad (count : nat) :
  forall (p : nat) (v : list Z),
    (length (drop p fi) < count)%nat
    \/ Exists (fun i => ~ index_in_range n_points i) (take count (drop p fi)) ->
    read_indices n_points fi count p v = Out_of_bounds.
Proof.
  induction count as [|c IH]; intros p v Hbad.
  - destruct Hbad as [?|Hex]; [lia|]. rewrite take_0 in Hex. by apply Exists_nil in Hex.
  - simpl. destruct (drop p fi) as [|i r] eqn:Hd.
    + by rewrite (drop_lookup_nil _ _ Hd).
    + pose proof (drop_is_int _ _ _ Hd) as Hii.
      apply drop_lookup_cons in Hd as [Hx Hd]. rewrite Hx.
      destruct (SizeT.wrap i <? Z.of_nat n_points) eqn:Hc; [|done].
      apply index_check in Hc; [|done].
      apply IH. rewrite Hd. destruct Hbad as [Hlen|Hex].
      * left. simpl in Hlen. lia.
      * right. simpl in Hex. apply Exists_cons in Hex as [?|?]; done.
Qed.

(** The inner loop either reads [count] indices in range or is out of
    bounds. *)
Lemma read_indices_cases (count p : nat) (v : list Z) :
  (exists r suf, drop p fi = r ++ suf /\ length r = count
                 /\ Forall (index_in_range n_points) r
                 /\ read_indices n_points fi count p v
                    = Decoded (v ++ r, (p + count)%nat))
  \/ (((length (drop p fi) < count)%nat
       \/ Exists (fun i => ~ index_in_range n_points i) (take count (drop p fi)))
      /\ read_indices n_points fi count p v = Out_of_bounds).
Proof.
  destruct (decide (length (drop p fi) < count)%nat) as [Hshort|Hlong].
  { right. split; [by left|]. apply read_indices_bad. by left. }
  destruct (decide (Forall (index_in_range n_points) (take count (drop p fi))))
    as [Hall|Hsome].
  - left. exists (take count (drop p fi)), (drop count (drop p fi)).
    assert (Hlen : length (take count (drop p fi)) = count).
    { rewrite length_take. lia. }
    split_and!; [by rewrite take_drop|done|done|].
    apply (read_indices_ok count p v _ (drop count (drop p fi)));
      [by rewrite take_drop|done|done].
  - right. apply not_Forall_Exists in Hsome; [|apply _].
    split; [by right|]. apply read_indices_bad. by right.
Qed.

(** One record. *)
Lemma read_face_cases (p : nat) :
  match read_face max_size n_points fi p with
  | Decoded (v, p') =>
      exists suf, drop p fi = Z.of_nat (length v) :: v ++ suf
                  /\ Forall (index_in_range n_points) v
                  /\ p' = (S p + length v)%nat
                  /\ drop p' fi = suf
  | Assertion_failed => False
  | Length_error => exists n rest, drop p fi = n :: rest /\ n < 0
  | Out_of_bounds => broken_record n_points (drop p fi)
  end.
Proof.
  unfold read_face. destruct (drop p fi) as [|n rest] eqn:Hd.
  { rewrite (drop_lookup_nil _ _ Hd). by left. }
  pose proof (drop_is_int _ _ _ Hd) as Hn.
  apply drop_lookup_cons in Hd as [Hx Hd]. rewrite Hx.
  destruct (Z.lt_ge_cases n 0) as [Hneg|Hpos].
  - pose proof (wrap_negative_int n Hn Hneg).
    destruct (Z.ltb_spec max_size (SizeT.wrap n)); [|lia]. eauto.
  - rewrite wrap_small by (destruct Hn; unfold SizeT.modulus; lia).
    destruct (Z.ltb_spec max_size n); [destruct Hn; lia|].
    destruct (read_indices_cases (Z.to_nat n) (S p) [])
      as [(r & suf & Hr & Hlen & Hall & ->)|[Hbad ->]].
    + simpl. exists suf. rewrite Hd in Hr.
      split_and!; [rewrite Hr; f_equal; lia|done|lia|].
      replace (S (p + Z.to_nat n)) with (S p + length r)%nat by lia.
      by rewrite <- drop_drop, Hd, Hr, drop_app_length.
    + right. exists n, rest. rewrite Hd in Hbad.
      split_and!; [done|done|]. destruct Hbad as [Hs|Hex]; [left; lia|by right].
Qed.

(** The outer loop: what each way of ending says about the array from
    the cursor on. *)
Lemma read_faces_cases (n_faces : nat) :
  forall p : nat,
    match read_faces max_size n_points fi n_faces p with
    | Decoded (faces, q) =>
        length faces = n_faces
        /\ drop p fi = encode faces ++ drop q fi
        /\ loops_in_range n_points faces
        /\ q = (p + length (encode faces))%nat
    | Assertion_failed => False
    | Length_error =>
        exists loops n rest,
          (length loops < n_faces)%nat
          /\ drop p fi = encode loops ++ n :: rest
          /\ loops_in_range n_points loops /\ n < 0
    | Out_of_bounds =>
        exists loops tail,
          (length loops < n_faces)%nat
          /\ drop p fi = encode loops ++ tail
          /\ loops_in_range n_points loops
          /\ broken_record n_points tail
    end.
Proof.
  induction n_faces as [|k IH]; intros p.
  - simpl. split_and!; [done|done|constructor|lia].
  - simpl. pose proof (read_face_cases p) as Hface.
    destruct (read_face max_size n_points fi p) as [[v p']| | |].
    + destruct Hface as (suf & Hd & Hv & -> & Hsuf).
      specialize (IH (S p + length v)%nat).
      destruct (read_faces max_size n_points fi k (S p + length v))
        as [[faces q]| | |].
      * destruct IH as (Hlen & Hd' & Hr & ->). split_and!.
        -- simpl. by rewrite Hlen.
        -- rewrite encode_cons, Hd. simpl. rewrite <- app_assoc. do 2 f_equal.
           by rewrite <- Hsuf.
        -- by constructor.
        -- rewrite encode_cons. simpl. rewrite length_app. lia.
      * done.
      * destruct IH as (loops & n & rest & Hlen & Hd' & Hr & Hn).
        exists (v :: loops), n, rest. split_and!; [simpl; lia| |by constructor|done].
        rewrite encode_cons, Hd. simpl. rewrite <- app_assoc. do 2 f_equal.
        by rewrite <- Hsuf.
      * destruct IH as (loops & tail & Hlen & Hd' & Hr & Hb).
        exists (v :: loops), tail. split_and!; [simpl; lia| |by constructor|done].
        rewrite encode_cons, Hd. simpl. rewrite <- app_assoc. do 2 f_equal.
        by rewrite <- Hsuf.
    + done.
    + destruct Hface as (n & rest & Hd & Hn).
      exists [], n, rest. split_and!; [simpl; lia|done|constructor|done].
    + exists [], (drop p fi). split_and!; [simpl; lia|done|constructor|done].
Qed.

(** A record that is there and in range is read. *)
Lemma read_face_record (p : nat) (r suf : list Z) :
  drop p fi = Z.of_nat (length r) :: r ++ suf ->
  Forall (index_in_range n_points) r ->
  read_face max_size n_points fi p = Decoded (r, (S p + length r)%nat).
Proof.
  intros Hd Hr. unfold read_face.
  pose proof (drop_is_int _ _ _ Hd) as Hn.
  apply drop_lookup_cons in Hd as [Hx Hd]. rewrite Hx.
  rewrite wrap_small by (destruct Hn; unfold SizeT.modulus; lia).
  destruct (Z.ltb_spec max_size (Z.of_nat (length r))); [destruct Hn; lia|].
  rewrite Nat2Z.id. by rewrite (read_indices_ok _ (S p) [] r suf Hd eq_refl Hr).
Qed.

Lemma read_face_negative (p : nat) (n : Z) (rest : list Z) :
  drop p fi = n :: rest -> n < 0 ->
  read_face max_size n_points fi p = Length_error.
Proof.
  intros Hd Hneg. unfold read_face.
  pose proof (drop_is_int _ _ _ Hd) as Hn.
  apply drop_lookup_cons in Hd as [Hx Hd]. rewrite Hx.
  pose proof (wrap_negative_int n Hn Hneg).
  by destruct (Z.ltb_spec max_size (SizeT.wrap n)); [|lia].
Qed.

Lemma read_face_broken (p : nat) :
  broken_record n_points (drop p fi) ->
  read_face max_size n_points fi p = Out_of_bounds.
Proof.
  intros [Hnil|(n & r & Hd & Hpos & Hbad)]; unfold read_face.
  - by rewrite (drop_lookup_nil _ _ Hnil).
  - pose proof (drop_is_int _ _ _ Hd) as Hn.
    apply drop_lookup_cons in Hd as [Hx Hd]. rewrite Hx.
    rewrite wrap_small by (destruct Hn; unfold SizeT.modulus; lia).
    destruct (Z.ltb_spec max_size n); [destruct Hn; lia|].
    apply read_indices_bad. rewrite Hd.
    destruct Hbad as [Hs|Hex]; [left; lia|by right].
Qed.

(** Records that are there and in range are read one after the
    other. *)
Lemma read_faces_prefix (loops : list (list Z)) :
  forall (p : nat) (suf : list Z) (m : nat),
    drop p fi = encode loops ++ suf ->
    loops_in_range n_points loops ->
    read_faces max_size n_points fi (length loops + m) p
    = match read_faces max_size n_points fi m (p + length (encode loops)) with
      | Decoded (faces, q) => Decoded (loops ++ faces, q)
      | Assertion_failed => Assertion_failed
      | Length_error => Length_error
      | Out_of_bounds => Out_of_bounds
      end.
Proof.
  induction loops as [|r loops IH]; intros p suf m Hd Hr.
  - simpl. rewrite Nat.add_0_r.
    by destruct (read_faces max_size n_points fi m p) as [[faces q]| | |].
  - apply Forall_cons_1 in Hr as [Hr Hrs].
    rewrite encode_cons in Hd. simpl in Hd. rewrite <- app_assoc in Hd.
    simpl. rewrite (read_face_record p r _ Hd Hr).
    assert (Hd' : drop (S p + length r) fi = encode loops ++ suf).
    { apply drop_lookup_cons in Hd as [_ Hd].
      by rewrite <- drop_drop, Hd, drop_app_length. }
    rewrite (IH _ suf m Hd' Hrs).
    replace (S p + length r + length (encode loops))%nat
      with (p + length (encode (r :: loops)))%nat
      by (rewrite encode_cons; simpl; rewrite length_app; lia).
    by destruct (read_faces max_size n_points fi m _) as [[faces q]| | |].
Qed.

(** How the decoding ends, read off its result. *)
Lemma decode_faces_cases (n_faces : nat) :
  match decode_faces max_size n_points fi n_faces with
  | Decoded faces =>
      Z.of_nat n_faces <= max_size
      /\ length faces = n_faces /\ fi = encode faces
      /\ loops_in_range n_points faces
  | Assertion_failed =>
      Z.of_nat n_faces <= max_size
      /\ exists loops rest,
           length loops = n_faces /\ fi = encode loops ++ rest /\ rest <> []
           /\ loops_in_range n_points loops
  | Length_error =>
      max_size < Z.of_nat n_faces
      \/ exists loops n rest,
           (length loops < n_faces)%nat /\ fi = encode loops ++ n :: rest
           /\ loops_in_range n_points loops /\ n < 0
  | Out_of_bounds =>
      Z.of_nat n_faces <= max_size
      /\ exists loops tail,
           (length loops < n_faces)%nat /\ fi = encode loops ++ tail
           /\ loops_in_range n_points loops /\ broken_record n_points tail
  end.
Proof.
  unfold decode_faces.
  destruct (Z.ltb_spec max_size (Z.of_nat n_faces)) as [Hbig|Hfit]; [by left|].
  pose proof (read_faces_cases n_faces 0) as Hc. rewrite drop_0 in Hc.
  destruct (read_faces max_size n_points fi n_faces 0) as [[faces q]| | |].
  - destruct Hc as (Hlen & Hd & Hr & Hq). simpl in Hq.
    destruct (Nat.eqb_spec q (length fi)) as [Heq|Hne].
    + split_and!; try done. rewrite Heq, drop_all, app_nil_r in Hd. done.
    + split; [done|]. exists faces, (drop q fi). split_and!; try done.
      intros Hnil. rewrite Hnil, app_nil_r in Hd. apply Hne. by rewrite Hq, Hd.
  - done.
  - by right.
  - by split.
Qed.



Lemma decode_faces_Length_error (n_faces : nat) (loops : list (list Z))
      (n : Z) (rest : list Z) :
  (length loops < n_faces)%nat -> fi = encode loops ++ n :: rest ->
  loops_in_range n_points loops -> n < 0 ->
  decode_faces max_size n_points fi n_faces = Length_error.
Proof.
  intros Hlen Hfi Hr Hn. unfold decode_faces.
  destruct (Z.ltb_spec max_size (Z.of_nat n_faces)); [done|].
  pose proof (read_faces_prefix loops 0 (n :: rest) (n_faces - length loops)) as Hp.
  rewrite drop_0 in Hp.
  replace (length loops + (n_faces - length loops))%nat with n_faces in Hp by lia.
  rewrite (Hp Hfi Hr).
  destruct (n_faces - length loops)%nat as [|m] eqn:Hm; [lia|].
  simpl. rewrite (read_face_negative _ n rest); [done| |done].
  by rewrite Hfi, drop_app_length.
Qed.

Lemma decode_faces_Out_of_bounds (n_faces : nat) (loops : list (list Z))
      (tail : list Z) :
  Z.of_nat n_faces <= max_size ->
  (length loops < n_faces)%nat -> fi = encode loops ++ tail ->
  loops_in_range n_points loops -> broken_record n_points tail ->
  decode_faces max_size n_points fi n_faces = Out_of_bounds.
Proof.
  intros Hfit Hlen Hfi Hr Hb. unfold decode_faces.
  destruct (Z.ltb_spec max_size (Z.of_nat n_faces)); [lia|].
  pose proof (read_faces_prefix loops 0 tail (n_faces - length loops)) as Hp.
  rewrite drop_0 in Hp.
  replace (length loops + (n_faces - length loops))%nat with n_faces in Hp by lia.
  rewrite (Hp Hfi Hr).
  destruct (n_faces - length loops)%nat as [|m] eqn:Hm; [lia|].
  simpl. rewrite read_face_broken; [done|].
  by rewrite Hfi, drop_app_length.
Qed.

End DecodeFacts.




(** ** Perimeter walks *)

Lemma perimNext_loop_eq (fuel : nat) (es : gmap N Edge.t) (e : ptr) :
  perimNext_loop fuel es e = perim_loop Edge.next fuel es e.
Proof.
  revert e. induction fuel as [|k IH]; intros e; [done|]. simpl.
  destruct (es !! e) as [E|]; [|done]. simpl.
  destruct (Edge.rev E =? NULL)%N; [done|].
  destruct (es !! Edge.rev E) as [R|]; [|done]. simpl. apply IH.
Qed.

Lemma perimPrev_loop_eq (fuel : nat) (es : gmap N Edge.t) (e : ptr) :
  perimPrev_loop fuel es e = perim_loop Edge.prev fuel es e.
Proof.
  revert e. induction fuel as [|k IH]; intros e; [done|]. simpl.
  destruct (es !! e) as [E|]; [|done]. simpl.
  destruct (Edge.rev E =? NULL)%N; [done|].
  destruct (es !! Edge.rev E) as [R|]; [|done]. simpl. apply IH.
Qed.

Lemma nodup_within_dom_length (es : gmap N Edge.t) (vs : list ptr) :
  NoDup vs -> (forall y, y ∈ vs -> y ∈ dom es) -> (length vs <= size es)%nat.
Proof.
  intros Hnd Hsub. rewrite <- size_dom.
  change (size (dom es)) with (length (elements (dom es))).
  apply submseteq_length, NoDup_submseteq; [done|].
  intros y Hy. apply elem_of_elements. auto.
Qed.

Lemma ring_inv_next (es : gmap N Edge.t) (e : ptr) (E : Edge.t) :
  map_Forall (ring_ok es) es -> es !! e = Some E ->
  exists X, es !! Edge.next E = Some X /\ Edge.prev X = e.
Proof.
  intros Hring He. destruct (Hring e E He) as [Hn _].
  destruct (es !! Edge.next E) as [X|]; [|done].
  exists X. split; [done|]. by simplify_eq/=.
Qed.

Lemma ring_inv_prev (es : gmap N Edge.t) (e : ptr) (E : Edge.t) :
  map_Forall (ring_ok es) es -> es !! e = Some E ->
  exists X, es !! Edge.prev E = Some X /\ Edge.next X = e.
Proof.
  intros Hring He. destruct (Hring e E He) as [_ Hp].
  destruct (es !! Edge.prev E) as [X|]; [|done].
  exists X. split; [done|]. by simplify_eq/=.
Qed.

Lemma twin_inv_elim (es : gmap N Edge.t) (e : ptr) (E : Edge.t) :
  twin_vertices_ok es -> es !! e = Some E -> Edge.rev E <> NULL ->
  exists R RN, es !! Edge.rev E = Some R /\ Edge.rev R = e
               /\ es !! Edge.next R = Some RN /\ Edge.vert RN = Edge.vert E.
Proof.
  intros Htwin He Hrev. destruct (Htwin e E He Hrev) as [Hr Hv].
  destruct (es !! Edge.rev E) as [R|]; [|done]. simpl in *.
  destruct (es !! Edge.next R) as [RN|] eqn:HRN; [|done].
  exists R, RN. split_and!; by simplify_eq/=.
Qed.

Lemma twin_involution_elim (es : gmap N Edge.t) (e : ptr) (E : Edge.t) :
  map_Forall (twin_involution es) es -> es !! e = Some E -> Edge.rev E <> NULL ->
  exists R, es !! Edge.rev E = Some R /\ Edge.rev R = e.
Proof.
  intros Htwin He Hrev. pose proof (Htwin e E He Hrev) as Hr.
  destruct (es !! Edge.rev E) as [R|]; [|done]. simpl in *.
  exists R. split; by simplify_eq/=.
Qed.

Section PerimWalk.
Variable es : gmap N Edge.t.
Hypothesis Hnull : es !! NULL = None.
Hypothesis Htwin : map_Forall (twin_involution es) es.

(** [sel] is the link followed ([next] or [prev]) and [back] the
    opposite link. *)
Variables sel back : Edge.t -> ptr.
Hypothesis sel_back : forall e E,
  es !! e = Some E -> exists X, es !! sel E = Some X /\ back X = e.
Hypothesis back_sel : forall e E,
  es !! e = Some E -> exists X, es !! back E = Some X /\ sel X = e.

Lemma sel_inj (a b : ptr) (A B : Edge.t) :
  es !! a = Some A -> es !! b = Some B -> sel A = sel B -> a = b.
Proof.
  intros Ha Hb Heq.
  destruct (sel_back a A Ha) as (X & HX & Hba).
  destruct (sel_back b B Hb) as (X' & HX' & Hbb).
  rewrite Heq in HX. congruence.
Qed.

Lemma twin_closed (e : ptr) (E : Edge.t) :
  es !! e = Some E -> Edge.rev E <> NULL ->
  exists R, es !! Edge.rev E = Some R /\ Edge.rev R = e /\ Edge.rev R <> NULL.
Proof.
  intros He Hrev.
  destruct (twin_involution_elim es e E Htwin He Hrev) as (R & HR & Hrr).
  exists R. split_and!; [done|done|].
  rewrite Hrr. intros ->. unfold NULL in *. congruence.
Qed.

(** More fuel does not change a result. *)
Lemma perim_loop_mono (fuel fuel' : nat) (e r : ptr) :
  perim_loop sel fuel es e = Some r -> (fuel <= fuel')%nat ->
  perim_loop sel fuel' es e = Some r.
Proof.
  revert fuel' e. induction fuel as [|k IH]; intros fuel' e; [done|].
  intros Hrun Hle. destruct fuel' as [|k']; [lia|]. simpl in *.
  destruct (es !! e) as [E|]; [|done]. simpl in *.
  destruct (Edge.rev E =? NULL)%N; [done|].
  destruct (es !! Edge.rev E) as [R|]; [|done]. simpl in *.
  apply IH; [done|lia].
Qed.

(** The half-edges a walk has passed, newest first, and the half-edge
    it stands on: each step goes from a closed half-edge to the [sel]
    neighbour of its twin. *)
Inductive orbit (x0 : ptr) : list ptr -> ptr -> Prop :=
| orbit_nil : orbit x0 [] x0
| orbit_step vs x E R :
    orbit x0 vs x ->
    es !! x = Some E -> Edge.rev E <> NULL -> es !! Edge.rev E = Some R ->
    orbit x0 (x :: vs) (sel R).

Lemma orbit_pred (x0 : ptr) (vs : list ptr) (x : ptr) :
  orbit x0 vs x ->
  forall y, y ∈ x :: vs ->
    y = x0 \/ exists z Ez Rz, z ∈ vs /\ es !! z = Some Ez /\ Edge.rev Ez <> NULL
                            /\ es !! Edge.rev Ez = Some Rz /\ y = sel Rz.
Proof.
  induction 1 as [|vs x E R Horb IH HE Hrev HR]; intros y Hy.
  - left. apply elem_of_cons in Hy as [->|Hy]; [done|]. by apply elem_of_nil in Hy.
  - apply elem_of_cons in Hy as [->|Hy].
    + right. exists x, E, R. split_and!; try done. apply elem_of_cons. by left.
    + destruct (IH y Hy) as [->|(z & Ez & Rz & Hz & Hrest)]; [by left|].
      right. exists z, Ez, Rz. split; [|done]. apply elem_of_cons. by right.
Qed.

Lemma orbit_dom (x0 : ptr) (vs : list ptr) (x : ptr) :
  orbit x0 vs x -> forall y, y ∈ vs -> y ∈ dom es.
Proof.
  induction 1 as [|vs x E R Horb IH HE Hrev HR]; intros y Hy.
  - by apply elem_of_nil in Hy.
  - apply elem_of_cons in Hy as [->|Hy]; [|by apply IH].
    apply elem_of_dom. eauto.
Qed.

Lemma orbit_current (x0 : ptr) (vs : list ptr) (x : ptr) :
  orbit x0 vs x -> is_Some (es !! x0) -> is_Some (es !! x).
Proof.
  induction 1 as [|vs x E R Horb IH HE Hrev HR]; intros H0; [done|].
  assert (HRdom : exists r, es !! r = Some R) by eauto.
  destruct HRdom as (r & Hr).
  destruct (sel_back r R Hr) as (X & HX & _). eauto.
Qed.

(** A walk started behind an open half-edge never comes back to a
    half-edge it has passed. *)
Lemma orbit_no_return (e0 : ptr) (E0 : Edge.t) (vs : list ptr) (x : ptr)
      (E R : Edge.t) :
  es !! e0 = Some E0 -> Edge.rev E0 = NULL ->
  orbit (sel E0) vs x -> x ∉ vs ->
  es !! x = Some E -> Edge.rev E <> NULL -> es !! Edge.rev E = Some R ->
  sel R ∉ x :: vs.
Proof.
  intros He0 Hopen Horb Hfresh HE Hrev HR Hin.
  destruct (twin_involution_elim es x E Htwin HE Hrev) as (R' & HR' & Hrr).
  assert (R' = R) as -> by congruence.
  destruct (orbit_pred _ _ _ Horb _ Hin) as [Heq|(z & Ez & Rz & Hz & HEz & Hzrev & HRz & Heq)].
  - assert (Edge.rev E = e0) as Hre by (eapply sel_inj; eauto).
    rewrite Hre in HR. assert (R = E0) as -> by congruence.
    rewrite Hopen in Hrr. subst x. unfold NULL in *. congruence.
  - assert (Edge.rev E = Edge.rev Ez) as Hre by (eapply sel_inj; eauto).
    rewrite Hre in HR. assert (Rz = R) as -> by congruence.
    destruct (twin_involution_elim es z Ez Htwin HEz Hzrev) as (R'' & HR'' & Hrr'').
    assert (R'' = R) as -> by congruence.
    apply Hfresh. congruence.
Qed.

(** The walk ends: within the fuel left it reaches an open half-edge. *)
Lemma perim_loop_terminates (e0 : ptr) (E0 : Edge.t) :
  es !! e0 = Some E0 -> Edge.rev E0 = NULL ->
  forall fuel vs x,
    orbit (sel E0) vs x -> NoDup vs -> x ∉ vs ->
    (size es < fuel + length vs)%nat ->
    exists r vs', perim_loop sel fuel es x = Some r
                  /\ orbit (sel E0) vs' r /\ edge_is_open es r.
Proof.
  intros He0 Hopen. induction fuel as [|k IH]; intros vs x Horb Hnd Hfresh Hfuel.
  - pose proof (nodup_within_dom_length es vs Hnd (orbit_dom _ _ _ Horb)). lia.
  - destruct (sel_back e0 E0 He0) as (X0 & HX0 & _).
    destruct (orbit_current _ _ _ Horb) as [E HE]; [eauto|].
    simpl. rewrite HE. simpl.
    destruct (N.eqb_spec (Edge.rev E) NULL) as [Hopen_x|Hrev].
    + exists x, vs. split_and!; [done|done|]. by exists E.
    + destruct (twin_closed x E HE Hrev) as (R & HR & _).
      rewrite HR. simpl.
      apply (IH (x :: vs)).
      * by eapply orbit_step.
      * by apply NoDup_cons_2.
      * by apply (orbit_no_return e0 E0 vs x E R).
      * simpl. lia.
Qed.

End PerimWalk.

Section PerimInverse.
Variable es : gmap N Edge.t.
Hypothesis Hnull : es !! NULL = None.
Hypothesis Htwin : map_Forall (twin_involution es) es.
Variables sel back : Edge.t -> ptr.
Hypothesis sel_back : forall e E,
  es !! e = Some E -> exists X, es !! sel E = Some X /\ back X = e.
Hypothesis back_sel : forall e E,
  es !! e = Some E -> exists X, es !! back E = Some X /\ sel X = e.

(** Walking back from where the [sel] walk stopped passes the twins of
    the half-edges it crossed, in reverse, and continues as a [back]
    walk from the start would. *)
Lemma perim_loop_unwind (fuel : nat) :
  forall x X r,
    es !! x = Some X ->
    perim_loop sel fuel es x = Some r ->
    forall f0 t,
      perim_loop back f0 es (back X) = Some t ->
      exists Rr f2, es !! r = Some Rr /\ perim_loop back f2 es (back Rr) = Some t.
Proof.
  induction fuel as [|k IH]; intros x X r HX Hrun f0 t Hback; [done|].
  simpl in Hrun. rewrite HX in Hrun. simpl in Hrun.
  destruct (N.eqb_spec (Edge.rev X) NULL) as [Hopen|Hrev].
  - injection Hrun as <-. eauto.
  - destruct (twin_involution_elim es x X Htwin HX Hrev) as (R & HR & Hrr).
    rewrite HR in Hrun. simpl in Hrun.
    destruct (sel_back _ R HR) as (X' & HX' & Hb').
    apply (IH _ X' r HX' Hrun (S f0) t).
    rewrite Hb'. simpl. rewrite HR. simpl.
    assert (Hx0 : x <> NULL).
    { intros ->. congruence. }
    rewrite Hrr. destruct (N.eqb_spec x NULL) as [|_]; [done|].
    by rewrite HX.
Qed.

(** From an open half-edge the [sel] walk ends on an open half-edge,
    and the [back] walk from there ends on the start. *)
Lemma perim_walk_inverse (e : ptr) (E : Edge.t) :
  es !! e = Some E -> Edge.rev E = NULL ->
  exists r Rr vs,
    perim_loop sel (S (size es)) es (sel E) = Some r
    /\ orbit es sel (sel E) vs r
    /\ es !! r = Some Rr /\ Edge.rev Rr = NULL
    /\ perim_loop back (S (size es)) es (back Rr) = Some e.
Proof.
  intros He Hopen.
  destruct (perim_loop_terminates es Hnull Htwin sel back sel_back e E He Hopen
              (S (size es)) [] (sel E)) as (r & vs & Hrun & Horb & (Rr & HRr & Hro)).
  { constructor. } { constructor. } { apply not_elem_of_nil. } { simpl. lia. }
  exists r, Rr, vs. split_and!; try done.
  destruct (sel_back e E He) as (X0 & HX0 & Hb0).
  destruct (perim_loop_unwind _ _ X0 r HX0 Hrun 1%nat e) as (Rr' & f2 & HRr' & Hback).
  { rewrite Hb0. simpl. rewrite He. simpl. rewrite Hopen. done. }
  assert (Rr' = Rr) as -> by congruence.
  destruct (perim_loop_terminates es Hnull Htwin back sel back_sel r Rr HRr Hro
              (S (size es)) [] (back Rr)) as (r' & vs' & Hrun' & _).
  { constructor. } { constructor. } { apply not_elem_of_nil. } { simpl. lia. }
  rewrite Hrun'. f_equal.
  pose proof (perim_loop_mono es back _ (f2 + S (size es)) _ _ Hback) as H1.
  pose proof (perim_loop_mono es back _ (f2 + S (size es)) _ _ Hrun') as H2.
  rewrite H1 in H2 by lia. injection H2; [done|lia].
Qed.

End PerimInverse.

(** Every half-edge a forward walk stands on starts at the vertex
    where the walk began. *)
Lemma orbit_next_origin (es : gmap N Edge.t) (x0 : ptr) (X0 : Edge.t)
      (vs : list ptr) (x : ptr) :
  twin_vertices_ok es ->
  es !! x0 = Some X0 ->
  orbit es Edge.next x0 vs x ->
  exists X, es !! x = Some X /\ Edge.vert X = Edge.vert X0.
Proof.
  intros Hinv HX0. induction 1 as [|vs x E R Horb IH HE Hrev HR]; [eauto|].
  destruct IH as (X & HX & Hv).
  destruct (twin_inv_elim es x E Hinv HE Hrev) as (R' & RN & HR' & _ & HRN & Hvert).
  assert (R' = R) as -> by congruence.
  exists RN. split; [done|]. congruence.
Qed.

#[local] Arguments perimNext_loop : simpl never.
#[local] Arguments perimPrev_loop : simpl never.
#[local] Arguments perim_loop : simpl never.

(** From an open half-edge, in a store with the ring and
    twin-involution invariants: the forward walk ends on an open
    half-edge from which the backward walk leads back, and conversely;
    when the twins join the same vertices, the half-edge reached starts
    at the head of the one the walk began with. *)
Lemma perimNext_open (es : gmap N Edge.t) (e : ptr) (E : Edge.t) :
  ring_twin_inv es ->
  es !! e = Some E -> Edge.rev E = NULL ->
  exists r Rr, perimNext es e = Some r
               /\ es !! r = Some Rr /\ Edge.rev Rr = NULL
               /\ perimPrev es r = Some e
               /\ (twin_vertices_ok es -> v1 es r = v2 es e).
Proof.
  intros (Hnull & Hring & Htwin) He Hopen.
  assert (Hnp : forall a A, es !! a = Some A ->
            exists X, es !! Edge.next A = Some X /\ Edge.prev X = a)
    by (intros; by eapply ring_inv_next).
  assert (Hpn : forall a A, es !! a = Some A ->
            exists X, es !! Edge.prev A = Some X /\ Edge.next X = a)
    by (intros; by eapply ring_inv_prev).
  destruct (perim_walk_inverse es Hnull Htwin Edge.next Edge.prev Hnp Hpn e E He Hopen)
    as (r & Rr & vs & Hrun & Horb & HRr & Hro & Hback).
  exists r, Rr. split_and!; try done.
  - unfold perimNext. rewrite He. simpl. rewrite Hopen. simpl.
    by rewrite perimNext_loop_eq.
  - unfold perimPrev. rewrite HRr. simpl. rewrite Hro. simpl.
    by rewrite perimPrev_loop_eq.
  - intros Hverts. destruct (Hnp e E He) as (X0 & HX0 & _).
    destruct (orbit_next_origin es _ X0 vs r Hverts HX0 Horb) as (Rr' & HRr' & Hv).
    assert (Rr' = Rr) as -> by congruence.
    unfold v1, v2. rewrite HRr, He. simpl. rewrite HX0. simpl. by rewrite Hv.
Qed.

Lemma perimPrev_open (es : gmap N Edge.t) (e : ptr) (E : Edge.t) :
  ring_twin_inv es ->
  es !! e = Some E -> Edge.rev E = NULL ->
  exists q Q, perimPrev es e = Some q
              /\ es !! q = Some Q /\ Edge.rev Q = NULL
              /\ perimNext es q = Some e.
Proof.
  intros (Hnull & Hring & Htwin) He Hopen.
  assert (Hnp : forall a A, es !! a = Some A ->
            exists X, es !! Edge.next A = Some X /\ Edge.prev X = a)
    by (intros; by eapply ring_inv_next).
  assert (Hpn : forall a A, es !! a = Some A ->
            exists X, es !! Edge.prev A = Some X /\ Edge.next X = a)
    by (intros; by eapply ring_inv_prev).
  destruct (perim_walk_inverse es Hnull Htwin Edge.prev Edge.next Hpn Hnp e E He Hopen)
    as (q & Q & vs & Hrun & Horb & HQ & Hqo & Hback).
  exists q, Q. split_and!; try done.
  - unfold perimPrev. rewrite He. simpl. rewrite Hopen. simpl.
    by rewrite perimPrev_loop_eq.
  - unfold perimNext. rewrite HQ. simpl. rewrite Hqo. simpl.
    by rewrite perimNext_loop_eq.
Qed.

(** C10, as stated, fails: the ring and twin-involution invariants do
    not fix where the half-edge returned by [perimNext] starts.  In
    [two_triangles_apart] both invariants hold, half-edge 1 is open and
    its head is vertex 101, and [perimNext] returns the open half-edge
    5, which starts at vertex 201. *)
Lemma perimNext_origin_needs_twin_vertices :
  let es := two_triangles_apart in
  ring_twin_inv es
  /\ edge_is_open es 1%N
  /\ perimNext es 1%N = Some 5%N
  /\ edge_is_open es 5%N
  /\ v1 es 5%N = Some 201
  /\ v2 es 1%N = Some 101
  /\ perimPrev es 5%N = Some 1%N.
Proof.
  cbv zeta. split_and!.
  - by apply (bool_decide_unpack _); vm_compute.
  - eexists. split; vm_compute; reflexivity.
  - vm_compute. reflexivity.
  - eexists. split; vm_compute; reflexivity.
  - vm_compute. reflexivity.
  - vm_compute. reflexivity.
  - vm_compute. reflexivity.
Qed.

(** C10, amended.  A half-edge with a twin has no perimeter
    neighbours: [perimNext] and [perimPrev] return null, whatever the
    rest of the store.  In a store of half-edges satisfying the ring
    and twin-involution invariants, [perimNext] of an open half-edge
    [e] returns (its loop ends) an open half-edge that [perimPrev]
    takes back to [e], and symmetrically [perimPrev e] is an open
    half-edge that [perimNext] takes back to [e].  When moreover the
    twins join the same two vertices in opposite directions
    ([self.origin == twin.next.origin]), the half-edge [perimNext e]
    starts at the head vertex of [e], and [perimPrev e] ends where [e]
    starts. *)
Theorem perimNext_perimPrev_spec (es : gmap N Edge.t) (e : ptr) (E : Edge.t) :
  es !! e = Some E ->
  (Edge.rev E <> NULL ->
     perimNext es e = Some NULL /\ perimPrev es e = Some NULL)
  /\ (ring_twin_inv es -> Edge.rev E = NULL ->
        (exists r Rr, perimNext es e = Some r
                      /\ es !! r = Some Rr /\ Edge.rev Rr = NULL
                      /\ perimPrev es r = Some e
                      /\ (twin_vertices_ok es -> v1 es r = v2 es e))
        /\ (exists q Q, perimPrev es e = Some q
                        /\ es !! q = Some Q /\ Edge.rev Q = NULL
                        /\ perimNext es q = Some e
                        /\ (twin_vertices_ok es -> v2 es q = v1 es e))).
Proof.
  intros He. split.
  - intros Hrev. unfold perimNext, perimPrev. rewrite He. simpl.
    destruct (N.eqb_spec (Edge.rev E) NULL); done.
  - intros Hinv Hopen. split.
    + by apply (perimNext_open es e E).
    + destruct (perimPrev_open es e E Hinv He Hopen) as (q & Q & Hq & HQ & Hqo & Hnext).
      exists q, Q. split_and!; try done.
      intros Hverts.
      destruct (perimNext_open es q Q Hinv HQ Hqo) as (r & Rr & Hr & _ & _ & _ & Hv).
      assert (r = e) as -> by congruence.
      symmetry. by apply Hv.
Qed.

Lemma two_triangles_inv : halfedge_inv two_triangles.
Proof. by apply (bool_decide_unpack _); vm_compute. Qed.

Lemma perimNext_perimPrev_spec_witness :
  let es := two_triangles in
  (perimNext es 2%N = Some NULL /\ perimPrev es 2%N = Some NULL)
  /\ (exists r Rr, perimNext es 3%N = Some r
                   /\ es !! r = Some Rr /\ Edge.rev Rr = NULL
                   /\ perimPrev es r = Some 3%N
                   /\ v1 es r = v2 es 3%N)
  /\ (exists q Q, perimPrev es 3%N = Some q
                  /\ es !! q = Some Q /\ Edge.rev Q = NULL
                  /\ perimNext es q = Some 3%N
                  /\ v2 es q = v1 es 3%N).
Proof.
  cbv zeta.
  assert (Hinv : ring_twin_inv two_triangles).
  { apply (bool_decide_unpack _). vm_compute. exact I. }
  assert (Hverts : twin_vertices_ok two_triangles).
  { apply two_triangles_inv. }
  assert (H2 : two_triangles !! 2%N
               = Some (Edge.mk Tagable.empty 101 10%N 1%N 3%N 4%N)).
  { vm_compute. reflexivity. }
  assert (H3 : two_triangles !! 3%N
               = Some (Edge.mk Tagable.empty 102 10%N 2%N 1%N NULL)).
  { vm_compute. reflexivity. }
  split.
  - apply (perimNext_perimPrev_spec two_triangles 2%N _ H2). simpl. discriminate.
  - destruct (perimNext_perimPrev_spec two_triangles 3%N _ H3) as [_ Hopen].
    destruct (Hopen Hinv eq_refl)
      as [(r & Rr & Hr & HRr & Hro & Hback & Hv) (q & Q & Hq & HQ & Hqo & Hfwd & Hw)].
    split.
    + exists r, Rr. split_and!; try done. by apply Hv.
    + exists q, Q. split_and!; try done. by apply Hw.
Defined.

Example perimNext_two_triangles :
  perimNext two_triangles 1%N = Some 5%N
  /\ perimNext two_triangles 5%N = Some 6%N
  /\ perimNext two_triangles 6%N = Some 3%N
  /\ perimNext two_triangles 3%N = Some 1%N
  /\ perimNext two_triangles 2%N = Some NULL
  /\ perimPrev two_triangles 5%N = Some 1%N.
Proof. vm_compute. repeat split. Qed.

(** ** The edge-order comparator *)

(** C6, as stated, fails.  Take a [compareAngles] that reports "the
    angle of [a] is smaller" (-1) on the pair below while
    [antiClockwiseAngle] yields 2 for [a] and 1 for [b] (the
    disagreement the comparator itself reports on [std::cerr]).  The
    comparator answers [false] for [(a, b)] and [true] for [(b, a)]: the
    order follows the two angles, not the predicate. *)
Lemma Cmp_follows_antiClockwiseAngle_not_compareAngles :
  let compareAngles := fun _ _ _ _ : Geom.vector3 => -1 in
  let antiClockwiseAngle := fun (_ v _ : Geom.vector3) => Geom.x v in
  let edge_dir := Geom.mkVector 0 0 1 in
  let base_dir := Geom.mkVector 1 0 0 in
  let a := EdgeOrderData.mk 0 false (Geom.mkVector 2 0 0) 1%N in
  let b := EdgeOrderData.mk 0 false (Geom.mkVector 1 0 0) 2%N in
  compareAngles edge_dir base_dir (EdgeOrderData.face_dir a) (EdgeOrderData.face_dir b) = -1
  /\ EdgeOrderData.Cmp compareAngles antiClockwiseAngle edge_dir base_dir a b = false
  /\ EdgeOrderData.Cmp compareAngles antiClockwiseAngle edge_dir base_dir b a = true
  /\ snd (EdgeOrderData.Cmp_v compareAngles antiClockwiseAngle edge_dir base_dir a b) = true.
Proof. vm_compute. repeat split. Qed.

(** C6, amended: the result of the comparator is fixed by the two
    values of [antiClockwiseAngle]; [compareAngles] only decides
    whether the diagnostic line is written.  [a] does not precede [b]
    when [db < da]; it precedes [b] when [da < db]; otherwise the
    tie-break applies: a reversed entry precedes a forward one and,
    for equal orientation, the smaller group id precedes. *)
Theorem Cmp_by_antiClockwiseAngle
    (compareAngles compareAngles' :
       Geom.vector3 -> Geom.vector3 -> Geom.vector3 -> Geom.vector3 -> Z)
    (antiClockwiseAngle : Geom.vector3 -> Geom.vector3 -> Geom.vector3 -> float)
    (edge_dir base_dir : Geom.vector3) (a b : EdgeOrderData.t) :
  let da := antiClockwiseAngle base_dir (EdgeOrderData.face_dir a) edge_dir in
  let db := antiClockwiseAngle base_dir (EdgeOrderData.face_dir b) edge_dir in
  EdgeOrderData.Cmp compareAngles antiClockwiseAngle edge_dir base_dir a b
  = (if (db <? da)%float then false
     else if (da <? db)%float then true
     else EdgeOrderData.tie_break a b)
  /\ EdgeOrderData.Cmp compareAngles antiClockwiseAngle edge_dir base_dir a b
     = EdgeOrderData.Cmp compareAngles' antiClockwiseAngle edge_dir base_dir a b.
Proof.
  cbv zeta. unfold EdgeOrderData.Cmp, EdgeOrderData.Cmp_v, EdgeOrderData.tie_break.
  cbn [fst].
  destruct (PrimFloat.ltb
              (antiClockwiseAngle base_dir (EdgeOrderData.face_dir a) edge_dir)
              (antiClockwiseAngle base_dir (EdgeOrderData.face_dir b) edge_dir)),
           (PrimFloat.ltb
              (antiClockwiseAngle base_dir (EdgeOrderData.face_dir b) edge_dir)
              (antiClockwiseAngle base_dir (EdgeOrderData.face_dir a) edge_dir));
    split; try reflexivity;
    destruct (EdgeOrderData.is_reversed a), (EdgeOrderData.is_reversed b);
    reflexivity.
Qed.

(** ** Computations on the store: basic facts *)

Lemma bind_Ok {A B : Type} (m : M A) (k : A -> M B) (s s' : store) (a : A) :
  m s = Ok (a, s') -> (m ≫= k) s = k a s'.
Proof. intros H. unfold mbind, M_bind. by rewrite H. Qed.

Lemma bind_AssertionFailed {A B : Type} (m : M A) (k : A -> M B) (s : store) :
  m s = AssertionFailed -> (m ≫= k) s = AssertionFailed.
Proof. intros H. unfold mbind, M_bind. by rewrite H. Qed.

Lemma get_edge_Ok (a : ptr) (E : Edge.t) (s : store) :
  st_edges s !! a = Some E -> get_edge a s = Ok (E, s).
Proof. intros H. unfold get_edge. by rewrite H. Qed.

Lemma upd_edge_Ok (a : ptr) (f : Edge.t -> Edge.t) (E : Edge.t) (s : store) :
  st_edges s !! a = Some E ->
  upd_edge a f s = Ok (tt, set_edges <[a := f E]> s).
Proof. intros H. unfold upd_edge. by rewrite H. Qed.

Lemma get_face_Ok (a : ptr) (F : Face.t) (s : store) :
  st_faces s !! a = Some F -> get_face a s = Ok (F, s).
Proof. intros H. unfold get_face. by rewrite H. Qed.

Lemma upd_face_Ok (a : ptr) (f : Face.t -> Face.t) (F : Face.t) (s : store) :
  st_faces s !! a = Some F ->
  upd_face a f s = Ok (tt, set_faces <[a := f F]> s).
Proof. intros H. unfold upd_face. by rewrite H. Qed.

(** ** initEdges *)

Lemma rev_cleared_refl (es : gmap N Edge.t) : rev_cleared es es.
Proof. intros a. by left. Qed.

Lemma rev_cleared_trans (es1 es2 es3 : gmap N Edge.t) :
  rev_cleared es1 es2 -> rev_cleared es2 es3 -> rev_cleared es1 es3.
Proof.
  intros H12 H23 a.
  destruct (H23 a) as [H|(E2 & HE2 & H3)].
  - rewrite H. apply H12.
  - destruct (H12 a) as [H|(E1 & HE1 & H2)].
    + right. exists E2. split; [congruence|done].
    + right. exists E1. split; [done|]. rewrite H3. f_equal.
      assert (E2 = Edge.with_rev NULL E1) as -> by congruence. done.
Qed.

Lemma rev_cleared_insert (es : gmap N Edge.t) (a : ptr) (E : Edge.t) :
  es !! a = Some E -> rev_cleared es (<[a := Edge.with_rev NULL E]> es).
Proof.
  intros HE b. destruct (decide (a = b)) as [->|Hne].
  - right. exists E. by rewrite lookup_insert_eq.
  - left. by rewrite lookup_insert_ne.
Qed.

Lemma rev_cleared_lookup (es es' : gmap N Edge.t) (a : ptr) (E : Edge.t) :
  rev_cleared es es' -> es !! a = Some E ->
  exists E', es' !! a = Some E'
             /\ Edge.next E' = Edge.next E /\ Edge.prev E' = Edge.prev E
             /\ Edge.vert E' = Edge.vert E /\ Edge.face E' = Edge.face E
             /\ Edge.tag E' = Edge.tag E
             /\ (Edge.rev E' = Edge.rev E \/ Edge.rev E' = NULL).
Proof.
  intros Hc HE. destruct (Hc a) as [H|(E1 & HE1 & H)].
  - exists E. rewrite H. split_and!; try done. by left.
  - assert (E1 = E) as -> by congruence.
    exists (Edge.with_rev NULL E). split_and!; try done. by right.
Qed.

Lemma rev_cleared_lookup_inv (es es' : gmap N Edge.t) (a : ptr) (E' : Edge.t) :
  rev_cleared es es' -> es' !! a = Some E' ->
  exists E, es !! a = Some E /\ Edge.next E' = Edge.next E.
Proof.
  intros Hc HE'. destruct (Hc a) as [H|(E1 & HE1 & H)].
  - exists E'. split; [congruence|done].
  - exists E1. split; [done|]. assert (E' = Edge.with_rev NULL E1) as -> by congruence. done.
Qed.

Lemma rev_cleared_null (es es' : gmap N Edge.t) (a : ptr) :
  rev_cleared es es' -> Edge.rev <$> es !! a = Some NULL ->
  Edge.rev <$> es' !! a = Some NULL.
Proof.
  intros Hc H. destruct (es !! a) as [E|] eqn:HE; [|done].
  destruct (rev_cleared_lookup _ _ _ _ Hc HE) as (E' & HE' & _ & _ & _ & _ & _ & Hr).
  rewrite HE'. simpl in *. f_equal. destruct Hr as [Hr|Hr]; congruence.
Qed.

Lemma rev_cleared_dom (es es' : gmap N Edge.t) :
  rev_cleared es es' -> dom es' = dom es.
Proof.
  intros Hc. apply set_eq. intros a. rewrite !elem_of_dom.
  destruct (Hc a) as [H|(E & HE & H)].
  - by rewrite H.
  - rewrite HE, H. split; eauto.
Qed.

Lemma rev_cleared_size (es es' : gmap N Edge.t) :
  rev_cleared es es' -> size es' = size es.
Proof. intros Hc. by rewrite <- !size_dom, (rev_cleared_dom _ _ Hc). Qed.

(** Clearing twin pointers does not change the rings. *)
Lemma ring_from_rev_cleared (es es' : gmap N Edge.t) (fuel : nat) (first e : ptr) :
  rev_cleared es es' -> ring_from fuel es' first e = ring_from fuel es first e.
Proof.
  intros Hc. revert e. induction fuel as [|k IH]; intros e; [done|]. simpl.
  destruct (es !! e) as [E|] eqn:HE.
  - destruct (rev_cleared_lookup _ _ _ _ Hc HE) as (E' & HE' & Hn & _).
    rewrite HE'. simpl. rewrite Hn.
    destruct (Edge.next E =? first)%N; [done|]. by rewrite IH.
  - destruct (es' !! e) as [E'|] eqn:HE'; [|done].
    destruct (rev_cleared_lookup_inv _ _ _ _ Hc HE') as (E & HE2 & _). congruence.
Qed.

Lemma twins_valid_rev_cleared (es es' : gmap N Edge.t) :
  twins_valid es -> rev_cleared es es' -> twins_valid es'.
Proof.
  intros Hv Hc a E' HE' Hrev.
  destruct (Hc a) as [H|(E & HE & H)].
  - rewrite H in HE'. destruct (Hv a E' HE' Hrev) as [R HR].
    destruct (rev_cleared_lookup _ _ _ _ Hc HR) as (R' & HR' & _). eauto.
  - assert (E' = Edge.with_rev NULL E) as -> by congruence. done.
Qed.

(** One pass of the loop of [initEdges] over a ring that closes: it
    ends, changes nothing but twin pointers, which it sets to null, and
    leaves the successor of every half-edge of the ring without twin. *)
Lemma initEdges_ring_ok (fuel : nat) :
  forall (first e : ptr) (st : FaceStitcher.t) (s : store) (l : list ptr),
    ring_from fuel (st_edges s) first e = Some l ->
    is_Some (st_edges s !! first) ->
    twins_valid (st_edges s) ->
    exists st' s',
      FaceStitcher.initEdges_ring fuel first e st s = Ok (st', s')
      /\ rev_cleared (st_edges s) (st_edges s')
      /\ st_faces s' = st_faces s
      /\ (forall x, x ∈ l ->
            exists X, st_edges s !! x = Some X
                      /\ Edge.rev <$> st_edges s' !! Edge.next X = Some NULL).
Proof.
  induction fuel as [|k IH]; intros first e st s l Hring Hfirst Hvalid; [done|].
  simpl in Hring. destruct (st_edges s !! e) as [E|] eqn:HE; [|done]. simpl in Hring.
  assert (exists E2, st_edges s !! Edge.next E = Some E2) as [E2 HE2].
  { destruct (N.eqb_spec (Edge.next E) first) as [->|Hne]; [by destruct Hfirst; eauto|].
    destruct k as [|k']; [done|]. simpl in Hring.
    destruct (st_edges s !! Edge.next E) as [E2|]; [eauto|done]. }
  cbn [FaceStitcher.initEdges_ring].
  rewrite (bind_Ok _ _ _ _ _ (get_edge_Ok _ _ _ HE)).
  rewrite (bind_Ok _ _ _ _ _ (get_edge_Ok _ _ _ HE2)).
  rewrite (bind_Ok _ _ _ _ _ (get_edge_Ok _ _ _ HE2)).
  set (st1 := FaceStitcher.push_edge _ e st).
  (* the store after the twin pointers around [next e] are cleared *)
  assert (exists s1,
    (if negb (Edge.rev E2 =? NULL)%N
     then upd_edge (Edge.rev E2) (Edge.with_rev NULL);;
          upd_edge (Edge.next E) (Edge.with_rev NULL)
     else mret tt) s = Ok (tt, s1)
    /\ rev_cleared (st_edges s) (st_edges s1)
    /\ st_faces s1 = st_faces s
    /\ Edge.rev <$> st_edges s1 !! Edge.next E = Some NULL) as (s1 & Hs1 & Hc1 & Hf1 & Hn1).
  { destruct (N.eqb_spec (Edge.rev E2) NULL) as [Hnull|Hrev]; simpl.
    - exists s. split_and!; [done|apply rev_cleared_refl|done|].
      rewrite HE2. simpl. by rewrite Hnull.
    - destruct (Hvalid _ _ HE2 Hrev) as [R HR].
      rewrite (bind_Ok _ _ _ _ _ (upd_edge_Ok _ _ _ _ HR)).
      set (sa := set_edges _ s).
      assert (Hca : rev_cleared (st_edges s) (st_edges sa))
        by (by apply rev_cleared_insert).
      destruct (rev_cleared_lookup _ _ _ _ Hca HE2) as (E2' & HE2' & _).
      rewrite (upd_edge_Ok _ _ _ _ HE2').
      eexists. split_and!; [done| |done|].
      + eapply rev_cleared_trans; [exact Hca|]. by apply rev_cleared_insert.
      + simpl. by rewrite lookup_insert_eq. }
  rewrite (bind_Ok _ _ _ _ _ Hs1).
  destruct (N.eqb_spec (Edge.next E) first) as [Heq|Hne].
  - injection Hring as <-. exists st1, s1. split_and!; try done.
    intros x Hx. apply list_elem_of_singleton in Hx as ->. eauto.
  - destruct (ring_from k (st_edges s) first (Edge.next E)) as [l'|] eqn:Hring'; [|done].
    injection Hring as <-.
    destruct (IH first (Edge.next E) st1 s1 l') as (st' & s' & Hrun & Hc & Hf & Hl).
    + by rewrite (ring_from_rev_cleared _ _ _ _ _ Hc1).
    + destruct Hfirst as [X HX].
      destruct (rev_cleared_lookup _ _ _ _ Hc1 HX) as (X' & HX' & _). eauto.
    + by eapply twins_valid_rev_cleared.
    + exists st', s'. split_and!; try done.
      * by eapply rev_cleared_trans.
      * congruence.
      * intros x Hx. apply elem_of_cons in Hx as [->|Hx].
        -- exists E. split; [done|]. by eapply rev_cleared_null.
        -- destruct (Hl x Hx) as (X1 & HX1 & Hr).
           destruct (rev_cleared_lookup_inv _ _ _ _ Hc1 HX1) as (X & HX & Hn).
           exists X. split; [done|]. by rewrite <- Hn.
Qed.

Lemma ring_from_succ (es : gmap N Edge.t) (fuel : nat) :
  forall (first e : ptr) (l : list ptr),
    ring_from fuel es first e = Some l ->
    (forall y, y ∈ l ->
       y = e \/ exists x X, x ∈ l /\ es !! x = Some X /\ Edge.next X = y)
    /\ (exists x X, x ∈ l /\ es !! x = Some X /\ Edge.next X = first).
Proof.
  induction fuel as [|k IH]; intros first e l Hring; [done|].
  simpl in Hring. destruct (es !! e) as [E|] eqn:HE; [|done]. simpl in Hring.
  destruct (N.eqb_spec (Edge.next E) first) as [Heq|Hne].
  - injection Hring as <-. split.
    + intros y Hy. left. by apply list_elem_of_singleton in Hy.
    + exists e, E. split_and!; try done. by apply list_elem_of_singleton.
  - destruct (ring_from k es first (Edge.next E)) as [l'|] eqn:Hring'; [|done].
    injection Hring as <-.
    destruct (IH _ _ _ Hring') as [Hsucc (x & X & Hx & HX & Hlast)]. split.
    + intros y Hy. apply elem_of_cons in Hy as [->|Hy]; [by left|]. right.
      destruct (Hsucc y Hy) as [->|(x' & X' & Hx' & HX' & Hn)].
      * exists e, E. split_and!; try done. apply elem_of_cons. by left.
      * exists x', X'. split_and!; try done. apply elem_of_cons. by right.
    + exists x, X. split_and!; try done. apply elem_of_cons. by right.
Qed.

(** In a closed ring every half-edge is the successor of one of the ring. *)
Lemma ring_from_all_successors (es : gmap N Edge.t) (fuel : nat)
      (first : ptr) (l : list ptr) :
  ring_from fuel es first first = Some l ->
  forall y, y ∈ l -> exists x X, x ∈ l /\ es !! x = Some X /\ Edge.next X = y.
Proof.
  intros Hring y Hy.
  destruct (ring_from_succ _ _ _ _ _ Hring) as [Hsucc Hlast].
  destruct (Hsucc y Hy) as [->|H]; [exact Hlast|exact H].
Qed.

Lemma ids_assigned_refl (fs : gmap N Face.t) : ids_assigned fs fs.
Proof. intros a. by left. Qed.

Lemma ids_assigned_trans (fs1 fs2 fs3 : gmap N Face.t) :
  ids_assigned fs1 fs2 -> ids_assigned fs2 fs3 -> ids_assigned fs1 fs3.
Proof.
  intros H12 H23 a.
  destruct (H23 a) as [H|(F2 & i & HF2 & H3)].
  - rewrite H. apply H12.
  - destruct (H12 a) as [H|(F1 & j & HF1 & H2)].
    + right. exists F2, i. split; [congruence|done].
    + right. exists F1, i. split; [done|]. rewrite H3. f_equal.
      assert (F2 = Face.with_id j F1) as -> by congruence. done.
Qed.

Lemma ids_assigned_insert (fs : gmap N Face.t) (a : ptr) (F : Face.t) (i : Z) :
  fs !! a = Some F -> ids_assigned fs (<[a := Face.with_id i F]> fs).
Proof.
  intros HF b. destruct (decide (a = b)) as [->|Hne].
  - right. exists F, i. by rewrite lookup_insert_eq.
  - left. by rewrite lookup_insert_ne.
Qed.

Lemma ids_assigned_lookup (fs fs' : gmap N Face.t) (a : ptr) :
  ids_assigned fs fs' ->
  Face.edge <$> fs' !! a = Face.edge <$> fs !! a
  /\ Face.mesh <$> fs' !! a = Face.mesh <$> fs !! a.
Proof.
  intros Hi. destruct (Hi a) as [H|(F & i & HF & H)].
  - by rewrite H.
  - by rewrite H, HF.
Qed.

Lemma face_ring_preserved (s s' : store) (f : ptr) :
  rev_cleared (st_edges s) (st_edges s') ->
  ids_assigned (st_faces s) (st_faces s') ->
  face_ring s' f = face_ring s f.
Proof.
  intros Hc Hi. unfold face_ring.
  destruct (ids_assigned_lookup _ _ f Hi) as [He _].
  destruct (st_faces s' !! f) as [F'|], (st_faces s !! f) as [F|]; try done.
  simpl in *. injection He as ->.
  by rewrite (rev_cleared_size _ _ Hc), (ring_from_rev_cleared _ _ _ _ _ Hc).
Qed.

Lemma face_owned_preserved (s s' : store) (f : ptr) :
  ids_assigned (st_faces s) (st_faces s') ->
  face_owned s' f <-> face_owned s f.
Proof.
  intros Hi. unfold face_owned.
  destruct (ids_assigned_lookup _ _ f Hi) as [_ Hm].
  destruct (st_faces s' !! f) as [F'|], (st_faces s !! f) as [F|]; try done.
  simpl in Hm. injection Hm as Hm.
  split; intros (X & [= <-] & HX); eexists; split; eauto; congruence.
Qed.

Lemma faces_ready_preserved (s s' : store) (faces : list ptr) :
  rev_cleared (st_edges s) (st_edges s') ->
  ids_assigned (st_faces s) (st_faces s') ->
  faces_ready s faces -> faces_ready s' faces.
Proof.
  intros Hc Hi Hready. eapply Forall_impl; [exact Hready|].
  intros f Hf. simpl. by rewrite (face_ring_preserved _ _ _ Hc Hi).
Qed.

(** The loop of [initEdges] over the faces: it stops on the assertion
    at the first face that belongs to a mesh, and otherwise runs to the
    end. *)
Lemma initEdges_faces_ok (faces : list ptr) :
  forall (c : Z) (st : FaceStitcher.t) (s : store),
    faces_ready s faces ->
    twins_valid (st_edges s) ->
    0 <= c -> c + Z.of_nat (length faces) < SizeT.modulus ->
    (Exists (face_owned s) faces
     /\ FaceStitcher.initEdges_faces faces c st s = AssertionFailed)
    \/ (Forall (fun f => ~ face_owned s f) faces
        /\ exists st' s',
            FaceStitcher.initEdges_faces faces c st s
            = Ok ((c + Z.of_nat (length faces), st'), s')
            /\ rev_cleared (st_edges s) (st_edges s')
            /\ ids_assigned (st_faces s) (st_faces s')
            /\ (forall f l e, f ∈ faces -> face_ring s f = Some l -> e ∈ l ->
                  Edge.rev <$> st_edges s' !! e = Some NULL)
            /\ (forall a, a ∉ faces -> st_faces s' !! a = st_faces s !! a)
            /\ (NoDup faces -> forall i f, faces !! i = Some f ->
                  Face.id <$> st_faces s' !! f = Some (c + Z.of_nat i))).
Proof.
  induction faces as [|f rest IH]; intros c st s Hready Hvalid Hc0 Hc.
  { right. split; [constructor|]. exists st, s. simpl.
    rewrite Z.add_0_r. split_and!; try done.
    - apply rev_cleared_refl.
    - apply ids_assigned_refl.
    - intros f l e Hf. by apply elem_of_nil in Hf. }
  apply Forall_cons_1 in Hready as [Hf Hrest].
  destruct Hf as [l Hl]. pose proof Hl as Hl0. unfold face_ring in Hl.
  destruct (st_faces s !! f) as [F|] eqn:HF; [|done]. simpl in Hl.
  cbn [FaceStitcher.initEdges_faces].
  rewrite (bind_Ok _ _ _ _ _ (get_face_Ok _ _ _ HF)).
  destruct (N.eqb_spec (Face.mesh F) NULL) as [Hmesh|Hmesh].
  2:{ left. split.
      - apply Exists_cons_hd. by exists F.
      - apply bind_AssertionFailed. unfold CARVE_ASSERT.
        by destruct (N.eqb_spec (Face.mesh F) NULL). }
  rewrite (bind_Ok (CARVE_ASSERT true) _ s s tt eq_refl).
  rewrite (bind_Ok _ _ _ _ _ (upd_face_Ok _ _ _ _ HF)).
  set (s1 := set_faces _ s).
  assert (HF1 : st_faces s1 !! f = Some (Face.with_id c F))
    by (simpl; by rewrite lookup_insert_eq).
  rewrite (bind_Ok _ _ _ _ _ (get_face_Ok _ _ _ HF1)).
  unfold get_store. rewrite (bind_Ok _ _ s1 s1 s1 eq_refl).
  change (Face.edge (Face.with_id c F)) with (Face.edge F).
  change (st_edges s1) with (st_edges s).
  assert (Hfirst : is_Some (st_edges s !! Face.edge F)).
  { destruct (size (st_edges s)); [done|]. simpl in Hl.
    destruct (st_edges s !! Face.edge F); [eauto|done]. }
  destruct (initEdges_ring_ok _ _ _ st s1 l Hl Hfirst Hvalid)
    as (st2 & s2 & Hrun & Hc12 & Hf12 & Hcleared).
  rewrite (bind_Ok _ _ _ _ _ Hrun).
  assert (Hi02 : ids_assigned (st_faces s) (st_faces s2)).
  { rewrite Hf12. simpl. by apply ids_assigned_insert. }
  change (st_edges s1) with (st_edges s) in Hc12.
  assert (Hw : SizeT.wrap (c + 1) = c + 1).
  { apply wrap_small. simpl length in Hc. lia. }
  rewrite Hw.
  assert (Hf_not_owned : ~ face_owned s f).
  { intros (F' & HF' & Hm). congruence. }
  destruct (IH (c + 1) st2 s2) as [[Hex Hfail]|[Hall (st' & s' & Hok & Hc2 & Hi2 & Hrev & Hframe & Hids)]].
  - by eapply faces_ready_preserved.
  - by eapply twins_valid_rev_cleared.
  - lia.
  - simpl length in Hc. lia.
  - left. split; [|done]. apply Exists_cons_tl.
    eapply Exists_impl; [exact Hex|]. intros g Hg.
    by apply (face_owned_preserved s s2 g Hi02).
  - right. split.
    { constructor; [done|].
      eapply Forall_impl; [exact Hall|]. intros g Hg Hown. apply Hg.
      by apply (face_owned_preserved s s2 g Hi02). }
    exists st', s'. split_and!.
    + rewrite Hok. do 3 f_equal. simpl length. lia.
    + by eapply rev_cleared_trans.
    + by eapply ids_assigned_trans.
    + intros g lg e Hg Hlg He.
      destruct (decide (g ∈ rest)) as [Hin|Hnin].
      * apply (Hrev g lg e Hin); [|done].
        by rewrite (face_ring_preserved s s2 g Hc12 Hi02).
      * apply elem_of_cons in Hg as [->|Hg]; [|done].
        assert (lg = l) as -> by congruence.
        destruct (ring_from_all_successors _ _ _ _ Hl e He) as (x & X & Hx & HX & Hn).
        destruct (Hcleared x Hx) as (X' & HX' & Hnull).
        change (st_edges s1) with (st_edges s) in HX'.
        assert (X' = X) as -> by congruence. rewrite Hn in Hnull.
        by eapply rev_cleared_null.
    + intros a Ha. apply not_elem_of_cons in Ha as [Hne Ha].
      rewrite (Hframe a Ha), Hf12. simpl. by rewrite lookup_insert_ne.
    + intros Hnd i g Hi.
      pose proof (NoDup_cons_1_1 _ _ Hnd) as Hnin.
      apply NoDup_cons_1_2 in Hnd.
      destruct i as [|j]; simpl in Hi.
      * injection Hi as <-. rewrite (Hframe f Hnin), Hf12, HF1. simpl.
        f_equal. lia.
      * rewrite (Hids Hnd j g Hi). f_equal. lia.
Qed.

Lemma Exists_Forall_not {A : Type} (P : A -> Prop) (l : list A) :
  Exists P l -> Forall (fun x => ~ P x) l -> False.
Proof.
  intros Hex Hall. apply Exists_exists in Hex as (x & Hx & HP).
  rewrite Forall_forall in Hall. by apply (Hall x Hx).
Qed.

Example initEdges_two_triangles :
  match FaceStitcher.initEdges [10%N; 11%N] FaceStitcher.empty two_triangles_store with
  | Ok (st', s') =>
      Edge.rev <$> st_edges s' !! 2%N = Some NULL
      /\ Edge.rev <$> st_edges s' !! 4%N = Some NULL
      /\ Face.id <$> st_faces s' !! 10%N = Some 0
      /\ Face.id <$> st_faces s' !! 11%N = Some 1
      /\ FaceStitcher.edges st' !! (101, 102) = Some [2%N]
      /\ FaceStitcher.edges st' !! (102, 101) = Some [4%N]
  | _ => False
  end.
Proof. vm_compute. repeat split. Qed.

(** ** Growth of the store *)

Lemma bind_Ok_inv {A B : Type} (m : M A) (k : A -> M B) (s s' : store) (b : B) :
  (m ≫= k) s = Ok (b, s') ->
  exists a s1, m s = Ok (a, s1) /\ k a s1 = Ok (b, s').
Proof.
  unfold mbind, M_bind. destruct (m s) as [[a s1]| |]; [eauto|done|done].
Qed.

Lemma ext_refl (s : store) : store_wf s -> ext s s.
Proof.
  intros Hwf. split; eauto; try lia.
  intros a m Hm. exists m. by split_and!.
Qed.

Lemma ext_trans (s1 s2 s3 : store) : ext s1 s2 -> ext s2 s3 -> ext s1 s3.
Proof.
  intros H12 H23. split.
  - apply H23.
  - pose proof (ext_last _ _ H12). pose proof (ext_last _ _ H23). lia.
  - intros a E HE.
    destruct (ext_edges_old _ _ H12 a E HE) as (E2 & HE2 & Ht2).
    destruct (ext_edges_old _ _ H23 a E2 HE2) as (E3 & HE3 & Ht3).
    exists E3. split; [done|congruence].
  - intros a E3 HE3.
    pose proof (ext_last _ _ H12). pose proof (ext_last _ _ H23).
    destruct (ext_edges_new _ _ H23 a E3 HE3) as [[E2 HE2]|[Hc Ht]].
    + destruct (ext_edges_new _ _ H12 a E2 HE2) as [?|[Hc Ht]]; [by left|].
      right. destruct (ext_edges_old _ _ H23 a E2 HE2) as (E3' & HE3' & Ht3).
      unfold created in *. split; [lia|congruence].
    + right. unfold created in *. split; [lia|done].
  - intros a F HF.
    destruct (ext_faces_old _ _ H12 a F HF) as (F2 & HF2 & Ht2).
    destruct (ext_faces_old _ _ H23 a F2 HF2) as (F3 & HF3 & Ht3).
    exists F3. split; [done|congruence].
  - intros a F3 HF3.
    pose proof (ext_last _ _ H12). pose proof (ext_last _ _ H23).
    destruct (ext_faces_new _ _ H23 a F3 HF3) as [[F2 HF2]|[Hc Ht]].
    + destruct (ext_faces_new _ _ H12 a F2 HF2) as [?|[Hc Ht]]; [by left|].
      right. destruct (ext_faces_old _ _ H23 a F2 HF2) as (F3' & HF3' & Ht3).
      unfold created in *. split; [lia|congruence].
    + right. unfold created in *. split; [lia|done].
  - intros a m Hm.
    destruct (ext_meshes_old _ _ H12 a m Hm) as (m2 & Hm2 & ? & ? & ? & ?).
    destruct (ext_meshes_old _ _ H23 a m2 Hm2) as (m3 & Hm3 & ? & ? & ? & ?).
    exists m3. split_and!; congruence.
  - intros a ms Hms. eapply ext_meshsets_old; [exact H23|].
    eapply ext_meshsets_old; [exact H12|done].
Qed.

(** Writing a pointer into a half-edge. *)
Lemma upd_edge_ext (a : ptr) (f : Edge.t -> Edge.t) (s s' : store) :
  (forall E, Edge.tag (f E) = Edge.tag E) ->
  store_wf s ->
  upd_edge a f s = Ok (tt, s') ->
  ext s s' /\ exists E, st_edges s !! a = Some E
                        /\ s' = set_edges <[a := f E]> s.
Proof.
  intros Htag (We & Wf & Wm & Ws) Hrun. unfold upd_edge in Hrun.
  destruct (st_edges s !! a) as [E|] eqn:HE; [|done]. injection Hrun as <-.
  split; [|eauto]. split; simpl; try done; try lia.
  - split_and!; try done. apply map_Forall_insert_2; [by apply (We a E)|done].
  - intros b E0 HE0. destruct (decide (a = b)) as [->|Hne].
    + rewrite lookup_insert_eq. exists (f E). split; [done|]. rewrite Htag. congruence.
    + rewrite lookup_insert_ne by done. eauto.
  - intros b E' HE'. left. destruct (decide (a = b)) as [->|Hne]; [eauto|].
    rewrite lookup_insert_ne in HE' by done. eauto.
  - eauto.
  - eauto.
  - intros b m Hm. exists m. by split_and!.
Qed.

(** Writing a pointer or an id into a face. *)
Lemma upd_face_ext (a : ptr) (f : Face.t -> Face.t) (s s' : store) :
  (forall F, Face.tag (f F) = Face.tag F) ->
  store_wf s ->
  upd_face a f s = Ok (tt, s') ->
  ext s s' /\ exists F, st_faces s !! a = Some F
                        /\ s' = set_faces <[a := f F]> s.
Proof.
  intros Htag (We & Wf & Wm & Ws) Hrun. unfold upd_face in Hrun.
  destruct (st_faces s !! a) as [F|] eqn:HF; [|done]. injection Hrun as <-.
  split; [|eauto]. split; simpl; try done; try lia.
  - split_and!; try done. apply map_Forall_insert_2; [by apply (Wf a F)|done].
  - eauto.
  - eauto.
  - intros b F0 HF0. destruct (decide (a = b)) as [->|Hne].
    + rewrite lookup_insert_eq. exists (f F). split; [done|]. rewrite Htag. congruence.
    + rewrite lookup_insert_ne by done. eauto.
  - intros b F' HF'. left. destruct (decide (a = b)) as [->|Hne]; [eauto|].
    rewrite lookup_insert_ne in HF' by done. eauto.
  - intros b m Hm. exists m. by split_and!.
Qed.

(** Setting the mesh set of a mesh. *)
Lemma upd_mesh_ext (a ms : ptr) (s s' : store) :
  store_wf s ->
  upd_mesh a (Mesh.with_meshset ms) s = Ok (tt, s') ->
  ext s s' /\ exists m, st_meshes s !! a = Some m
                        /\ s' = set_meshes <[a := Mesh.with_meshset ms m]> s.
Proof.
  intros (We & Wf & Wm & Ws) Hrun. unfold upd_mesh in Hrun.
  destruct (st_meshes s !! a) as [m|] eqn:Hm; [|done]. injection Hrun as <-.
  split; [|eauto]. split; simpl; try done; try lia; eauto.
  - split_and!; try done. apply map_Forall_insert_2; [by apply (Wm a m)|done].
  - intros b m0 Hm0. destruct (decide (a = b)) as [->|Hne].
    + rewrite lookup_insert_eq. exists (Mesh.with_meshset ms m).
      assert (m0 = m) as -> by congruence. by split_and!.
    + rewrite lookup_insert_ne by done. exists m0. by split_and!.
Qed.

Lemma store_wf_fresh (s : store) :
  store_wf s ->
  st_edges s !! fresh s = None /\ st_faces s !! fresh s = None
  /\ st_meshes s !! fresh s = None /\ st_meshsets s !! fresh s = None.
Proof.
  intros (We & Wf & Wm & Ws). unfold fresh.
  split_and!; apply eq_None_not_Some; intros [x Hx].
  - specialize (We _ _ Hx). unfold in_use in We. lia.
  - specialize (Wf _ _ Hx). unfold in_use in Wf. lia.
  - specialize (Wm _ _ Hx). unfold in_use in Wm. lia.
  - specialize (Ws _ _ Hx). unfold in_use in Ws. lia.
Qed.

Lemma store_wf_set_last (s : store) (es : gmap N Edge.t) (fs : gmap N Face.t)
      (ms : gmap N Mesh.t) (ss : gmap N MeshSet.t) :
  let s' := mkStore es fs ms ss (fresh s) in
  store_wf s ->
  (forall a, is_Some (es !! a) -> is_Some (st_edges s !! a) \/ a = fresh s) ->
  (forall a, is_Some (fs !! a) -> is_Some (st_faces s !! a) \/ a = fresh s) ->
  (forall a, is_Some (ms !! a) -> is_Some (st_meshes s !! a) \/ a = fresh s) ->
  (forall a, is_Some (ss !! a) -> is_Some (st_meshsets s !! a) \/ a = fresh s) ->
  store_wf s'.
Proof.
  intros s' (We & Wf & Wm & Ws) He Hf Hm Hs. unfold store_wf, in_use, fresh in *.
  split_and!; intros a x Hx; simpl.
  - destruct (He a) as [[y Hy]| ->]; [eauto| |lia]. specialize (We _ _ Hy). simpl in We. lia.
  - destruct (Hf a) as [[y Hy]| ->]; [eauto| |lia]. specialize (Wf _ _ Hy). simpl in Wf. lia.
  - destruct (Hm a) as [[y Hy]| ->]; [eauto| |lia]. specialize (Wm _ _ Hy). simpl in Wm. lia.
  - destruct (Hs a) as [[y Hy]| ->]; [eauto| |lia]. specialize (Ws _ _ Hy). simpl in Ws. lia.
Qed.

Lemma lookup_insert_is_Some_cases {V : Type} (m : gmap N V) (a b : N) (x : V) :
  is_Some (<[a := x]> m !! b) -> is_Some (m !! b) \/ b = a.
Proof.
  destruct (decide (a = b)) as [->|Hne]; [by right|].
  rewrite lookup_insert_ne by done. by left.
Qed.

(** Constructing a half-edge. *)
Lemma new_Edge_ext (v : Z) (f : ptr) (s s' : store) (a : ptr) :
  store_wf s ->
  new_Edge v f s = Ok (a, s') ->
  ext s s' /\ a = fresh s /\ st_last s' = a
  /\ st_edges s' = <[a := Edge.mk Tagable.empty v f a a NULL]> (st_edges s)
  /\ st_faces s' = st_faces s.
Proof.
  intros Hwf Hrun. unfold new_Edge in Hrun. injection Hrun as <- <-.
  destruct (store_wf_fresh s Hwf) as (He & Hf & Hm & Hs).
  split_and!; try done. split; simpl.
  - apply store_wf_set_last; simpl; eauto. intros b. apply lookup_insert_is_Some_cases.
  - unfold fresh. lia.
  - intros b E HE. exists E. split; [|done].
    rewrite lookup_insert_ne; [done|congruence].
  - intros b E' HE'. destruct (decide (fresh s = b)) as [<-|Hne].
    + right. rewrite lookup_insert_eq in HE'. injection HE' as <-.
      split; [|done]. unfold created, fresh. simpl. lia.
    + left. rewrite lookup_insert_ne in HE' by done. eauto.
  - eauto.
  - eauto.
  - intros b m Hb. exists m. by split_and!.
  - eauto.
Qed.

(** Constructing a face with empty tag bits. *)
Lemma new_Face_ext (F : Face.t) (s s' : store) (a : ptr) :
  Face.tag F = Tagable.empty ->
  store_wf s ->
  new_Face F s = Ok (a, s') ->
  ext s s' /\ a = fresh s /\ st_last s' = a
  /\ st_faces s' = <[a := F]> (st_faces s)
  /\ st_edges s' = st_edges s.
Proof.
  intros Htag Hwf Hrun. unfold new_Face in Hrun. injection Hrun as <- <-.
  destruct (store_wf_fresh s Hwf) as (He & Hf & Hm & Hs).
  split_and!; try done. split; simpl.
  - apply store_wf_set_last; simpl; eauto. intros b. apply lookup_insert_is_Some_cases.
  - unfold fresh. lia.
  - eauto.
  - eauto.
  - intros b F0 HF0. exists F0. split; [|done].
    rewrite lookup_insert_ne; [done|congruence].
  - intros b F' HF'. destruct (decide (fresh s = b)) as [<-|Hne].
    + right. rewrite lookup_insert_eq in HF'. injection HF' as <-.
      split; [|done]. unfold created, fresh. simpl. lia.
    + left. rewrite lookup_insert_ne in HF' by done. eauto.
  - intros b m Hb. exists m. by split_and!.
  - eauto.
Qed.

(** Constructing a mesh object. *)
Lemma new_Mesh_object_ext (m : Mesh.t) (s s' : store) (a : ptr) :
  store_wf s ->
  new_Mesh_object m s = Ok (a, s') ->
  ext s s' /\ a = fresh s /\ st_last s' = a
  /\ st_meshes s' = <[a := m]> (st_meshes s)
  /\ st_faces s' = st_faces s /\ st_edges s' = st_edges s.
Proof.
  intros Hwf Hrun. unfold new_Mesh_object in Hrun. injection Hrun as <- <-.
  destruct (store_wf_fresh s Hwf) as (He & Hf & Hm & Hs).
  split_and!; try done. split; simpl.
  - apply store_wf_set_last; simpl; eauto. intros b. apply lookup_insert_is_Some_cases.
  - unfold fresh. lia.
  - eauto.
  - eauto.
  - eauto.
  - eauto.
  - intros b m0 Hb. exists m0. split_and!; try done.
    rewrite lookup_insert_ne; [done|congruence].
  - eauto.
Qed.

(** Constructing a mesh set object. *)
Lemma new_MeshSet_object_ext (ms : MeshSet.t) (s s' : store) (a : ptr) :
  store_wf s ->
  new_MeshSet_object ms s = Ok (a, s') ->
  ext s s' /\ a = fresh s /\ st_last s' = a
  /\ st_meshsets s' = <[a := ms]> (st_meshsets s)
  /\ st_meshes s' = st_meshes s
  /\ st_faces s' = st_faces s /\ st_edges s' = st_edges s.
Proof.
  intros Hwf Hrun. unfold new_MeshSet_object in Hrun. injection Hrun as <- <-.
  destruct (store_wf_fresh s Hwf) as (He & Hf & Hm & Hs).
  split_and!; try done. split; simpl.
  - apply store_wf_set_last; simpl; eauto. intros b. apply lookup_insert_is_Some_cases.
  - unfold fresh. lia.
  - eauto.
  - eauto.
  - eauto.
  - eauto.
  - intros b m0 Hb. exists m0. by split_and!.
  - intros b ms0 Hb. rewrite lookup_insert_ne; [done|congruence].
Qed.

Lemma get_edge_inv (a : ptr) (E : Edge.t) (s s' : store) :
  get_edge a s = Ok (E, s') -> s' = s /\ st_edges s !! a = Some E.
Proof.
  unfold get_edge. destruct (st_edges s !! a); [|done]. by intros [= -> ->].
Qed.

Lemma get_face_inv (a : ptr) (F : Face.t) (s s' : store) :
  get_face a s = Ok (F, s') -> s' = s /\ st_faces s !! a = Some F.
Proof.
  unfold get_face. destruct (st_faces s !! a); [|done]. by intros [= -> ->].
Qed.

Lemma get_mesh_inv (a : ptr) (m : Mesh.t) (s s' : store) :
  get_mesh a s = Ok (m, s') -> s' = s /\ st_meshes s !! a = Some m.
Proof.
  unfold get_mesh. destruct (st_meshes s !! a); [|done]. by intros [= -> ->].
Qed.

Lemma get_meshset_inv (a : ptr) (ms : MeshSet.t) (s s' : store) :
  get_meshset a s = Ok (ms, s') -> s' = s /\ st_meshsets s !! a = Some ms.
Proof.
  unfold get_meshset. destruct (st_meshsets s !! a); [|done]. by intros [= -> ->].
Qed.

(** A [for] loop keeps what every pass keeps. *)
Lemma for_each_ind {A B : Type} (body : A -> B -> M B)
      (I : list A -> B -> store -> Prop) (l : list A) :
  forall (pre : list A) (acc acc' : B) (s s' : store),
    for_each l acc body s = Ok (acc', s') ->
    I pre acc s ->
    (forall done a acc1 s1 acc2 s2,
        I done acc1 s1 -> a ∈ l -> body a acc1 s1 = Ok (acc2, s2) ->
        I (done ++ [a]) acc2 s2) ->
    I (pre ++ l) acc' s'.
Proof.
  induction l as [|a l IH]; intros pre acc acc' s s' Hrun HI Hstep.
  - simpl in Hrun. injection Hrun as <- <-. by rewrite app_nil_r.
  - simpl in Hrun. apply bind_Ok_inv in Hrun as (acc1 & s1 & Hbody & Hrest).
    rewrite cons_middle, app_assoc.
    apply (IH (pre ++ [a]) acc1 acc' s1 s' Hrest).
    + apply (Hstep pre a acc s acc1 s1 HI); [|done]. apply elem_of_cons. by left.
    + intros done' b acc2 s2 acc3 s3 HI' Hb. apply Hstep; [done|].
      apply elem_of_cons. by right.
Qed.

(** ** clone: what it creates and what it keeps *)

Lemma created_ext (s s1 s2 : store) (a : ptr) :
  created s s1 a -> ext s1 s2 -> created s s2 a.
Proof.
  intros Hc H12. pose proof (ext_last _ _ H12). unfold created in *. lia.
Qed.

Lemma created_ext_r (s s1 s2 : store) (a : ptr) :
  ext s s1 -> created s1 s2 a -> created s s2 a.
Proof.
  intros H01 Hc. pose proof (ext_last _ _ H01). unfold created in *. lia.
Qed.

Lemma ext_face_is_Some (s s' : store) (a : ptr) :
  ext s s' -> is_Some (st_faces s !! a) -> is_Some (st_faces s' !! a).
Proof.
  intros Hext [F HF]. destruct (ext_faces_old _ _ Hext a F HF) as (F' & HF' & _). eauto.
Qed.

Lemma ext_edge_is_Some (s s' : store) (a : ptr) :
  ext s s' -> is_Some (st_edges s !! a) -> is_Some (st_edges s' !! a).
Proof.
  intros Hext [E HE]. destruct (ext_edges_old _ _ Hext a E HE) as (E' & HE' & _). eauto.
Qed.

Lemma Face_clone_loop_ext (fuel : nat) :
  forall (old_base new_base : Z) (first r e r_p : ptr) (edge_map edge_map' : gmap N N)
         (s s' : store) (r_e : ptr),
    store_wf s ->
    Face_clone_loop fuel old_base new_base first r e r_p edge_map s
    = Ok ((r_e, edge_map'), s') ->
    ext s s'.
Proof.
  induction fuel as [|k IH];
    intros old_base new_base first r e r_p em em' s s' r_e Hwf Hrun; [done|].
  cbn [Face_clone_loop] in Hrun.
  apply bind_Ok_inv in Hrun as (E & s1 & Hget & Hrun).
  apply get_edge_inv in Hget as [-> HE].
  apply bind_Ok_inv in Hrun as (a & s2 & Hnew & Hrun).
  apply new_Edge_ext in Hnew as (Hext2 & _); [|done].
  apply bind_Ok_inv in Hrun as ([] & s3 & Hlink & Hrun).
  assert (Hext3 : ext s2 s3).
  { destruct (negb (r_p =? NULL)%N).
    - apply bind_Ok_inv in Hlink as ([] & s2' & Hu1 & Hu2).
      apply upd_edge_ext in Hu1 as [Hx1 _]; [|done|apply Hext2].
      apply upd_edge_ext in Hu2 as [Hx2 _]; [|done|apply Hx1].
      by eapply ext_trans.
    - apply upd_face_ext in Hlink as [Hx _]; [done|done|apply Hext2]. }
  apply bind_Ok_inv in Hrun as (E' & s4 & Hget & Hrun).
  apply get_edge_inv in Hget as [-> HE'].
  assert (Hext : ext s s3) by (by eapply ext_trans).
  destruct (Edge.next E' =? first)%N.
  - injection Hrun as <- <- <-. done.
  - apply IH in Hrun; [|apply Hext3]. by eapply ext_trans.
Qed.

(** [Face::clone] constructs the face it returns. *)
Lemma Face_clone_ext (this : ptr) (old_base new_base : Z)
      (edge_map edge_map' : gmap N N) (s s' : store) (r : ptr) :
  store_wf s ->
  Face_clone this old_base new_base edge_map s = Ok ((r, edge_map'), s') ->
  ext s s' /\ created s s' r
  /\ exists F', st_faces s' !! r = Some F' /\ Face.tag F' = Tagable.empty.
Proof.
  intros Hwf Hrun. unfold Face_clone in Hrun.
  apply bind_Ok_inv in Hrun as (F & s1 & Hget & Hrun).
  apply get_face_inv in Hget as [-> HF].
  apply bind_Ok_inv in Hrun as (r' & s1 & Hnew & Hrun).
  apply new_Face_ext in Hnew as (Hext1 & Hr & Hlast1 & Hfaces1 & _); [|done|done].
  apply bind_Ok_inv in Hrun as (s1' & s1'' & Hget & Hrun).
  injection Hget as <- <-.
  apply bind_Ok_inv in Hrun as ([r_e em] & s2 & Hloop & Hrun).
  apply Face_clone_loop_ext in Hloop as Hext2; [|apply Hext1].
  apply bind_Ok_inv in Hrun as (R & s3 & Hget & Hrun).
  apply get_face_inv in Hget as [-> HR].
  apply bind_Ok_inv in Hrun as ([] & s3 & Hu1 & Hrun).
  apply upd_edge_ext in Hu1 as [Hext3 _]; [|done|apply Hext2].
  apply bind_Ok_inv in Hrun as (R' & s4 & Hget & Hrun).
  apply get_face_inv in Hget as [-> HR'].
  apply bind_Ok_inv in Hrun as ([] & s4 & Hu2 & Hrun).
  apply upd_edge_ext in Hu2 as [Hext4 _]; [|done|apply Hext3].
  injection Hrun as <- <- <-.
  assert (Hext14 : ext s1 s4) by (eapply ext_trans; [|exact Hext4]; by eapply ext_trans).
  assert (Hext : ext s s4) by (by eapply ext_trans).
  assert (Hc1 : created s s1 r') by (unfold created, fresh in *; lia).
  split_and!; [done|by eapply created_ext|].
  assert (is_Some (st_faces s4 !! r')) as [F' HF'].
  { eapply ext_face_is_Some; [exact Hext14|]. rewrite Hfaces1, lookup_insert_eq. eauto. }
  exists F'. split; [done|].
  destruct (ext_faces_new _ _ Hext r' F' HF') as [[F0 HF0]|[_ Ht]]; [|done].
  destruct (store_wf_fresh s Hwf) as (_ & Hfresh & _). congruence.
Qed.

Lemma created_not_old (s s' : store) (a : ptr) :
  store_wf s -> created s s' a ->
  st_edges s !! a = None /\ st_faces s !! a = None /\ st_meshes s !! a = None.
Proof.
  intros (We & Wf & Wm & _) Hc. unfold created in Hc.
  split_and!; apply eq_None_not_Some; intros [x Hx].
  - specialize (We _ _ Hx). unfold in_use in We. lia.
  - specialize (Wf _ _ Hx). unfold in_use in Wf. lia.
  - specialize (Wm _ _ Hx). unfold in_use in Wm. lia.
Qed.

Lemma faces_created_intro (s s' : store) (fs : list ptr) :
  store_wf s -> ext s s' ->
  Forall (fun f => created s s' f /\ is_Some (st_faces s' !! f)) fs ->
  faces_created s s' fs.
Proof.
  intros Hwf Hext Hall. eapply Forall_impl; [exact Hall|].
  intros f [Hc [F HF]]. split; [done|]. exists F. split; [done|].
  destruct (ext_faces_new _ _ Hext f F HF) as [[F0 HF0]|[_ Ht]]; [|done].
  destruct (created_not_old s s' f Hwf Hc) as (_ & Hnone & _). congruence.
Qed.

Lemma faces_created_ext (s s1 s2 : store) (fs : list ptr) :
  store_wf s -> ext s s1 -> ext s1 s2 ->
  faces_created s s1 fs -> faces_created s s2 fs.
Proof.
  intros Hwf H01 H12 Hfs. apply faces_created_intro; [done|by eapply ext_trans|].
  eapply Forall_impl; [exact Hfs|]. intros f [Hc (F & HF & _)].
  split; [by eapply created_ext|]. eapply ext_face_is_Some; eauto.
Qed.

(** The protected [Mesh] constructor creates the mesh object and only
    writes [mesh] pointers besides. *)
Lemma Mesh_make4_ext (fs os cs : list ptr) (neg : bool) (s s' : store) (r : ptr) :
  store_wf s ->
  Mesh_make4 fs os cs neg s = Ok (r, s') ->
  ext s s' /\ created s s' r
  /\ st_meshes s' !! r = Some (Mesh.mk fs os cs neg NULL)
  /\ st_edges s' = st_edges s.
Proof.
  intros Hwf Hrun. unfold Mesh_make4 in Hrun.
  apply bind_Ok_inv in Hrun as (this & s1 & Hnew & Hrun).
  apply new_Mesh_object_ext in Hnew as (Hext1 & Hthis & Hlast1 & Hm1 & _ & He1); [|done].
  apply bind_Ok_inv in Hrun as ([] & s2 & Hloop & Hrun).
  injection Hrun as <- <-.
  pose proof (for_each_ind _
    (fun _ _ sc => ext s1 sc /\ st_meshes sc = st_meshes s1
                   /\ st_edges sc = st_edges s1) fs [] tt tt s1 s2 Hloop) as Hinv.
  destruct Hinv as (Hext2 & Hm2 & He2).
  { split_and!; try done. apply ext_refl, Hext1. }
  { intros _ f [] sa [] sb (Hxa & Hma & Hea) _ Hbody.
    apply upd_face_ext in Hbody as [Hxb (F & _ & ->)]; [|done|apply Hxa].
    split_and!; [by eapply ext_trans|done|done]. }
  split_and!.
  - by eapply ext_trans.
  - eapply created_ext; [|exact Hext2]. unfold created, fresh in *. lia.
  - rewrite Hm2, Hm1. apply lookup_insert_eq.
  - congruence.
Qed.

(** [Mesh::clone] creates a mesh with as many faces, open and closed
    half-edges as the original and the same orientation; its faces are
    created faces. *)
Lemma Mesh_clone_ext (this : ptr) (old_base new_base : Z)
      (s s' : store) (r : ptr) (edge_map : gmap N N) :
  store_wf s ->
  Mesh_clone this old_base new_base s = Ok ((r, edge_map), s') ->
  ext s s'
  /\ exists m m', st_meshes s !! this = Some m
                  /\ st_meshes s' !! r = Some m'
                  /\ Mesh.meshset m' = NULL
                  /\ mesh_cloned s s' m r m'.
Proof.
  intros Hwf Hrun. unfold Mesh_clone in Hrun.
  apply bind_Ok_inv in Hrun as (m & s0 & Hget & Hrun).
  apply get_mesh_inv in Hget as [-> Hm].
  apply bind_Ok_inv in Hrun as ([r_faces em1] & s1 & Hfaces & Hrun).
  apply bind_Ok_inv in Hrun as ([r_closed em2] & s2 & Hclosed & Hrun).
  apply bind_Ok_inv in Hrun as ([r_open em3] & s3 & Hopen & Hrun).
  apply bind_Ok_inv in Hrun as (r' & s4 & Hmake & Hrun).
  injection Hrun as <- <- <-.
  (* faces *)
  pose proof (for_each_ind _
    (fun done acc sc =>
       ext s sc /\ length (fst acc) = length done
       /\ Forall (fun f => created s sc f /\ is_Some (st_faces sc !! f)) (fst acc))
    (Mesh.faces m) [] ([], ∅) (r_faces, em1) s s1 Hfaces) as Hinv1.
  destruct Hinv1 as (Hext1 & Hlen1 & Hall1).
  { split_and!; [by apply ext_refl|done|constructor]. }
  { intros done f [fs em] sa [fs' em'] sb (Hxa & Hla & Hfa) _ Hbody.
    apply bind_Ok_inv in Hbody as ([rf em''] & sc & Hclone & Hret).
    injection Hret as <- <- <-.
    apply Face_clone_ext in Hclone as (Hxc & Hcr & F' & HF' & _); [|apply Hxa].
    simpl in *. split_and!.
    - by eapply ext_trans.
    - rewrite !length_app. simpl. lia.
    - apply Forall_app. split.
      + eapply Forall_impl; [exact Hfa|]. intros g [Hg1 Hg2].
        split; [by eapply created_ext|by eapply ext_face_is_Some].
      + constructor; [|constructor]. split; [by eapply created_ext_r|eauto]. }
  simpl in Hlen1, Hall1.
  (* closed half-edges *)
  pose proof (for_each_ind _
    (fun done acc sc => ext s1 sc /\ length (fst acc) = length done)
    (Mesh.closed_edges m) [] ([], em1) (r_closed, em2) s1 s2 Hclosed) as Hinv2.
  destruct Hinv2 as (Hext2 & Hlen2).
  { split; [apply ext_refl, Hext1|done]. }
  { intros done c [cs em] sa [cs' em'] sb (Hxa & Hla) _ Hbody.
    destruct (map_index em c) as [back ema].
    apply bind_Ok_inv in Hbody as (C & sc & Hget & Hbody).
    apply get_edge_inv in Hget as [-> HC].
    destruct (map_index ema (Edge.rev C)) as [r_rev emb].
    apply bind_Ok_inv in Hbody as ([] & sc & Hupd & Hret).
    injection Hret as <- <- <-.
    apply upd_edge_ext in Hupd as [Hxc _]; [|done|apply Hxa].
    simpl in *. split; [by eapply ext_trans|].
    rewrite !length_app. simpl. lia. }
  simpl in Hlen2.
  (* open half-edges *)
  pose proof (for_each_ind _
    (fun done acc sc => sc = s2 /\ length (fst acc) = length done)
    (Mesh.open_edges m) [] ([], em2) (r_open, em3) s2 s3 Hopen) as Hinv3.
  destruct Hinv3 as (-> & Hlen3).
  { done. }
  { intros done o [os em] sa [os' em'] sb (-> & Hla) _ Hbody.
    destruct (map_index em o) as [r_o ema].
    injection Hbody as <- <- <-. simpl in *. split; [done|].
    rewrite !length_app. simpl. lia. }
  simpl in Hlen3.
  (* the new mesh *)
  assert (Hext02 : ext s s2) by (by eapply ext_trans).
  apply Mesh_make4_ext in Hmake as (Hext4 & Hcr & Hmesh & _); [|apply Hext2].
  assert (Hext : ext s s4) by (by eapply ext_trans).
  split; [done|].
  exists m, (Mesh.mk r_faces r_open r_closed (Mesh.is_negative m) NULL).
  split_and!; try done.
  unfold mesh_cloned. simpl. split_and!; try done.
  - by apply (created_ext_r s s2 s4).
  - unfold Mesh.isClosed. simpl. by rewrite Hlen3.
  - apply faces_created_intro; [done|done|].
    eapply Forall_impl; [exact Hall1|]. intros g [Hg1 Hg2]. split.
    + eapply created_ext; [exact Hg1|]. by eapply ext_trans.
    + eapply ext_face_is_Some; [|exact Hg2]. by eapply ext_trans.
Qed.

Lemma mesh_cloned_ext (s s1 s2 : store) (m : Mesh.t) (r : ptr) (m1 : Mesh.t) :
  store_wf s -> ext s s1 -> ext s1 s2 ->
  st_meshes s1 !! r = Some m1 -> mesh_cloned s s1 m r m1 ->
  exists m2, st_meshes s2 !! r = Some m2 /\ mesh_cloned s s2 m r m2.
Proof.
  intros Hwf H01 H12 Hm1 (Hc & Hf & Ho & Hcl & Hic & Hn & Hfs).
  destruct (ext_meshes_old _ _ H12 r m1 Hm1) as (m2 & Hm2 & Ef & Eo & Ec & En).
  exists m2. split; [done|]. unfold mesh_cloned, Mesh.isClosed in *.
  rewrite Ef, Eo, Ec, En. split_and!; try done.
  - by eapply created_ext.
  - by eapply faces_created_ext.
Qed.

Lemma mesh_cloned_rebase (s s1 s2 : store) (m m1 : Mesh.t) (r : ptr) (m2 : Mesh.t) :
  store_wf s -> ext s s1 -> ext s1 s2 ->
  Mesh.faces m1 = Mesh.faces m ->
  Mesh.open_edges m1 = Mesh.open_edges m ->
  Mesh.closed_edges m1 = Mesh.closed_edges m ->
  Mesh.is_negative m1 = Mesh.is_negative m ->
  mesh_cloned s1 s2 m1 r m2 -> mesh_cloned s s2 m r m2.
Proof.
  intros Hwf H01 H12 Ef Eo Ec En (Hc & Hf & Ho & Hcl & Hic & Hn & Hfs).
  unfold mesh_cloned, Mesh.isClosed in *. rewrite <- Ef, <- Eo, <- Ec, <- En.
  split_and!; try done.
  - by eapply created_ext_r.
  - eapply Forall_impl; [exact Hfs|]. intros f [Hcf HF].
    split; [by eapply created_ext_r|done].
Qed.

(** The constructor [MeshSet(vertex_storage, meshes)] creates the set
    object and only writes [meshset] pointers besides. *)
Lemma MeshSet_make2_ext (base : Z) (vs : list Vertex.t) (ms : list ptr)
      (s s' : store) (r : ptr) :
  store_wf s ->
  MeshSet_make2 base vs ms s = Ok (r, s') ->
  ext s s' /\ created s s' r
  /\ st_meshsets s' !! r = Some (MeshSet.mk base vs ms)
  /\ st_edges s' = st_edges s /\ st_faces s' = st_faces s.
Proof.
  intros Hwf Hrun. unfold MeshSet_make2 in Hrun.
  apply bind_Ok_inv in Hrun as (this & s1 & Hnew & Hrun).
  apply new_MeshSet_object_ext in Hnew
    as (Hext1 & Hthis & Hlast1 & Hs1 & _ & Hf1 & He1); [|done].
  apply bind_Ok_inv in Hrun as ([] & s2 & Hloop & Hrun).
  injection Hrun as <- <-.
  pose proof (for_each_ind _
    (fun _ _ sc => ext s1 sc /\ st_meshsets sc = st_meshsets s1
                   /\ st_edges sc = st_edges s1 /\ st_faces sc = st_faces s1)
    ms [] tt tt s1 s2 Hloop) as Hinv.
  destruct Hinv as (Hext2 & Hs2 & He2 & Hf2).
  { split_and!; try done. apply ext_refl, Hext1. }
  { intros _ m [] sa [] sb (Hxa & Hsa & Hea & Hfa) _ Hbody.
    apply upd_mesh_ext in Hbody as [Hxb (M & _ & ->)]; [|apply Hxa].
    split_and!; [by eapply ext_trans|done|done|done]. }
  split_and!.
  - by eapply ext_trans.
  - eapply created_ext; [|exact Hext2]. unfold created, fresh in *. lia.
  - rewrite Hs2, Hs1. apply lookup_insert_eq.
  - congruence.
  - congruence.
Qed.

Lemma meshes_cloned_ext (s s1 s2 : store) (ms rs : list ptr) :
  store_wf s -> ext s s1 -> ext s1 s2 ->
  meshes_cloned s s1 ms rs -> meshes_cloned s s2 ms rs.
Proof.
  intros Hwf H01 H12 Hc. eapply Forall2_impl; [exact Hc|].
  intros m r (M & M1 & HM & HM1 & Hcl).
  destruct (mesh_cloned_ext s s1 s2 M r M1 Hwf H01 H12 HM1 Hcl) as (M2 & HM2 & Hcl2).
  eauto.
Qed.

(** [MeshSet::clone]: the shape of the result. *)
Lemma MeshSet_clone_ext (this : ptr) (new_base : Z) (s s' : store) (r : ptr)
      (ms : MeshSet.t) :
  store_wf s ->
  st_meshsets s !! this = Some ms ->
  meshset_ok s ms ->
  MeshSet_clone this new_base s = Ok (r, s') ->
  ext s s' /\ created s s' r
  /\ exists rs, st_meshsets s' !! r
                = Some (MeshSet.mk new_base (MeshSet.vertex_storage ms) rs)
                /\ meshes_cloned s s' (MeshSet.meshes ms) rs.
Proof.
  intros Hwf Hms Hok Hrun. unfold MeshSet_clone in Hrun.
  apply bind_Ok_inv in Hrun as (ms' & s0 & Hget & Hrun).
  apply get_meshset_inv in Hget as [-> Hms'].
  assert (ms' = ms) as -> by congruence.
  apply bind_Ok_inv in Hrun as (rs & s1 & Hloop & Hmake).
  pose proof (for_each_ind _
    (fun done acc sc => ext s sc /\ meshes_cloned s sc done acc)
    (MeshSet.meshes ms) [] [] rs s s1 Hloop) as Hinv.
  destruct Hinv as (Hext1 & Hcl1).
  { split; [by apply ext_refl|constructor]. }
  { intros done m acc sa acc' sb (Hxa & Hca) Hin Hbody.
    apply bind_Ok_inv in Hbody as ([rm em] & sc & Hclone & Hret).
    injection Hret as <- <-.
    apply Mesh_clone_ext in Hclone as (Hxb & Ma & M' & HMa & HM' & _ & Hcl); [|apply Hxa].
    assert (Hxab : ext s sc) by (by eapply ext_trans).
    split; [done|]. apply Forall2_app.
    - by apply (meshes_cloned_ext s sa sc).
    - constructor; [|constructor].
      unfold meshset_ok in Hok. rewrite Forall_forall in Hok.
      destruct (Hok m Hin) as [M HM].
      destruct (ext_meshes_old _ _ Hxa m M HM) as (Ma' & HMa' & Ef & Eo & Ec & En).
      assert (Ma' = Ma) as -> by congruence.
      exists M, M'. split_and!; [done|done|].
      by eapply (mesh_cloned_rebase s sa sc M Ma). }
  simpl in Hcl1.
  apply MeshSet_make2_ext in Hmake as (Hext2 & Hcr & Hset & _); [|apply Hext1].
  split_and!.
  - by eapply ext_trans.
  - by apply (created_ext_r s s1 s').
  - exists rs. split; [done|]. by apply (meshes_cloned_ext s s1 s').
Qed.

(** ** The tetrahedron and its clone *)

Example tetra_store_built :
  tetra_build tetra_stitched = Ok (25%N, tetra_store)
  /\ st_meshes tetra_store !! 24%N
     = Some (Mesh.mk [20%N; 21%N; 22%N; 23%N] []
               [1%N; 2%N; 3%N; 5%N; 6%N; 8%N] false 25%N)
  /\ st_meshsets tetra_store !! 25%N
     = Some (MeshSet.mk 100 tetra_vertices [24%N]).
Proof. vm_compute. repeat split. Qed.

Example tetra_store_inv :
  halfedge_inv (st_edges tetra_store) /\ store_wf tetra_store.
Proof.
  split; apply (bool_decide_unpack _); vm_compute; exact I.
Qed.

Example tetra_cloned_run :
  MeshSet_clone 25%N 200 tetra_store = Ok (43%N, tetra_cloned).
Proof. vm_compute. reflexivity. Qed.

Example tetra_mesh_clone_run :
  exists s1, Mesh_clone 24%N 100 200 tetra_store = Ok ((42%N, tetra_edge_map), s1)
             /\ st_edges s1 = st_edges tetra_cloned
             /\ st_faces s1 = st_faces tetra_cloned.
Proof.
  eexists. split; [vm_compute; reflexivity|]. split; vm_compute; reflexivity.
Qed.

(** C1 (clone round trip; the code departs from it on twins).  For the
    mesh set of the tetrahedron, [clone()] yields one mesh with four
    faces, closed like the original, and the edge map that
    [Mesh::clone] builds is one-to-one and preserves [next], [prev]
    and the origin under the change of base from 100 to 200.  It
    preserves the twin of the six half-edges listed in
    [closed_edges], but the clone of each of the other six has no
    twin: half-edge 12 has twin 1, while its clone 41 has a null
    [rev]; so for the clone 27 of half-edge 1, [rev] is 41 and
    [rev.rev] is null, not 27. *)
Theorem clone_links_twins_one_way :
  let s := tetra_cloned in
  MeshSet_clone 25%N 200 tetra_store = Ok (43%N, s)
  /\ st_meshsets s !! 43%N = Some (MeshSet.mk 200 tetra_vertices [42%N])
  /\ (exists m', st_meshes s !! 42%N = Some m'
                 /\ length (Mesh.faces m') = 4%nat
                 /\ Mesh.isClosed m' = true)
  /\ NoDup (snd <$> tetra_edge_pairs)
  /\ Forall (fun p => link_preserved Edge.next s tetra_edge_map p.1 p.2
                      /\ link_preserved Edge.prev s tetra_edge_map p.1 p.2
                      /\ origin_remapped 100 200 s p.1 p.2) tetra_edge_pairs
  /\ Mesh.closed_edges <$> st_meshes s !! 24%N
     = Some [1%N; 2%N; 3%N; 5%N; 6%N; 8%N]
  /\ Forall (fun e => exists e', tetra_edge_map !! e = Some e'
                                 /\ twin_preserved s tetra_edge_map e e')
            [1%N; 2%N; 3%N; 5%N; 6%N; 8%N]
  /\ Edge.rev <$> st_edges s !! 12%N = Some 1%N
  /\ tetra_edge_map !! 12%N = Some 41%N
  /\ tetra_edge_map !! 1%N = Some 27%N
  /\ Edge.rev <$> st_edges s !! 27%N = Some 41%N
  /\ Edge.rev <$> st_edges s !! 41%N = Some NULL
  /\ ~ twin_preserved s tetra_edge_map 12%N 41%N.
Proof.
  cbv zeta. split_and!.
  - vm_compute. reflexivity.
  - vm_compute. reflexivity.
  - eexists. split; [vm_compute; reflexivity|]. split; vm_compute; reflexivity.
  - apply (bool_decide_unpack _). vm_compute. exact I.
  - unfold link_preserved, origin_remapped.
    apply (bool_decide_unpack _). vm_compute. exact I.
  - vm_compute. reflexivity.
  - repeat constructor; eexists; (split; [vm_compute; reflexivity|]);
      vm_compute; reflexivity.
  - vm_compute. reflexivity.
  - vm_compute. reflexivity.
  - vm_compute. reflexivity.
  - vm_compute. reflexivity.
  - vm_compute. reflexivity.
  - unfold twin_preserved. vm_compute. discriminate.
Qed.

(** C2 (isClosed iff every half-edge has a twin; the code departs
    from it on clones).  The mesh of the tetrahedron is closed and all
    its half-edges have twins.  Its clone, mesh 42, also reports
    closed, but half-edge 41 in the ring of its face 38 has a null
    [rev]: not every half-edge reachable from its faces has a twin. *)
Theorem clone_closed_with_twinless_edges :
  let s := tetra_cloned in
  exists m m',
    st_meshes s !! 24%N = Some m /\ st_meshes s !! 42%N = Some m'
    /\ Mesh.isClosed m = true /\ mesh_all_twinned s m
    /\ Mesh.isClosed m' = true /\ ~ mesh_all_twinned s m'
    /\ 38%N ∈ Mesh.faces m'
    /\ face_ring s 38%N = Some [39%N; 40%N; 41%N]
    /\ Edge.rev <$> st_edges s !! 41%N = Some NULL.
Proof.
  cbv zeta. eexists _, _. split_and!.
  - vm_compute. reflexivity.
  - vm_compute. reflexivity.
  - vm_compute. reflexivity.
  - apply (bool_decide_unpack _). vm_compute. exact I.
  - vm_compute. reflexivity.
  - apply (bool_decide_unpack _). vm_compute. exact I.
  - apply (bool_decide_unpack _). vm_compute. exact I.
  - vm_compute. reflexivity.
  - vm_compute. reflexivity.
Qed.

(** C5, as stated, fails on faces and half-edges: face 20 carries the
    tag bits 5 and half-edge 1 the bits 3, while their clones, face 26
    and half-edge 27, carry none. *)
Lemma clone_drops_face_and_edge_tags :
  let s := tetra_cloned in
  MeshSet_clone 25%N 200 tetra_store = Ok (43%N, s)
  /\ Mesh.faces <$> st_meshes s !! 24%N = Some [20%N; 21%N; 22%N; 23%N]
  /\ Mesh.faces <$> st_meshes s !! 42%N = Some [26%N; 30%N; 34%N; 38%N]
  /\ Face.tag <$> st_faces s !! 20%N = Some 5%N
  /\ Face.tag <$> st_faces s !! 26%N = Some Tagable.empty
  /\ tetra_edge_map !! 1%N = Some 27%N
  /\ Edge.tag <$> st_edges s !! 1%N = Some 3%N
  /\ Edge.tag <$> st_edges s !! 27%N = Some Tagable.empty.
Proof. vm_compute. repeat split. Qed.

(** ** build *)


Section BuildFacts.
Variable index_set : list Z.


End BuildFacts.

Lemma scan_ring_reads (fuel : nat) :
  forall (first e : ptr) (acc acc' : list ptr * list ptr) (s s' : store),
    scan_ring fuel first e acc s = Ok (acc', s') -> s' = s.
Proof.
  induction fuel as [|k IH]; intros first e acc acc' s s' Hrun; [done|].
  cbn [scan_ring] in Hrun.
  apply bind_Ok_inv in Hrun as (E & s1 & Hget & Hrun).
  apply get_edge_inv in Hget as [-> _].
  destruct (Edge.next E =? first)%N.
  - by injection Hrun as _ <-.
  - by apply IH in Hrun.
Qed.

Lemma scan_face_reads (f : ptr) (acc acc' : list ptr * list ptr) (s s' : store) :
  scan_face f acc s = Ok (acc', s') -> s' = s.
Proof.
  unfold scan_face. intros Hrun.
  apply bind_Ok_inv in Hrun as (F & s1 & Hget & Hrun).
  apply get_face_inv in Hget as [-> _].
  apply bind_Ok_inv in Hrun as (s1 & s2 & Hget & Hrun).
  injection Hget as <- <-. by apply scan_ring_reads in Hrun.
Qed.

(** The public [Mesh] constructor creates a mesh that holds the face
    vector it was given. *)
Lemma Mesh_make_ext (neg : bool) (fs : list ptr) (s s' : store) (r : ptr) :
  store_wf s ->
  Mesh_make neg fs s = Ok (r, s') ->
  ext s s' /\ created s s' r
  /\ Mesh.faces <$> st_meshes s' !! r = Some fs
  /\ st_edges s' = st_edges s.
Proof.
  intros Hwf Hrun. unfold Mesh_make in Hrun.
  apply bind_Ok_inv in Hrun as ([os cs] & s1 & Hscan & Hmake).
  pose proof (for_each_ind scan_face (fun _ _ sc => sc = s) fs []
                ([], []) (os, cs) s s1 Hscan eq_refl) as Hs1.
  rewrite Hs1 in Hmake.
  2:{ intros _ f acc sa acc' sb -> _ Hbody. by apply scan_face_reads in Hbody. }
  apply Mesh_make4_ext in Hmake as (Hext & Hcr & Hm & He); [|done].
  split_and!; try done. by rewrite Hm.
Qed.



Example build_tetra_buckets :
  FaceStitcher.build_mesh_faces [0; 0; 1; 0] [20%N; 21%N; 22%N; 23%N]
    (replicate 2 []) tetra_stitched
  = Ok ([[20%N; 21%N; 23%N]; [22%N]], tetra_stitched).
Proof. vm_compute. reflexivity. Qed.

Example build_tetra_meshes :
  match FaceStitcher.build [0; 0; 0; 0] [4] (fun _ => false)
          [20%N; 21%N; 22%N; 23%N] tetra_stitched with
  | Ok (meshes, s') =>
      meshes = [24%N]
      /\ st_meshes s' !! 24%N
         = Some (Mesh.mk [20%N; 21%N; 22%N; 23%N] []
                   [1%N; 2%N; 3%N; 5%N; 6%N; 8%N] false NULL)
  | _ => False
  end.
Proof. vm_compute. repeat split. Qed.

(** ** clone: the rings of the cloned faces *)

Lemma links_created_upd_edge (last0 : N) (a : ptr) (f : Edge.t -> Edge.t) (s s' : store) :
  (forall E, (last0 < Edge.next (f E))%N \/ Edge.next (f E) = Edge.next E) ->
  links_created last0 s ->
  upd_edge a f s = Ok (tt, s') ->
  links_created last0 s'.
Proof.
  intros Hf [Ke Kf] Hrun. unfold upd_edge in Hrun.
  destruct (st_edges s !! a) as [E|] eqn:HE; [|done]. injection Hrun as <-.
  split; simpl; [|done].
  intros b E' HE' Hb. destruct (decide (a = b)) as [->|Hne].
  - rewrite lookup_insert_eq in HE'. injection HE' as <-.
    destruct (Hf E) as [H| ->]; [done|]. by apply (Ke b).
  - rewrite lookup_insert_ne in HE' by done. by apply (Ke b).
Qed.

Lemma links_created_upd_face (last0 : N) (a : ptr) (f : Face.t -> Face.t) (s s' : store) :
  (forall F, (last0 < Face.edge (f F))%N \/ Face.edge (f F) = Face.edge F) ->
  links_created last0 s ->
  upd_face a f s = Ok (tt, s') ->
  links_created last0 s'.
Proof.
  intros Hf [Ke Kf] Hrun. unfold upd_face in Hrun.
  destruct (st_faces s !! a) as [F|] eqn:HF; [|done]. injection Hrun as <-.
  split; simpl; [done|].
  intros b F' HF' Hb. destruct (decide (a = b)) as [->|Hne].
  - rewrite lookup_insert_eq in HF'. injection HF' as <-.
    destruct (Hf F) as [H| ->]; [by right|]. by apply (Kf b).
  - rewrite lookup_insert_ne in HF' by done. by apply (Kf b).
Qed.

Lemma links_created_same (last0 : N) (s s' : store) :
  st_edges s' = st_edges s -> st_faces s' = st_faces s ->
  links_created last0 s -> links_created last0 s'.
Proof. intros He Hf [Ke Kf]. unfold links_created. by rewrite He, Hf. Qed.

Lemma links_created_new_Edge (last0 : N) (v : Z) (f : ptr) (s s' : store) (a : ptr) :
  (last0 <= st_last s)%N ->
  links_created last0 s ->
  new_Edge v f s = Ok (a, s') ->
  links_created last0 s' /\ (last0 < a)%N.
Proof.
  intros Hlast [Ke Kf] Hrun. unfold new_Edge in Hrun. injection Hrun as <- <-.
  assert (Ha : (last0 < fresh s)%N) by (unfold fresh; lia).
  split; [|done]. split; simpl; [|done].
  intros b E' HE' Hb. destruct (decide (fresh s = b)) as [<-|Hne].
  - rewrite lookup_insert_eq in HE'. injection HE' as <-. done.
  - rewrite lookup_insert_ne in HE' by done. by apply (Ke b).
Qed.

Lemma links_created_new_Face (last0 : N) (F : Face.t) (s s' : store) (a : ptr) :
  (last0 <= st_last s)%N ->
  Face.edge F = NULL ->
  links_created last0 s ->
  new_Face F s = Ok (a, s') ->
  links_created last0 s' /\ (last0 < a)%N.
Proof.
  intros Hlast Hnull [Ke Kf] Hrun. unfold new_Face in Hrun. injection Hrun as <- <-.
  assert (Ha : (last0 < fresh s)%N) by (unfold fresh; lia).
  split; [|done]. split; simpl; [done|].
  intros b F' HF' Hb. destruct (decide (fresh s = b)) as [<-|Hne].
  - rewrite lookup_insert_eq in HF'. injection HF' as <-. by left.
  - rewrite lookup_insert_ne in HF' by done. by apply (Kf b).
Qed.

Lemma Face_clone_loop_links (last0 : N) (fuel : nat) :
  forall (old_base new_base : Z) (first r e r_p : ptr) (edge_map edge_map' : gmap N N)
         (s s' : store) (r_e : ptr),
    store_wf s -> (last0 <= st_last s)%N ->
    links_created last0 s ->
    Face_clone_loop fuel old_base new_base first r e r_p edge_map s
    = Ok ((r_e, edge_map'), s') ->
    links_created last0 s' /\ (last0 < r_e)%N.
Proof.
  induction fuel as [|k IH];
    intros old_base new_base first r e r_p em em' s s' r_e Hwf Hlast HK Hrun; [done|].
  cbn [Face_clone_loop] in Hrun.
  apply bind_Ok_inv in Hrun as (E & s1 & Hget & Hrun).
  apply get_edge_inv in Hget as [-> HE].
  apply bind_Ok_inv in Hrun as (a & s2 & Hnew & Hrun).
  pose proof (links_created_new_Edge _ _ _ _ _ _ Hlast HK Hnew) as [HK2 Ha].
  apply new_Edge_ext in Hnew as (Hext2 & _); [|done].
  apply bind_Ok_inv in Hrun as ([] & s3 & Hlink & Hrun).
  assert (ext s2 s3 /\ links_created last0 s3) as [Hext3 HK3].
  { destruct (negb (r_p =? NULL)%N).
    - apply bind_Ok_inv in Hlink as ([] & s2' & Hu1 & Hu2).
      pose proof (links_created_upd_edge last0 r_p (Edge.with_next a) s2 s2'
                    (fun _ => or_introl Ha) HK2 Hu1) as HKa.
      apply upd_edge_ext in Hu1 as [Hx1 _]; [|done|apply Hext2].
      pose proof (links_created_upd_edge last0 a (Edge.with_prev r_p) s2' s3
                    (fun _ => or_intror eq_refl) HKa Hu2) as HKb.
      apply upd_edge_ext in Hu2 as [Hx2 _]; [|done|apply Hx1].
      split; [by eapply ext_trans|done].
    - pose proof (links_created_upd_face last0 r (Face.with_edge a) s2 s3
                    (fun _ => or_introl Ha) HK2 Hlink) as HKa.
      apply upd_face_ext in Hlink as [Hx _]; [done|done|apply Hext2]. }
  apply bind_Ok_inv in Hrun as (E' & s4 & Hget & Hrun).
  apply get_edge_inv in Hget as [-> HE'].
  destruct (Edge.next E' =? first)%N.
  - injection Hrun as <- <- <-. done.
  - apply IH in Hrun; [done|apply Hext3| |done].
    pose proof (ext_last _ _ Hext2). pose proof (ext_last _ _ Hext3). lia.
Qed.

Lemma Face_clone_links (last0 : N) (this : ptr) (old_base new_base : Z)
      (edge_map edge_map' : gmap N N) (s s' : store) (r : ptr) :
  store_wf s -> (last0 <= st_last s)%N ->
  links_created last0 s ->
  Face_clone this old_base new_base edge_map s = Ok ((r, edge_map'), s') ->
  links_created last0 s'.
Proof.
  intros Hwf Hlast HK Hrun. unfold Face_clone in Hrun.
  apply bind_Ok_inv in Hrun as (F & s1 & Hget & Hrun).
  apply get_face_inv in Hget as [-> HF].
  apply bind_Ok_inv in Hrun as (r' & s1 & Hnew & Hrun).
  pose proof (links_created_new_Face last0 (Face.copy F) s s1 r' Hlast eq_refl HK Hnew)
    as [HK1 Hr'].
  apply new_Face_ext in Hnew as (Hext1 & Hr & Hlast1 & Hfaces1 & _); [|done|done].
  apply bind_Ok_inv in Hrun as (s1' & s1'' & Hget & Hrun).
  injection Hget as <- <-.
  apply bind_Ok_inv in Hrun as ([r_e em] & s2 & Hloop & Hrun).
  assert (Hlast1' : (last0 <= st_last s1)%N).
  { pose proof (ext_last _ _ Hext1). lia. }
  pose proof (Face_clone_loop_links last0 _ _ _ _ _ _ _ _ _ _ _ _
                (ext_wf _ _ Hext1) Hlast1' HK1 Hloop) as [HK2 Hre].
  apply Face_clone_loop_ext in Hloop as Hext2; [|apply Hext1].
  apply bind_Ok_inv in Hrun as (R & s3 & Hget & Hrun).
  apply get_face_inv in Hget as [-> HR].
  apply bind_Ok_inv in Hrun as ([] & s3 & Hu1 & Hrun).
  apply bind_Ok_inv in Hrun as (R' & s4 & Hget & Hrun).
  apply get_face_inv in Hget as [-> HR'].
  apply bind_Ok_inv in Hrun as ([] & s4 & Hu2 & Hrun).
  injection Hrun as <- <- <-.
  (* the face read after the first write is the face read before it *)
  assert (Hsame : R' = R).
  { unfold upd_edge in Hu1. destruct (st_edges s2 !! r_e); [|done].
    injection Hu1 as <-. simpl in HR'. congruence. }
  subst R'.
  (* the second write went through, so the first half-edge is not null *)
  assert (Hedge : (last0 < Face.edge R)%N).
  { destruct HK2 as [_ Kf]. destruct (Kf r' R HR Hr') as [Hnull|H]; [|done].
    exfalso. pose proof Hu1 as Hu1'.
    apply upd_edge_ext in Hu1' as [Hx3 _]; [|done|apply Hext2].
    unfold upd_edge in Hu2. rewrite Hnull in Hu2.
    destruct (st_edges s3 !! NULL) as [E0|] eqn:HE0; [|done].
    destruct (ext_wf _ _ Hx3) as (We & _). specialize (We _ _ HE0).
    unfold in_use, NULL in We. lia. }
  pose proof (links_created_upd_edge last0 r_e (Edge.with_next (Face.edge R)) s2 s3
                (fun _ => or_introl Hedge) HK2 Hu1) as HK3.
  exact (links_created_upd_edge last0 (Face.edge R) (Edge.with_prev r_e) s3 s4
           (fun _ => or_intror eq_refl) HK3 Hu2).
Qed.

Lemma Mesh_make4_links (last0 : N) (fs os cs : list ptr) (neg : bool)
      (s s' : store) (r : ptr) :
  store_wf s ->
  links_created last0 s ->
  Mesh_make4 fs os cs neg s = Ok (r, s') ->
  links_created last0 s'.
Proof.
  intros Hwf HK Hrun. unfold Mesh_make4 in Hrun.
  apply bind_Ok_inv in Hrun as (this & s1 & Hnew & Hrun).
  apply new_Mesh_object_ext in Hnew as (Hext1 & _ & _ & _ & Hf1 & He1); [|done].
  apply bind_Ok_inv in Hrun as ([] & s2 & Hloop & Hrun).
  injection Hrun as <- <-.
  pose proof (for_each_ind _
    (fun _ _ sc => store_wf sc /\ links_created last0 sc) fs [] tt tt s1 s2 Hloop)
    as Hinv.
  destruct Hinv as [_ HK2]; [| |done].
  - split; [apply Hext1|]. by apply (links_created_same last0 s s1).
  - intros _ f [] sa [] sb (Hwa & HKa) _ Hbody. split.
    + apply upd_face_ext in Hbody as [Hx _]; [apply Hx|done|done].
    + exact (links_created_upd_face last0 f (Face.with_mesh this) sa sb
               (fun _ => or_intror eq_refl) HKa Hbody).
Qed.

Lemma Mesh_clone_links (last0 : N) (this : ptr) (old_base new_base : Z)
      (s s' : store) (r : ptr) (edge_map : gmap N N) :
  store_wf s -> (last0 <= st_last s)%N ->
  links_created last0 s ->
  Mesh_clone this old_base new_base s = Ok ((r, edge_map), s') ->
  links_created last0 s'.
Proof.
  intros Hwf Hlast HK Hrun. unfold Mesh_clone in Hrun.
  apply bind_Ok_inv in Hrun as (m & s0 & Hget & Hrun).
  apply get_mesh_inv in Hget as [-> Hm].
  apply bind_Ok_inv in Hrun as ([r_faces em1] & s1 & Hfaces & Hrun).
  apply bind_Ok_inv in Hrun as ([r_closed em2] & s2 & Hclosed & Hrun).
  apply bind_Ok_inv in Hrun as ([r_open em3] & s3 & Hopen & Hrun).
  apply bind_Ok_inv in Hrun as (r' & s4 & Hmake & Hrun).
  injection Hrun as <- <- <-.
  pose proof (for_each_ind _
    (fun _ _ sc => ext s sc /\ links_created last0 sc)
    (Mesh.faces m) [] ([], ∅) (r_faces, em1) s s1 Hfaces) as Hinv1.
  destruct Hinv1 as (Hext1 & HK1).
  { split; [by apply ext_refl|done]. }
  { intros done f [fs em] sa [fs' em'] sb (Hxa & HKa) _ Hbody.
    apply bind_Ok_inv in Hbody as ([rf em''] & sc & Hclone & Hret).
    injection Hret as <- <- <-.
    assert (Hla : (last0 <= st_last sa)%N).
    { pose proof (ext_last _ _ Hxa). lia. }
    pose proof (Face_clone_links last0 _ _ _ _ _ _ _ _ (ext_wf _ _ Hxa) Hla HKa Hclone).
    apply Face_clone_ext in Hclone as (Hxc & _); [|apply Hxa].
    split; [by eapply ext_trans|done]. }
  pose proof (for_each_ind _
    (fun _ _ sc => store_wf sc /\ links_created last0 sc)
    (Mesh.closed_edges m) [] ([], em1) (r_closed, em2) s1 s2 Hclosed) as Hinv2.
  destruct Hinv2 as (Hwf2 & HK2).
  { split; [apply Hext1|done]. }
  { intros done c [cs em] sa [cs' em'] sb (Hwa & HKa) _ Hbody.
    destruct (map_index em c) as [back ema].
    apply bind_Ok_inv in Hbody as (C & sc & Hget & Hbody).
    apply get_edge_inv in Hget as [-> HC].
    destruct (map_index ema (Edge.rev C)) as [r_rev emb].
    apply bind_Ok_inv in Hbody as ([] & sc & Hupd & Hret).
    injection Hret as <- <- <-. split.
    - apply upd_edge_ext in Hupd as [Hx _]; [apply Hx|done|done].
    - exact (links_created_upd_edge last0 back (Edge.with_rev r_rev) sa sc
               (fun _ => or_intror eq_refl) HKa Hupd). }
  pose proof (for_each_ind _
    (fun _ _ sc => sc = s2)
    (Mesh.open_edges m) [] ([], em2) (r_open, em3) s2 s3 Hopen eq_refl) as Hinv3.
  rewrite Hinv3 in Hmake.
  2:{ intros done o [os em] sa [os' em'] sb -> _ Hbody.
      destruct (map_index em o) as [r_o ema]. by injection Hbody as _ _ <-. }
  by apply (Mesh_make4_links last0) in Hmake.
Qed.

Lemma MeshSet_clone_links (this : ptr) (new_base : Z) (s s' : store) (r : ptr) :
  store_wf s ->
  MeshSet_clone this new_base s = Ok (r, s') ->
  links_created (st_last s) s'.
Proof.
  intros Hwf Hrun. unfold MeshSet_clone in Hrun.
  apply bind_Ok_inv in Hrun as (ms & s0 & Hget & Hrun).
  apply get_meshset_inv in Hget as [-> Hms].
  apply bind_Ok_inv in Hrun as (rs & s1 & Hloop & Hmake).
  assert (HK0 : links_created (st_last s) s).
  { destruct Hwf as (We & Wf & _). split.
    - intros a E HE Ha. specialize (We _ _ HE). unfold in_use in We. lia.
    - intros a F HF Ha. specialize (Wf _ _ HF). unfold in_use in Wf. lia. }
  pose proof (for_each_ind _
    (fun _ _ sc => ext s sc /\ links_created (st_last s) sc)
    (MeshSet.meshes ms) [] [] rs s s1 Hloop) as Hinv.
  destruct Hinv as (Hext1 & HK1).
  { split; [by apply ext_refl|done]. }
  { intros done m acc sa acc' sb (Hxa & HKa) _ Hbody.
    apply bind_Ok_inv in Hbody as ([rm em] & sc & Hclone & Hret).
    injection Hret as <- <-.
    pose proof (Mesh_clone_links (st_last s) _ _ _ _ _ _ _ (ext_wf _ _ Hxa)
                  (ext_last _ _ Hxa) HKa Hclone).
    apply Mesh_clone_ext in Hclone as (Hxc & _); [|apply Hxa].
    split; [by eapply ext_trans|done]. }
  apply MeshSet_make2_ext in Hmake as (_ & _ & _ & He & Hf); [|apply Hext1].
  by apply (links_created_same (st_last s) s1 s').
Qed.

(** A ring that starts on a half-edge constructed after [last0] runs
    through such half-edges only. *)
Lemma ring_from_created (last0 : N) (s : store) (fuel : nat) :
  links_created last0 s ->
  forall (first e : ptr) (l : list ptr),
    (last0 < e)%N ->
    ring_from fuel (st_edges s) first e = Some l ->
    Forall (fun x => (last0 < x)%N) l.
Proof.
  intros [Ke _]. induction fuel as [|k IH]; intros first e l He Hring; [done|].
  simpl in Hring. destruct (st_edges s !! e) as [E|] eqn:HE; [|done]. simpl in Hring.
  destruct (Edge.next E =? first)%N.
  - injection Hring as <-. by repeat constructor.
  - destruct (ring_from k (st_edges s) first (Edge.next E)) as [l'|] eqn:Hl'; [|done].
    injection Hring as <-. constructor; [done|].
    apply (IH first (Edge.next E)); [|done]. by apply (Ke e).
Qed.

(** ** clone: tag bits *)

Lemma ring_from_lookup (es : gmap N Edge.t) (fuel : nat) :
  forall (first e : ptr) (l : list ptr),
    ring_from fuel es first e = Some l ->
    Forall (fun x => is_Some (es !! x)) l.
Proof.
  induction fuel as [|k IH]; intros first e l Hring; [done|].
  simpl in Hring. destruct (es !! e) as [E|] eqn:HE; [|done]. simpl in Hring.
  destruct (Edge.next E =? first)%N.
  - injection Hring as <-. repeat constructor. by rewrite HE.
  - destruct (ring_from k es first (Edge.next E)) as [l'|] eqn:Hl'; [|done].
    injection Hring as <-. constructor; [by rewrite HE|]. by apply (IH first (Edge.next E)).
Qed.

(** The ring of a face constructed by [clone] consists of half-edges
    constructed by [clone]. *)
Lemma cloned_face_ring_untagged (s s' : store) (f : ptr) :
  store_wf s -> ext s s' -> links_created (st_last s) s' ->
  created s s' f ->
  ring_created_untagged s s' f.
Proof.
  intros Hwf Hext HK Hcf l e Hring He. unfold face_ring in Hring.
  destruct (st_faces s' !! f) as [F|] eqn:HF; [|done]. simpl in Hring.
  assert (Hfirst : (st_last s < Face.edge F)%N).
  { destruct HK as [_ Kf]. destruct (Kf f F HF) as [Hnull|H]; [apply Hcf| |done].
    exfalso. rewrite Hnull in Hring. destruct (size (st_edges s')); [done|].
    simpl in Hring. destruct (st_edges s' !! NULL) as [E0|] eqn:HE0; [|done].
    destruct (ext_wf _ _ Hext) as (We & _). specialize (We _ _ HE0).
    unfold in_use, NULL in We. lia. }
  pose proof (ring_from_created _ _ _ HK _ _ _ Hfirst Hring) as Hall.
  pose proof (ring_from_lookup _ _ _ _ _ Hring) as Hlook.
  rewrite Forall_forall in Hall, Hlook.
  specialize (Hall e He). destruct (Hlook e He) as [E HE].
  assert (Hnone : st_edges s !! e = None).
  { apply eq_None_not_Some. intros [E0 HE0]. destruct Hwf as (We & _).
    specialize (We _ _ HE0). unfold in_use in We. lia. }
  split; [done|]. rewrite HE. simpl. f_equal.
  destruct (ext_edges_new _ _ Hext e E HE) as [[E0 HE0]|[_ Ht]]; [congruence|done].
Qed.

(** C5, amended.  [clone] does not carry the tag bits of faces and
    half-edges over: every face and every half-edge that [clone]
    constructs has empty tag bits, whatever its original carries.  The
    faces of the cloned meshes are such constructed faces, the
    half-edges of their rings are such constructed half-edges, and the
    objects of the original keep their tag bits.  Nothing is stated on
    the tag bits of vertices: the vertex storage is copied by the copy
    constructor of [tagable], which is not among the sources. *)
Theorem MeshSet_clone_tags (this : ptr) (new_base : Z) (s s' : store) (r : ptr)
        (ms : MeshSet.t) :
  store_wf s ->
  st_meshsets s !! this = Some ms ->
  meshset_ok s ms ->
  MeshSet_clone this new_base s = Ok (r, s') ->
  (exists ms', st_meshsets s' !! r = Some ms'
        /\ length (MeshSet.meshes ms') = length (MeshSet.meshes ms)
        /\ Forall (fun m' => exists M', st_meshes s' !! m' = Some M'
                                        /\ faces_created s s' (Mesh.faces M')
                                        /\ Forall (ring_created_untagged s s')
                                                  (Mesh.faces M'))
                  (MeshSet.meshes ms'))
  /\ (forall a E', st_edges s' !! a = Some E' -> st_edges s !! a = None ->
        Edge.tag E' = Tagable.empty)
  /\ (forall a F', st_faces s' !! a = Some F' -> st_faces s !! a = None ->
        Face.tag F' = Tagable.empty)
  /\ (forall a E, st_edges s !! a = Some E ->
        Edge.tag <$> st_edges s' !! a = Some (Edge.tag E))
  /\ (forall a F, st_faces s !! a = Some F ->
        Face.tag <$> st_faces s' !! a = Some (Face.tag F))
  /\ st_meshsets s' !! this = Some ms.
Proof.
  intros Hwf Hms Hok Hrun.
  destruct (MeshSet_clone_ext this new_base s s' r ms Hwf Hms Hok Hrun)
    as (Hext & Hcr & rs & Hset & Hcl).
  split_and!.
  - eexists. split; [exact Hset|]. simpl. split.
    + symmetry. by eapply Forall2_length.
    + pose proof (MeshSet_clone_links this new_base s s' r Hwf Hrun) as HK.
      clear Hset. induction Hcl as [|m r' l l' (M & M' & _ & HM' & Hc) _ IH];
        constructor; [|done].
      exists M'. split; [done|].
      destruct Hc as (_ & _ & _ & _ & _ & _ & Hfs). split; [done|].
      eapply Forall_impl; [exact Hfs|]. intros f [Hcf _].
      by apply (cloned_face_ring_untagged s s' f).
  - intros a E' HE' Hnone.
    destruct (ext_edges_new _ _ Hext a E' HE') as [[E0 HE0]|[_ Ht]]; [congruence|done].
  - intros a F' HF' Hnone.
    destruct (ext_faces_new _ _ Hext a F' HF') as [[F0 HF0]|[_ Ht]]; [congruence|done].
  - intros a E HE. destruct (ext_edges_old _ _ Hext a E HE) as (E' & HE' & Ht).
    rewrite HE'. simpl. by rewrite Ht.
  - intros a F HF. destruct (ext_faces_old _ _ Hext a F HF) as (F' & HF' & Ht).
    rewrite HF'. simpl. by rewrite Ht.
  - by eapply ext_meshsets_old.
Qed.

Lemma MeshSet_clone_tags_witness :
  let s := tetra_store in
  let s' := tetra_cloned in
  let ms := MeshSet.mk 100 tetra_vertices [24%N] in
  (exists ms', st_meshsets s' !! 43%N = Some ms'
        /\ length (MeshSet.meshes ms') = length (MeshSet.meshes ms)
        /\ Forall (fun m' => exists M', st_meshes s' !! m' = Some M'
                                        /\ faces_created s s' (Mesh.faces M')
                                        /\ Forall (ring_created_untagged s s')
                                                  (Mesh.faces M'))
                  (MeshSet.meshes ms'))
  /\ (forall a E', st_edges s' !! a = Some E' -> st_edges s !! a = None ->
        Edge.tag E' = Tagable.empty)
  /\ (forall a F', st_faces s' !! a = Some F' -> st_faces s !! a = None ->
        Face.tag F' = Tagable.empty)
  /\ (forall a E, st_edges s !! a = Some E ->
        Edge.tag <$> st_edges s' !! a = Some (Edge.tag E))
  /\ (forall a F, st_faces s !! a = Some F ->
        Face.tag <$> st_faces s' !! a = Some (Face.tag F))
  /\ st_meshsets s' !! 25%N = Some ms.
Proof.
  apply (MeshSet_clone_tags 25%N 200 tetra_store tetra_cloned 43%N
           (MeshSet.mk 100 tetra_vertices [24%N])).
  - apply (bool_decide_unpack _). vm_compute. exact I.
  - vm_compute. reflexivity.
  - apply (bool_decide_unpack _). vm_compute. exact I.
  - vm_compute. reflexivity.
Defined.

(** ** hash_vertex_pair *)

(** The hash is a function of the addresses: the same pair of vertex
    slots, 32 bytes apart, hashes differently when the storage lies
    elsewhere. *)
Example hash_vertex_pair_moves_with_storage :
  hash_vertex_pair (4096, 4128) = 270536704
  /\ hash_vertex_pair (8192, 8224) = 538976256.
Proof. vm_compute. split; reflexivity. Qed.

(** ** The Mesh constructor: open half-edges *)

Lemma scan_ring_open (fuel : nat) :
  forall (first e : ptr) (acc : list ptr * list ptr) (s : store) (l : list ptr),
    ring_from fuel (st_edges s) first e = Some l ->
    exists closed,
      scan_ring fuel first e acc s
      = Ok ((acc.1 ++ ring_open_edges (st_edges s) l, closed), s).
Proof.
  induction fuel as [|k IH]; intros first e acc s l Hring; [done|].
  simpl in Hring. destruct (st_edges s !! e) as [E|] eqn:HE; [|done]. simpl in Hring.
  cbn [scan_ring]. rewrite (bind_Ok _ _ _ _ _ (get_edge_Ok _ _ _ HE)).
  assert (Hfilter : forall l', ring_open_edges (st_edges s) (e :: l')
            = (if (Edge.rev E =? NULL)%N then [e] else [])
              ++ ring_open_edges (st_edges s) l').
  { intros l'. unfold ring_open_edges. rewrite filter_cons. rewrite HE. simpl.
    destruct (N.eqb_spec (Edge.rev E) NULL) as [->|Hne].
    - by rewrite decide_True.
    - rewrite decide_False; [done|]. intros [=]. done. }
  destruct (Edge.next E =? first)%N.
  - injection Hring as <-. rewrite Hfilter.
    destruct (Edge.rev E =? NULL)%N; simpl.
    + eexists. reflexivity.
    + change (ring_open_edges (st_edges s) []) with (@nil N).
      rewrite app_nil_r. destruct acc as [o c].
      destruct (e <? Edge.rev E)%N; eexists; reflexivity.
  - destruct (ring_from k (st_edges s) first (Edge.next E)) as [l'|] eqn:Hl'; [|done].
    injection Hring as <-. rewrite Hfilter.
    destruct (Edge.rev E =? NULL)%N; simpl.
    + destruct (IH first (Edge.next E) (acc.1 ++ [e], acc.2) s l' Hl') as (cl & Hrun).
      exists cl. rewrite Hrun. simpl. by rewrite <- app_assoc.
    + destruct (e <? Edge.rev E)%N.
      * destruct (IH first (Edge.next E) (acc.1, acc.2 ++ [e]) s l' Hl') as (cl & Hrun).
        exists cl. by rewrite Hrun.
      * destruct (IH first (Edge.next E) acc s l' Hl') as (cl & Hrun).
        exists cl. by rewrite Hrun.
Qed.

Lemma scan_faces_open (s : store) (fs : list ptr) :
  forall acc : list ptr * list ptr,
    faces_ready s fs ->
    exists closed rings,
      for_each fs acc scan_face s
      = Ok ((acc.1 ++ concat (ring_open_edges (st_edges s) <$> rings), closed), s)
      /\ Forall2 (fun f l => face_ring s f = Some l) fs rings.
Proof.
  induction fs as [|f rest IH]; intros acc Hready.
  - exists acc.2, []. simpl. rewrite app_nil_r. destruct acc. split; [done|constructor].
  - apply Forall_cons_1 in Hready as [[l Hl] Hrest].
    pose proof Hl as Hl0. unfold face_ring in Hl.
    destruct (st_faces s !! f) as [F|] eqn:HF; [|done]. simpl in Hl.
    destruct (scan_ring_open _ _ _ acc s l Hl) as (cl & Hscan).
    destruct (IH (acc.1 ++ ring_open_edges (st_edges s) l, cl) Hrest)
      as (cl' & rings & Hrun & Hrings).
    exists cl', (l :: rings). split; [|by constructor].
    cbn [for_each].
    assert (Hface : scan_face f acc s
                    = Ok ((acc.1 ++ ring_open_edges (st_edges s) l, cl), s)).
    { unfold scan_face. rewrite (bind_Ok _ _ _ _ _ (get_face_Ok _ _ _ HF)).
      unfold get_store. by rewrite (bind_Ok _ _ s s s eq_refl). }
    rewrite (bind_Ok _ _ _ _ _ Hface), Hrun. simpl. by rewrite <- app_assoc.
Qed.

Lemma ring_open_edges_nil (es : gmap N Edge.t) (fuel : nat) (first e : ptr) (l : list ptr) :
  ring_from fuel es first e = Some l ->
  ring_open_edges es l = []
  <-> Forall (fun e => match es !! e with
                       | Some E => Edge.rev E <> NULL
                       | None => False
                       end) l.
Proof.
  intros Hring. pose proof (ring_from_lookup _ _ _ _ _ Hring) as Hlook.
  unfold ring_open_edges. clear Hring.
  induction l as [|x l IH]; [done|].
  apply Forall_cons_1 in Hlook as [[X HX] Hl]. rewrite filter_cons, HX. simpl.
  rewrite Forall_cons, HX. destruct (decide (Some (Edge.rev X) = Some NULL)) as [Heq|Hne].
  - split; [done|]. intros [Hrev _]. congruence.
  - rewrite (IH Hl). split; [|tauto]. intros H. split; [|done]. congruence.
Qed.

Lemma Mesh_make4_face_edge (fs os cs : list ptr) (neg : bool) (s s' : store) (r : ptr) :
  store_wf s ->
  Mesh_make4 fs os cs neg s = Ok (r, s') ->
  forall a, Face.edge <$> st_faces s' !! a = Face.edge <$> st_faces s !! a.
Proof.
  intros Hwf Hrun. unfold Mesh_make4 in Hrun.
  apply bind_Ok_inv in Hrun as (this & s1 & Hnew & Hrun).
  apply new_Mesh_object_ext in Hnew as (Hext1 & _ & _ & _ & Hf1 & _); [|done].
  apply bind_Ok_inv in Hrun as ([] & s2 & Hloop & Hrun).
  injection Hrun as <- <-.
  pose proof (for_each_ind _
    (fun _ _ sc => store_wf sc
                   /\ forall a, Face.edge <$> st_faces sc !! a
                                = Face.edge <$> st_faces s !! a)
    fs [] tt tt s1 s2 Hloop) as Hinv.
  destruct Hinv as [_ H]; [| |done].
  - split; [apply Hext1|]. intros a. by rewrite Hf1.
  - intros _ f [] sa [] sb (Hwa & Ha) _ Hbody.
    apply upd_face_ext in Hbody as [Hx (F & HF & ->)]; [|done|done].
    split; [apply Hx|]. intros a. simpl. rewrite <- Ha.
    destruct (decide (f = a)) as [->|Hne].
    + by rewrite lookup_insert_eq, HF.
    + by rewrite lookup_insert_ne.
Qed.

Lemma face_all_twinned_same (s s' : store) (f : ptr) :
  st_edges s' = st_edges s ->
  (forall a, Face.edge <$> st_faces s' !! a = Face.edge <$> st_faces s !! a) ->
  face_all_twinned s' f <-> face_all_twinned s f.
Proof.
  intros He Hf. unfold face_all_twinned, face_ring. rewrite He.
  specialize (Hf f).
  destruct (st_faces s' !! f) as [F'|], (st_faces s !! f) as [F|]; try done.
  simpl in *. injection Hf as ->. done.
Qed.

Lemma rings_open_nil (s : store) (fs : list ptr) (rings : list (list ptr)) :
  Forall2 (fun f l => face_ring s f = Some l) fs rings ->
  concat (ring_open_edges (st_edges s) <$> rings) = []
  <-> Forall (face_all_twinned s) fs.
Proof.
  induction 1 as [|f l fs rings Hl _ IH]; [done|].
  simpl. rewrite Forall_cons, <- IH.
  assert (Hf : ring_open_edges (st_edges s) l = [] <-> face_all_twinned s f).
  { unfold face_all_twinned. rewrite Hl. unfold face_ring in Hl.
    destruct (st_faces s !! f) as [F|]; [|done]. simpl in Hl.
    by eapply ring_open_edges_nil. }
  rewrite <- Hf. split.
  - intros H. by apply app_eq_nil in H.
  - intros [H1 H2]. rewrite H1. exact H2.
Qed.

(** A mesh made by the constructor from faces whose rings close is
    closed exactly when every half-edge of its faces has a twin. *)
Lemma Mesh_make_isClosed (neg : bool) (fs : list ptr) (s s' : store) (r : ptr) :
  store_wf s ->
  faces_ready s fs ->
  Mesh_make neg fs s = Ok (r, s') ->
  exists m, st_meshes s' !! r = Some m
            /\ Mesh.faces m = fs
            /\ (Mesh.isClosed m = true <-> mesh_all_twinned s' m).
Proof.
  intros Hwf Hready Hrun. unfold Mesh_make in Hrun.
  destruct (scan_faces_open s fs ([], []) Hready) as (cl & rings & Hscan & Hrings).
  rewrite (bind_Ok _ _ _ _ _ Hscan) in Hrun. simpl in Hrun.
  pose proof (Mesh_make4_face_edge _ _ _ _ _ _ _ Hwf Hrun) as Hedge.
  apply Mesh_make4_ext in Hrun as (_ & _ & Hm & He); [|done].
  eexists. split; [exact Hm|]. split; [done|].
  unfold mesh_all_twinned, Mesh.isClosed. simpl.
  rewrite Nat.eqb_eq, length_zero_iff_nil, (rings_open_nil s fs rings Hrings).
  rewrite !Forall_forall. split; intros H f Hf.
  - apply (face_all_twinned_same s s' f He Hedge), H, Hf.
  - apply (face_all_twinned_same s s' f He Hedge), H, Hf.
Qed.

(** * Further properties of the code *)

(** ** FaceIter: positions, traversal, order *)

(** The forward loop started at or beyond the number of faces that
    are left stops on the end position. *)
Lemma faceiter_fwd_loop_past {F : Type} (rest : list (list F)) :
  forall (mesh : nat) (face : Z),
    rest <> [] ->
    Z.of_nat (length (concat rest)) <= face ->
    FaceIter.fwd_loop rest mesh face = FaceIter.mk (mesh + length rest) 0.
Proof.
  induction rest as [|fs rest IH]; intros mesh face Hne Hf; [done|].
  simpl in Hf. rewrite length_app in Hf. simpl.
  destruct (Z.leb_spec (Z.of_nat (length fs)) face) as [Hle|Hlt]; [|lia].
  destruct rest as [|fs' rest'].
  - simpl. f_equal. lia.
  - rewrite IH; [|done|lia]. simpl. f_equal. lia.
Qed.

Section FaceIterMore.
Context {F : Type}.
Variable meshes : list (list F).

Let total : Z := Z.of_nat (length (concat meshes)).

Lemma faceiter_valid_bounds (it : FaceIter.t) :
  FaceIter.valid meshes it ->
  (FaceIter.mesh it <= length meshes)%nat
  /\ 0 <= FaceIter.face it
  /\ 0 <= FaceIter.index meshes it <= total.
Proof.
  intros [(fs & Hfs & Hf)| ->].
  - pose proof (lookup_lt_Some _ _ _ Hfs).
    pose proof (faceiter_prefix_le meshes (S (FaceIter.mesh it))) as Hle.
    rewrite (faceiter_prefix_S _ _ _ Hfs) in Hle.
    unfold FaceIter.index. subst total. lia.
  - unfold FaceIter.index. simpl. rewrite firstn_all. subst total. lia.
Qed.

(** A valid position other than the end lies before the end. *)
Lemma faceiter_valid_face_lt (it : FaceIter.t) (fs : list F) :
  meshes !! FaceIter.mesh it = Some fs ->
  0 <= FaceIter.face it < Z.of_nat (length fs) ->
  FaceIter.index meshes it < total.
Proof.
  intros Hfs Hf.
  pose proof (faceiter_prefix_le meshes (S (FaceIter.mesh it))) as Hle.
  rewrite (faceiter_prefix_S _ _ _ Hfs) in Hle.
  unfold FaceIter.index. subst total. lia.
Qed.

Lemma faceiter_index_end :
  FaceIter.index meshes (FaceIter.faceEnd meshes) = total.
Proof.
  unfold FaceIter.index, FaceIter.faceEnd. simpl. rewrite firstn_all.
  subst total. lia.
Qed.

(** The element of a mesh, seen in the concatenation. *)
Lemma faceiter_concat_lookup (m : nat) (fs : list F) (i : nat) :
  meshes !! m = Some fs ->
  (i < length fs)%nat ->
  concat meshes !! (length (concat (take m meshes)) + i)%nat = fs !! i.
Proof.
  intros Hfs Hi.
  assert (Hc : concat meshes
               = concat (take m meshes) ++ fs ++ concat (drop (S m) meshes)).
  { rewrite <- (take_drop m meshes) at 1.
    by rewrite (drop_S _ _ _ Hfs), concat_app. }
  rewrite Hc.
  rewrite lookup_app_r by lia.
  replace (length (concat (take m meshes)) + i - length (concat (take m meshes)))%nat
    with i by lia.
  by rewrite lookup_app_l.
Qed.

(** The order on valid positions, mesh first, is the order of their
    places in the concatenation. *)
Lemma faceiter_mesh_lt_index (x y : FaceIter.t) :
  FaceIter.valid meshes x -> FaceIter.valid meshes y ->
  (FaceIter.mesh x < FaceIter.mesh y)%nat ->
  FaceIter.index meshes x < FaceIter.index meshes y.
Proof.
  intros [(fs & Hfs & Hf)| ->] Hy Hxy.
  - destruct (faceiter_valid_bounds y Hy) as (_ & Hfy & _).
    pose proof (faceiter_prefix_mono meshes (S (FaceIter.mesh x)) (FaceIter.mesh y) Hxy) as Hm.
    rewrite (faceiter_prefix_S _ _ _ Hfs) in Hm. unfold FaceIter.index. lia.
  - destruct (faceiter_valid_bounds y Hy) as (Hmy & _ & _). simpl in Hxy. lia.
Qed.

(** The loop of [rev], by induction on the mesh index. *)
Lemma faceiter_rev_loop_index (mesh : nat) :
  forall face n : Z,
    Forall (fun fs => fs <> []) meshes ->
    total < SizeT.modulus ->
    FaceIter.valid meshes (FaceIter.mk mesh face) ->
    0 <= n ->
    exists it',
      FaceIter.rev_loop meshes mesh face n = Some it'
      /\ FaceIter.valid meshes it'
      /\ (FaceIter.mesh it' <= mesh)%nat
      /\ FaceIter.index meshes it'
         = Z.max 0 (FaceIter.index meshes (FaceIter.mk mesh face) - n
                    - (Z.of_nat mesh - Z.of_nat (FaceIter.mesh it'))).
Proof.
  induction mesh as [|m IH]; intros face n Hne Htot Hv Hn.
  - simpl. destruct (Z.ltb_spec face n) as [Hlt|Hge].
    + exists (FaceIter.mk 0 0). split; [done|].
      destruct (faceiter_valid_bounds _ Hv) as (_ & Hf & _). simpl in Hf.
      split; [|split; [simpl; lia|unfold FaceIter.index; simpl; lia]].
      destruct Hv as [(fs & Hfs & Hface)|Hend].
      * left. exists fs. simpl in *. split; [done|lia].
      * right. injection Hend as Hlen _. unfold FaceIter.faceEnd. by rewrite <- Hlen.
    + exists (FaceIter.mk 0 (face - n)). split; [done|].
      destruct (faceiter_valid_bounds _ Hv) as (_ & Hf & _). simpl in Hf.
      split; [|split; [simpl; lia|unfold FaceIter.index; simpl; lia]].
      destruct Hv as [(fs & Hfs & Hface)|Hend].
      * left. exists fs. simpl in *. split; [done|lia].
      * right. injection Hend as Hlen Hface. subst face.
        assert (n = 0) as -> by lia. unfold FaceIter.faceEnd. by rewrite <- Hlen.
  - simpl. destruct (Z.ltb_spec face n) as [Hlt|Hge].
    + destruct (faceiter_valid_bounds _ Hv) as (Hm & Hf & _). simpl in Hm, Hf.
      destruct (lookup_lt_is_Some_2 meshes m) as [fs Hfs]; [lia|].
      unfold FaceIter.faces_size. rewrite Hfs. simpl.
      assert (Hpos : (0 < length fs)%nat).
      { pose proof (Forall_lookup_1 _ _ _ _ Hne Hfs) as Hnil.
        destruct fs; [done|simpl; lia]. }
      assert (Hsz : Z.of_nat (length fs) <= total).
      { pose proof (faceiter_prefix_le meshes (S m)) as Hle.
        rewrite (faceiter_prefix_S _ _ _ Hfs) in Hle. subst total. lia. }
      assert (Hw : SizeT.wrap (Z.of_nat (length fs) - 1) = Z.of_nat (length fs) - 1).
      { unfold SizeT.wrap. apply Z.mod_small. lia. }
      rewrite Hw.
      destruct (IH (Z.of_nat (length fs) - 1) (n - face)) as (it' & Hr & Hv' & Hm' & Hi');
        [done|done| |lia|].
      { left. exists fs. simpl. split; [done|lia]. }
      exists it'. split; [done|]. split; [done|]. split; [lia|].
      rewrite Hi'. unfold FaceIter.index. simpl FaceIter.mesh. simpl FaceIter.face.
      rewrite (faceiter_prefix_S _ _ _ Hfs). f_equal. lia.
    + exists (FaceIter.mk (S m) (face - n)). split; [done|].
      destruct (faceiter_valid_bounds _ Hv) as (_ & Hf & _). simpl in Hf.
      split; [|split; [simpl; lia|unfold FaceIter.index; simpl; lia]].
      destruct Hv as [(fs & Hfs & Hface)|Hend].
      * left. exists fs. simpl in *. split; [done|lia].
      * right. injection Hend as Hlen Hface. subst face.
        assert (n = 0) as -> by lia. unfold FaceIter.faceEnd. by rewrite <- Hlen.
Qed.

End FaceIterMore.

(** A valid position other than the end can be dereferenced, and
    holds the face at its place in the concatenation. *)
Lemma faceiter_deref_index {F : Type} (meshes : list (list F)) (it : FaceIter.t)
      (fs : list F) :
  meshes !! FaceIter.mesh it = Some fs ->
  0 <= FaceIter.face it < Z.of_nat (length fs) ->
  is_Some (FaceIter.deref meshes it)
  /\ FaceIter.deref meshes it
     = concat meshes !! Z.to_nat (FaceIter.index meshes it).
Proof.
  intros Hfs Hf. unfold FaceIter.deref. rewrite Hfs. simpl. split.
  - apply lookup_lt_is_Some_2. lia.
  - unfold FaceIter.index.
    replace (Z.to_nat (Z.of_nat (length (concat (take (FaceIter.mesh it) meshes)))
                       + FaceIter.face it))
      with (length (concat (take (FaceIter.mesh it) meshes))
            + Z.to_nat (FaceIter.face it))%nat by lia.
    symmetry. apply faceiter_concat_lookup; [done|lia].
Qed.

(** [operator<] on valid positions is the order of the places. *)
Lemma faceiter_lt_index {F : Type} (meshes : list (list F)) (a b : FaceIter.t) :
  FaceIter.valid meshes a -> FaceIter.valid meshes b ->
  FaceIterCmp.lt a b = true
  <-> FaceIter.index meshes a < FaceIter.index meshes b.
Proof.
  intros Ha Hb. unfold FaceIterCmp.lt.
  rewrite orb_true_iff, andb_true_iff, Nat.ltb_lt, Nat.eqb_eq, Z.ltb_lt.
  destruct (Nat.lt_trichotomy (FaceIter.mesh a) (FaceIter.mesh b)) as [H|[H|H]].
  - pose proof (faceiter_mesh_lt_index meshes a b Ha Hb H). split; [done|by left].
  - unfold FaceIter.index. rewrite H. split.
    + intros [?|[_ ?]]; lia.
    + intros ?. right. split; [done|lia].
  - pose proof (faceiter_mesh_lt_index meshes b a Hb Ha H). split; [|lia].
    intros [?|[? _]]; lia.
Qed.

(** X1.  [fwd n] moves a valid position [n] places forward in the
    concatenation of the [faces] vectors, skipping empty meshes, and
    stops on the end position when fewer than [n] places are left; the
    end position itself does not move. *)
Theorem FaceIter_fwd_position {F : Type} (meshes : list (list F))
        (it : FaceIter.t) (n : Z) :
  FaceIter.valid meshes it ->
  0 <= n ->
  Z.of_nat (length (concat meshes)) + n < SizeT.modulus ->
  FaceIter.valid meshes (FaceIter.fwd meshes n it)
  /\ FaceIter.index meshes (FaceIter.fwd meshes n it)
     = Z.min (FaceIter.index meshes it + n) (Z.of_nat (length (concat meshes))).
Proof.
  intros Hv Hn Hno.
  destruct (faceiter_valid_bounds meshes it Hv) as (Hm & Hf & Hi).
  destruct (Z.le_gt_cases (FaceIter.index meshes it + n)
              (Z.of_nat (length (concat meshes)))) as [Hin|Hout].
  - destruct (faceiter_fwd_index meshes it n) as [H1 H2]; [lia|done|done|done|].
    split; [done|]. rewrite H1. lia.
  - assert (Hend : FaceIter.fwd meshes n it = FaceIter.faceEnd meshes).
    { unfold FaceIter.fwd. destruct Hv as [(fs & Hfs & Hface)| ->].
      - pose proof (lookup_lt_Some _ _ _ Hfs) as Hlt.
        destruct (Nat.ltb_spec (FaceIter.mesh it) (length meshes)); [|lia].
        assert (Hw : SizeT.wrap (FaceIter.face it + n) = FaceIter.face it + n).
        { unfold SizeT.wrap. apply Z.mod_small. unfold FaceIter.index in Hi. lia. }
        rewrite Hw, faceiter_fwd_loop_past.
        + unfold FaceIter.faceEnd. f_equal. rewrite length_drop. lia.
        + by rewrite (drop_S _ _ _ Hfs).
        + assert (Hsplit : length (concat meshes)
                           = (length (concat (take (FaceIter.mesh it) meshes))
                              + length (concat (drop (FaceIter.mesh it) meshes)))%nat).
          { rewrite <- (take_drop (FaceIter.mesh it) meshes) at 1.
            by rewrite concat_app, length_app. }
          unfold FaceIter.index in Hout. lia.
      - simpl. by destruct (Nat.ltb_spec (length meshes) (length meshes)); [lia|]. }
    rewrite Hend. split; [by right|]. rewrite faceiter_index_end. lia.
Qed.

Lemma FaceIter_fwd_position_witness :
  let meshes := [[10; 11]; []; [20]]%nat in
  FaceIter.valid meshes (FaceIter.fwd meshes 1 (FaceIter.mk 0 1))
  /\ FaceIter.index meshes (FaceIter.fwd meshes 1 (FaceIter.mk 0 1))
     = Z.min (FaceIter.index meshes (FaceIter.mk 0 1) + 1)
             (Z.of_nat (length (concat meshes))).
Proof.
  apply (FaceIter_fwd_position [[10; 11]; []; [20]]%nat (FaceIter.mk 0 1) 1).
  - left. exists [10; 11]%nat. split; [reflexivity|simpl; lia].
  - lia.
  - vm_compute. reflexivity.
Defined.

(** X2.  Dereferencing a valid position other than the end yields the
    face at that place of the concatenation of the [faces] vectors;
    the end position holds no face. *)
Theorem FaceIter_deref_position {F : Type} (meshes : list (list F))
        (it : FaceIter.t) :
  FaceIter.valid meshes it ->
  (it <> FaceIter.faceEnd meshes ->
     is_Some (FaceIter.deref meshes it)
     /\ FaceIter.deref meshes it
        = concat meshes !! Z.to_nat (FaceIter.index meshes it))
  /\ (it = FaceIter.faceEnd meshes -> FaceIter.deref meshes it = None).
Proof.
  intros Hv. split.
  - intros Hne. destruct Hv as [(fs & Hfs & Hf)|Hend]; [|done].
    by apply (faceiter_deref_index meshes it fs).
  - intros ->. unfold FaceIter.deref, FaceIter.faceEnd. simpl.
    by rewrite lookup_ge_None_2.
Qed.

Lemma FaceIter_deref_position_witness :
  let meshes := [[10; 11]; []; [20]]%nat in
  let it := FaceIter.mk 2 0 in
  (it <> FaceIter.faceEnd meshes ->
     is_Some (FaceIter.deref meshes it)
     /\ FaceIter.deref meshes it
        = concat meshes !! Z.to_nat (FaceIter.index meshes it))
  /\ (it = FaceIter.faceEnd meshes -> FaceIter.deref meshes it = None).
Proof.
  apply (FaceIter_deref_position [[10; 11]; []; [20]]%nat (FaceIter.mk 2 0)).
  left. exists [20]%nat. split; [reflexivity|simpl; lia].
Defined.

(** One call of [fwd] from a valid position, also when it runs into
    the end. *)
Lemma faceiter_fwd_saturates {F : Type} (meshes : list (list F))
      (it : FaceIter.t) (n : Z) :
  FaceIter.valid meshes it ->
  0 <= n ->
  Z.of_nat (length (concat meshes)) + n < SizeT.modulus ->
  FaceIter.valid meshes (FaceIter.fwd meshes n it)
  /\ FaceIter.index meshes (FaceIter.fwd meshes n it)
     = Z.min (FaceIter.index meshes it + n) (Z.of_nat (length (concat meshes))).
Proof.
  intros Hv Hn Hno.
  destruct (faceiter_valid_bounds meshes it Hv) as (Hm & Hf & Hi).
  destruct (Z.le_gt_cases (FaceIter.index meshes it + n)
              (Z.of_nat (length (concat meshes)))) as [Hin|Hout].
  - destruct (faceiter_fwd_index meshes it n) as [H1 H2]; [lia|done|done|done|].
    split; [done|]. rewrite H1. lia.
  - assert (Hend : FaceIter.fwd meshes n it = FaceIter.faceEnd meshes).
    { unfold FaceIter.fwd. destruct Hv as [(fs & Hfs & Hface)| ->].
      - pose proof (lookup_lt_Some _ _ _ Hfs) as Hlt.
        destruct (Nat.ltb_spec (FaceIter.mesh it) (length meshes)); [|lia].
        assert (Hw : SizeT.wrap (FaceIter.face it + n) = FaceIter.face it + n).
        { unfold SizeT.wrap. apply Z.mod_small. unfold FaceIter.index in Hi. lia. }
        rewrite Hw, faceiter_fwd_loop_past.
        + unfold FaceIter.faceEnd. f_equal. rewrite length_drop. lia.
        + by rewrite (drop_S _ _ _ Hfs).
        + assert (Hsplit : length (concat meshes)
                           = (length (concat (take (FaceIter.mesh it) meshes))
                              + length (concat (drop (FaceIter.mesh it) meshes)))%nat).
          { rewrite <- (take_drop (FaceIter.mesh it) meshes) at 1.
            by rewrite concat_app, length_app. }
          unfold FaceIter.index in Hout. lia.
      - simpl. by destruct (Nat.ltb_spec (length meshes) (length meshes)); [lia|]. }
    rewrite Hend. split; [by right|]. rewrite faceiter_index_end. lia.
Qed.

(** Increments from a valid position. *)
Lemma faceiter_incr_iter {F : Type} (meshes : list (list F)) (it : FaceIter.t)
      (k : nat) :
  Z.of_nat (length (concat meshes)) + 1 < SizeT.modulus ->
  FaceIter.valid meshes it ->
  FaceIter.valid meshes (Nat.iter k (FaceIter.incr meshes) it)
  /\ FaceIter.index meshes (Nat.iter k (FaceIter.incr meshes) it)
     = Z.min (FaceIter.index meshes it + Z.of_nat k)
             (Z.of_nat (length (concat meshes))).
Proof.
  intros Htot Hv. induction k as [|k [IHv IHi]].
  - simpl. split; [done|].
    destruct (faceiter_valid_bounds meshes it Hv) as (_ & _ & Hi). lia.
  - simpl. unfold FaceIter.incr at 1 3.
    destruct (faceiter_fwd_saturates meshes _ 1 IHv) as [H1 H2]; [lia|done|].
    split; [done|]. rewrite H2, IHi. lia.
Qed.

(** The first increment from [(0, 0)] when the first mesh is empty. *)
Lemma faceiter_incr_begin_empty {F : Type} (meshes : list (list F)) :
  meshes !! 0%nat = Some [] ->
  Z.of_nat (length (concat meshes)) + 1 < SizeT.modulus ->
  let it := FaceIter.incr meshes (FaceIter.mk 0 0) in
  FaceIter.valid meshes it
  /\ FaceIter.index meshes it = Z.min 1 (Z.of_nat (length (concat meshes))).
Proof.
  intros H0 Htot it. subst it. unfold FaceIter.incr, FaceIter.fwd.
  simpl FaceIter.mesh. simpl FaceIter.face.
  pose proof (lookup_lt_Some _ _ _ H0) as Hlt.
  destruct (Nat.ltb_spec 0 (length meshes)); [|lia].
  rewrite drop_0. change (SizeT.wrap (0 + 1)) with 1.
  assert (Hne : meshes <> []) by (intros ->; done).
  destruct (Z.le_gt_cases 1 (Z.of_nat (length (concat meshes)))) as [Hge|Hnone].
  - destruct (faceiter_fwd_loop_index meshes meshes [] 1) as [H1 H2];
      [done|done|lia|].
    simpl in H1, H2. split; [done|]. rewrite H1. lia.
  - rewrite faceiter_fwd_loop_past by (done || lia).
    change (FaceIter.mk (0 + length meshes) 0) with (FaceIter.faceEnd meshes).
    split; [by right|]. rewrite faceiter_index_end. lia.
Qed.

(** X3.  Traversal with [++] from [faceBegin()].  When [faceBegin()]
    is a valid position (the first mesh has a face, or there is no
    mesh), the position after [k] increments is valid and is place [k]
    of the concatenation of the [faces] vectors: it holds the [k]-th
    face, and from as many increments as there are faces on it is
    [faceEnd()].  When the set starts with an empty mesh, [faceBegin()]
    holds no face (dereferencing it reads outside the empty vector),
    and the positions after one or more increments are the places 1,
    2, ...: the face at place 0 is never reached. *)
Theorem FaceIter_traversal {F : Type} (meshes : list (list F)) (k : nat) :
  Z.of_nat (length (concat meshes)) + 1 < SizeT.modulus ->
  let total := Z.of_nat (length (concat meshes)) in
  let it := Nat.iter k (FaceIter.incr meshes) FaceIter.faceBegin in
  (FaceIter.valid meshes FaceIter.faceBegin ->
     FaceIter.valid meshes it
     /\ FaceIter.index meshes it = Z.min (Z.of_nat k) total
     /\ (Z.of_nat k < total ->
           is_Some (FaceIter.deref meshes it)
           /\ FaceIter.deref meshes it = concat meshes !! k)
     /\ (total <= Z.of_nat k -> it = FaceIter.faceEnd meshes))
  /\ (meshes !! 0%nat = Some [] ->
        FaceIter.deref meshes FaceIter.faceBegin = None
        /\ ((0 < k)%nat ->
              FaceIter.valid meshes it
              /\ FaceIter.index meshes it = Z.min (Z.of_nat k) total)).
Proof.
  intros Htot total it. split.
  - intros Hv.
    destruct (faceiter_incr_iter meshes FaceIter.faceBegin k Htot Hv) as [Hvk Hik].
    fold it in Hvk, Hik. fold total in Hik.
    change (FaceIter.index meshes FaceIter.faceBegin) with (0 + 0) in Hik.
    split_and!; [done|rewrite Hik; lia| |].
    + intros Hlt. destruct Hvk as [(fs & Hfs & Hf)|Hend].
      * destruct (faceiter_deref_index meshes it fs Hfs Hf) as [H1 H2].
        split; [done|]. rewrite H2, Hik. f_equal. lia.
      * rewrite Hend, faceiter_index_end in Hik. fold total in Hik. lia.
    + intros Hge. apply (faceiter_index_inj meshes); [done|by right|].
      rewrite faceiter_index_end. fold total. lia.
  - intros H0. split.
    + unfold FaceIter.deref, FaceIter.faceBegin. simpl. by rewrite H0.
    + intros Hk. destruct k as [|k]; [lia|]. subst it.
      rewrite Nat.iter_succ_r.
      destruct (faceiter_incr_begin_empty meshes H0 Htot) as [Hv1 Hi1].
      destruct (faceiter_incr_iter meshes _ k Htot Hv1) as [Hvk Hik].
      unfold FaceIter.faceBegin. split; [done|].
      rewrite Hik, Hi1. fold total. lia.
Qed.

Lemma FaceIter_traversal_witness :
  let meshes := [[10; 11]; []; [20]]%nat in
  let total := Z.of_nat (length (concat meshes)) in
  let it := Nat.iter 2 (FaceIter.incr meshes) FaceIter.faceBegin in
  (FaceIter.valid meshes FaceIter.faceBegin ->
     FaceIter.valid meshes it
     /\ FaceIter.index meshes it = Z.min (Z.of_nat 2) total
     /\ (Z.of_nat 2 < total ->
           is_Some (FaceIter.deref meshes it)
           /\ FaceIter.deref meshes it = concat meshes !! 2%nat)
     /\ (total <= Z.of_nat 2 -> it = FaceIter.faceEnd meshes))
  /\ (meshes !! 0%nat = Some [] ->
        FaceIter.deref meshes FaceIter.faceBegin = None
        /\ ((0 < 2)%nat ->
              FaceIter.valid meshes it
              /\ FaceIter.index meshes it = Z.min (Z.of_nat 2) total)).
Proof.
  apply (FaceIter_traversal [[10; 11]; []; [20]]%nat 2).
  vm_compute. reflexivity.
Defined.

(** The traversal of a set that starts with an empty mesh: the first
    position holds no face and the increment skips face 10. *)
Example faceiter_traversal_empty_first :
  let meshes := [[]; [10; 11]]%nat in
  FaceIter.deref meshes FaceIter.faceBegin = None
  /\ FaceIter.incr meshes FaceIter.faceBegin = FaceIter.mk 1 1
  /\ FaceIter.deref meshes (FaceIter.mk 1 1) = Some 11%nat.
Proof. vm_compute. repeat split. Qed.

(** X4.  [operator-] between two valid positions is the signed
    difference of their places in the concatenation; it is zero only
    for equal positions, and exchanging the operands changes its
    sign. *)
Theorem FaceIter_difference {F : Type} (meshes : list (list F)) (a b : FaceIter.t) :
  Z.of_nat (length (concat meshes)) < 2 ^ 63 ->
  FaceIter.valid meshes a ->
  FaceIter.valid meshes b ->
  exists d,
    FaceIter.diff meshes a b = Some d
    /\ d = FaceIter.index meshes a - FaceIter.index meshes b
    /\ FaceIter.diff meshes b a = Some (- d)
    /\ (d = 0 <-> a = b).
Proof.
  intros Htot Ha Hb.
  exists (FaceIter.index meshes a - FaceIter.index meshes b).
  rewrite !faceiter_diff_index by done.
  split; [done|]. split; [done|]. split; [f_equal; lia|]. split.
  - intros Hd. apply (faceiter_index_inj meshes); [done|done|lia].
  - intros ->. lia.
Qed.

Lemma FaceIter_difference_witness :
  let meshes := [[10; 11]; []; [20]]%nat in
  let a := FaceIter.mk 2 0 in
  let b := FaceIter.mk 0 1 in
  exists d,
    FaceIter.diff meshes a b = Some d
    /\ d = FaceIter.index meshes a - FaceIter.index meshes b
    /\ FaceIter.diff meshes b a = Some (- d)
    /\ (d = 0 <-> a = b).
Proof.
  apply (FaceIter_difference [[10; 11]; []; [20]]%nat (FaceIter.mk 2 0) (FaceIter.mk 0 1)).
  - vm_compute. reflexivity.
  - left. exists [20]%nat. split; [reflexivity|simpl; lia].
  - left. exists [10; 11]%nat. split; [reflexivity|simpl; lia].
Defined.

(** X5.  The comparison operators on valid positions agree with the
    order of the places in the concatenation, and [operator==] holds
    exactly for equal positions. *)
Theorem FaceIter_order {F : Type} (meshes : list (list F)) (a b : FaceIter.t) :
  FaceIter.valid meshes a ->
  FaceIter.valid meshes b ->
  (FaceIterCmp.lt a b = true
     <-> FaceIter.index meshes a < FaceIter.index meshes b)
  /\ (FaceIterCmp.gt a b = true
        <-> FaceIter.index meshes b < FaceIter.index meshes a)
  /\ (FaceIterCmp.le a b = true
        <-> FaceIter.index meshes a <= FaceIter.index meshes b)
  /\ (FaceIterCmp.ge a b = true
        <-> FaceIter.index meshes b <= FaceIter.index meshes a)
  /\ (FaceIter.eqb a b = true
        <-> FaceIter.index meshes a = FaceIter.index meshes b)
  /\ (FaceIterCmp.ne a b = true <-> a <> b).
Proof.
  intros Ha Hb.
  pose proof (faceiter_lt_index meshes a b Ha Hb) as Hab.
  pose proof (faceiter_lt_index meshes b a Hb Ha) as Hba.
  assert (Heq : FaceIter.eqb a b = true <-> a = b).
  { unfold FaceIter.eqb. rewrite andb_true_iff, Nat.eqb_eq, Z.eqb_eq.
    destruct a, b; simpl. split; [intros [-> ->]; done|].
    intros H; by injection H. }
  unfold FaceIterCmp.gt, FaceIterCmp.le, FaceIterCmp.ge, FaceIterCmp.ne.
  rewrite !negb_true_iff.
  split; [done|]. split; [done|].
  split; [destruct (FaceIterCmp.lt b a); split; intros; try done; lia|].
  split; [destruct (FaceIterCmp.lt a b); split; intros; try done; lia|].
  split.
  - rewrite Heq. split; [by intros ->|].
    by apply (faceiter_index_inj meshes).
  - destruct (FaceIter.eqb a b); split; intros H; try done.
    + exfalso. apply H. by apply Heq.
    + intros Hc. apply Heq in Hc. done.
Qed.

Lemma FaceIter_order_witness :
  let meshes := [[10; 11]; []; [20]]%nat in
  let a := FaceIter.mk 0 1 in
  let b := FaceIter.faceEnd meshes in
  (FaceIterCmp.lt a b = true
     <-> FaceIter.index meshes a < FaceIter.index meshes b)
  /\ (FaceIterCmp.gt a b = true
        <-> FaceIter.index meshes b < FaceIter.index meshes a)
  /\ (FaceIterCmp.le a b = true
        <-> FaceIter.index meshes a <= FaceIter.index meshes b)
  /\ (FaceIterCmp.ge a b = true
        <-> FaceIter.index meshes b <= FaceIter.index meshes a)
  /\ (FaceIter.eqb a b = true
        <-> FaceIter.index meshes a = FaceIter.index meshes b)
  /\ (FaceIterCmp.ne a b = true <-> a <> b).
Proof.
  apply (FaceIter_order [[10; 11]; []; [20]]%nat (FaceIter.mk 0 1)
           (FaceIter.faceEnd [[10; 11]; []; [20]]%nat)).
  - left. exists [10; 11]%nat. split; [reflexivity|simpl; lia].
  - right. reflexivity.
Defined.

(** X6.  [rev n] on a set without empty meshes yields a valid
    position, but moves back one place too many for every mesh
    boundary it crosses: the place reached is the place of the start
    minus [n] minus the number of meshes left behind, or the first
    place when that would be negative. *)
Theorem FaceIter_rev_position {F : Type} (meshes : list (list F))
        (it : FaceIter.t) (n : Z) :
  Forall (fun fs => fs <> []) meshes ->
  Z.of_nat (length (concat meshes)) < SizeT.modulus ->
  FaceIter.valid meshes it ->
  0 <= n ->
  exists it',
    FaceIter.rev meshes n it = Some it'
    /\ FaceIter.valid meshes it'
    /\ (FaceIter.mesh it' <= FaceIter.mesh it)%nat
    /\ FaceIter.index meshes it'
       = Z.max 0 (FaceIter.index meshes it - n
                  - (Z.of_nat (FaceIter.mesh it) - Z.of_nat (FaceIter.mesh it'))).
Proof.
  intros Hne Htot Hv Hn. unfold FaceIter.rev. destruct it as [m f].
  by apply faceiter_rev_loop_index.
Qed.

Lemma FaceIter_rev_position_witness :
  let meshes := [[10; 11]; [20]]%nat in
  let it := FaceIter.mk 1 0 in
  exists it',
    FaceIter.rev meshes 1 it = Some it'
    /\ FaceIter.valid meshes it'
    /\ (FaceIter.mesh it' <= FaceIter.mesh it)%nat
    /\ FaceIter.index meshes it'
       = Z.max 0 (FaceIter.index meshes it - 1
                  - (Z.of_nat (FaceIter.mesh it) - Z.of_nat (FaceIter.mesh it'))).
Proof.
  apply (FaceIter_rev_position [[10; 11]; [20]]%nat (FaceIter.mk 1 0) 1).
  - repeat constructor; done.
  - vm_compute. reflexivity.
  - left. exists [20]%nat. split; [reflexivity|simpl; lia].
  - lia.
Defined.

(** X7.  For valid positions [a] and [b] with [a <= b], the difference
    [b - a] is not negative and [a += (b - a)] moves [a] to [b]:
    forward jumps in place, by a distance computed by [operator-], land
    where they should, across any number of meshes.  The expression
    [a + (b - a)], however, yields the position of [a] before the
    jump. *)
Theorem FaceIter_plus_difference {F : Type} (meshes : list (list F))
        (a b : FaceIter.t) (d : Z) :
  Z.of_nat (length (concat meshes)) < 2 ^ 31 ->
  FaceIter.valid meshes a ->
  FaceIter.valid meshes b ->
  FaceIterCmp.le a b = true ->
  FaceIter.diff meshes b a = Some d ->
  0 <= d
  /\ FaceIter.plus_assign meshes a d = Some b
  /\ FaceIter.plus meshes a d = Some (a, b).
Proof.
  intros Htot Ha Hb Hle Hd.
  assert (Hidx : FaceIter.index meshes a <= FaceIter.index meshes b).
  { unfold FaceIterCmp.le in Hle. apply negb_true_iff in Hle.
    destruct (Z.le_gt_cases (FaceIter.index meshes a) (FaceIter.index meshes b))
      as [H|H]; [done|].
    apply (faceiter_lt_index meshes b a Hb Ha) in H. congruence. }
  pose proof (faceiter_plus_diff_forward meshes a b d Htot Ha Hb Hidx Hd) as Hjump.
  split_and!.
  - rewrite faceiter_diff_index in Hd by (done || lia). injection Hd as <-. lia.
  - done.
  - unfold FaceIter.plus. unfold FaceIter.plus_assign in Hjump. by rewrite Hjump.
Qed.

Lemma FaceIter_plus_difference_witness :
  let meshes := [[10; 11]; []; [20]]%nat in
  0 <= 2
  /\ FaceIter.plus_assign meshes (FaceIter.mk 0 0) 2 = Some (FaceIter.mk 2 0)
  /\ FaceIter.plus meshes (FaceIter.mk 0 0) 2
     = Some (FaceIter.mk 0 0, FaceIter.mk 2 0).
Proof.
  apply (FaceIter_plus_difference [[10; 11]; []; [20]]%nat
           (FaceIter.mk 0 0) (FaceIter.mk 2 0) 2).
  - vm_compute. reflexivity.
  - left. exists [10; 11]%nat. split; [reflexivity|simpl; lia].
  - left. exists [20]%nat. split; [reflexivity|simpl; lia].
  - reflexivity.
  - reflexivity.
Defined.

(** ** MeshSet constructor: how decoding fails *)

(** X8.  The [MeshSet(points, n_faces, face_indices)] constructor
    throws [std::length_error] from [reserve] exactly when [n_faces]
    is more than a vector can hold or a negative count stands where a
    record is expected, after records that are read without fault.  It
    uses [operator[]] outside its vector, which is undefined behaviour
    and is not checked, exactly when, after fewer than [n_faces] such
    records, the array ends, or a count is followed by too few indices
    or by an index that refers to no element of [points]. *)
Theorem decode_faces_failure (max_size : Z) (n_points n_faces : nat) (fi : list Z) :
  2 ^ 31 - 1 <= max_size < 2 ^ 64 - 2 ^ 31 ->
  Z.of_nat n_points <= max_size ->
  Forall MeshSetCtor.is_int fi ->
  (MeshSetCtor.decode_faces max_size n_points fi n_faces = MeshSetCtor.Length_error
   <-> max_size < Z.of_nat n_faces
       \/ exists loops n rest,
            (length loops < n_faces)%nat
            /\ fi = MeshSetCtor.encode loops ++ n :: rest
            /\ MeshSetCtor.loops_in_range n_points loops /\ n < 0)
  /\ (MeshSetCtor.decode_faces max_size n_points fi n_faces = MeshSetCtor.Out_of_bounds
      <-> Z.of_nat n_faces <= max_size
          /\ exists loops tail,
               (length loops < n_faces)%nat
               /\ fi = MeshSetCtor.encode loops ++ tail
               /\ MeshSetCtor.loops_in_range n_points loops
               /\ MeshSetCtor.broken_record n_points tail).
Proof.
  intros Hmax Hpts Hint.
  pose proof (decode_faces_cases max_size n_points fi Hmax Hpts Hint n_faces) as Hc.
  split; split.
  - intros Hd. by rewrite Hd in Hc.
  - intros [Hbig|(loops & n & rest & Hlen & Hfi & Hr & Hn)].
    + unfold MeshSetCtor.decode_faces.
      by destruct (Z.ltb_spec max_size (Z.of_nat n_faces)); [|lia].
    + by apply (decode_faces_Length_error _ _ _ Hmax Hpts Hint _ loops n rest).
  - intros Hd. by rewrite Hd in Hc.
  - intros (Hfit & loops & tail & Hlen & Hfi & Hr & Hb).
    by apply (decode_faces_Out_of_bounds _ _ _ Hmax Hpts Hint _ loops tail).
Qed.

Lemma decode_faces_failure_witness :
  let fi := [3; 0; 1; 2; -1; 0] in
  (MeshSetCtor.decode_faces (2 ^ 60 - 1) 3 fi 2 = MeshSetCtor.Length_error
   <-> 2 ^ 60 - 1 < Z.of_nat 2
       \/ exists loops n rest,
            (length loops < 2)%nat
            /\ fi = MeshSetCtor.encode loops ++ n :: rest
            /\ MeshSetCtor.loops_in_range 3 loops /\ n < 0)
  /\ (MeshSetCtor.decode_faces (2 ^ 60 - 1) 3 fi 2 = MeshSetCtor.Out_of_bounds
      <-> Z.of_nat 2 <= 2 ^ 60 - 1
          /\ exists loops tail,
               (length loops < 2)%nat
               /\ fi = MeshSetCtor.encode loops ++ tail
               /\ MeshSetCtor.loops_in_range 3 loops
               /\ MeshSetCtor.broken_record 3 tail).
Proof.
  apply (decode_faces_failure (2 ^ 60 - 1) 3 2 [3; 0; 1; 2; -1; 0]).
  - lia.
  - lia.
  - repeat constructor; unfold MeshSetCtor.is_int; lia.
Defined.

(** ** hash_vertex_pair: range and collisions *)

Lemma sizet_wrap_land (z : Z) : SizeT.wrap z = Z.land z (Z.ones 64).
Proof. unfold SizeT.wrap, SizeT.modulus. by rewrite Z.land_ones. Qed.

Lemma land_lxor_distr (a b c : Z) :
  Z.land (Z.lxor a b) c = Z.lxor (Z.land a c) (Z.land b c).
Proof.
  apply Z.bits_inj'. intros n Hn.
  rewrite !Z.land_spec, !Z.lxor_spec, !Z.land_spec.
  by destruct (Z.testbit a n), (Z.testbit b n), (Z.testbit c n).
Qed.

Lemma sizet_wrap_range (z : Z) : 0 <= SizeT.wrap z < SizeT.modulus.
Proof. unfold SizeT.wrap, SizeT.modulus. apply Z.mod_pos_bound. lia. Qed.

Lemma sizet_wrap_id (z : Z) : 0 <= z < SizeT.modulus -> SizeT.wrap z = z.
Proof. intros H. unfold SizeT.wrap. by apply Z.mod_small. Qed.

(** X9.  The hash of a pair of vertex addresses is a [size_t] value,
    and two pairs with the same second address and different first
    addresses never collide. *)
Theorem hash_vertex_pair_first_injective (r r' s : Z) :
  0 <= r < SizeT.modulus ->
  0 <= r' < SizeT.modulus ->
  0 <= hash_vertex_pair (r, s) < SizeT.modulus
  /\ (hash_vertex_pair (r, s) = hash_vertex_pair (r', s) -> r = r').
Proof.
  intros Hr Hr'. unfold hash_vertex_pair. simpl.
  rewrite (sizet_wrap_id r), (sizet_wrap_id r') by done.
  set (x := Z.lor _ _).
  assert (Hx : SizeT.wrap x = x).
  { subst x. rewrite sizet_wrap_land, Z.land_lor_distr_l.
    rewrite <- !sizet_wrap_land. f_equal.
    - apply sizet_wrap_id. pose proof (sizet_wrap_range s) as Hs.
      split; [apply Z.shiftr_nonneg; lia|].
      rewrite Z.shiftr_div_pow2 by lia.
      apply Z.le_lt_trans with (SizeT.wrap s); [|lia].
      apply Z.div_le_upper_bound; lia.
    - apply sizet_wrap_id, sizet_wrap_range. }
  split.
  - rewrite <- (sizet_wrap_id r) at 1 2 by done.
    rewrite <- Hx, !sizet_wrap_land, <- land_lxor_distr, <- sizet_wrap_land.
    apply sizet_wrap_range.
  - intros H. apply (f_equal (fun z => Z.lxor z x)) in H.
    by rewrite !Z.lxor_assoc, Z.lxor_nilpotent, !Z.lxor_0_r in H.
Qed.

Lemma hash_vertex_pair_first_injective_witness :
  0 <= hash_vertex_pair (4096, 4128) < SizeT.modulus
  /\ (hash_vertex_pair (4096, 4128) = hash_vertex_pair (4160, 4128) -> 4096 = 4160).
Proof.
  apply (hash_vertex_pair_first_injective 4096 4160 4128);
    unfold SizeT.modulus; lia.
Defined.

(** ** The constructors that take ownership *)

(** A loop that writes one pointer into every face of a vector. *)
Lemma for_each_upd_face (g : Face.t -> Face.t) (fs : list ptr) :
  (forall F, g (g F) = g F) ->
  forall s : store,
    Forall (fun f => is_Some (st_faces s !! f)) fs ->
    exists s',
      for_each fs tt (fun f _ => upd_face f g) s = Ok (tt, s')
      /\ st_edges s' = st_edges s /\ st_meshes s' = st_meshes s
      /\ st_meshsets s' = st_meshsets s /\ st_last s' = st_last s
      /\ (forall f F, st_faces s !! f = Some F -> f ∈ fs ->
            st_faces s' !! f = Some (g F))
      /\ (forall f, f ∉ fs -> st_faces s' !! f = st_faces s !! f).
Proof.
  intros Hg. induction fs as [|f fs IH]; intros s Hfs.
  - exists s. simpl. split_and!; try done. intros f F _ H. by apply elem_of_nil in H.
  - apply Forall_cons_1 in Hfs as [[F HF] Hfs].
    destruct (IH (set_faces <[f := g F]> s)) as (s' & Hrun & He & Hm & Hs & Hl & Hin & Hout).
    { eapply Forall_impl; [exact Hfs|]. intros a Ha. simpl.
      destruct (decide (a = f)) as [->|Hne].
      - rewrite lookup_insert_eq. by eexists.
      - by rewrite lookup_insert_ne. }
    exists s'. split_and!; try done.
    + simpl. unfold mbind, M_bind, upd_face at 1. by rewrite HF.
    + intros a A HA Ha. destruct (decide (a = f)) as [->|Hne].
      * assert (A = F) as -> by congruence.
        destruct (decide (f ∈ fs)) as [Hf|Hf].
        -- rewrite (Hin f (g F)); [by rewrite Hg| |done]. simpl. by rewrite lookup_insert_eq.
        -- rewrite (Hout f Hf). simpl. by rewrite lookup_insert_eq.
      * apply elem_of_cons in Ha as [?|Ha]; [done|].
        apply Hin; [|done]. simpl. by rewrite lookup_insert_ne.
    + intros a Ha. apply not_elem_of_cons in Ha as [Hne Ha].
      rewrite (Hout a Ha). simpl. by rewrite lookup_insert_ne.
Qed.

(** A face pointer that is no face stops the loop. *)
Lemma for_each_upd_face_undefined (g : Face.t -> Face.t) (fs : list ptr) :
  forall s : store,
    Exists (fun f => st_faces s !! f = None) fs ->
    for_each fs tt (fun f _ => upd_face f g) s = Undefined.
Proof.
  induction fs as [|f fs IH]; intros s Hex.
  - by apply Exists_nil in Hex.
  - simpl. unfold mbind, M_bind, upd_face at 1.
    destruct (st_faces s !! f) as [F|] eqn:HF; [|done].
    apply IH. apply Exists_cons in Hex as [Hex|Hex]; [congruence|].
    eapply Exists_impl; [exact Hex|]. intros a Ha. simpl.
    destruct (decide (a = f)) as [->|Hne]; [congruence|].
    by rewrite lookup_insert_ne.
Qed.

(** X10.  The protected [Mesh] constructor makes a mesh that holds
    the three vectors and the orientation it was given and belongs to
    no mesh set, and writes the new mesh into the [mesh] pointer of
    each of its faces, whatever mesh the face belonged to before;
    other faces and all half-edges are left as they were.  A face
    pointer that is no face is dereferenced all the same. *)
Theorem Mesh_make4_takes_faces (fs os cs : list ptr) (neg : bool) (s : store) :
  store_wf s ->
  (Forall (fun f => is_Some (st_faces s !! f)) fs ->
   exists r s',
     Mesh_make4 fs os cs neg s = Ok (r, s')
     /\ st_meshes s !! r = None
     /\ st_meshes s' = <[r := Mesh.mk fs os cs neg NULL]> (st_meshes s)
     /\ (forall f F, st_faces s !! f = Some F -> f ∈ fs ->
           st_faces s' !! f = Some (Face.with_mesh r F))
     /\ (forall f, f ∉ fs -> st_faces s' !! f = st_faces s !! f)
     /\ st_edges s' = st_edges s
     /\ st_meshsets s' = st_meshsets s)
  /\ (Exists (fun f => st_faces s !! f = None) fs ->
      Mesh_make4 fs os cs neg s = Undefined).
Proof.
  intros Hwf. unfold Mesh_make4, new_Mesh_object.
  set (r := fresh s).
  set (s1 := set_last r (set_meshes <[r := Mesh.mk fs os cs neg NULL]> s)).
  split.
  - intros Hfs.
    destruct (for_each_upd_face (Face.with_mesh r) fs) with (s := s1)
      as (s' & Hrun & He & Hm & Hs & Hl & Hin & Hout); [done|done|].
    exists r, s'. split_and!; try done.
    + unfold mbind, M_bind. fold r s1. by rewrite Hrun.
    + by destruct (store_wf_fresh s Hwf) as (_ & _ & ? & _).
  - intros Hex. unfold mbind, M_bind. fold r s1.
    by rewrite (for_each_upd_face_undefined (Face.with_mesh r) fs s1).
Qed.

Lemma Mesh_make4_takes_faces_witness :
  let fs := [10%N; 11%N] in
  let s := two_triangles_store in
  (Forall (fun f => is_Some (st_faces s !! f)) fs ->
   exists r s',
     Mesh_make4 fs [] [] false s = Ok (r, s')
     /\ st_meshes s !! r = None
     /\ st_meshes s' = <[r := Mesh.mk fs [] [] false NULL]> (st_meshes s)
     /\ (forall f F, st_faces s !! f = Some F -> f ∈ fs ->
           st_faces s' !! f = Some (Face.with_mesh r F))
     /\ (forall f, f ∉ fs -> st_faces s' !! f = st_faces s !! f)
     /\ st_edges s' = st_edges s
     /\ st_meshsets s' = st_meshsets s)
  /\ (Exists (fun f => st_faces s !! f = None) fs ->
      Mesh_make4 fs [] [] false s = Undefined).
Proof.
  apply (Mesh_make4_takes_faces [10%N; 11%N] [] [] false two_triangles_store).
  apply (bool_decide_unpack _). vm_compute. reflexivity.
Defined.

(** A loop that writes one pointer into every mesh of a vector. *)
Lemma for_each_upd_mesh (g : Mesh.t -> Mesh.t) (ms : list ptr) :
  (forall m, g (g m) = g m) ->
  forall s : store,
    Forall (fun m => is_Some (st_meshes s !! m)) ms ->
    exists s',
      for_each ms tt (fun m _ => upd_mesh m g) s = Ok (tt, s')
      /\ st_edges s' = st_edges s /\ st_faces s' = st_faces s
      /\ st_meshsets s' = st_meshsets s /\ st_last s' = st_last s
      /\ (forall m M, st_meshes s !! m = Some M -> m ∈ ms ->
            st_meshes s' !! m = Some (g M))
      /\ (forall m, m ∉ ms -> st_meshes s' !! m = st_meshes s !! m).
Proof.
  intros Hg. induction ms as [|m ms IH]; intros s Hms.
  - exists s. simpl. split_and!; try done. intros m M _ H. by apply elem_of_nil in H.
  - apply Forall_cons_1 in Hms as [[M HM] Hms].
    destruct (IH (set_meshes <[m := g M]> s)) as (s' & Hrun & He & Hf & Hs & Hl & Hin & Hout).
    { eapply Forall_impl; [exact Hms|]. intros a Ha. simpl.
      destruct (decide (a = m)) as [->|Hne].
      - rewrite lookup_insert_eq. by eexists.
      - by rewrite lookup_insert_ne. }
    exists s'. split_and!; try done.
    + simpl. unfold mbind, M_bind, upd_mesh at 1. by rewrite HM.
    + intros a A HA Ha. destruct (decide (a = m)) as [->|Hne].
      * assert (A = M) as -> by congruence.
        destruct (decide (m ∈ ms)) as [Hm|Hm].
        -- rewrite (Hin m (g M)); [by rewrite Hg| |done]. simpl. by rewrite lookup_insert_eq.
        -- rewrite (Hout m Hm). simpl. by rewrite lookup_insert_eq.
      * apply elem_of_cons in Ha as [?|Ha]; [done|].
        apply Hin; [|done]. simpl. by rewrite lookup_insert_ne.
    + intros a Ha. apply not_elem_of_cons in Ha as [Hne Ha].
      rewrite (Hout a Ha). simpl. by rewrite lookup_insert_ne.
Qed.

(** X11.  The constructor [MeshSet(vertex_storage, meshes)] makes a
    set that holds the vertex storage and the mesh vector it was given
    and writes the new set into the [meshset] pointer of each of its
    meshes; it has no assertion, so a mesh that belongs to another set
    is taken over all the same.  Other meshes, and all faces and
    half-edges, are left as they were. *)
Theorem MeshSet_make2_takes_meshes (base : Z) (vs : list Vertex.t)
        (ms : list ptr) (s : store) :
  store_wf s ->
  Forall (fun m => is_Some (st_meshes s !! m)) ms ->
  exists r s',
    MeshSet_make2 base vs ms s = Ok (r, s')
    /\ st_meshsets s !! r = None
    /\ st_meshsets s' = <[r := MeshSet.mk base vs ms]> (st_meshsets s)
    /\ (forall m M, st_meshes s !! m = Some M -> m ∈ ms ->
          st_meshes s' !! m = Some (Mesh.with_meshset r M))
    /\ (forall m, m ∉ ms -> st_meshes s' !! m = st_meshes s !! m)
    /\ st_faces s' = st_faces s
    /\ st_edges s' = st_edges s.
Proof.
  intros Hwf Hms. unfold MeshSet_make2, new_MeshSet_object.
  set (r := fresh s).
  set (s1 := set_last r (set_meshsets <[r := MeshSet.mk base vs ms]> s)).
  destruct (for_each_upd_mesh (Mesh.with_meshset r) ms) with (s := s1)
    as (s' & Hrun & He & Hf & Hs & Hl & Hin & Hout); [done|done|].
  exists r, s'. split_and!; try done.
  - unfold mbind, M_bind. fold r s1. by rewrite Hrun.
  - by destruct (store_wf_fresh s Hwf) as (_ & _ & _ & ?).
Qed.

Lemma MeshSet_make2_takes_meshes_witness :
  let s := tetra_store in
  exists r s',
    MeshSet_make2 300 tetra_vertices [24%N] s = Ok (r, s')
    /\ st_meshsets s !! r = None
    /\ st_meshsets s' = <[r := MeshSet.mk 300 tetra_vertices [24%N]]> (st_meshsets s)
    /\ (forall m M, st_meshes s !! m = Some M -> m ∈ [24%N] ->
          st_meshes s' !! m = Some (Mesh.with_meshset r M))
    /\ (forall m, m ∉ [24%N] -> st_meshes s' !! m = st_meshes s !! m)
    /\ st_faces s' = st_faces s
    /\ st_edges s' = st_edges s.
Proof.
  apply (MeshSet_make2_takes_meshes 300 tetra_vertices [24%N] tetra_store).
  - apply (bool_decide_unpack _). vm_compute. reflexivity.
  - apply (bool_decide_unpack _). vm_compute. reflexivity.
Defined.

(** ** Rings of half-edges: basic facts *)

Lemma ring_from_head (es : gmap N Edge.t) (fuel : nat) (first e : ptr) (l : list ptr) :
  ring_from fuel es first e = Some l ->
  exists l2, l = e :: l2 /\ (length l <= fuel)%nat.
Proof.
  revert e l. induction fuel as [|k IH]; intros e l Hring; [done|].
  simpl in Hring. destruct (es !! e) as [E|]; [|done]. simpl in Hring.
  destruct (Edge.next E =? first)%N.
  - injection Hring as <-. exists []. split; [done|simpl; lia].
  - destruct (ring_from k es first (Edge.next E)) as [l2|] eqn:Hring'; [|done].
    injection Hring as <-. exists l2. split; [done|].
    destruct (IH _ _ Hring') as (_ & _ & Hlen). simpl. lia.
Qed.

(** The result of a ring walk does not depend on the fuel. *)
Lemma ring_from_fuel (es : gmap N Edge.t) (first : ptr) (fuel : nat) :
  forall (fuel' : nat) (e : ptr) (l l' : list ptr),
    ring_from fuel es first e = Some l ->
    ring_from fuel' es first e = Some l' ->
    l = l'.
Proof.
  induction fuel as [|k IH]; intros fuel' e l l' H H'; [done|].
  destruct fuel' as [|k']; [done|].
  simpl in H, H'. destruct (es !! e) as [E|]; [|done]. simpl in H, H'.
  destruct (Edge.next E =? first)%N; [congruence|].
  destruct (ring_from k es first (Edge.next E)) as [l2|] eqn:Hr; [|done].
  destruct (ring_from k' es first (Edge.next E)) as [l2'|] eqn:Hr'; [|done].
  injection H as <-. injection H' as <-. f_equal. by eapply IH.
Qed.

(** A walk that passes a half-edge goes on from there as a walk
    started on it. *)
Lemma ring_from_suffix (es : gmap N Edge.t) (first : ptr) (fuel : nat) :
  forall (e : ptr) (pre suf : list ptr) (x : ptr),
    ring_from fuel es first e = Some (pre ++ x :: suf) ->
    ring_from (fuel - length pre) es first x = Some (x :: suf).
Proof.
  induction fuel as [|k IH]; intros e pre suf x Hring; [done|].
  destruct (ring_from_head _ _ _ _ _ Hring) as (l2 & Hl & _).
  destruct pre as [|p pre].
  - simpl in Hl. injection Hl as -> ->. by rewrite Nat.sub_0_r.
  - simpl in Hl. injection Hl as -> <-.
    simpl in Hring. destruct (es !! e) as [E|]; [|done]. simpl in Hring.
    destruct (Edge.next E =? first)%N.
    + injection Hring as Hnil. by destruct pre.
    + destruct (ring_from k es first (Edge.next E)) as [l3|] eqn:Hr; [|done].
      injection Hring as ->. simpl. by eapply IH.
Qed.

(** A ring walk passes no half-edge twice. *)
Lemma ring_from_NoDup (es : gmap N Edge.t) (first : ptr) (fuel : nat) :
  forall (e : ptr) (l : list ptr),
    ring_from fuel es first e = Some l -> NoDup l.
Proof.
  induction fuel as [|k IH]; intros e l Hring; [done|].
  pose proof Hring as Hring0.
  simpl in Hring. destruct (es !! e) as [E|]; [|done]. simpl in Hring.
  destruct (Edge.next E =? first)%N.
  - injection Hring as <-. apply NoDup_singleton.
  - destruct (ring_from k es first (Edge.next E)) as [l2|] eqn:Hr; [|done].
    injection Hring as <-. apply NoDup_cons_2; [|by eapply IH].
    intros Hin. apply list_elem_of_split in Hin as (pre & suf & ->).
    pose proof (ring_from_suffix _ _ _ _ _ _ _ Hr) as Hsuf.
    pose proof (ring_from_fuel _ _ _ _ _ _ _ Hring0 Hsuf) as Heq.
    apply (f_equal length) in Heq. simpl in Heq. rewrite length_app in Heq.
    simpl in Heq. lia.
Qed.

(** ** Face::clone: what it builds *)

Lemma clone_addrs_S (b : N) (n : nat) :
  clone_addrs b (S n) = (b + 1)%N :: clone_addrs (b + 1) n.
Proof.
  unfold clone_addrs. simpl. f_equal; [lia|].
  rewrite <- fmap_S_seq, <- list_fmap_compose. apply list_fmap_ext.
  intros _ i _. simpl. lia.
Qed.

Lemma clone_addrs_length (b : N) (n : nat) : length (clone_addrs b n) = n.
Proof. unfold clone_addrs. by rewrite length_fmap, length_seq. Qed.

Lemma clone_addrs_lookup (b : N) (n i : nat) :
  (i < n)%nat -> clone_addrs b n !! i = Some (b + 1 + N.of_nat i)%N.
Proof.
  intros Hi. unfold clone_addrs. rewrite list_lookup_fmap, lookup_seq_lt by done.
  done.
Qed.

Lemma clone_addrs_elem (b : N) (n : nat) (a : ptr) :
  a ∈ clone_addrs b n <-> exists i, (i < n)%nat /\ a = (b + 1 + N.of_nat i)%N.
Proof.
  unfold clone_addrs. rewrite list_elem_of_fmap. split.
  - intros (i & -> & Hi). apply elem_of_seq in Hi. exists i. split; [lia|done].
  - intros (i & Hi & ->). exists i. split; [done|]. apply elem_of_seq. lia.
Qed.

Lemma clone_addrs_NoDup (b : N) (n : nat) : NoDup (clone_addrs b n).
Proof.
  unfold clone_addrs. apply NoDup_fmap_2; [|apply NoDup_seq].
  intros i j H. lia.
Qed.

Lemma fresh_eq (s : store) : fresh s = (st_last s + 1)%N.
Proof. unfold fresh. lia. Qed.

Lemma new_Edge_Ok (v : Z) (f : ptr) (s : store) :
  new_Edge v f s
  = Ok (fresh s,
        set_last (fresh s)
          (set_edges <[fresh s := Edge.mk Tagable.empty v f (fresh s) (fresh s) NULL]> s)).
Proof. reflexivity. Qed.

Lemma store_wf_null (s : store) :
  store_wf s -> st_edges s !! NULL = None /\ st_faces s !! NULL = None.
Proof.
  intros (He & Hf & _). split.
  - destruct (st_edges s !! NULL) as [E|] eqn:H; [|done].
    apply He in H. unfold in_use, NULL in H. lia.
  - destruct (st_faces s !! NULL) as [E|] eqn:H; [|done].
    apply Hf in H. unfold in_use, NULL in H. lia.
Qed.

Lemma store_wf_edge_le (s : store) (a : ptr) :
  store_wf s -> is_Some (st_edges s !! a) -> (0 < a <= st_last s)%N.
Proof. intros (He & _) [E HE]. by apply He in HE. Qed.

(** One pass of the loop of [Face::clone], up to the test at its
    end: the half-edge [c] is constructed and linked behind [r_p], or
    made the first half-edge of the face. *)
Lemma Face_clone_link (v : Z) (r r_p : ptr) (s : store) :
  store_wf s ->
  is_Some (st_faces s !! r) ->
  (r_p = NULL \/ is_Some (st_edges s !! r_p)) ->
  let c := (st_last s + 1)%N in
  let s1 := set_last c (set_edges <[c := Edge.mk Tagable.empty v r c c NULL]> s) in
  exists s3,
    (if negb (r_p =? NULL)%N
     then upd_edge r_p (Edge.with_next c);; upd_edge c (Edge.with_prev r_p)
     else upd_face r (Face.with_edge c)) s1 = Ok (tt, s3)
    /\ store_wf s3
    /\ st_last s3 = c
    /\ st_meshes s3 = st_meshes s /\ st_meshsets s3 = st_meshsets s
    /\ (forall a, a <> r -> st_faces s3 !! a = st_faces s !! a)
    /\ st_faces s3 !! r
       = (if (r_p =? NULL)%N then Face.with_edge c else id) <$> st_faces s !! r
    /\ (forall a, a <> c -> a <> r_p -> st_edges s3 !! a = st_edges s !! a)
    /\ st_edges s3 !! c
       = Some (Edge.mk Tagable.empty v r (if (r_p =? NULL)%N then c else r_p) c NULL)
    /\ (r_p <> NULL -> st_edges s3 !! r_p = Edge.with_next c <$> st_edges s !! r_p).
Proof.
  intros Hwf [Fr HFr] Hrp c s1.
  assert (Hnew : new_Edge v r s = Ok (c, s1)).
  { rewrite new_Edge_Ok, fresh_eq. done. }
  destruct (new_Edge_ext _ _ _ _ _ Hwf Hnew) as (Hext1 & _).
  pose proof (ext_wf _ _ Hext1) as Hwf1.
  destruct (store_wf_fresh s Hwf) as (Hfe & _). rewrite fresh_eq in Hfe. fold c in Hfe.
  destruct (N.eqb_spec r_p NULL) as [Hnull|Hnn]; cbn [negb].
  - assert (HFr1 : st_faces s1 !! r = Some Fr) by done.
    rewrite (upd_face_Ok _ _ _ _ HFr1).
    eexists. split; [reflexivity|].
    destruct (upd_face_ext r (Face.with_edge c) s1 _ (fun _ => eq_refl) Hwf1
                (upd_face_Ok _ _ _ _ HFr1)) as [Hext2 _].
    split_and!; try done.
    + apply Hext2.
    + intros a Ha. simpl. by rewrite lookup_insert_ne.
    + simpl. by rewrite lookup_insert_eq, HFr.
    + intros a Hac _. simpl. by rewrite lookup_insert_ne.
    + simpl. by rewrite lookup_insert_eq.
  - destruct Hrp as [?|[Ep HEp]]; [done|].
    assert (Hrpc : r_p <> c).
    { intros ->. congruence. }
    assert (HEp1 : st_edges s1 !! r_p = Some Ep).
    { simpl. by rewrite lookup_insert_ne. }
    set (s2 := set_edges <[r_p := Edge.with_next c Ep]> s1).
    destruct (upd_edge_ext r_p (Edge.with_next c) s1 _ (fun _ => eq_refl) Hwf1
                (upd_edge_Ok _ _ _ _ HEp1)) as [Hext2 _].
    fold s2 in Hext2. pose proof (ext_wf _ _ Hext2) as Hwf2.
    assert (Hc2 : st_edges s2 !! c = Some (Edge.mk Tagable.empty v r c c NULL)).
    { simpl. rewrite lookup_insert_ne by done. by rewrite lookup_insert_eq. }
    assert (Hseq : (upd_edge r_p (Edge.with_next c);; upd_edge c (Edge.with_prev r_p)) s1
                   = Ok (tt, set_edges <[c := Edge.with_prev r_p
                                                 (Edge.mk Tagable.empty v r c c NULL)]> s2)).
    { rewrite (bind_Ok _ _ _ _ _ (upd_edge_Ok _ _ _ _ HEp1)).
      by rewrite (upd_edge_Ok _ _ _ _ Hc2). }
    rewrite Hseq.
    eexists. split; [reflexivity|].
    destruct (upd_edge_ext c (Edge.with_prev r_p) s2 _ (fun _ => eq_refl) Hwf2
                (upd_edge_Ok _ _ _ _ Hc2)) as [Hext3 _].
    split_and!; try done.
    + apply Hext3.
    + simpl. by rewrite HFr.
    + intros a Hac Hap. simpl. by rewrite !lookup_insert_ne.
    + simpl. by rewrite lookup_insert_eq.
    + intros _. simpl. rewrite lookup_insert_ne by done.
      by rewrite lookup_insert_eq, HEp.
Qed.

Lemma edge_map_insert_cons (em : gmap N N) (e c : ptr) (l l' : list ptr) :
  edge_map_insert em (e :: l) (c :: l') = edge_map_insert (<[e := c]> em) l l'.
Proof. reflexivity. Qed.

(** The loop of [Face::clone] on a ring that closes: it ends, having
    constructed one half-edge per half-edge of the ring, at
    consecutive addresses, each linked to the one before it. *)
Lemma Face_clone_loop_spec (es0 : gmap N Edge.t) (last0 : N)
      (old_base new_base : Z) (first r : ptr) (fuel : nat) :
  (forall a, is_Some (es0 !! a) -> (a <= last0)%N) ->
  forall (e : ptr) (l : list ptr) (r_p : ptr) (edge_map : gmap N N) (s : store),
    ring_from fuel es0 first e = Some l ->
    store_wf s -> (last0 <= st_last s)%N ->
    (forall a, (a <= last0)%N -> st_edges s !! a = es0 !! a) ->
    is_Some (st_faces s !! r) ->
    (r_p = NULL \/ ((last0 < r_p)%N /\ is_Some (st_edges s !! r_p))) ->
    exists s',
      Face_clone_loop fuel old_base new_base first r e r_p edge_map s
      = Ok (((st_last s + N.of_nat (length l))%N,
             edge_map_insert edge_map l (clone_addrs (st_last s) (length l))), s')
      /\ store_wf s'
      /\ st_last s' = (st_last s + N.of_nat (length l))%N
      /\ st_meshes s' = st_meshes s /\ st_meshsets s' = st_meshsets s
      /\ (forall a, a <> r -> st_faces s' !! a = st_faces s !! a)
      /\ st_faces s' !! r
         = (if (r_p =? NULL)%N then Face.with_edge (st_last s + 1)%N else id)
             <$> st_faces s !! r
      /\ (forall a, (a <= st_last s)%N -> a <> r_p ->
            st_edges s' !! a = st_edges s !! a)
      /\ (r_p <> NULL ->
            st_edges s' !! r_p = Edge.with_next (st_last s + 1)%N <$> st_edges s !! r_p)
      /\ (forall i e_i, l !! i = Some e_i ->
            exists E_i, es0 !! e_i = Some E_i
              /\ st_edges s' !! (st_last s + 1 + N.of_nat i)%N
                 = Some (clone_loop_edge old_base new_base r (st_last s) r_p
                           (length l) i E_i)).
Proof.
  intros Hold. induction fuel as [|k IH];
    intros e l r_p em s Hring Hwf Hlast Hframe Hr Hrp; [done|].
  simpl in Hring. destruct (es0 !! e) as [E|] eqn:HE0; [|done]. simpl in Hring.
  assert (Hele : (e <= last0)%N) by (apply Hold; eauto).
  assert (HE : st_edges s !! e = Some E) by (by rewrite Hframe).
  destruct (store_wf_edge_le s e Hwf) as [Hepos _]; [eauto|].
  set (c := (st_last s + 1)%N).
  set (v := Edge.vert E - old_base + new_base).
  destruct (Face_clone_link v r r_p s Hwf Hr) as
    (s3 & Hlink & Hwf3 & Hlast3 & Hm3 & Hs3 & Hf3 & Hfr3 & He3 & Hc3 & Hp3).
  { destruct Hrp as [?|[_ ?]]; [by left|by right]. }
  fold c in Hlink, Hlast3, Hfr3, He3, Hc3, Hp3.
  assert (Hrp_le : r_p <> NULL -> (last0 < r_p <= st_last s)%N).
  { intros Hn. destruct Hrp as [?|[? Hin]]; [done|].
    destruct (store_wf_edge_le s r_p Hwf Hin). lia. }
  assert (Hec : e <> c) by (unfold c; lia).
  assert (Herp : e <> r_p).
  { destruct (N.eq_dec r_p NULL) as [->|Hn]; [unfold NULL; lia|].
    specialize (Hrp_le Hn). lia. }
  assert (HE3 : st_edges s3 !! e = Some E) by (by rewrite He3).
  cbn [Face_clone_loop].
  rewrite (bind_Ok _ _ _ _ _ (get_edge_Ok _ _ _ HE)).
  rewrite (bind_Ok _ _ _ _ _ (new_Edge_Ok _ _ _)).
  rewrite fresh_eq. fold c v.
  rewrite (bind_Ok _ _ _ _ _ Hlink).
  rewrite (bind_Ok _ _ _ _ _ (get_edge_Ok _ _ _ HE3)).
  destruct (N.eqb_spec (Edge.next E) first) as [Heq|Hne].
  - injection Hring as <-. exists s3. simpl length.
    rewrite clone_addrs_S. fold c.
    replace (st_last s + N.of_nat 1)%N with c by (unfold c; lia).
    split_and!; try done.
    + intros a Ha Hap. apply He3; [unfold c; lia|done].
    + intros [|i] e_i Hi; [|done]. injection Hi as <-.
      exists E. split; [done|].
      replace (c + N.of_nat 0)%N with c by lia.
      rewrite Hc3. unfold clone_loop_edge. simpl.
      do 2 f_equal. unfold c. lia.
  - destruct (ring_from k es0 first (Edge.next E)) as [l2|] eqn:Hring2; [|done].
    injection Hring as <-.
    destruct (IH (Edge.next E) l2 c (<[e := c]> em) s3) as
      (s' & Hrun & Hwf' & Hlast' & Hm' & Hs' & Hf' & Hfr' & He' & Hp' & Hi');
      try done.
    { rewrite Hlast3. unfold c. lia. }
    { intros a Ha. destruct (N.eq_dec a NULL) as [->|Hnz].
      - destruct (store_wf_null s3 Hwf3) as [-> _].
        destruct (store_wf_null s Hwf) as [H0 _]. by rewrite <- Hframe, H0.
      - rewrite He3; [by apply Hframe|unfold c; lia|].
        destruct (N.eq_dec r_p NULL) as [->|Hn]; [done|].
        specialize (Hrp_le Hn). lia. }
    { destruct Hr as [Fr HFr]. rewrite Hfr3, HFr. destruct (r_p =? NULL)%N; eauto. }
    { right. split; [unfold c; lia|]. rewrite Hc3. eauto. }
    exists s'. rewrite Hlast3 in *. simpl length. rewrite clone_addrs_S.
    fold c. rewrite edge_map_insert_cons.
    replace (st_last s + N.of_nat (S (length l2)))%N
      with (c + N.of_nat (length l2))%N by (unfold c; lia).
    assert (Hcn : (c =? NULL)%N = false).
    { apply N.eqb_neq. unfold c, NULL. lia. }
    rewrite Hcn in Hfr'. simpl in Hfr'.
    split_and!; try done.
    + congruence.
    + congruence.
    + intros a Ha. rewrite Hf', Hf3; done.
    + rewrite Hfr', Hfr3. by rewrite list_fmap_id || by destruct (st_faces s !! r).
    + intros a Ha Hap. rewrite He'; [|unfold c; lia|unfold c; lia].
      apply He3; [unfold c; lia|done].
    + intros Hn. specialize (Hrp_le Hn).
      rewrite He'; [|unfold c; lia|unfold c; lia]. by apply Hp3.
    + intros [|i] e_i Hi.
      * injection Hi as <-. exists E. split; [done|].
        replace (c + N.of_nat 0)%N with c by lia.
        rewrite Hp' by (unfold c, NULL; lia). rewrite Hc3. simpl.
        unfold clone_loop_edge. simpl.
        destruct (ring_from_head _ _ _ _ _ Hring2) as (l3 & -> & _). simpl.
        unfold Edge.with_next. simpl. f_equal. f_equal. unfold c. lia.
      * simpl in Hi. destruct (Hi' i e_i Hi) as (E_i & HEi & Hci).
        exists E_i. split; [done|].
        replace (c + N.of_nat (S i))%N with (c + 1 + N.of_nat i)%N by lia.
        rewrite Hci. unfold clone_loop_edge. f_equal. f_equal.
        -- destruct i; [rewrite Hcn|]; unfold c; lia.
        -- change (S (S i) =? S (length l2))%nat with (S i =? length l2)%nat.
           destruct (S i =? length l2)%nat; unfold c; lia.
Qed.

Lemma edge_map_insert_notin (l : list ptr) :
  forall (em : gmap N N) (l' : list ptr) (k : ptr),
    k ∉ l -> edge_map_insert em l l' !! k = em !! k.
Proof.
  induction l as [|x l IH]; intros em l' k Hk; [done|].
  destruct l' as [|c l']; [done|].
  apply not_elem_of_cons in Hk as [Hne Hk].
  rewrite edge_map_insert_cons, IH by done. by rewrite lookup_insert_ne.
Qed.

Lemma edge_map_insert_lookup (l : list ptr) :
  forall (em : gmap N N) (l' : list ptr) (i : nat) (e e' : ptr),
    NoDup l -> l !! i = Some e -> l' !! i = Some e' ->
    edge_map_insert em l l' !! e = Some e'.
Proof.
  induction l as [|x l IH]; intros em l' i e e' Hnd Hi Hi'; [done|].
  destruct l' as [|c l']; [done|].
  apply NoDup_cons in Hnd as [Hx Hnd].
  rewrite edge_map_insert_cons. destruct i as [|i].
  - injection Hi as <-. injection Hi' as <-.
    rewrite edge_map_insert_notin by done. by rewrite lookup_insert_eq.
  - by eapply IH.
Qed.

(** A chain of half-edges at consecutive addresses, the last one
    linked to the first, is a ring. *)
Lemma ring_from_chain (es : gmap N Edge.t) (b : N) (n : nat) (fuel : nat) :
  (forall i, (i < n)%nat ->
     exists E, es !! (b + 1 + N.of_nat i)%N = Some E
               /\ Edge.next E = if (S i =? n)%nat then (b + 1)%N
                                else (b + 2 + N.of_nat i)%N) ->
  forall j, (j < n)%nat -> (n - j <= fuel)%nat ->
    ring_from fuel es (b + 1)%N (b + 1 + N.of_nat j)%N
    = Some (drop j (clone_addrs b n)).
Proof.
  intros Hchain. induction fuel as [|k IH]; intros j Hj Hfuel; [lia|].
  destruct (Hchain j Hj) as (E & HE & Hnext).
  pose proof (clone_addrs_lookup b n j Hj) as Hlk.
  simpl. rewrite HE. simpl. rewrite Hnext.
  destruct (Nat.eqb_spec (S j) n) as [Heq|Hne].
  - rewrite N.eqb_refl. f_equal.
    rewrite (drop_S _ _ _ Hlk). rewrite drop_ge; [done|].
    rewrite clone_addrs_length. lia.
  - destruct (N.eqb_spec (b + 2 + N.of_nat j) (b + 1)) as [?|_]; [lia|].
    replace (b + 2 + N.of_nat j)%N with (b + 1 + N.of_nat (S j))%N by lia.
    rewrite IH by lia. simpl. by rewrite (drop_S _ _ _ Hlk).
Qed.

Ltac edge_eq :=
  unfold Edge.with_prev, Edge.with_next;
  cbn [Edge.tag Edge.vert Edge.face Edge.prev Edge.next Edge.rev];
  f_equal; f_equal; try done; try lia.

(** [Face::clone] on a face whose ring closes, in full: the new face
    is constructed at the next address, its half-edges at the
    addresses after it. *)
Lemma Face_clone_exact (this : ptr) (old_base new_base : Z) (edge_map : gmap N N)
      (s : store) (F : Face.t) (l : list ptr) :
  store_wf s ->
  st_faces s !! this = Some F ->
  face_ring s this = Some l ->
  let r := (st_last s + 1)%N in
  let n := length l in
  exists s',
    Face_clone this old_base new_base edge_map s
    = Ok ((r, edge_map_insert edge_map l (clone_addrs r n)), s')
    /\ store_wf s'
    /\ st_last s' = (r + N.of_nat n)%N
    /\ st_meshes s' = st_meshes s /\ st_meshsets s' = st_meshsets s
    /\ st_faces s' = <[r := Face.with_edge (r + 1)%N (Face.copy F)]> (st_faces s)
    /\ (forall a, (a <= r)%N -> st_edges s' !! a = st_edges s !! a)
    /\ (forall i e_i, l !! i = Some e_i ->
          exists E_i, st_edges s !! e_i = Some E_i
            /\ st_edges s' !! (r + 1 + N.of_nat i)%N
               = Some (cloned_edge old_base new_base r n i E_i)).
Proof.
  intros Hwf HF Hring r n.
  unfold face_ring in Hring. rewrite HF in Hring. simpl in Hring.
  destruct (ring_from_head _ _ _ _ _ Hring) as (l2 & Hl & _).
  assert (Hn : (0 < n)%nat) by (subst n; rewrite Hl; simpl; lia).
  unfold Face_clone.
  rewrite (bind_Ok _ _ _ _ _ (get_face_Ok _ _ _ HF)).
  set (s1 := set_last r (set_faces <[r := Face.copy F]> s)).
  assert (Hnew : new_Face (Face.copy F) s = Ok (r, s1)).
  { unfold new_Face. by rewrite fresh_eq. }
  rewrite (bind_Ok _ _ _ _ _ Hnew).
  destruct (new_Face_ext (Face.copy F) s s1 r eq_refl Hwf Hnew) as (Hext1 & _).
  pose proof (ext_wf _ _ Hext1) as Hwf1.
  assert (Hgs : get_store s1 = Ok (s1, s1)) by done.
  rewrite (bind_Ok _ _ _ _ _ Hgs).
  change (st_edges s1) with (st_edges s).
  destruct (Face_clone_loop_spec (st_edges s) (st_last s) old_base new_base
              (Face.edge F) r (size (st_edges s))) with
    (e := Face.edge F) (l := l) (r_p := NULL) (edge_map := edge_map) (s := s1)
    as (s2 & Hloop & Hwf2 & Hlast2 & Hm2 & Hs2 & Hf2 & Hfr2 & He2 & _ & Hi2);
    try done.
  { intros a Ha. by destruct (store_wf_edge_le s a Hwf Ha). }
  { simpl. lia. }
  { simpl. rewrite lookup_insert_eq. eauto. }
  { by left. }
  change (st_last s1) with r in Hloop, Hlast2, Hfr2, He2, Hi2. fold n in Hloop, Hlast2, Hi2.
  rewrite (bind_Ok _ _ _ _ _ Hloop).
  change (NULL =? NULL)%N with true in Hfr2. simpl in Hfr2.
  rewrite lookup_insert_eq in Hfr2. simpl in Hfr2.
  rewrite (bind_Ok _ _ _ _ _ (get_face_Ok _ _ _ Hfr2)).
  simpl Face.edge.
  (* the last half-edge, then the first *)
  destruct (lookup_lt_is_Some_2 l (n - 1)) as [e_last Hlast]; [subst n; lia|].
  destruct (Hi2 _ _ Hlast) as (E_last & HE_last & Hc_last).
  replace (r + 1 + N.of_nat (n - 1))%N with (r + N.of_nat n)%N in Hc_last by lia.
  rewrite (bind_Ok _ _ _ _ _ (upd_edge_Ok _ _ _ _ Hc_last)).
  set (s3 := set_edges _ s2).
  assert (Hfr3 : st_faces s3 !! r = Some (Face.with_edge (r + 1)%N (Face.copy F))) by done.
  rewrite (bind_Ok _ _ _ _ _ (get_face_Ok _ _ _ Hfr3)).
  simpl Face.edge.
  destruct (lookup_lt_is_Some_2 l 0) as [e_0 H0]; [subst n; lia|].
  destruct (Hi2 _ _ H0) as (E_0 & HE_0 & Hc_0).
  replace (r + 1 + N.of_nat 0)%N with (r + 1)%N in Hc_0 by lia.
  assert (exists X, st_edges s3 !! (r + 1)%N = Some X) as [X HX].
  { simpl. destruct (N.eq_dec (r + N.of_nat n)%N (r + 1)%N) as [->|Hne].
    - rewrite lookup_insert_eq. eauto.
    - rewrite lookup_insert_ne by done. eauto. }
  rewrite (bind_Ok _ _ _ _ _ (upd_edge_Ok _ _ _ _ HX)).
  set (s4 := set_edges _ s3).
  destruct (upd_edge_ext _ (Edge.with_next (r + 1)%N) s2 _ (fun _ => eq_refl) Hwf2
              (upd_edge_Ok _ _ _ _ Hc_last)) as [Hext3 _].
  fold s3 in Hext3. pose proof (ext_wf _ _ Hext3) as Hwf3.
  destruct (upd_edge_ext _ (Edge.with_prev (r + N.of_nat n)%N) s3 _ (fun _ => eq_refl) Hwf3
              (upd_edge_Ok _ _ _ _ HX)) as [Hext4 _].
  fold s4 in Hext4.
  exists s4. split; [done|]. split; [apply Hext4|].
  split; [done|]. split; [done|]. split; [done|].
  split.
  { apply map_eq. intros a. simpl. destruct (N.eq_dec a r) as [->|Hne].
    - by rewrite Hfr2, lookup_insert_eq.
    - rewrite Hf2 by done. simpl. by rewrite !lookup_insert_ne. }
  split.
  { intros a Ha. simpl. rewrite !lookup_insert_ne by lia.
    destruct (N.eq_dec a NULL) as [->|Hnz].
    - destruct (store_wf_null s2 Hwf2) as [-> _].
      by destruct (store_wf_null s Hwf) as [-> _].
    - by apply He2. }
  intros i e_i Hi. destruct (Hi2 _ _ Hi) as (E_i & HE_i & Hc_i).
  exists E_i. split; [done|].
  pose proof (lookup_lt_Some _ _ _ Hi) as Hilt. fold n in Hilt.
  assert (Hlast_eq : S i = n -> E_last = E_i).
  { intros Hin. replace (n - 1)%nat with i in Hlast by lia. congruence. }
  assert (Hfirst_eq : i = 0%nat -> E_0 = E_i).
  { intros ->. congruence. }
  unfold cloned_edge. unfold clone_loop_edge in Hc_i, Hc_last, Hc_0, HX.
  change (NULL =? NULL)%N with true in Hc_i, Hc_0. cbv iota in Hc_i, Hc_0.
  simpl in HX. simpl st_edges. clearbody n.
  destruct (N.eq_dec (r + 1 + N.of_nat i)%N (r + 1)%N) as [Hi0|Hi0].
  - assert (i = 0)%nat as -> by lia.
    rewrite Hi0, lookup_insert_eq. rewrite <- (Hfirst_eq eq_refl).
    destruct (N.eq_dec (r + N.of_nat n)%N (r + 1)%N) as [Hn1|Hn1].
    + assert (n = 1)%nat as -> by lia.
      rewrite Hn1, lookup_insert_eq in HX. injection HX as <-.
      rewrite (Hlast_eq eq_refl), <- (Hfirst_eq eq_refl).
      change (1 - 1)%nat with 0%nat. change (1 =? 1)%nat with true. cbv iota.
      edge_eq.
    + rewrite lookup_insert_ne in HX by done. rewrite Hc_0 in HX. injection HX as <-.
      destruct n as [|[|n']]; [lia|lia|]. edge_eq.
  - rewrite lookup_insert_ne by done.
    destruct i as [|i']; [lia|].
    destruct (N.eq_dec (r + 1 + N.of_nat (S i'))%N (r + N.of_nat n)%N) as [Hin|Hin].
    + assert (S (S i') = n) as Hin' by lia.
      rewrite Hin, lookup_insert_eq. rewrite (Hlast_eq Hin').
      subst n. replace (S (S i') - 1)%nat with (S i') by lia.
      rewrite Nat.eqb_refl. edge_eq.
    + rewrite lookup_insert_ne by done. rewrite Hc_i.
      destruct (Nat.eqb_spec (S (S i')) n); [lia|]. edge_eq.
Qed.

(** X12.  [Face::clone] on a face whose ring of half-edges closes:
    the call returns a face that was no object before, with the
    members of the original except for the [mesh] pointer, which is
    null, and the tag bits; its ring has one constructed half-edge per
    half-edge of the original, in the same order, consistently linked
    by [next] and [prev], each with the new face as its face and with
    the origin of its original moved from the old to the new vertex
    storage.  The edge map sends every half-edge of the original to its
    clone and keeps its other entries.  No object of the store is
    changed. *)
Theorem Face_clone_spec (this : ptr) (old_base new_base : Z) (edge_map : gmap N N)
        (s : store) (F : Face.t) (l : list ptr) :
  store_wf s ->
  st_faces s !! this = Some F ->
  face_ring s this = Some l ->
  exists r l' s',
    Face_clone this old_base new_base edge_map s
    = Ok ((r, edge_map_insert edge_map l l'), s')
    /\ st_faces s !! r = None
    /\ st_faces s' !! r
       = Some (Face.with_edge (default NULL (head l')) (Face.copy F))
    /\ face_ring s' r = Some l'
    /\ length l' = length l
    /\ NoDup l'
    /\ Forall (fun e' => st_edges s !! e' = None) l'
    /\ (forall i e e', l !! i = Some e -> l' !! i = Some e' ->
          edge_map_insert edge_map l l' !! e = Some e'
          /\ exists E E', st_edges s !! e = Some E /\ st_edges s' !! e' = Some E'
               /\ Edge.vert E' = Edge.vert E - old_base + new_base
               /\ Edge.face E' = r
               /\ ring_ok (st_edges s') e' E')
    /\ (forall k, k ∉ l -> edge_map_insert edge_map l l' !! k = edge_map !! k)
    /\ (forall a E, st_edges s !! a = Some E -> st_edges s' !! a = Some E)
    /\ (forall a X, st_faces s !! a = Some X -> st_faces s' !! a = Some X)
    /\ st_meshes s' = st_meshes s
    /\ st_meshsets s' = st_meshsets s.
Proof.
  intros Hwf HF Hring.
  destruct (Face_clone_exact this old_base new_base edge_map s F l Hwf HF Hring)
    as (s' & Hrun & Hwf' & Hlast' & Hm' & Hs' & Hf' & He' & Hi').
  set (r := (st_last s + 1)%N) in *. set (n := length l) in *.
  assert (Hring0 := Hring).
  unfold face_ring in Hring0. rewrite HF in Hring0. simpl in Hring0.
  destruct (ring_from_head _ _ _ _ _ Hring0) as (l2 & Hl & _).
  assert (Hn : (0 < n)%nat) by (subst n; rewrite Hl; simpl; lia).
  assert (Hnew : forall j, (j < n)%nat ->
            exists e_j E_j, l !! j = Some e_j /\ st_edges s !! e_j = Some E_j
              /\ st_edges s' !! (r + 1 + N.of_nat j)%N
                 = Some (cloned_edge old_base new_base r n j E_j)).
  { intros j Hj. destruct (lookup_lt_is_Some_2 l j) as [e_j Hej]; [done|].
    destruct (Hi' _ _ Hej) as (E_j & HEj & Hcj). eauto. }
  destruct (store_wf_fresh s Hwf) as (_ & Hfresh & _). rewrite fresh_eq in Hfresh.
  fold r in Hfresh.
  exists r, (clone_addrs r n), s'.
  split; [done|]. split; [done|].
  split.
  { rewrite Hf', lookup_insert_eq. destruct n as [|n']; [lia|].
    by rewrite clone_addrs_S. }
  split.
  { unfold face_ring. rewrite Hf', lookup_insert_eq. simpl.
    replace (r + 1)%N with (r + 1 + N.of_nat 0)%N at 2 by lia.
    rewrite (ring_from_chain (st_edges s') r n); [done| |done|].
    - intros i Hi. destruct (Hnew i Hi) as (e_i & E_i & _ & _ & Hc).
      eexists. split; [exact Hc|]. done.
    - rewrite Nat.sub_0_r. rewrite <- (clone_addrs_length r n).
      apply nodup_within_dom_length; [apply clone_addrs_NoDup|].
      intros y Hy. apply clone_addrs_elem in Hy as (i & Hi & ->).
      destruct (Hnew i Hi) as (e_i & E_i & _ & _ & Hc).
      apply elem_of_dom. eauto. }
  split; [apply clone_addrs_length|].
  split; [apply clone_addrs_NoDup|].
  split.
  { apply Forall_forall. intros y Hy. apply clone_addrs_elem in Hy as (i & Hi & ->).
    destruct (st_edges s !! (r + 1 + N.of_nat i)%N) as [E|] eqn:HE; [|done].
    destruct (store_wf_edge_le s _ Hwf (mk_is_Some _ _ HE)). unfold r in *. lia. }
  split.
  { intros i e e' Hi Hic.
    pose proof (lookup_lt_Some _ _ _ Hi) as Hilt. fold n in Hilt.
    rewrite clone_addrs_lookup in Hic by done. injection Hic as <-.
    split.
    { eapply edge_map_insert_lookup; [by eapply ring_from_NoDup|done|].
      by apply clone_addrs_lookup. }
    destruct (Hnew i Hilt) as (e_i & E_i & Hei & HEi & Hc).
    assert (e_i = e) as -> by congruence.
    exists E_i, (cloned_edge old_base new_base r n i E_i).
    split; [done|]. split; [done|]. split; [done|]. split; [done|].
    unfold ring_ok. split.
    - unfold cloned_edge at 1. cbn [Edge.next].
      destruct (Nat.eqb_spec (S i) n) as [Heq|Hne].
      + destruct (Hnew 0%nat Hn) as (e_0 & E_0 & _ & _ & Hc0).
        replace (r + 1 + N.of_nat 0)%N with (r + 1)%N in Hc0 by lia.
        rewrite Hc0. simpl. f_equal. lia.
      + destruct (Hnew (S i)) as (e_1 & E_1 & _ & _ & Hc1); [lia|].
        replace (r + 1 + N.of_nat (S i))%N with (r + 2 + N.of_nat i)%N in Hc1 by lia.
        rewrite Hc1. simpl. f_equal. lia.
    - unfold cloned_edge at 1. cbn [Edge.prev].
      destruct i as [|i'].
      + destruct (Hnew (n - 1)%nat) as (e_1 & E_1 & _ & _ & Hc1); [lia|].
        replace (r + 1 + N.of_nat (n - 1))%N with (r + N.of_nat n)%N in Hc1 by lia.
        rewrite Hc1. unfold cloned_edge. cbn [fmap option_fmap option_map Edge.next].
        replace (S (n - 1)) with n by lia. rewrite Nat.eqb_refl. f_equal. lia.
      + destruct (Hnew i') as (e_1 & E_1 & _ & _ & Hc1); [lia|].
        replace (r + N.of_nat (S i'))%N with (r + 1 + N.of_nat i')%N by lia.
        rewrite Hc1. unfold cloned_edge. cbn [fmap option_fmap option_map Edge.next].
        destruct (Nat.eqb_spec (S i') n); [lia|]. f_equal. lia. }
  split.
  { intros k Hk. by apply edge_map_insert_notin. }
  split.
  { intros a E HE. rewrite He'; [done|].
    destruct (store_wf_edge_le s a Hwf (mk_is_Some _ _ HE)). unfold r. lia. }
  split; [|done].
  intros a X HX. rewrite Hf'. rewrite lookup_insert_ne; [done|].
  intros <-. congruence.
Qed.

Lemma Face_clone_spec_witness :
  let s := two_triangles_store in
  exists r l' s',
    Face_clone 10%N 100 200 ∅ s
    = Ok ((r, edge_map_insert ∅ [1%N; 2%N; 3%N] l'), s')
    /\ st_faces s !! r = None
    /\ st_faces s' !! r
       = Some (Face.with_edge (default NULL (head l'))
                 (Face.copy (triangle_face 5%N 1%N 7)))
    /\ face_ring s' r = Some l'
    /\ length l' = length [1%N; 2%N; 3%N]
    /\ NoDup l'
    /\ Forall (fun e' => st_edges s !! e' = None) l'
    /\ (forall i e e', [1%N; 2%N; 3%N] !! i = Some e -> l' !! i = Some e' ->
          edge_map_insert ∅ [1%N; 2%N; 3%N] l' !! e = Some e'
          /\ exists E E', st_edges s !! e = Some E /\ st_edges s' !! e' = Some E'
               /\ Edge.vert E' = Edge.vert E - 100 + 200
               /\ Edge.face E' = r
               /\ ring_ok (st_edges s') e' E')
    /\ (forall k, k ∉ [1%N; 2%N; 3%N] ->
          edge_map_insert ∅ [1%N; 2%N; 3%N] l' !! k = (∅ : gmap N N) !! k)
    /\ (forall a E, st_edges s !! a = Some E -> st_edges s' !! a = Some E)
    /\ (forall a X, st_faces s !! a = Some X -> st_faces s' !! a = Some X)
    /\ st_meshes s' = st_meshes s
    /\ st_meshsets s' = st_meshsets s.
Proof.
  apply (Face_clone_spec 10%N 100 200 ∅ two_triangles_store
           (triangle_face 5%N 1%N 7) [1%N; 2%N; 3%N]).
  - apply (bool_decide_unpack _). vm_compute. reflexivity.
  - vm_compute. reflexivity.
  - vm_compute. reflexivity.
Defined.

(** ** clone leaves the original alone *)

Lemma kept_refl (last0 : N) (s : store) : kept last0 s s.
Proof. by repeat split. Qed.

Lemma kept_trans (last0 : N) (s1 s2 s3 : store) :
  kept last0 s1 s2 -> kept last0 s2 s3 -> kept last0 s1 s3.
Proof.
  intros (A1 & A2 & A3 & A4) (B1 & B2 & B3 & B4).
  repeat split; intros a Ha.
  - by rewrite B1, A1.
  - by rewrite B2, A2.
  - by rewrite B3, A3.
  - by rewrite B4, A4.
Qed.

Lemma kept_upd_edge (last0 : N) (a : ptr) (f : Edge.t -> Edge.t) (s s' : store) :
  (last0 < a)%N -> upd_edge a f s = Ok (tt, s') -> kept last0 s s'.
Proof.
  intros Ha Hu. unfold upd_edge in Hu. destruct (st_edges s !! a); [|done].
  injection Hu as <-. repeat split; try done.
  intros b Hb. simpl. rewrite lookup_insert_ne; [done|lia].
Qed.

Lemma kept_upd_face (last0 : N) (a : ptr) (f : Face.t -> Face.t) (s s' : store) :
  (last0 < a)%N -> upd_face a f s = Ok (tt, s') -> kept last0 s s'.
Proof.
  intros Ha Hu. unfold upd_face in Hu. destruct (st_faces s !! a); [|done].
  injection Hu as <-. repeat split; try done.
  intros b Hb. simpl. rewrite lookup_insert_ne; [done|lia].
Qed.

Lemma kept_upd_mesh (last0 : N) (a : ptr) (f : Mesh.t -> Mesh.t) (s s' : store) :
  (last0 < a)%N -> upd_mesh a f s = Ok (tt, s') -> kept last0 s s'.
Proof.
  intros Ha Hu. unfold upd_mesh in Hu. destruct (st_meshes s !! a); [|done].
  injection Hu as <-. repeat split; try done.
  intros b Hb. simpl. rewrite lookup_insert_ne; [done|lia].
Qed.

Lemma kept_new_Edge (last0 : N) (v : Z) (f : ptr) (s s' : store) (a : ptr) :
  (last0 <= st_last s)%N -> new_Edge v f s = Ok (a, s') ->
  kept last0 s s' /\ (last0 < a)%N.
Proof.
  intros Hl Hn. injection Hn as <- <-. unfold fresh. split; [|lia].
  repeat split; try done. intros b Hb. simpl. rewrite lookup_insert_ne; [done|lia].
Qed.

Lemma kept_new_Face (last0 : N) (F : Face.t) (s s' : store) (a : ptr) :
  (last0 <= st_last s)%N -> new_Face F s = Ok (a, s') ->
  kept last0 s s' /\ (last0 < a)%N.
Proof.
  intros Hl Hn. injection Hn as <- <-. unfold fresh. split; [|lia].
  repeat split; try done. intros b Hb. simpl. rewrite lookup_insert_ne; [done|lia].
Qed.

Lemma kept_new_Mesh_object (last0 : N) (m : Mesh.t) (s s' : store) (a : ptr) :
  (last0 <= st_last s)%N -> new_Mesh_object m s = Ok (a, s') ->
  kept last0 s s' /\ (last0 < a)%N.
Proof.
  intros Hl Hn. injection Hn as <- <-. unfold fresh. split; [|lia].
  repeat split; try done. intros b Hb. simpl. rewrite lookup_insert_ne; [done|lia].
Qed.

Lemma kept_new_MeshSet_object (last0 : N) (ms : MeshSet.t) (s s' : store) (a : ptr) :
  (last0 <= st_last s)%N -> new_MeshSet_object ms s = Ok (a, s') ->
  kept last0 s s' /\ (last0 < a)%N.
Proof.
  intros Hl Hn. injection Hn as <- <-. unfold fresh. split; [|lia].
  repeat split; try done. intros b Hb. simpl. rewrite lookup_insert_ne; [done|lia].
Qed.

Lemma edge_map_created_insert (last0 : N) (em : gmap N N) (k v : ptr) :
  edge_map_created last0 em -> (v = NULL \/ (last0 < v)%N) ->
  edge_map_created last0 (<[k := v]> em).
Proof.
  intros Hem Hv k' v' H. destruct (decide (k' = k)) as [->|Hne].
  - rewrite lookup_insert_eq in H. by injection H as <-.
  - rewrite lookup_insert_ne in H by done. by eapply Hem.
Qed.

Lemma edge_map_created_index (last0 : N) (em em' : gmap N N) (k v : ptr) :
  edge_map_created last0 em -> map_index em k = (v, em') ->
  edge_map_created last0 em' /\ (v = NULL \/ (last0 < v)%N).
Proof.
  intros Hem Hidx. unfold map_index in Hidx.
  destruct (em !! k) as [x|] eqn:Hk; injection Hidx as <- <-.
  - split; [done|]. by eapply Hem.
  - split; [|by left]. apply edge_map_created_insert; [done|by left].
Qed.

(** A write through the null pointer has no defined result. *)
Lemma upd_edge_not_null (a : ptr) (f : Edge.t -> Edge.t) (s s' : store) :
  store_wf s -> upd_edge a f s = Ok (tt, s') -> a <> NULL.
Proof.
  intros Hwf Hu ->. unfold upd_edge in Hu.
  destruct (store_wf_null s Hwf) as [H0 _]. by rewrite H0 in Hu.
Qed.

Lemma Face_clone_loop_kept (last0 : N) (fuel : nat) :
  forall (old_base new_base : Z) (first r e r_p : ptr) (edge_map edge_map' : gmap N N)
         (s s' : store) (r_e : ptr),
    store_wf s -> (last0 <= st_last s)%N -> (last0 < r)%N ->
    (r_p = NULL \/ (last0 < r_p)%N) ->
    edge_map_created last0 edge_map ->
    Face_clone_loop fuel old_base new_base first r e r_p edge_map s
    = Ok ((r_e, edge_map'), s') ->
    kept last0 s s' /\ edge_map_created last0 edge_map'.
Proof.
  induction fuel as [|k IH];
    intros old_base new_base first r e r_p em em' s s' r_e Hwf Hlast Hr Hrp Hem Hrun;
    [done|].
  cbn [Face_clone_loop] in Hrun.
  apply bind_Ok_inv in Hrun as (E & s1 & Hget & Hrun).
  apply get_edge_inv in Hget as [-> HE].
  apply bind_Ok_inv in Hrun as (a & s2 & Hnew & Hrun).
  destruct (kept_new_Edge last0 _ _ _ _ _ Hlast Hnew) as [HK2 Ha].
  apply new_Edge_ext in Hnew as (Hext2 & _); [|done].
  apply bind_Ok_inv in Hrun as ([] & s3 & Hlink & Hrun).
  assert (ext s2 s3 /\ kept last0 s2 s3) as [Hext3 HK3].
  { destruct (r_p =? NULL)%N eqn:Heqb; cbn [negb] in Hlink.
    - split; [|eapply kept_upd_face; [exact Hr|exact Hlink]].
      apply upd_face_ext in Hlink as [Hx _]; [done|done|apply Hext2].
    - apply N.eqb_neq in Heqb. destruct Hrp as [?|Hrp]; [done|].
      apply bind_Ok_inv in Hlink as ([] & s2' & Hu1 & Hu2).
      pose proof (kept_upd_edge last0 _ _ _ _ Hrp Hu1) as HKa.
      pose proof (kept_upd_edge last0 _ _ _ _ Ha Hu2) as HKb.
      apply upd_edge_ext in Hu1 as [Hx1 _]; [|done|apply Hext2].
      apply upd_edge_ext in Hu2 as [Hx2 _]; [|done|apply Hx1].
      split; [by eapply ext_trans|by eapply kept_trans]. }
  apply bind_Ok_inv in Hrun as (E' & s4 & Hget & Hrun).
  apply get_edge_inv in Hget as [-> HE'].
  assert (Hem2 : edge_map_created last0 (<[e := a]> em)).
  { apply edge_map_created_insert; [done|by right]. }
  assert (HK : kept last0 s s3) by (by eapply kept_trans).
  destruct (Edge.next E' =? first)%N.
  - injection Hrun as <- <- <-. done.
  - apply IH in Hrun as [HK4 Hem4]; try done.
    + split; [by eapply kept_trans|done].
    + apply Hext3.
    + pose proof (ext_last _ _ Hext2). pose proof (ext_last _ _ Hext3). lia.
    + by right.
Qed.

Lemma Face_clone_kept (last0 : N) (this : ptr) (old_base new_base : Z)
      (edge_map edge_map' : gmap N N) (s s' : store) (r : ptr) :
  store_wf s -> (last0 <= st_last s)%N ->
  links_created last0 s ->
  edge_map_created last0 edge_map ->
  Face_clone this old_base new_base edge_map s = Ok ((r, edge_map'), s') ->
  kept last0 s s' /\ edge_map_created last0 edge_map' /\ (last0 < r)%N.
Proof.
  intros Hwf Hlast HL Hem Hrun. unfold Face_clone in Hrun.
  apply bind_Ok_inv in Hrun as (F & s1 & Hget & Hrun).
  apply get_face_inv in Hget as [-> HF].
  apply bind_Ok_inv in Hrun as (r' & s1 & Hnew & Hrun).
  destruct (kept_new_Face last0 _ _ _ _ Hlast Hnew) as [HK1 Hr'].
  pose proof (links_created_new_Face last0 (Face.copy F) s s1 r' Hlast eq_refl HL Hnew)
    as [HL1 _].
  apply new_Face_ext in Hnew as (Hext1 & _); [|done|done].
  apply bind_Ok_inv in Hrun as (s1' & s1'' & Hget & Hrun).
  injection Hget as <- <-.
  apply bind_Ok_inv in Hrun as ([r_e em] & s2 & Hloop & Hrun).
  assert (Hlast1 : (last0 <= st_last s1)%N).
  { pose proof (ext_last _ _ Hext1). lia. }
  pose proof (Face_clone_loop_links last0 _ _ _ _ _ _ _ _ _ _ _ _
                (ext_wf _ _ Hext1) Hlast1 HL1 Hloop) as [HL2 Hre].
  destruct (Face_clone_loop_kept last0 _ _ _ _ _ _ _ _ _ _ _ _
              (ext_wf _ _ Hext1) Hlast1 Hr' (or_introl eq_refl) Hem Hloop) as [HK2 Hem2].
  apply Face_clone_loop_ext in Hloop as Hext2; [|apply Hext1].
  apply bind_Ok_inv in Hrun as (R & s3 & Hget & Hrun).
  apply get_face_inv in Hget as [-> HR].
  apply bind_Ok_inv in Hrun as ([] & s3 & Hu1 & Hrun).
  apply bind_Ok_inv in Hrun as (R' & s4 & Hget & Hrun).
  apply get_face_inv in Hget as [-> HR'].
  apply bind_Ok_inv in Hrun as ([] & s4 & Hu2 & Hrun).
  injection Hrun as <- <- <-.
  assert (Hsame : R' = R).
  { unfold upd_edge in Hu1. destruct (st_edges s2 !! r_e); [|done].
    injection Hu1 as <-. simpl in HR'. congruence. }
  subst R'.
  assert (Hedge : (last0 < Face.edge R)%N).
  { destruct HL2 as [_ Kf]. destruct (Kf r' R HR Hr') as [Hnull|H]; [|done].
    exfalso. pose proof Hu1 as Hu1'.
    apply upd_edge_ext in Hu1' as [Hx3 _]; [|done|apply Hext2].
    by apply (upd_edge_not_null _ _ _ _ (ext_wf _ _ Hx3) Hu2). }
  split_and!; [|done|done].
  eapply kept_trans; [exact HK1|]. eapply kept_trans; [exact HK2|].
  eapply kept_trans; [exact (kept_upd_edge last0 _ _ _ _ Hre Hu1)|].
  exact (kept_upd_edge last0 _ _ _ _ Hedge Hu2).
Qed.

Lemma Mesh_make4_kept (last0 : N) (fs os cs : list ptr) (neg : bool)
      (s s' : store) (r : ptr) :
  (last0 <= st_last s)%N ->
  Forall (fun f => (last0 < f)%N) fs ->
  Mesh_make4 fs os cs neg s = Ok (r, s') ->
  kept last0 s s' /\ (last0 < r)%N.
Proof.
  intros Hlast Hfs Hrun. unfold Mesh_make4 in Hrun.
  apply bind_Ok_inv in Hrun as (this & s1 & Hnew & Hrun).
  destruct (kept_new_Mesh_object last0 _ _ _ _ Hlast Hnew) as [HK1 Hthis].
  apply bind_Ok_inv in Hrun as ([] & s2 & Hloop & Hrun).
  injection Hrun as <- <-. split; [|done].
  pose proof (for_each_ind _ (fun _ _ sc => kept last0 s sc) fs [] tt tt s1 s2 Hloop)
    as Hinv.
  apply Hinv; [done|].
  intros _ f [] sa [] sb HKa Hf Hbody.
  eapply kept_trans; [exact HKa|]. eapply kept_upd_face; [|exact Hbody].
  by apply (Forall_forall (fun f => (last0 < f)%N) fs).
Qed.

Lemma Mesh_clone_kept (last0 : N) (this : ptr) (old_base new_base : Z)
      (s s' : store) (r : ptr) (edge_map : gmap N N) :
  store_wf s -> (last0 <= st_last s)%N ->
  links_created last0 s ->
  Mesh_clone this old_base new_base s = Ok ((r, edge_map), s') ->
  kept last0 s s' /\ (last0 < r)%N.
Proof.
  intros Hwf Hlast HL Hrun. unfold Mesh_clone in Hrun.
  apply bind_Ok_inv in Hrun as (m & s0 & Hget & Hrun).
  apply get_mesh_inv in Hget as [-> Hm].
  apply bind_Ok_inv in Hrun as ([r_faces em1] & s1 & Hfaces & Hrun).
  apply bind_Ok_inv in Hrun as ([r_closed em2] & s2 & Hclosed & Hrun).
  apply bind_Ok_inv in Hrun as ([r_open em3] & s3 & Hopen & Hrun).
  apply bind_Ok_inv in Hrun as (r' & s4 & Hmake & Hrun).
  injection Hrun as <- <- <-.
  pose proof (for_each_ind _
    (fun _ acc sc => ext s sc /\ links_created last0 sc /\ kept last0 s sc
                     /\ edge_map_created last0 acc.2
                     /\ Forall (fun f => (last0 < f)%N) acc.1)
    (Mesh.faces m) [] ([], ∅) (r_faces, em1) s s1 Hfaces) as Hinv1.
  destruct Hinv1 as (Hext1 & HL1 & HK1 & Hem1 & Hrf).
  { split_and!; [by apply ext_refl|done|apply kept_refl|done|done]. }
  { intros done f [fs em] sa [fs' em'] sb (Hxa & HLa & HKa & Hema & Hfa) _ Hbody.
    apply bind_Ok_inv in Hbody as ([rf em''] & sc & Hclone & Hret).
    injection Hret as <- <- <-.
    assert (Hla : (last0 <= st_last sa)%N).
    { pose proof (ext_last _ _ Hxa). lia. }
    pose proof (Face_clone_links last0 _ _ _ _ _ _ _ _ (ext_wf _ _ Hxa) Hla HLa Hclone).
    destruct (Face_clone_kept last0 _ _ _ _ _ _ _ _ (ext_wf _ _ Hxa) Hla HLa Hema Hclone)
      as (HKc & Hemc & Hrf).
    apply Face_clone_ext in Hclone as (Hxc & _); [|apply Hxa].
    split_and!; [by eapply ext_trans|done|by eapply kept_trans|done|].
    simpl. apply Forall_app. split; [done|]. by apply Forall_singleton. }
  simpl in Hem1, Hrf.
  pose proof (for_each_ind _
    (fun _ acc sc => store_wf sc /\ kept last0 s sc /\ edge_map_created last0 acc.2
                     /\ st_last sc = st_last s1)
    (Mesh.closed_edges m) [] ([], em1) (r_closed, em2) s1 s2 Hclosed) as Hinv2.
  destruct Hinv2 as (Hwf2 & HK2 & Hem2 & Hlast2).
  { split_and!; [apply Hext1|done|done|done]. }
  { intros done c [cs em] sa [cs' em'] sb (Hwa & HKa & Hema & Hlsa) _ Hbody.
    destruct (map_index em c) as [back ema] eqn:Hidx1.
    destruct (edge_map_created_index _ _ _ _ _ Hema Hidx1) as [Hemb Hback].
    apply bind_Ok_inv in Hbody as (C & sc & Hget & Hbody).
    apply get_edge_inv in Hget as [-> HC].
    destruct (map_index ema (Edge.rev C)) as [r_rev emb] eqn:Hidx2.
    destruct (edge_map_created_index _ _ _ _ _ Hemb Hidx2) as [Hemc _].
    apply bind_Ok_inv in Hbody as ([] & sc & Hupd & Hret).
    injection Hret as <- <- <-.
    assert (Hb : (last0 < back)%N).
    { destruct Hback as [->|?]; [|done].
      by destruct (upd_edge_not_null _ _ _ _ Hwa Hupd). }
    pose proof (kept_upd_edge last0 _ _ _ _ Hb Hupd) as HKu.
    assert (st_last sc = st_last sa) as Hls.
    { unfold upd_edge in Hupd. destruct (st_edges sa !! back); [|done].
      by injection Hupd as <-. }
    apply upd_edge_ext in Hupd as [Hx _]; [|done|done].
    split_and!; [apply Hx|by eapply kept_trans|done|congruence]. }
  pose proof (for_each_ind _
    (fun _ _ sc => sc = s2)
    (Mesh.open_edges m) [] ([], em2) (r_open, em3) s2 s3 Hopen eq_refl) as Hinv3.
  rewrite Hinv3 in Hmake.
  2:{ intros done o [os em] sa [os' em'] sb -> _ Hbody.
      destruct (map_index em o) as [r_o ema]. by injection Hbody as _ _ <-. }
  assert (Hl2 : (last0 <= st_last s2)%N).
  { rewrite Hlast2. pose proof (ext_last _ _ Hext1). lia. }
  destruct (Mesh_make4_kept last0 _ _ _ _ _ _ _ Hl2 Hrf Hmake) as [HK4 Hr4].
  split; [by eapply kept_trans|done].
Qed.

Lemma MeshSet_make2_kept (last0 : N) (base : Z) (vs : list Vertex.t) (ms : list ptr)
      (s s' : store) (r : ptr) :
  (last0 <= st_last s)%N ->
  Forall (fun m => (last0 < m)%N) ms ->
  MeshSet_make2 base vs ms s = Ok (r, s') ->
  kept last0 s s' /\ (last0 < r)%N.
Proof.
  intros Hlast Hms Hrun. unfold MeshSet_make2 in Hrun.
  apply bind_Ok_inv in Hrun as (this & s1 & Hnew & Hrun).
  destruct (kept_new_MeshSet_object last0 _ _ _ _ Hlast Hnew) as [HK1 Hthis].
  apply bind_Ok_inv in Hrun as ([] & s2 & Hloop & Hrun).
  injection Hrun as <- <-. split; [|done].
  pose proof (for_each_ind _ (fun _ _ sc => kept last0 s sc) ms [] tt tt s1 s2 Hloop)
    as Hinv.
  apply Hinv; [done|].
  intros _ m [] sa [] sb HKa Hm Hbody.
  eapply kept_trans; [exact HKa|]. eapply kept_upd_mesh; [|exact Hbody].
  by apply (Forall_forall (fun m => (last0 < m)%N) ms).
Qed.

(** X13.  [MeshSet::clone] changes no object of the store: every
    half-edge, face, mesh and mesh set that exists before the call is
    the same after it, and the mesh set it returns is a new object. *)
Theorem MeshSet_clone_keeps_original (this : ptr) (new_base : Z) (s s' : store)
        (r : ptr) :
  store_wf s ->
  MeshSet_clone this new_base s = Ok (r, s') ->
  (forall a E, st_edges s !! a = Some E -> st_edges s' !! a = Some E)
  /\ (forall a F, st_faces s !! a = Some F -> st_faces s' !! a = Some F)
  /\ (forall a m, st_meshes s !! a = Some m -> st_meshes s' !! a = Some m)
  /\ (forall a ms, st_meshsets s !! a = Some ms -> st_meshsets s' !! a = Some ms)
  /\ st_meshsets s !! r = None
  /\ is_Some (st_meshsets s' !! r).
Proof.
  intros Hwf Hrun.
  assert (HK : kept (st_last s) s s' /\ (st_last s < r)%N /\ is_Some (st_meshsets s' !! r)).
  { unfold MeshSet_clone in Hrun.
    apply bind_Ok_inv in Hrun as (ms & s0 & Hget & Hrun).
    apply get_meshset_inv in Hget as [-> Hms].
    apply bind_Ok_inv in Hrun as (rs & s1 & Hloop & Hmake).
    assert (HL0 : links_created (st_last s) s).
    { destruct Hwf as (We & Wf & _). split.
      - intros a E HE Ha. specialize (We _ _ HE). unfold in_use in We. lia.
      - intros a F HF Ha. specialize (Wf _ _ HF). unfold in_use in Wf. lia. }
    pose proof (for_each_ind _
      (fun _ acc sc => ext s sc /\ links_created (st_last s) sc
                       /\ kept (st_last s) s sc
                       /\ Forall (fun m => (st_last s < m)%N) acc)
      (MeshSet.meshes ms) [] [] rs s s1 Hloop) as Hinv.
    destruct Hinv as (Hext1 & HL1 & HK1 & Hrs).
    { split_and!; [by apply ext_refl|done|apply kept_refl|done]. }
    { intros done m acc sa acc' sb (Hxa & HLa & HKa & Ha) _ Hbody.
      apply bind_Ok_inv in Hbody as ([rm em] & sc & Hclone & Hret).
      injection Hret as <- <-.
      pose proof (Mesh_clone_links (st_last s) _ _ _ _ _ _ _ (ext_wf _ _ Hxa)
                    (ext_last _ _ Hxa) HLa Hclone).
      destruct (Mesh_clone_kept (st_last s) _ _ _ _ _ _ _ (ext_wf _ _ Hxa)
                  (ext_last _ _ Hxa) HLa Hclone) as [HKc Hrm].
      apply Mesh_clone_ext in Hclone as (Hxc & _); [|apply Hxa].
      split_and!; [by eapply ext_trans|done|by eapply kept_trans|].
      apply Forall_app. split; [done|]. by apply Forall_singleton. }
    destruct (MeshSet_make2_kept (st_last s) _ _ _ _ _ _ (ext_last _ _ Hext1) Hrs Hmake)
      as [HK2 Hr].
    split; [by eapply kept_trans|]. split; [done|].
    apply MeshSet_make2_ext in Hmake as (_ & _ & Hlk & _); [|apply Hext1].
    rewrite Hlk. eauto. }
  destruct HK as ((Ke & Kf & Km & Ks) & Hr & Hnew).
  destruct Hwf as (We & Wf & Wm & Ws).
  split_and!.
  - intros a E HE. rewrite Ke; [done|]. specialize (We _ _ HE). unfold in_use in We. lia.
  - intros a F HF. rewrite Kf; [done|]. specialize (Wf _ _ HF). unfold in_use in Wf. lia.
  - intros a m Hm. rewrite Km; [done|]. specialize (Wm _ _ Hm). unfold in_use in Wm. lia.
  - intros a ms Hms. rewrite Ks; [done|]. specialize (Ws _ _ Hms). unfold in_use in Ws. lia.
  - destruct (st_meshsets s !! r) as [x|] eqn:Hx; [|done].
    specialize (Ws _ _ Hx). unfold in_use in Ws. lia.
  - done.
Qed.

Lemma MeshSet_clone_keeps_original_witness :
  let s := tetra_store in
  let s' := tetra_cloned in
  (forall a E, st_edges s !! a = Some E -> st_edges s' !! a = Some E)
  /\ (forall a F, st_faces s !! a = Some F -> st_faces s' !! a = Some F)
  /\ (forall a m, st_meshes s !! a = Some m -> st_meshes s' !! a = Some m)
  /\ (forall a ms, st_meshsets s !! a = Some ms -> st_meshsets s' !! a = Some ms)
  /\ st_meshsets s !! 43%N = None
  /\ is_Some (st_meshsets s' !! 43%N).
Proof.
  apply (MeshSet_clone_keeps_original 25%N 200 tetra_store tetra_cloned 43%N).
  - apply (bool_decide_unpack _). vm_compute. reflexivity.
  - vm_compute. reflexivity.
Defined.

(** ** initEdges: every half-edge is filed under its vertex pair *)

Lemma rev_cleared_fields (es es' : gmap N Edge.t) (a : ptr) (E' : Edge.t) :
  rev_cleared es es' -> es' !! a = Some E' ->
  exists E, es !! a = Some E /\ Edge.next E' = Edge.next E
            /\ Edge.vert E' = Edge.vert E.
Proof.
  intros Hc HE'. destruct (Hc a) as [Heq|(E & HE & Hs)].
  - exists E'. by rewrite <- Heq.
  - exists E. rewrite Hs in HE'. injection HE' as <-. done.
Qed.

Lemma rev_cleared_upd (es : gmap N Edge.t) (a : ptr) (s s' : store) :
  rev_cleared es (st_edges s) ->
  upd_edge a (Edge.with_rev NULL) s = Ok (tt, s') ->
  rev_cleared es (st_edges s') /\ st_faces s' = st_faces s.
Proof.
  intros Hc Hu. unfold upd_edge in Hu.
  destruct (st_edges s !! a) as [E|] eqn:HE; [|done]. injection Hu as <-.
  split; [|done]. eapply rev_cleared_trans; [exact Hc|].
  by apply rev_cleared_insert.
Qed.

(** The loop of [initEdges] on one ring files the half-edges of the
    ring, in ring order, each under the pair of its end points. *)
Lemma initEdges_ring_files (es0 : gmap N Edge.t) (fuel : nat) :
  forall (first e : ptr) (st st' : FaceStitcher.t) (s s' : store),
    rev_cleared es0 (st_edges s) ->
    FaceStitcher.initEdges_ring fuel first e st s = Ok (st', s') ->
    exists l, ring_from fuel es0 first e = Some l
              /\ st' = foldl (file_edge es0) st l
              /\ rev_cleared es0 (st_edges s')
              /\ st_faces s' = st_faces s.
Proof.
  induction fuel as [|k IH]; intros first e st st' s s' Hc Hrun; [done|].
  cbn [FaceStitcher.initEdges_ring] in Hrun.
  apply bind_Ok_inv in Hrun as (E & s1 & Hget & Hrun).
  apply get_edge_inv in Hget as [-> HE].
  apply bind_Ok_inv in Hrun as (E2 & s1 & Hget & Hrun).
  apply get_edge_inv in Hget as [-> HE2].
  apply bind_Ok_inv in Hrun as (E3 & s1 & Hget & Hrun).
  apply get_edge_inv in Hget as [-> HE3].
  apply bind_Ok_inv in Hrun as ([] & s2 & Hclear & Hrun).
  destruct (rev_cleared_fields _ _ _ _ Hc HE) as (E0 & HE0 & Hn & Hv).
  destruct (rev_cleared_fields _ _ _ _ Hc HE2) as (E02 & HE02 & _ & Hv2).
  assert (Hkey : file_edge es0 st e
                 = FaceStitcher.push_edge (Edge.vert E, Edge.vert E2) e st).
  { unfold file_edge, edge_key, v1, v2. rewrite HE0. simpl.
    rewrite <- Hn, HE02. simpl. by rewrite Hv, Hv2. }
  assert (rev_cleared es0 (st_edges s2) /\ st_faces s2 = st_faces s) as [Hc2 Hf2].
  { destruct (negb (Edge.rev E3 =? NULL)%N).
    - apply bind_Ok_inv in Hclear as ([] & sa & Hu1 & Hu2).
      destruct (rev_cleared_upd _ _ _ _ Hc Hu1) as [Hca Hfa].
      destruct (rev_cleared_upd _ _ _ _ Hca Hu2) as [Hcb Hfb].
      split; [done|congruence].
    - by injection Hclear as <-. }
  simpl. rewrite HE0. simpl. rewrite <- Hn.
  destruct (Edge.next E =? first)%N.
  - injection Hrun as <- <-. exists [e]. simpl. by rewrite Hkey.
  - apply IH in Hrun as (l & Hring & Hst & Hc' & Hf'); [|done].
    rewrite Hring. exists (e :: l). simpl. rewrite Hkey.
    split_and!; [done|done|done|congruence].
Qed.

Lemma initEdges_faces_files (s0 : store) (faces : list ptr) :
  forall (c c' : Z) (st st' : FaceStitcher.t) (s s' : store),
    rev_cleared (st_edges s0) (st_edges s) ->
    ids_assigned (st_faces s0) (st_faces s) ->
    FaceStitcher.initEdges_faces faces c st s = Ok ((c', st'), s') ->
    exists rings,
      Forall2 (fun f l => face_ring s0 f = Some l) faces rings
      /\ st' = foldl (file_edge (st_edges s0)) st (concat rings).
Proof.
  induction faces as [|f rest IH]; intros c c' st st' s s' Hc Hi Hrun.
  - injection Hrun as <- <- <-. exists []. split; [constructor|done].
  - cbn [FaceStitcher.initEdges_faces] in Hrun.
    apply bind_Ok_inv in Hrun as (F & s1 & Hget & Hrun).
    apply get_face_inv in Hget as [-> HF].
    apply bind_Ok_inv in Hrun as ([] & s1 & Hassert & Hrun).
    assert (s1 = s) as ->.
    { unfold CARVE_ASSERT in Hassert. destruct (Face.mesh F =? NULL)%N; [|done].
      by injection Hassert as <-. }
    apply bind_Ok_inv in Hrun as ([] & s1 & Hupd & Hrun).
    apply bind_Ok_inv in Hrun as (F1 & s2 & Hget & Hrun).
    apply get_face_inv in Hget as [-> HF1].
    apply bind_Ok_inv in Hrun as (sx & s2 & Hgs & Hrun).
    injection Hgs as <- <-.
    apply bind_Ok_inv in Hrun as (st2 & s2 & Hring & Hrun).
    unfold upd_face in Hupd. rewrite HF in Hupd. injection Hupd as <-.
    simpl in HF1. rewrite lookup_insert_eq in HF1. injection HF1 as <-.
    simpl in Hring.
    apply (initEdges_ring_files (st_edges s0)) in Hring
      as (l & Hl & Hst2 & Hc2 & Hf2); [|done].
    assert (Hi1 : ids_assigned (st_faces s0) (<[f := Face.with_id c F]> (st_faces s))).
    { eapply ids_assigned_trans; [exact Hi|]. by apply ids_assigned_insert. }
    apply IH in Hrun as (rings & Hrings & Hst'); [|done|by rewrite Hf2].
    exists (l :: rings). split.
    + constructor; [|done]. unfold face_ring.
      destruct (ids_assigned_lookup _ _ f Hi) as [Hedge _].
      rewrite HF in Hedge. simpl in Hedge.
      destruct (st_faces s0 !! f) as [F0|]; [|done]. simpl in Hedge.
      injection Hedge as Hedge. simpl. rewrite <- Hedge.
      by rewrite <- (rev_cleared_size _ _ Hc).
    + simpl. by rewrite foldl_app, <- Hst2.
Qed.

(** The lists of the map after filing the half-edges [l]. *)
Lemma file_edges_lookup (es : gmap N Edge.t) (l : list ptr) :
  forall (st : FaceStitcher.t) (key : Z * Z),
    default [] (FaceStitcher.edges (foldl (file_edge es) st l) !! key)
    = default [] (FaceStitcher.edges st !! key)
      ++ filter (fun e => edge_key es e = Some key) l.
Proof.
  induction l as [|e l IH]; intros st key; simpl.
  - by rewrite app_nil_r.
  - rewrite IH. unfold file_edge.
    destruct (edge_key es e) as [k|] eqn:Hk.
    + destruct (decide (k = key)) as [->|Hne].
      * rewrite filter_cons_True by done. simpl. rewrite lookup_insert_eq. simpl.
        by rewrite <- app_assoc.
      * rewrite filter_cons_False by congruence. simpl.
        by rewrite lookup_insert_ne.
    + rewrite filter_cons_False by congruence. done.
Qed.

Lemma file_edges_complex (es : gmap N Edge.t) (l : list ptr) :
  forall st : FaceStitcher.t,
    FaceStitcher.complex_edges (foldl (file_edge es) st l)
    = FaceStitcher.complex_edges st.
Proof.
  induction l as [|e l IH]; intros st; simpl; [done|].
  rewrite IH. unfold file_edge. by destruct (edge_key es e).
Qed.

(** X14.  On faces that belong to no mesh and whose rings close,
    [initEdges] runs to the end and files every half-edge of every
    input face exactly once, under the pair of vertex addresses
    [(v1, v2)] of its end points: the list of a pair is what it was
    before, followed by the half-edges from [v1] to [v2] in the order
    of the faces and of their rings.  Nothing is filed among the
    complex edges. *)
Theorem initEdges_files_half_edges (faces : list ptr) (st : FaceStitcher.t)
        (s : store) :
  faces_ready s faces ->
  twins_valid (st_edges s) ->
  Forall (fun f => ~ face_owned s f) faces ->
  Z.of_nat (length faces) < SizeT.modulus ->
  exists st' s' rings,
    FaceStitcher.initEdges faces st s = Ok (st', s')
    /\ Forall2 (fun f l => face_ring s f = Some l) faces rings
    /\ (forall key,
          default [] (FaceStitcher.edges st' !! key)
          = default [] (FaceStitcher.edges st !! key)
            ++ filter (fun e => edge_key (st_edges s) e = Some key) (concat rings))
    /\ FaceStitcher.complex_edges st' = FaceStitcher.complex_edges st.
Proof.
  intros Hready Hvalid Hfree Hlen.
  destruct (initEdges_faces_ok faces 0 st s Hready Hvalid) as
    [[Hex _]|[_ (st1 & s1 & Hrun & _)]]; [lia|lia| |].
  { by destruct (Exists_Forall_not _ _ Hex Hfree). }
  destruct (initEdges_faces_files s faces _ _ _ _ _ _
              (rev_cleared_refl _) (ids_assigned_refl _) Hrun) as (rings & Hrings & Hst1).
  eexists _, s1, rings. split.
  { unfold FaceStitcher.initEdges. rewrite (bind_Ok _ _ _ _ _ Hrun). reflexivity. }
  split; [done|]. simpl. split.
  - intros key. rewrite Hst1. apply file_edges_lookup.
  - rewrite Hst1. apply file_edges_complex.
Qed.

Lemma initEdges_files_half_edges_witness :
  let faces := [10%N; 11%N] in
  let st := FaceStitcher.empty in
  let s := two_triangles_store in
  exists st' s' rings,
    FaceStitcher.initEdges faces st s = Ok (st', s')
    /\ Forall2 (fun f l => face_ring s f = Some l) faces rings
    /\ (forall key,
          default [] (FaceStitcher.edges st' !! key)
          = default [] (FaceStitcher.edges st !! key)
            ++ filter (fun e => edge_key (st_edges s) e = Some key) (concat rings))
    /\ FaceStitcher.complex_edges st' = FaceStitcher.complex_edges st.
Proof.
  apply (initEdges_files_half_edges [10%N; 11%N] FaceStitcher.empty two_triangles_store).
  - repeat constructor; vm_compute; eauto.
  - apply (bool_decide_unpack _). vm_compute. reflexivity.
  - repeat constructor; intros (F & HF & Hm); vm_compute in HF;
      injection HF as <-; by apply Hm.
  - vm_compute. reflexivity.
Defined.

(** ** build: the order of the faces, and faces without a set *)

(** The filing loop of [build], bucket by bucket. *)
Lemma build_mesh_faces_buckets (index_set : list Z) (s : store) (faces : list ptr) :
  forall mesh_faces : list (list ptr),
    faces_indexed index_set (length mesh_faces) s faces ->
    exists mesh_faces',
      FaceStitcher.build_mesh_faces index_set faces mesh_faces s = Ok (mesh_faces', s)
      /\ length mesh_faces' = length mesh_faces
      /\ (forall m fs0, mesh_faces !! m = Some fs0 ->
            mesh_faces' !! m
            = Some (fs0 ++ filter (fun f => face_set_index index_set s f
                                            = Some (Z.of_nat m)) faces)).
Proof.
  induction faces as [|f rest IH]; intros mesh_faces Hidx.
  - exists mesh_faces. split_and!; try done.
    intros m fs0 Hm. by rewrite filter_nil, app_nil_r.
  - apply Forall_cons_1 in Hidx as [(k & Hk & Hrange) Hrest].
    pose proof Hk as Hk0. unfold face_set_index in Hk.
    destruct (st_faces s !! f) as [F|] eqn:HF; [|done]. simpl in Hk.
    destruct (lookup_lt_is_Some_2 mesh_faces (Z.to_nat k)) as [fs Hfs]; [lia|].
    destruct (IH (<[Z.to_nat k := fs ++ [f]]> mesh_faces))
      as (mf' & Hrun & Hlen & Hbuckets).
    { unfold faces_indexed. by rewrite length_insert. }
    exists mf'. split_and!.
    + cbn [FaceStitcher.build_mesh_faces].
      rewrite (bind_Ok _ _ _ _ _ (get_face_Ok _ _ _ HF)). by rewrite Hk, Hfs.
    + by rewrite Hlen, length_insert.
    + intros m fs0 Hm. destruct (decide (Z.to_nat k = m)) as [<-|Hne].
      * assert (fs0 = fs) as -> by congruence.
        rewrite (Hbuckets (Z.to_nat k) (fs ++ [f])).
        -- rewrite filter_cons_True by (rewrite Hk0; f_equal; lia).
           by rewrite <- app_assoc.
        -- apply list_lookup_insert_eq. by eapply lookup_lt_Some.
      * rewrite (Hbuckets m fs0) by (by rewrite list_lookup_insert_ne).
        rewrite filter_cons_False; [done|].
        rewrite Hk0. intros [= Heq]. lia.
Qed.

(** A face whose id has no set, or a set that does not exist, makes
    the filing loop index a vector out of its range. *)
Lemma build_mesh_faces_undefined (index_set : list Z) (s : store) (faces : list ptr) :
  forall mesh_faces : list (list ptr),
    Forall (fun k => 0 <= k) index_set ->
    Exists (fun f => ~ exists k, face_set_index index_set s f = Some k
                                 /\ 0 <= k < Z.of_nat (length mesh_faces)) faces ->
    FaceStitcher.build_mesh_faces index_set faces mesh_faces s = Undefined.
Proof.
  induction faces as [|f rest IH]; intros mesh_faces Hpos Hex.
  - by apply Exists_nil in Hex.
  - cbn [FaceStitcher.build_mesh_faces]. unfold mbind, M_bind, get_face.
    destruct (st_faces s !! f) as [F|] eqn:HF; [|done].
    destruct (index_set !! Z.to_nat (Face.id F)) as [k|] eqn:Hk; [|done].
    destruct (mesh_faces !! Z.to_nat k) as [fs|] eqn:Hfs; [|done].
    apply IH; [done|]. rewrite length_insert.
    apply Exists_cons in Hex as [Hbad|Hex]; [|done].
    destruct Hbad. exists k. split.
    + unfold face_set_index. rewrite HF. done.
    + pose proof (Forall_lookup_1 _ _ _ _ Hpos Hk) as Hk0. simpl in Hk0.
      apply lookup_lt_Some in Hfs. lia.
Qed.

(** X15.  [build] keeps the order of the input: the face vector of the
    [m]-th mesh is the subsequence of the input faces whose set is
    [m].  When the set index of some face is missing or is not the
    index of a set, the filing loop indexes a vector out of its range
    and no error is reported. *)
Theorem build_keeps_face_order (index_set set_size : list Z) (s : store)
        (faces : list ptr) :
  Forall (fun k => 0 <= k) index_set ->
  (faces_indexed index_set (length set_size) s faces ->
   exists mesh_faces,
     FaceStitcher.build_mesh_faces index_set faces
       (replicate (length set_size) []) s = Ok (mesh_faces, s)
     /\ length mesh_faces = length set_size
     /\ forall m, (m < length set_size)%nat ->
          mesh_faces !! m
          = Some (filter (fun f => face_set_index index_set s f
                                   = Some (Z.of_nat m)) faces))
  /\ (~ faces_indexed index_set (length set_size) s faces ->
      forall negative,
        FaceStitcher.build index_set set_size negative faces s = Undefined).
Proof.
  intros Hpos. split.
  - intros Hidx.
    destruct (build_mesh_faces_buckets index_set s faces
                (replicate (length set_size) [])) as (mf & Hrun & Hlen & Hb).
    { by rewrite length_replicate. }
    exists mf. rewrite length_replicate in Hlen. split_and!; [done|done|].
    intros m Hm. rewrite (Hb m []); [done|]. by apply lookup_replicate_2.
  - intros Hbad negative. unfold FaceStitcher.build.
    unfold mbind at 1. unfold M_bind.
    rewrite build_mesh_faces_undefined; [done|done|].
    rewrite length_replicate.
    apply not_Forall_Exists in Hbad; [done|].
    intros f. unfold face_set_index.
    destruct (st_faces s !! f) as [F|]; simpl; [|right; by intros (k & ? & _)].
    destruct (index_set !! Z.to_nat (Face.id F)) as [k|]; [|right; by intros (k & ? & _)].
    destruct (decide (0 <= k < Z.of_nat (length set_size))) as [Hk|Hk].
    + left. eauto.
    + right. intros (k' & [= <-] & ?). done.
Qed.

Lemma build_keeps_face_order_witness :
  let index_set := [0; 0; 1; 0] in
  let set_size := [3; 1] in
  let faces := [20%N; 21%N; 22%N; 23%N] in
  let s := tetra_stitched in
  (faces_indexed index_set (length set_size) s faces ->
   exists mesh_faces,
     FaceStitcher.build_mesh_faces index_set faces
       (replicate (length set_size) []) s = Ok (mesh_faces, s)
     /\ length mesh_faces = length set_size
     /\ forall m, (m < length set_size)%nat ->
          mesh_faces !! m
          = Some (filter (fun f => face_set_index index_set s f
                                   = Some (Z.of_nat m)) faces))
  /\ (~ faces_indexed index_set (length set_size) s faces ->
      forall negative,
        FaceStitcher.build index_set set_size negative faces s = Undefined).
Proof.
  apply (build_keeps_face_order [0; 0; 1; 0] [3; 1] tetra_stitched
           [20%N; 21%N; 22%N; 23%N]).
  repeat constructor; lia.
Defined.

(** ** MeshSet(meshes): collecting and renumbering the vertices *)

Lemma get_mesh_Ok (a : ptr) (m : Mesh.t) (s : store) :
  st_meshes s !! a = Some m -> get_mesh a s = Ok (m, s).
Proof. intros H. unfold get_mesh. by rewrite H. Qed.

Lemma collect_ring_run (fuel : nat) :
  forall (first e : ptr) (vert_idx : gmap Z Z) (s : store) (l : list ptr),
    ring_from fuel (st_edges s) first e = Some l ->
    collect_ring fuel first e vert_idx s
    = Ok (foldl (collect_edge (st_edges s)) vert_idx l, s).
Proof.
  induction fuel as [|k IH]; intros first e vi s l Hring; [done|].
  simpl in Hring. destruct (st_edges s !! e) as [E|] eqn:HE; [|done]. simpl in Hring.
  cbn [collect_ring]. rewrite (bind_Ok _ _ _ _ _ (get_edge_Ok _ _ _ HE)).
  assert (Hce : collect_edge (st_edges s) vi e = <[Edge.vert E := 0]> vi).
  { unfold collect_edge. by rewrite HE. }
  destruct (Edge.next E =? first)%N.
  - injection Hring as <-. cbn [foldl]. by rewrite Hce.
  - destruct (ring_from k (st_edges s) first (Edge.next E)) as [l2|] eqn:Hr; [|done].
    injection Hring as <-. rewrite (IH _ _ _ _ _ Hr). cbn [foldl]. by rewrite Hce.
Qed.

Lemma rings_of_same (s s' : store) (fs : list ptr) :
  st_edges s' = st_edges s -> st_faces s' = st_faces s ->
  rings_of s' fs = rings_of s fs.
Proof.
  intros He Hf. induction fs as [|f fs IH]; [done|]. simpl.
  unfold face_ring. by rewrite He, Hf, IH.
Qed.

Lemma collect_faces_run (s : store) (fs : list ptr) :
  forall (l : list ptr) (vert_idx : gmap Z Z),
    rings_of s fs = Some l ->
    for_each fs vert_idx collect_face s
    = Ok (foldl (collect_edge (st_edges s)) vert_idx l, s).
Proof.
  induction fs as [|f fs IH]; intros l vi Hl.
  - injection Hl as <-. done.
  - simpl in Hl. destruct (face_ring s f) as [lf|] eqn:Hlf; [|done]. simpl in Hl.
    destruct (rings_of s fs) as [ls|] eqn:Hls; [|done]. injection Hl as <-.
    assert (Hface : collect_face f vi s = Ok (foldl (collect_edge (st_edges s)) vi lf, s)).
    { unfold collect_face. unfold face_ring in Hlf.
      destruct (st_faces s !! f) as [F|] eqn:HF; [|done]. simpl in Hlf.
      rewrite (bind_Ok _ _ _ _ _ (get_face_Ok _ _ _ HF)).
      unfold get_store. rewrite (bind_Ok _ _ s s s eq_refl).
      by apply collect_ring_run. }
    simpl. rewrite (bind_Ok _ _ _ _ _ Hface), (IH _ _ eq_refl).
    by rewrite foldl_app.
Qed.

(** The half-edges of a mesh depend on its face vector, the faces and
    the half-edges only. *)
Lemma mesh_edges_same (s s' : store) (mesh : ptr) :
  st_edges s' = st_edges s -> st_faces s' = st_faces s ->
  Mesh.faces <$> st_meshes s' !! mesh = Mesh.faces <$> st_meshes s !! mesh ->
  mesh_edges s' mesh = mesh_edges s mesh.
Proof.
  intros He Hf Hm. unfold mesh_edges.
  destruct (st_meshes s' !! mesh) as [m'|], (st_meshes s !! mesh) as [m|];
    simpl in *; try done.
  injection Hm as ->. by apply rings_of_same.
Qed.

Lemma collect_mesh_run (this mesh : ptr) (vert_idx : gmap Z Z) (s : store)
      (m : Mesh.t) (l : list ptr) :
  st_meshes s !! mesh = Some m ->
  Mesh.meshset m = NULL ->
  mesh_edges s mesh = Some l ->
  collect_mesh this mesh vert_idx s
  = Ok (foldl (collect_edge (st_edges s)) vert_idx l,
        set_meshes <[mesh := Mesh.with_meshset this m]> s).
Proof.
  intros Hm Hnull Hl. unfold collect_mesh.
  rewrite (bind_Ok _ _ _ _ _ (get_mesh_Ok _ _ _ Hm)).
  rewrite Hnull. change (NULL =? NULL)%N with true.
  rewrite (bind_Ok (CARVE_ASSERT true) _ s s tt eq_refl).
  assert (Hupd : upd_mesh mesh (Mesh.with_meshset this) s
                 = Ok (tt, set_meshes <[mesh := Mesh.with_meshset this m]> s)).
  { unfold upd_mesh. by rewrite Hm. }
  rewrite (bind_Ok _ _ _ _ _ Hupd).
  set (s1 := set_meshes _ s).
  assert (Hm1 : st_meshes s1 !! mesh = Some (Mesh.with_meshset this m)).
  { simpl. by rewrite lookup_insert_eq. }
  rewrite (bind_Ok _ _ _ _ _ (get_mesh_Ok _ _ _ Hm1)).
  unfold mesh_edges in Hl. rewrite Hm in Hl. simpl in Hl.
  change (Mesh.faces (Mesh.with_meshset this m)) with (Mesh.faces m).
  apply (collect_faces_run s1). by rewrite (rings_of_same s s1).
Qed.

Lemma collect_mesh_assert (this mesh : ptr) (vert_idx : gmap Z Z) (s : store)
      (m : Mesh.t) :
  st_meshes s !! mesh = Some m ->
  Mesh.meshset m <> NULL ->
  collect_mesh this mesh vert_idx s = AssertionFailed.
Proof.
  intros Hm Hnn. unfold collect_mesh.
  rewrite (bind_Ok _ _ _ _ _ (get_mesh_Ok _ _ _ Hm)).
  apply bind_AssertionFailed. unfold CARVE_ASSERT.
  by destruct (N.eqb_spec (Mesh.meshset m) NULL).
Qed.

(** The first loop over the meshes: every mesh is taken into the set
    and the origins of its half-edges become keys of the map. *)
Lemma collect_meshes_run (this : ptr) (s0 : store) (meshes : list ptr) :
  forall (l : list ptr) (vert_idx : gmap Z Z) (s : store),
    st_edges s = st_edges s0 -> st_faces s = st_faces s0 ->
    (forall m, m ∈ meshes -> st_meshes s !! m = st_meshes s0 !! m) ->
    NoDup meshes ->
    Forall (fun m => exists M, st_meshes s0 !! m = Some M /\ Mesh.meshset M = NULL)
           meshes ->
    meshes_edges s0 meshes = Some l ->
    exists s',
      for_each meshes vert_idx (collect_mesh this) s
      = Ok (foldl (collect_edge (st_edges s0)) vert_idx l, s')
      /\ st_edges s' = st_edges s0 /\ st_faces s' = st_faces s0
      /\ st_meshsets s' = st_meshsets s /\ st_last s' = st_last s
      /\ (forall m, m ∈ meshes ->
            st_meshes s' !! m = Mesh.with_meshset this <$> st_meshes s0 !! m)
      /\ (forall m, m ∉ meshes -> st_meshes s' !! m = st_meshes s !! m).
Proof.
  induction meshes as [|m rest IH]; intros l vi s He Hf Hsame Hnd Hall Hl.
  - injection Hl as <-. exists s. split_and!; try done.
    intros m Hm. by apply elem_of_nil in Hm.
  - apply NoDup_cons in Hnd as [Hm_rest Hnd].
    apply Forall_cons_1 in Hall as [(M & HM & Hnull) Hall].
    simpl in Hl.
    destruct (mesh_edges s0 m) as [lm|] eqn:Hlm; [|done]. simpl in Hl.
    destruct (meshes_edges s0 rest) as [ls|] eqn:Hls; [|done].
    injection Hl as <-.
    assert (HMs : st_meshes s !! m = Some M).
    { rewrite Hsame; [done|]. apply elem_of_cons. by left. }
    assert (Hlms : mesh_edges s m = Some lm).
    { rewrite <- Hlm. apply mesh_edges_same; [done|done|]. by rewrite HMs, HM. }
    pose proof (collect_mesh_run this m vi s M lm HMs Hnull Hlms) as Hrun.
    set (s1 := set_meshes <[m := Mesh.with_meshset this M]> s) in Hrun.
    destruct (IH ls (foldl (collect_edge (st_edges s)) vi lm) s1)
      as (s' & Hrest & He' & Hf' & Hs' & Hl' & Hin & Hout); try done.
    { intros m' Hm'. simpl. rewrite lookup_insert_ne by (intros <-; done).
      apply Hsame. apply elem_of_cons. by right. }
    exists s'. split_and!; try done.
    + simpl. rewrite (bind_Ok _ _ _ _ _ Hrun), Hrest. by rewrite foldl_app, He.
    + intros m' Hm'. destruct (decide (m' ∈ rest)) as [Hr|Hr]; [by apply Hin|].
      apply elem_of_cons in Hm' as [->|?]; [|done].
      rewrite (Hout m Hr), HM. simpl. by rewrite lookup_insert_eq.
    + intros m' Hm'. apply not_elem_of_cons in Hm' as [Hne Hm'].
      rewrite (Hout m' Hm'). simpl. by rewrite lookup_insert_ne.
Qed.

(** The first loop stops on its assertion at the first mesh that
    already belongs to a mesh set: in the store on entry, or because
    the loop has met it before. *)
Lemma collect_meshes_assert (this : ptr) (s0 : store) (meshes : list ptr) :
  this <> NULL ->
  forall (vert_idx : gmap Z Z) (s : store),
    st_edges s = st_edges s0 -> st_faces s = st_faces s0 ->
    (forall m, m ∈ meshes ->
       exists M M0, st_meshes s !! m = Some M /\ st_meshes s0 !! m = Some M0
                    /\ Mesh.faces M = Mesh.faces M0) ->
    (forall m, m ∈ meshes -> is_Some (mesh_edges s0 m)) ->
    Exists (fun m => exists M, st_meshes s !! m = Some M /\ Mesh.meshset M <> NULL)
           meshes
    \/ ~ NoDup meshes ->
    for_each meshes vert_idx (collect_mesh this) s = AssertionFailed.
Proof.
  intros Hthis. induction meshes as [|m rest IH]; intros vi s He Hf Hrel Hedges Hbad.
  - destruct Hbad as [Hex|Hnd]; [by apply Exists_nil in Hex|].
    destruct Hnd. constructor.
  - destruct (Hrel m) as (M & M0 & HM & HM0 & Hfaces); [apply elem_of_cons; by left|].
    simpl. destruct (N.eq_dec (Mesh.meshset M) NULL) as [Hnull|Hnn].
    2:{ apply bind_AssertionFailed. by eapply collect_mesh_assert. }
    destruct (Hedges m) as [lm Hlm]; [apply elem_of_cons; by left|].
    assert (Hlms : mesh_edges s m = Some lm).
    { rewrite <- Hlm. apply mesh_edges_same; [done|done|].
      rewrite HM, HM0. simpl. by rewrite Hfaces. }
    rewrite (bind_Ok _ _ _ _ _ (collect_mesh_run this m vi s M lm HM Hnull Hlms)).
    apply IH; try done.
    + intros m' Hm'.
      destruct (Hrel m') as (M' & M0' & HM' & HM0' & Hfaces');
        [apply elem_of_cons; by right|].
      simpl. destruct (decide (m' = m)) as [->|Hne].
      * rewrite lookup_insert_eq. exists (Mesh.with_meshset this M), M0.
        split_and!; [done|done|]. simpl. congruence.
      * rewrite lookup_insert_ne by done. eauto.
    + intros m' Hm'. apply Hedges. apply elem_of_cons. by right.
    + destruct Hbad as [Hex|Hnd].
      * apply Exists_cons in Hex as [(M' & HM' & Hnn)|Hex]; [congruence|].
        left. eapply Exists_impl; [exact Hex|].
        intros m' (M' & HM' & Hnn). simpl.
        destruct (decide (m' = m)) as [->|Hne]; [congruence|].
        rewrite lookup_insert_ne by done. eauto.
      * destruct (decide (m ∈ rest)) as [Hin|Hnin].
        -- left. apply Exists_exists. exists m. split; [done|].
           simpl. rewrite lookup_insert_eq. eexists. split; [done|]. done.
        -- right. intros Hnd'. apply Hnd. by apply NoDup_cons_2.
Qed.

(** The keys of the map after the first loop are the origins of the
    half-edges. *)
Lemma collect_edges_lookup (es : gmap N Edge.t) (l : list ptr) :
  forall (vert_idx : gmap Z Z) (v : Z),
    is_Some (foldl (collect_edge es) vert_idx l !! v)
    <-> is_Some (vert_idx !! v)
        \/ exists e E, e ∈ l /\ es !! e = Some E /\ Edge.vert E = v.
Proof.
  induction l as [|e l IH]; intros vi v; simpl.
  - split; [by left|]. intros [?|(e & E & He & _)]; [done|].
    by apply elem_of_nil in He.
  - rewrite IH. unfold collect_edge. split.
    + intros [Hvi|(e' & E' & He' & HE' & Hv)].
      * destruct (es !! e) as [E|] eqn:HE; [|by left].
        destruct (decide (Edge.vert E = v)) as [Heq|Hne].
        -- right. exists e, E. split_and!; [apply elem_of_cons; by left|done|done].
        -- rewrite lookup_insert_ne in Hvi by done. by left.
      * right. exists e', E'. split_and!; [apply elem_of_cons; by right|done|done].
    + intros [Hvi|(e' & E' & He' & HE' & Hv)].
      * left. destruct (es !! e) as [E|]; [|done].
        destruct (decide (Edge.vert E = v)) as [Heq|Hne].
        -- rewrite Heq, lookup_insert_eq. eauto.
        -- by rewrite lookup_insert_ne.
      * apply elem_of_cons in He' as [->|He'].
        -- left. rewrite HE', Hv, lookup_insert_eq. eauto.
        -- right. eauto.
Qed.

(** The loop over the map numbers its keys in the order of the
    iteration and copies their vertices in that order. *)
Lemma number_vertices_run (vertex_at : Z -> option Vertex.t) (ks : list Z) :
  forall (vert_idx : gmap Z Z) (vs0 : list Vertex.t),
    NoDup ks ->
    Forall (fun k => is_Some (vertex_at k)) ks ->
    exists vert_idx' vs,
      number_vertices vertex_at ks vert_idx vs0 = Some (vert_idx', vs0 ++ vs)
      /\ Forall2 (fun k V => vertex_at k = Some V) ks vs
      /\ (forall i k, ks !! i = Some k ->
            vert_idx' !! k = Some (Z.of_nat (length vs0 + i)))
      /\ (forall k, k ∉ ks -> vert_idx' !! k = vert_idx !! k).
Proof.
  induction ks as [|k ks IH]; intros vi vs0 Hnd Hall.
  - exists vi, []. simpl. rewrite app_nil_r. split_and!; try done.
  - apply NoDup_cons in Hnd as [Hk Hnd].
    apply Forall_cons_1 in Hall as [[V HV] Hall].
    destruct (IH (<[k := Z.of_nat (length vs0)]> vi) (vs0 ++ [V]) Hnd Hall)
      as (vi' & vs & Hrun & Hcopy & Hidx & Hout).
    exists vi', (V :: vs). split_and!.
    + simpl. rewrite HV. simpl. rewrite Hrun. by rewrite <- app_assoc.
    + by constructor.
    + intros [|i] k' Hi.
      * injection Hi as <-. rewrite (Hout k Hk), lookup_insert_eq.
        by rewrite Nat.add_0_r.
      * rewrite (Hidx i k' Hi). rewrite length_app. simpl. do 2 f_equal. lia.
    + intros k' Hk'. apply not_elem_of_cons in Hk' as [Hne Hk'].
      rewrite (Hout k' Hk'). by rewrite lookup_insert_ne.
Qed.

(** *** The last loop *)

Lemma verts_moved_refl (es : gmap N Edge.t) : verts_moved es es.
Proof. intros a. by left. Qed.

Lemma verts_moved_next (es es' : gmap N Edge.t) (a : ptr) :
  verts_moved es es' -> Edge.next <$> es' !! a = Edge.next <$> es !! a.
Proof.
  intros Hv. destruct (Hv a) as [->|(E & v & HE & HE')]; [done|].
  by rewrite HE, HE'.
Qed.

Lemma verts_moved_size (es es' : gmap N Edge.t) :
  verts_moved es es' -> size es' = size es.
Proof.
  intros Hv. rewrite <- !size_dom. f_equal. apply set_eq. intros a.
  rewrite !elem_of_dom. pose proof (verts_moved_next _ _ a Hv) as Hn.
  destruct (es' !! a), (es !! a); simpl in Hn; try done; split; eauto.
Qed.

(** Moving vertex pointers does not change the rings. *)
Lemma ring_from_verts_moved (es es' : gmap N Edge.t) (fuel : nat) (first e : ptr) :
  verts_moved es es' -> ring_from fuel es' first e = ring_from fuel es first e.
Proof.
  intros Hv. revert e. induction fuel as [|k IH]; intros e; [done|]. simpl.
  pose proof (verts_moved_next _ _ e Hv) as Hn.
  destruct (es' !! e) as [E'|], (es !! e) as [E|]; simpl in Hn; try done.
  injection Hn as Hn. simpl. rewrite Hn.
  destruct (Edge.next E =? first)%N; [done|]. by rewrite IH.
Qed.

Lemma repoint_ring_run (es0 : gmap N Edge.t) (vert_idx : gmap Z Z) (base : Z)
      (n : nat) (fuel : nat) :
  forall (first e : ptr) (l : list ptr) (s : store),
    ring_from fuel es0 first e = Some l ->
    NoDup l ->
    verts_moved es0 (st_edges s) ->
    (forall a, a ∈ l -> st_edges s !! a = es0 !! a) ->
    (forall a E, a ∈ l -> es0 !! a = Some E ->
       exists i, vert_idx !! Edge.vert E = Some i /\ 0 <= i < Z.of_nat n) ->
    exists s',
      repoint_ring fuel base n first e vert_idx s = Ok (vert_idx, s')
      /\ st_faces s' = st_faces s /\ st_meshes s' = st_meshes s
      /\ st_meshsets s' = st_meshsets s /\ st_last s' = st_last s
      /\ verts_moved es0 (st_edges s')
      /\ (forall a, a ∉ l -> st_edges s' !! a = st_edges s !! a)
      /\ (forall a E, a ∈ l -> es0 !! a = Some E ->
            exists i, vert_idx !! Edge.vert E = Some i
                      /\ st_edges s' !! a = Some (Edge.with_vert (base + i) E)).
Proof.
  induction fuel as [|k IH]; intros first e l s Hring Hnd Hmoved Hun Hidx; [done|].
  simpl in Hring. destruct (es0 !! e) as [E|] eqn:HE0; [|done]. simpl in Hring.
  assert (Hel : e ∈ l).
  { destruct (Edge.next E =? first)%N.
    - injection Hring as <-. by apply list_elem_of_singleton.
    - destruct (ring_from k es0 first (Edge.next E)); [|done].
      injection Hring as <-. apply elem_of_cons. by left. }
  assert (HE : st_edges s !! e = Some E) by (by rewrite Hun).
  destruct (Hidx e E Hel HE0) as (i & Hi & Hrange).
  cbn [repoint_ring].
  rewrite (bind_Ok _ _ _ _ _ (get_edge_Ok _ _ _ HE)).
  rewrite Hi.
  destruct (Z.leb_spec (Z.of_nat n) i) as [?|_]; [lia|].
  rewrite (bind_Ok _ _ _ _ _ (upd_edge_Ok _ _ _ _ HE)).
  set (s1 := set_edges _ s).
  assert (HE1 : st_edges s1 !! e = Some (Edge.with_vert (base + i) E)).
  { simpl. by rewrite lookup_insert_eq. }
  rewrite (bind_Ok _ _ _ _ _ (get_edge_Ok _ _ _ HE1)).
  change (Edge.next (Edge.with_vert (base + i) E)) with (Edge.next E).
  assert (Hmoved1 : verts_moved es0 (st_edges s1)).
  { intros a. simpl. destruct (decide (a = e)) as [->|Hne].
    - right. exists E, (base + i). by rewrite lookup_insert_eq.
    - rewrite lookup_insert_ne by done. apply Hmoved. }
  destruct (Edge.next E =? first)%N.
  - injection Hring as <-. exists s1. split_and!; try done.
    + intros a Ha. simpl. rewrite lookup_insert_ne; [done|].
      intros <-. apply Ha. by apply list_elem_of_singleton.
    + intros a A Ha HA. apply list_elem_of_singleton in Ha as ->.
      assert (A = E) as -> by congruence. eauto.
  - destruct (ring_from k es0 first (Edge.next E)) as [l2|] eqn:Hr; [|done].
    injection Hring as <-.
    apply NoDup_cons in Hnd as [Hel2 Hnd2].
    destruct (IH first (Edge.next E) l2 s1 Hr Hnd2 Hmoved1) as
      (s' & Hrun & Hf & Hm & Hs & Hl & Hmoved' & Hout & Hin).
    { intros a Ha. simpl. rewrite lookup_insert_ne by (intros <-; done).
      apply Hun. apply elem_of_cons. by right. }
    { intros a A Ha HA. apply (Hidx a A); [|done]. apply elem_of_cons. by right. }
    exists s'. split_and!; try done.
    + intros a Ha. apply not_elem_of_cons in Ha as [Hne Ha].
      rewrite (Hout a Ha). simpl. by rewrite lookup_insert_ne.
    + intros a A Ha HA. apply elem_of_cons in Ha as [->|Ha].
      * assert (A = E) as -> by congruence. exists i. split; [done|].
        by rewrite (Hout e Hel2).
      * by apply Hin.
Qed.

Lemma repoint_faces_run (s0 : store) (vert_idx : gmap Z Z) (base : Z) (n : nat)
      (fs : list ptr) :
  forall (l : list ptr) (s : store),
    rings_of s0 fs = Some l ->
    NoDup l ->
    st_faces s = st_faces s0 ->
    verts_moved (st_edges s0) (st_edges s) ->
    (forall a, a ∈ l -> st_edges s !! a = st_edges s0 !! a) ->
    (forall a E, a ∈ l -> st_edges s0 !! a = Some E ->
       exists i, vert_idx !! Edge.vert E = Some i /\ 0 <= i < Z.of_nat n) ->
    exists s',
      for_each fs vert_idx (repoint_face base n) s = Ok (vert_idx, s')
      /\ st_faces s' = st_faces s /\ st_meshes s' = st_meshes s
      /\ st_meshsets s' = st_meshsets s /\ st_last s' = st_last s
      /\ verts_moved (st_edges s0) (st_edges s')
      /\ (forall a, a ∉ l -> st_edges s' !! a = st_edges s !! a)
      /\ (forall a E, a ∈ l -> st_edges s0 !! a = Some E ->
            exists i, vert_idx !! Edge.vert E = Some i
                      /\ st_edges s' !! a = Some (Edge.with_vert (base + i) E)).
Proof.
  induction fs as [|f fs IH]; intros l s Hl Hnd Hfaces Hmoved Hun Hidx.
  - injection Hl as <-. exists s. split_and!; try done.
    intros a E Ha. by apply elem_of_nil in Ha.
  - simpl in Hl. destruct (face_ring s0 f) as [lf|] eqn:Hlf; [|done]. simpl in Hl.
    destruct (rings_of s0 fs) as [ls|] eqn:Hls; [|done]. injection Hl as <-.
    apply NoDup_app in Hnd as (Hndf & Hdisj & Hnds).
    unfold face_ring in Hlf.
    destruct (st_faces s0 !! f) as [F|] eqn:HF; [|done]. simpl in Hlf.
    destruct (repoint_ring_run (st_edges s0) vert_idx base n _ _ _ _ s Hlf Hndf Hmoved)
      as (s1 & Hrun1 & Hf1 & Hm1 & Hs1 & Hl1 & Hmoved1 & Hout1 & Hin1).
    { intros a Ha. apply Hun. apply elem_of_app. by left. }
    { intros a E Ha. apply Hidx. apply elem_of_app. by left. }
    destruct (IH ls s1 eq_refl Hnds) as
      (s' & Hrun & Hf' & Hm' & Hs' & Hl' & Hmoved' & Hout' & Hin'); try done.
    { congruence. }
    { intros a Ha. rewrite Hout1; [|by intros ?; eapply Hdisj].
      apply Hun. apply elem_of_app. by right. }
    { intros a E Ha. apply Hidx. apply elem_of_app. by right. }
    exists s'. split_and!; try congruence; try done.
    + assert (Hface : repoint_face base n f vert_idx s = Ok (vert_idx, s1)).
      { unfold repoint_face.
        assert (HFs : st_faces s !! f = Some F) by (by rewrite Hfaces).
        rewrite (bind_Ok _ _ _ _ _ (get_face_Ok _ _ _ HFs)).
        unfold get_store. rewrite (bind_Ok _ _ s s s eq_refl).
        by rewrite (verts_moved_size _ _ Hmoved). }
      simpl. by rewrite (bind_Ok _ _ _ _ _ Hface).
    + intros a Ha. apply not_elem_of_app in Ha as [Ha1 Ha2].
      by rewrite Hout', Hout1.
    + intros a E Ha HE. apply elem_of_app in Ha as [Ha|Ha].
      * destruct (Hin1 a E Ha HE) as (i & Hi & Hlk). exists i. split; [done|].
        rewrite Hout'; [done|]. intros ?. by eapply Hdisj.
      * by apply Hin'.
Qed.

Lemma repoint_meshes_run (s0 : store) (vert_idx : gmap Z Z) (base : Z) (n : nat)
      (meshes : list ptr) :
  forall (l : list ptr) (s : store),
    meshes_edges s0 meshes = Some l ->
    NoDup l ->
    st_faces s = st_faces s0 ->
    (forall m, m ∈ meshes ->
       Mesh.faces <$> st_meshes s !! m = Mesh.faces <$> st_meshes s0 !! m) ->
    verts_moved (st_edges s0) (st_edges s) ->
    (forall a, a ∈ l -> st_edges s !! a = st_edges s0 !! a) ->
    (forall a E, a ∈ l -> st_edges s0 !! a = Some E ->
       exists i, vert_idx !! Edge.vert E = Some i /\ 0 <= i < Z.of_nat n) ->
    exists s',
      for_each meshes vert_idx (repoint_mesh base n) s = Ok (vert_idx, s')
      /\ st_faces s' = st_faces s /\ st_meshes s' = st_meshes s
      /\ st_meshsets s' = st_meshsets s /\ st_last s' = st_last s
      /\ verts_moved (st_edges s0) (st_edges s')
      /\ (forall a, a ∉ l -> st_edges s' !! a = st_edges s !! a)
      /\ (forall a E, a ∈ l -> st_edges s0 !! a = Some E ->
            exists i, vert_idx !! Edge.vert E = Some i
                      /\ st_edges s' !! a = Some (Edge.with_vert (base + i) E)).
Proof.
  induction meshes as [|m rest IH]; intros l s Hl Hnd Hfaces Hms Hmoved Hun Hidx.
  - injection Hl as <-. exists s. split_and!; try done.
    intros a E Ha. by apply elem_of_nil in Ha.
  - simpl in Hl. destruct (mesh_edges s0 m) as [lm|] eqn:Hlm; [|done]. simpl in Hl.
    destruct (meshes_edges s0 rest) as [ls|] eqn:Hls; [|done]. injection Hl as <-.
    apply NoDup_app in Hnd as (Hndm & Hdisj & Hnds).
    unfold mesh_edges in Hlm.
    destruct (st_meshes s0 !! m) as [M0|] eqn:HM0; [|done]. simpl in Hlm.
    assert (HM : exists M, st_meshes s !! m = Some M /\ Mesh.faces M = Mesh.faces M0).
    { specialize (Hms m). rewrite HM0 in Hms.
      destruct (st_meshes s !! m) as [M|].
      - exists M. split; [done|]. simpl in Hms.
        assert (Some (Mesh.faces M) = Some (Mesh.faces M0)) as Heq
            by (apply Hms, elem_of_cons; by left).
        by injection Heq.
      - assert (None = Some (Mesh.faces M0)) as Heq
            by (apply Hms, elem_of_cons; by left). done. }
    destruct HM as (M & HM & HMf).
    destruct (repoint_faces_run s0 vert_idx base n (Mesh.faces M0) lm s Hlm Hndm
                Hfaces Hmoved)
      as (s1 & Hrun1 & Hf1 & Hm1 & Hs1 & Hl1 & Hmoved1 & Hout1 & Hin1).
    { intros a Ha. apply Hun. apply elem_of_app. by left. }
    { intros a E Ha. apply Hidx. apply elem_of_app. by left. }
    destruct (IH ls s1 eq_refl Hnds) as
      (s' & Hrun & Hf' & Hm' & Hs' & Hl' & Hmoved' & Hout' & Hin'); try done.
    { congruence. }
    { intros m' Hm'. rewrite Hm1. apply Hms. apply elem_of_cons. by right. }
    { intros a Ha. rewrite Hout1; [|by intros ?; eapply Hdisj].
      apply Hun. apply elem_of_app. by right. }
    { intros a E Ha. apply Hidx. apply elem_of_app. by right. }
    exists s'. split_and!; try congruence; try done.
    + assert (Hmesh : repoint_mesh base n m vert_idx s = Ok (vert_idx, s1)).
      { unfold repoint_mesh. rewrite (bind_Ok _ _ _ _ _ (get_mesh_Ok _ _ _ HM)).
        by rewrite HMf. }
      simpl. by rewrite (bind_Ok _ _ _ _ _ Hmesh).
    + intros a Ha. apply not_elem_of_app in Ha as [Ha1 Ha2].
      by rewrite Hout', Hout1.
    + intros a E Ha HE. apply elem_of_app in Ha as [Ha|Ha].
      * destruct (Hin1 a E Ha HE) as (i & Hi & Hlk). exists i. split; [done|].
        rewrite Hout'; [done|]. intros ?. by eapply Hdisj.
      * by apply Hin'.
Qed.

Lemma rings_of_lookup (s : store) (fs : list ptr) :
  forall l, rings_of s fs = Some l -> Forall (fun a => is_Some (st_edges s !! a)) l.
Proof.
  induction fs as [|f fs IH]; intros l Hl.
  - injection Hl as <-. constructor.
  - simpl in Hl. destruct (face_ring s f) as [lf|] eqn:Hlf; [|done]. simpl in Hl.
    destruct (rings_of s fs) as [ls|] eqn:Hls; [|done]. injection Hl as <-.
    apply Forall_app. split; [|by apply IH].
    unfold face_ring in Hlf. destruct (st_faces s !! f) as [F|]; [|done].
    simpl in Hlf. by eapply ring_from_lookup.
Qed.

Lemma meshes_edges_lookup (s : store) (meshes : list ptr) :
  forall l, meshes_edges s meshes = Some l ->
            Forall (fun a => is_Some (st_edges s !! a)) l.
Proof.
  induction meshes as [|m rest IH]; intros l Hl.
  - injection Hl as <-. constructor.
  - simpl in Hl. destruct (mesh_edges s m) as [lm|] eqn:Hlm; [|done]. simpl in Hl.
    destruct (meshes_edges s rest) as [ls|] eqn:Hls; [|done]. injection Hl as <-.
    apply Forall_app. split; [|by apply IH].
    unfold mesh_edges in Hlm. destruct (st_meshes s !! m) as [M|]; [|done].
    simpl in Hlm. by eapply rings_of_lookup.
Qed.

Lemma elem_of_map_keys (vert_idx : gmap Z Z) (v : Z) :
  v ∈ (map_to_list vert_idx).*1 <-> is_Some (vert_idx !! v).
Proof.
  rewrite list_elem_of_fmap. split.
  - intros ([k x] & -> & Hp). apply elem_of_map_to_list in Hp. simpl. eauto.
  - intros [x Hx]. exists (v, x). split; [done|]. by apply elem_of_map_to_list.
Qed.

(** X16. [MeshSet(std::vector<mesh_t *> &)] on distinct meshes that
    belong to no set and whose rings close and share no half-edge,
    whatever the order [iteration] in which the map is visited (a
    listing of its keys): the constructor returns a new mesh set that
    holds the meshes and a vertex storage [vs]; [ks], the distinct
    vertex addresses of the half-edges in the order visited, are copied
    to [vs] in that order; every half-edge of the meshes keeps its
    fields except that its vertex pointer now is the address of the
    copy of its vertex; every mesh points to the new set; all other
    half-edges, the faces and the other meshes are as before. *)
Theorem MeshSet_make1_consolidates (vertex_at : Z -> option Vertex.t)
        (iteration : gmap Z Z -> list Z) (base : Z) (meshes : list ptr)
        (s : store) (l : list ptr) :
  (forall vert_idx, iteration vert_idx ≡ₚ (map_to_list vert_idx).*1) ->
  store_wf s ->
  NoDup meshes ->
  Forall (fun m => exists M, st_meshes s !! m = Some M /\ Mesh.meshset M = NULL)
         meshes ->
  meshes_edges s meshes = Some l ->
  NoDup l ->
  (forall e E, e ∈ l -> st_edges s !! e = Some E ->
     is_Some (vertex_at (Edge.vert E))) ->
  exists r s' ks vs,
    MeshSet_make1 vertex_at iteration base meshes s = Ok (r, s')
    /\ st_meshsets s !! r = None
    /\ st_meshsets s' !! r = Some (MeshSet.mk base vs meshes)
    /\ NoDup ks
    /\ (forall v, v ∈ ks
          <-> exists e E, e ∈ l /\ st_edges s !! e = Some E /\ Edge.vert E = v)
    /\ Forall2 (fun k V => vertex_at k = Some V) ks vs
    /\ (forall e, e ∈ l ->
          exists E i, st_edges s !! e = Some E
                      /\ ks !! i = Some (Edge.vert E)
                      /\ st_edges s' !! e
                         = Some (Edge.with_vert (base + Z.of_nat i) E))
    /\ (forall e, e ∉ l -> st_edges s' !! e = st_edges s !! e)
    /\ st_faces s' = st_faces s
    /\ (forall m, m ∈ meshes ->
          st_meshes s' !! m = Mesh.with_meshset r <$> st_meshes s !! m)
    /\ (forall m, m ∉ meshes -> st_meshes s' !! m = st_meshes s !! m).
Proof.
  intros Hiter Hwf Hndm Hall Hl Hnd Hverts.
  set (this := fresh s).
  set (s1 := set_last this (set_meshsets <[this := MeshSet.mk base [] meshes]> s)).
  destruct (collect_meshes_run this s meshes l ∅ s1 eq_refl eq_refl
              (fun _ _ => eq_refl) Hndm Hall Hl)
    as (s2 & Hrun1 & He2 & Hf2 & Hs2 & Hl2 & Hin2 & Hout2).
  set (vi1 := foldl (collect_edge (st_edges s)) ∅ l) in *.
  set (ks := iteration vi1).
  assert (Hks : forall v, v ∈ ks
                <-> exists e E, e ∈ l /\ st_edges s !! e = Some E /\ Edge.vert E = v).
  { intros v. unfold ks. rewrite (Hiter vi1), elem_of_map_keys. unfold vi1.
    rewrite collect_edges_lookup. split; [|by right].
    intros [Hemp|?]; [|done]. rewrite lookup_empty in Hemp. by destruct Hemp. }
  assert (Hndk : NoDup ks).
  { unfold ks. rewrite (Hiter vi1). apply NoDup_fst_map_to_list. }
  destruct (number_vertices_run vertex_at ks vi1 [] Hndk)
    as (vi2 & vs & Hnum & Hcopy & Hidx & _).
  { apply Forall_forall. intros v Hv. apply Hks in Hv as (e & E & He & HE & <-).
    by eapply Hverts. }
  simpl in Hnum.
  set (s3 := set_meshsets <[this := MeshSet.mk base vs meshes]> s2).
  assert (Hupd : upd_meshset this
                   (fun ms => MeshSet.mk (MeshSet.vs_base ms) vs (MeshSet.meshes ms)) s2
                 = Ok (tt, s3)).
  { unfold upd_meshset. rewrite Hs2. simpl. by rewrite lookup_insert_eq. }
  assert (Hpos : forall a E, a ∈ l -> st_edges s !! a = Some E ->
                 exists i, ks !! i = Some (Edge.vert E)
                           /\ vi2 !! Edge.vert E = Some (Z.of_nat i)
                           /\ (i < length vs)%nat).
  { intros a E Ha HE.
    assert (Hv : Edge.vert E ∈ ks) by (apply Hks; eauto).
    apply list_elem_of_lookup in Hv as [i Hi]. exists i. split_and!; [done| |].
    - by rewrite (Hidx i _ Hi).
    - rewrite <- (Forall2_length _ _ _ Hcopy). by eapply lookup_lt_Some. }
  destruct (repoint_meshes_run s vi2 base (length vs) meshes l s3 Hl Hnd)
    as (s4 & Hrun3 & Hf4 & Hm4 & Hs4 & Hl4 & _ & Hout4 & Hin4).
  { done. }
  { intros m Hm. simpl. rewrite (Hin2 m Hm). by destruct (st_meshes s !! m). }
  { simpl. rewrite He2. apply verts_moved_refl. }
  { intros a _. simpl. by rewrite He2. }
  { intros a E Ha HE. destruct (Hpos a E Ha HE) as (i & _ & Hi & Hlt).
    exists (Z.of_nat i). split; [done|]. lia. }
  exists this, s4, ks, vs. split_and!.
  - unfold MeshSet_make1.
    assert (Hnew : new_MeshSet_object (MeshSet.mk base [] meshes) s = Ok (this, s1))
      by done.
    rewrite (bind_Ok _ _ _ _ _ Hnew), (bind_Ok _ _ _ _ _ Hrun1).
    fold vi1. fold ks. rewrite Hnum.
    rewrite (bind_Ok _ _ _ _ _ Hupd), (bind_Ok _ _ _ _ _ Hrun3). done.
  - apply (store_wf_fresh s Hwf).
  - rewrite Hs4. simpl. by rewrite lookup_insert_eq.
  - done.
  - done.
  - done.
  - intros e He.
    pose proof (meshes_edges_lookup _ _ _ Hl) as Hex.
    rewrite Forall_forall in Hex. destruct (Hex e He) as [E HE].
    destruct (Hpos e E He HE) as (i & Hi & Hvi & _).
    destruct (Hin4 e E He HE) as (i' & Hvi' & Hlk).
    exists E, i. split_and!; [done|done|]. rewrite Hlk. congruence.
  - intros e He. rewrite (Hout4 e He). simpl. by rewrite He2.
  - rewrite Hf4. simpl. by rewrite Hf2.
  - intros m Hm. rewrite Hm4. simpl. by apply Hin2.
  - intros m Hm. rewrite Hm4. simpl. by rewrite (Hout2 m Hm).
Qed.

Lemma MeshSet_make1_consolidates_witness :
  let s := two_triangles_mesh in
  let l := [1%N; 2%N; 3%N; 4%N; 5%N; 6%N] in
  exists r s' ks vs,
    MeshSet_make1 vertex_memory map_order 500 [12%N] s = Ok (r, s')
    /\ st_meshsets s !! r = None
    /\ st_meshsets s' !! r = Some (MeshSet.mk 500 vs [12%N])
    /\ NoDup ks
    /\ (forall v, v ∈ ks
          <-> exists e E, e ∈ l /\ st_edges s !! e = Some E /\ Edge.vert E = v)
    /\ Forall2 (fun k V => vertex_memory k = Some V) ks vs
    /\ (forall e, e ∈ l ->
          exists E i, st_edges s !! e = Some E
                      /\ ks !! i = Some (Edge.vert E)
                      /\ st_edges s' !! e
                         = Some (Edge.with_vert (500 + Z.of_nat i) E))
    /\ (forall e, e ∉ l -> st_edges s' !! e = st_edges s !! e)
    /\ st_faces s' = st_faces s
    /\ (forall m, m ∈ [12%N] ->
          st_meshes s' !! m = Mesh.with_meshset r <$> st_meshes s !! m)
    /\ (forall m, m ∉ [12%N] -> st_meshes s' !! m = st_meshes s !! m).
Proof.
  apply (MeshSet_make1_consolidates vertex_memory map_order 500 [12%N]
           two_triangles_mesh [1%N; 2%N; 3%N; 4%N; 5%N; 6%N]).
  - intros vert_idx. reflexivity.
  - apply (bool_decide_unpack _). vm_compute. reflexivity.
  - apply (bool_decide_unpack _). vm_compute. reflexivity.
  - constructor; [|constructor]. eexists. split; vm_compute; reflexivity.
  - vm_compute. reflexivity.
  - apply (bool_decide_unpack _). vm_compute. reflexivity.
  - intros e E _ _. unfold vertex_memory. eauto.
Defined.

(** X17. [MeshSet(std::vector<mesh_t *> &)] stops on its assertion
    when one of the meshes already belongs to a mesh set, and also when
    a mesh is listed twice: the first visit makes it a member of the
    set under construction. *)
Theorem MeshSet_make1_asserts_unowned (vertex_at : Z -> option Vertex.t)
        (iteration : gmap Z Z -> list Z) (base : Z) (meshes : list ptr) (s : store) :
  (forall m, m ∈ meshes -> is_Some (mesh_edges s m)) ->
  Exists (fun m => exists M, st_meshes s !! m = Some M /\ Mesh.meshset M <> NULL)
         meshes
  \/ ~ NoDup meshes ->
  MeshSet_make1 vertex_at iteration base meshes s = AssertionFailed.
Proof.
  intros Hedges Hbad. unfold MeshSet_make1.
  set (this := fresh s).
  set (s1 := set_last this (set_meshsets <[this := MeshSet.mk base [] meshes]> s)).
  assert (Hnew : new_MeshSet_object (MeshSet.mk base [] meshes) s = Ok (this, s1))
    by done.
  rewrite (bind_Ok _ _ _ _ _ Hnew). apply bind_AssertionFailed.
  apply (collect_meshes_assert this s); try done.
  - unfold this, fresh, NULL. lia.
  - intros m Hm. destruct (Hedges m Hm) as [lm Hlm]. unfold mesh_edges in Hlm.
    simpl. destruct (st_meshes s !! m) as [M|]; [|done]. eauto.
Qed.

Lemma MeshSet_make1_asserts_unowned_witness :
  MeshSet_make1 vertex_memory map_order 500 [12%N; 12%N] two_triangles_mesh
  = AssertionFailed.
Proof.
  apply (MeshSet_make1_asserts_unowned vertex_memory map_order 500 [12%N; 12%N]
           two_triangles_mesh).
  - intros m Hm. apply elem_of_cons in Hm as [->|Hm];
      [|apply list_elem_of_singleton in Hm as ->]; vm_compute; eauto.
  - right. intros Hnd. apply NoDup_cons in Hnd as [Hnin _]. apply Hnin.
    by apply list_elem_of_singleton.
Defined.

(** ** Mesh<3>::create: the stitcher from end to end *)

(** *** Where a call can stop on an assertion *)












(** *** [build] runs to its end *)







Example create_tetra_meshes :
  match Mesh3_create (fun _ => mret ([0; 0; 1; 0], [3; 1])) (fun _ => false)
          [20%N; 21%N; 22%N; 23%N] tetra_stitched with
  | Ok (meshes, s') =>
      meshes = [24%N; 25%N]
      /\ Mesh.faces <$> st_meshes s' !! 24%N = Some [20%N; 21%N; 23%N]
      /\ Mesh.faces <$> st_meshes s' !! 25%N = Some [22%N]
  | _ => False
  end.
Proof. vm_compute. repeat split. Qed.
